(** * Stream Deck + audio visualizer: a shallow embedding and its properties

    The development follows the TypeScript sources module by module:
    the PNG encoder, the curve renderer, the WASAPI sample ingest and
    frequency mapper, and the audio engine with its tick loop.

    Numbers.  A JavaScript number that is finite is modelled as an exact
    rational ([Q]): comparisons, [Math.min], [Math.max], rounding to an
    integer and the arithmetic of the source are kept, rounding to the
    nearest double or float32 is not.  Where the source can read past the
    end of a typed array the result ([undefined], then [NaN]) is modelled
    as [None] in [option Q]; the renderer computes on such values
    throughout, since a missing bin or edge reaches it as [NaN].
    Infinities are not modelled.  Bytes, indices and counters are
    integers ([Z] or [nat]). *)

From Stdlib Require Import ZArith QArith Qround Qabs Lqa Lia List String Ascii Bool.
From stdpp Require Import base list.

Open Scope Q_scope.

(** ** JavaScript arithmetic on finite numbers *)
Module JS.

(** [a > b], [a < b], [a >= b], [a <= b] on finite numbers. *)
Definition gtb (a b : Q) : bool := negb (Qle_bool a b).
Definition ltb (a b : Q) : bool := negb (Qle_bool b a).
Definition geb (a b : Q) : bool := Qle_bool b a.
Definition leb (a b : Q) : bool := Qle_bool a b.

Definition Math_max (a b : Q) : Q := if Qle_bool a b then b else a.
Definition Math_min (a b : Q) : Q := if Qle_bool a b then a else b.

(** [Math.round x] is [floor (x + 0.5)]. *)
Definition Math_round (x : Q) : Z := Qfloor (x + 0.5).

(** Truncation toward zero followed by the wrap to a signed 32-bit
    integer: the effect of [x | 0]. *)
Definition trunc (x : Q) : Z := Z.quot (Qnum x) (Zpos (Qden x)).
Definition to_int32 (z : Z) : Z := ((z + 2147483648) mod 4294967296 - 2147483648)%Z.
Definition or0 (x : Q) : Z := to_int32 (trunc x).

(** A number that may be [NaN] (an out-of-range read). *)
Definition num : Type := option Q.

Definition nadd (a b : num) : num :=
  match a, b with Some x, Some y => Some (x + y) | _, _ => None end.
Definition nmul (a b : num) : num :=
  match a, b with Some x, Some y => Some (x * y) | _, _ => None end.

(** [Math.abs(a - b) > t]: false as soon as one side is [NaN]. *)
Definition absdiff_gt (a b : num) (t : Q) : bool :=
  match a, b with
  | Some x, Some y => gtb (Qabs (x - y)) t
  | _, _ => false
  end.

(** Arithmetic on numbers that may be [NaN]: a [NaN] operand makes the
    result [NaN]. *)
Definition nsub (a b : num) : num :=
  match a, b with Some x, Some y => Some (x - y) | _, _ => None end.

(** [a / b].  A quotient by 0 is an infinity or [NaN] in JavaScript;
    infinities are not among the numbers kept here, and the quotient is
    [None].  The renderer, the one user, never divides by 0. *)
Definition ndiv (a b : num) : num :=
  match a, b with
  | Some x, Some y => if Qeq_bool y 0 then None else Some (x / y)
  | _, _ => None
  end.

(** [Math.max] and [Math.min]: [NaN] as soon as one argument is. *)
Definition nmax (a b : num) : num :=
  match a, b with Some x, Some y => Some (Math_max x y) | _, _ => None end.
Definition nmin (a b : num) : num :=
  match a, b with Some x, Some y => Some (Math_min x y) | _, _ => None end.

(** [a < b], [a <= b], [a >= b] and [a === 0]: false as soon as one side is [NaN]. *)
Definition nltb (a b : num) : bool :=
  match a, b with Some x, Some y => ltb x y | _, _ => false end.
Definition nleb (a b : num) : bool :=
  match a, b with Some x, Some y => leb x y | _, _ => false end.
Definition ngeb (a b : num) : bool :=
  match a, b with Some x, Some y => geb x y | _, _ => false end.
Definition nzerob (a : num) : bool :=
  match a with Some x => Qeq_bool x 0 | None => false end.

(** [a | 0]: [NaN] becomes 0. *)
Definition nor0 (a : num) : Z :=
  match a with Some x => or0 x | None => 0%Z end.

(** Two numbers that are equal, neither being [NaN]; one below the other. *)
Definition neq (a b : num) : Prop :=
  match a, b with Some x, Some y => x == y | _, _ => False end.
Definition nlt (a b : num) : Prop :=
  match a, b with Some x, Some y => x < y | _, _ => False end.

Lemma gtb_true (a b : Q) : gtb a b = true <-> b < a.
Proof.
  unfold gtb. rewrite negb_true_iff.
  destruct (Qle_bool a b) eqn:E.
  - apply Qle_bool_iff in E. split; [discriminate | lra].
  - split; [intros _ | reflexivity].
    apply Qnot_le_lt. intros H. apply Qle_bool_iff in H. congruence.
Qed.

Lemma gtb_false (a b : Q) : gtb a b = false <-> a <= b.
Proof.
  unfold gtb. rewrite negb_false_iff. apply Qle_bool_iff.
Qed.

Lemma ltb_true (a b : Q) : ltb a b = true <-> a < b.
Proof. apply (gtb_true b a). Qed.

Lemma ltb_false (a b : Q) : ltb a b = false <-> b <= a.
Proof. apply (gtb_false b a). Qed.

Lemma Math_max_spec (a b : Q) :
  (a <= b /\ Math_max a b = b) \/ (b < a /\ Math_max a b = a).
Proof.
  unfold Math_max. destruct (Qle_bool a b) eqn:E.
  - left. split; [now apply Qle_bool_iff | reflexivity].
  - right. split; [| reflexivity].
    apply Qnot_le_lt. intros H. apply Qle_bool_iff in H. congruence.
Qed.

Lemma Math_min_spec (a b : Q) :
  (a <= b /\ Math_min a b = a) \/ (b < a /\ Math_min a b = b).
Proof.
  unfold Math_min. destruct (Qle_bool a b) eqn:E.
  - left. split; [now apply Qle_bool_iff | reflexivity].
  - right. split; [| reflexivity].
    apply Qnot_le_lt. intros H. apply Qle_bool_iff in H. congruence.
Qed.

Lemma Math_min_le_l (a b : Q) : Math_min a b <= a.
Proof. destruct (Math_min_spec a b) as [[H ->] | [H ->]]; lra. Qed.

Lemma Math_min_le_r (a b : Q) : Math_min a b <= b.
Proof. destruct (Math_min_spec a b) as [[H ->] | [H ->]]; lra. Qed.

Lemma Math_max_ge_l (a b : Q) : a <= Math_max a b.
Proof. destruct (Math_max_spec a b) as [[H ->] | [H ->]]; lra. Qed.

Lemma Math_max_ge_r (a b : Q) : b <= Math_max a b.
Proof. destruct (Math_max_spec a b) as [[H ->] | [H ->]]; lra. Qed.

Lemma Math_max_lub (a b c : Q) : a <= c -> b <= c -> Math_max a b <= c.
Proof. intros. destruct (Math_max_spec a b) as [[H1 ->] | [H1 ->]]; lra. Qed.

Lemma Math_min_glb (a b c : Q) : c <= a -> c <= b -> c <= Math_min a b.
Proof. intros. destruct (Math_min_spec a b) as [[H1 ->] | [H1 ->]]; lra. Qed.

End JS.

(** ** The PNG encoder (png-encoder.ts) *)
Module Png.

(** Bytes are integers in [[0, 256)]; a buffer is a list of them. *)
Definition is_byte (v : Z) : Prop := (0 <= v < 256)%Z.

(** *** CRC-32 *)

(** One turn of the table loop: [c & 1 ? 0xedb88320 ^ (c >>> 1) : c >>> 1],
    on the unsigned reading of the 32-bit value. *)
Definition crcTurn (c : Z) : Z :=
  if Z.testbit c 0 then Z.lxor 3988292384 (Z.shiftr c 1) else Z.shiftr c 1.

Definition crcTable : list Z :=
  map (fun n => Nat.iter 8 crcTurn (Z.of_nat n)) (seq 0 256).

(** One byte of the running checksum:
    [crcTable[(crc ^ b) & 0xff] ^ (crc >>> 8)]. *)
Definition crcByte (crc b : Z) : Z :=
  Z.lxor (nth (Z.to_nat (Z.land (Z.lxor crc b) 255)) crcTable 0%Z) (Z.shiftr crc 8).

(** [crc32(buf, offset, length)]; a cell past the end reads as 0. *)
Definition crc32 (buf : list Z) (offset length : nat) : Z :=
  Z.lxor (fold_left (fun crc i => crcByte crc (nth i buf 0%Z)) (seq offset length) 4294967295%Z)
         4294967295%Z.

(** *** Constants and buffers *)

Definition WIDTH : nat := 200.
Definition HEIGHT : nat := 100.
Definition ROW_SIZE : nat := WIDTH * 4.
Definition RAW_SIZE : nat := (ROW_SIZE + 1) * HEIGHT.
Definition PNG_HEADER_SIZE : nat := 8 + 25.
Definition MAX_COMPRESSED : nat := RAW_SIZE + 1024.
Definition PNG_MAX : nat := PNG_HEADER_SIZE + (12 + MAX_COMPRESSED) + 12.
Definition IHDR_OFF : nat := 8.
Definition IDAT_OFF : nat := IHDR_OFF + 25.
Definition PREFIX_LEN : nat := 22.
Definition MAX_B64_LEN : nat := Nat.div (PNG_MAX + 2) 3 * 4.

Definition B64_CHARS : string :=
  "ABCDEFGHIJKLMNOPQRSTUVWXYZabcdefghijklmnopqrstuvwxyz0123456789+/".

Definition DATA_URI_PREFIX : string := "data:image/png;base64,".

(** The character codes of a string. *)
Definition codesOf (t : string) : list Z :=
  map (fun c => Z.of_N (N_of_ascii c)) (list_ascii_of_string t).

(** [buf.toString("ascii")]: each byte, its high bit dropped, as a character. *)
Definition asciiOf (bytes : list Z) : string :=
  string_of_list_ascii (map (fun v => ascii_of_N (Z.to_N (Z.land v 127))) bytes).

Definition B64_TABLE : list Z := codesOf B64_CHARS.

(** The four bytes of [writeUInt32BE]. *)
Definition be32 (v : Z) : list Z :=
  [ Z.land (Z.shiftr v 24) 255; Z.land (Z.shiftr v 16) 255;
    Z.land (Z.shiftr v 8) 255; Z.land v 255 ]%Z.

(** [buf.writeUInt32BE(v, off)]: [None] is the RangeError of a value or
    an offset out of range. *)
Definition writeUInt32BE (v : Z) (off : nat) (buf : list Z) : option (list Z) :=
  if (0 <=? v)%Z && (v <? 4294967296)%Z && (off + 4 <=? length buf)%nat
  then Some (list_inserts off (be32 v) buf)
  else None.

(** [buf.write(text, off, 4, "ascii")] and [src.copy(buf, off)]: the
    bytes that fit are stored. *)
Definition writeBytes (data : list Z) (off : nat) (buf : list Z) : list Z :=
  list_inserts off data buf.

(** The three module-level buffers. *)
Record Buffers := {
  rawBuf : list Z;
  pngOut : list Z;
  dataUriBuf : list Z
}.

Definition signature : list Z := [137; 80; 78; 71; 13; 10; 26; 10]%Z.

(** The buffers as the module sets them up when it is loaded. *)
Definition pngOutInit : list Z :=
  let buf := writeBytes signature 0 (repeat 0%Z PNG_MAX) in
  let buf := writeBytes (be32 13) IHDR_OFF buf in
  let buf := writeBytes (codesOf "IHDR") (IHDR_OFF + 4) buf in
  let buf := writeBytes (be32 (Z.of_nat WIDTH)) (IHDR_OFF + 8) buf in
  let buf := writeBytes (be32 (Z.of_nat HEIGHT)) (IHDR_OFF + 12) buf in
  let buf := writeBytes [8; 6; 0; 0; 0]%Z (IHDR_OFF + 16) buf in
  writeBytes (be32 (crc32 buf (IHDR_OFF + 4) 17)) (IHDR_OFF + 21) buf.

Definition initBuffers : Buffers :=
  {| rawBuf := repeat 0%Z RAW_SIZE;
     pngOut := pngOutInit;
     dataUriBuf := writeBytes (codesOf DATA_URI_PREFIX) 0
                     (repeat 0%Z (PREFIX_LEN + MAX_B64_LEN)) |}.

(** *** Encoding *)

(** Step 1: row [y] of the pixels goes after the filter byte of row [y]
    of [rawBuf].  The inner loop stores [ROW_SIZE] bytes one at a time;
    it is written as one block.  A missing pixel reads as 0, a store
    keeps the low eight bits. *)
Definition pixelRow (rgba : list Z) (y : nat) : list Z :=
  map (fun i => nth (y * ROW_SIZE + i) rgba 0%Z) (seq 0 ROW_SIZE).

Definition copyRows (height : nat) (rgba : list Z) (raw : list Z) : list Z :=
  fold_left
    (fun buf y =>
       writeBytes (map (fun v => (v mod 256)%Z) (pixelRow rgba y)) (y * (ROW_SIZE + 1) + 1) buf)
    (seq 0 height) raw.

(** The sextet-to-character stores of the base64 loop. *)
Definition b64 (v : Z) : Z := nth (Z.to_nat (Z.land v 63)) B64_TABLE 0%Z.

Definition store (di : nat) (v : Z) (buf : list Z) : list Z := <[di := v]> buf.

(** One turn of the main loop: three bytes from [src] at [si], four
    characters into [dst] at [di]. *)
Definition b64Group (src : list Z) (st : nat * nat * list Z) : nat * nat * list Z :=
  let '(si, di, dst) := st in
  let b0 := nth si src 0%Z in
  let b1 := nth (si + 1) src 0%Z in
  let b2 := nth (si + 2) src 0%Z in
  let dst := store di (b64 (Z.shiftr b0 2)) dst in
  let dst := store (di + 1) (b64 (Z.lor (Z.shiftl b0 4) (Z.shiftr b1 4))) dst in
  let dst := store (di + 2) (b64 (Z.lor (Z.shiftl b1 2) (Z.shiftr b2 6))) dst in
  let dst := store (di + 3) (b64 b2) dst in
  ((si + 3)%nat, (di + 4)%nat, dst).

(** The one- or two-byte remainder, padded with ['=']. *)
Definition b64Tail (src : list Z) (rem : nat) (st : nat * nat * list Z) : nat * list Z :=
  let '(si, di, dst) := st in
  let b0 := nth si src 0%Z in
  let b1 := nth (si + 1) src 0%Z in
  match rem with
  | 1%nat =>
      let dst := store di (b64 (Z.shiftr b0 2)) dst in
      let dst := store (di + 1) (b64 (Z.shiftl b0 4)) dst in
      let dst := store (di + 2) 61%Z dst in
      let dst := store (di + 3) 61%Z dst in
      ((di + 4)%nat, dst)
  | 2%nat =>
      let dst := store di (b64 (Z.shiftr b0 2)) dst in
      let dst := store (di + 1) (b64 (Z.lor (Z.shiftl b0 4) (Z.shiftr b1 4))) dst in
      let dst := store (di + 2) (b64 (Z.shiftl b1 2)) dst in
      let dst := store (di + 3) 61%Z dst in
      ((di + 4)%nat, dst)
  | _ => (di, dst)
  end.

(** Step 5: the first [pngLen] bytes of [src] as base64 text in [dst]
    from [PREFIX_LEN] on; the result is the end of the text and [dst]. *)
Definition b64Encode (src : list Z) (pngLen : nat) (dst : list Z) : nat * list Z :=
  let end3 := (pngLen - Nat.modulo pngLen 3)%nat in
  let st := Nat.iter (Nat.div end3 3) (b64Group src) (0%nat, PREFIX_LEN, dst) in
  b64Tail src (Nat.modulo pngLen 3) st.

(** Steps 3 and 4: the IDAT chunk around the compressed bytes and the
    IEND chunk, stored after the header; the result is the buffer and the
    length of the file.  [None] when a [writeUInt32BE] throws. *)
Definition writeChunks (compressed : list Z) (png : list Z) : option (list Z * nat) :=
  let compLen := length compressed in
  match writeUInt32BE (Z.of_nat compLen) IDAT_OFF png with
  | None => None
  | Some png =>
      let png := writeBytes (codesOf "IDAT") (IDAT_OFF + 4) png in
      let png := writeBytes compressed (IDAT_OFF + 8) png in
      let crcOff := (IDAT_OFF + 8 + compLen)%nat in
      match writeUInt32BE (crc32 png (IDAT_OFF + 4) (4 + compLen)) crcOff png with
      | None => None
      | Some png =>
          let iendOff := (crcOff + 4)%nat in
          match writeUInt32BE 0 iendOff png with
          | None => None
          | Some png =>
              let png := writeBytes (codesOf "IEND") (iendOff + 4) png in
              match writeUInt32BE (crc32 png (iendOff + 4) 4) (iendOff + 8) png with
              | None => None
              | Some png => Some (png, (iendOff + 12)%nat)
              end
          end
      end
  end.

Section Encoder.

(** [deflateSync(buf, {level: 1})], a function of the bytes. *)
Variable deflateSync : list Z -> list Z.

(** [encodePNGToDataURI]: the text returned and the buffers afterwards. *)
Definition encodePNGToDataURI (width height : nat) (rgba : list Z) (bufs : Buffers)
    : option (string * Buffers) :=
  let raw := copyRows height rgba (rawBuf bufs) in
  let compressed := deflateSync raw in
  match writeChunks compressed (pngOut bufs) with
  | None => None
  | Some (png, pngLen) =>
      let '(di, uri) := b64Encode png pngLen (dataUriBuf bufs) in
      Some (asciiOf (take di uri), {| rawBuf := raw; pngOut := png; dataUriBuf := uri |})
  end.

End Encoder.

End Png.

(** ** The curve renderer (visualizer-renderer.ts) *)
Module Renderer.
Import JS.

Definition STRIP_WIDTH : Z := 200.
Definition STRIP_HEIGHT : Z := 100.

Record ColorStop := { pos : Q; r : Q; g : Q; b : Q }.

Definition stop (p cr cg cb : Q) : ColorStop :=
  {| pos := p; r := cr; g := cg; b := cb |}.

(** The theme table, in the order in which the object literal lists its keys. *)
Definition THEMES : list (string * list ColorStop) :=
  [ ("neon"%string,
      [stop 0.0 0 255 220; stop 0.35 0 120 255; stop 0.65 140 0 255; stop 1.0 255 0 140]);
    ("classic"%string,
      [stop 0.0 0 200 0; stop 0.5 220 220 0; stop 0.8 255 120 0; stop 1.0 255 20 0]);
    ("ocean"%string,
      [stop 0.0 0 40 120; stop 0.4 0 120 255; stop 0.75 0 210 255; stop 1.0 180 255 255]);
    ("fire"%string,
      [stop 0.0 120 0 0; stop 0.35 220 40 0; stop 0.65 255 160 0; stop 1.0 255 255 80]);
    ("purple"%string,
      [stop 0.0 40 0 80; stop 0.35 100 0 200; stop 0.65 200 50 255; stop 1.0 255 150 255]) ].

(** [Object.keys(THEMES)]. *)
Definition THEME_NAMES : list string := map fst THEMES.

(** The own keys of the table. *)
Fixpoint themeOf (themeName : string) (table : list (string * list ColorStop))
    : option (list ColorStop) :=
  match table with
  | [] => None
  | (k, stops) :: rest => if String.eqb themeName k then Some stops else themeOf themeName rest
  end.

(** The names every object literal inherits from [Object.prototype]. *)
Definition Object_prototype_keys : list string :=
  [ "constructor"; "__defineGetter__"; "__defineSetter__"; "hasOwnProperty";
    "__lookupGetter__"; "__lookupSetter__"; "isPrototypeOf"; "propertyIsEnumerable";
    "toString"; "valueOf"; "__proto__"; "toLocaleString" ]%string.

(** What [THEMES[themeName]] evaluates to: the stops of an own key, a
    member inherited from [Object.prototype] (a function, or the
    prototype itself), or [undefined]. *)
Inductive Member :=
| Own (stops : list ColorStop)
| Inherited
| Undefined.

Definition THEMES_get (themeName : string) : Member :=
  match themeOf themeName THEMES with
  | Some stops => Own stops
  | None =>
      if existsb (String.eqb themeName) Object_prototype_keys then Inherited else Undefined
  end.

(** [THEMES[themeName] ?? THEMES["neon"]], as [getGradientLUT] can use
    it.  Only [undefined] falls back to neon.  An inherited member is
    handed on as if it were the stops: it has no stop at index 0, and the
    first [sampleGradient] throws a TypeError on reading [pos] of
    [undefined]; that is [None]. *)
Definition themeStops (themeName : string) : option (list ColorStop) :=
  match THEMES_get themeName with
  | Own stops => Some stops
  | Inherited => None
  | Undefined => themeOf "neon" THEMES
  end.

Definition stopAt (stops : list ColorStop) (i : nat) : ColorStop :=
  nth i stops (stop 0 0 0 0).

(** The search of [sampleGradient] for the pair of stops around [t],
    leaving at the first pair found. *)
Fixpoint findStops (stops : list ColorStop) (t : Q) (idxs : list nat)
    (lower upper : ColorStop) : ColorStop * ColorStop :=
  match idxs with
  | [] => (lower, upper)
  | i :: rest =>
      if geb t (pos (stopAt stops i)) && leb t (pos (stopAt stops (i + 1)))
      then (stopAt stops i, stopAt stops (i + 1))
      else findStops stops t rest lower upper
  end.

Definition sampleGradient (stops : list ColorStop) (t0 : Q) : Z * Z * Z :=
  let t := Math_max 0 (Math_min 1 t0) in
  let '(lower, upper) :=
    findStops stops t (seq 0 (length stops - 1))
              (stopAt stops 0) (stopAt stops (length stops - 1)) in
  let range := pos upper - pos lower in
  let frac := if Qeq_bool range 0 then 0 else (t - pos lower) / range in
  (Math_round (r lower + (r upper - r lower) * frac),
   Math_round (g lower + (g upper - g lower) * frac),
   Math_round (b lower + (b upper - b lower) * frac)).

(** A store into a [Uint8Array] keeps the low eight bits. *)
Definition u8 (v : Z) : Z := (v mod 256)%Z.

(** The gradient table of a theme: three bytes per row, bottom row first.
    The cache of the source returns the same table on later calls. *)
Definition getGradientLUT (stops : list ColorStop) : list Z :=
  flat_map
    (fun y =>
       let t := inject_Z (Z.of_nat y) / inject_Z (STRIP_HEIGHT - 1) in
       let '(cr, cg, cb) := sampleGradient stops t in
       [u8 cr; u8 cg; u8 cb])
    (seq 0 (Z.to_nat STRIP_HEIGHT)).

(** *** Control points and the spline *)

Definition MAX_POINTS : nat := 130.

(** The control-point arrays are module-level [Float64Array]s of
    [MAX_POINTS] cells.  A call stores its points from cell 0 on and
    reads no cell below [MAX_POINTS] that it has not stored, so what an
    earlier call left behind is not kept here.  A store past the last
    cell is dropped: [cells] keeps what fits. *)
Record ControlPoints := {
  cpX : list num;
  cpY : list num;
  cpSlopes : list num;
  cpTangents : list num
}.

Definition cells (values : list num) : list num := take MAX_POINTS values.

(** [a[i]]: a read outside the array is [undefined], [NaN] in the
    arithmetic and in every comparison. *)
Definition at_ (a : list num) (i : Z) : num :=
  if (i <? 0)%Z then None else nth (Z.to_nat i) a None.

(** [Math.max(0, Math.min(1, v))]: [NaN] passes through. *)
Definition clamp01 (v : num) : num := nmax (Some 0) (nmin (Some 1) v).

Definition barX (numBars i : nat) : Q :=
  ((inject_Z (Z.of_nat i) + 0.5) / inject_Z (Z.of_nat numBars)) * inject_Z (STRIP_WIDTH - 1).

Definition pointsX (numBars : nat) : list num :=
  cells (Some 0 :: map (fun i => Some (barX numBars i)) (seq 0 numBars)
           ++ [Some (inject_Z (STRIP_WIDTH - 1))]).

(** The y-values; [bins[i]] past the end of [bins] is [undefined]. *)
Definition pointsY (bins : list num) (numBars : nat) (leftEdge rightEdge : num) : list num :=
  cells (clamp01 leftEdge :: map (fun i => clamp01 (nth i bins None)) (seq 0 numBars)
           ++ [clamp01 rightEdge]).

(** [precomputeTangents], first loop: the secant slope of each segment. *)
Definition slopesOf (xs ys : list num) (n : Z) : list num :=
  cells (map (fun k => let k := Z.of_nat k in
                       ndiv (nsub (at_ ys (k + 1)) (at_ ys k))
                            (nsub (at_ xs (k + 1)) (at_ xs k)))
             (seq 0 (Z.to_nat (n - 1)))).

(** [precomputeTangents], the tangents: the end tangents are the end
    slopes, an inner tangent is 0 where the product of the slopes around
    it is not positive, their mean otherwise. *)
Definition tangentsOf (slopes : list num) (n : Z) : list num :=
  cells (map (fun k => let k := Z.of_nat k in
                       if (0 <? k)%Z && (k <? n - 1)%Z
                       then if nleb (nmul (at_ slopes (k - 1)) (at_ slopes k)) (Some 0)
                            then Some 0
                            else ndiv (nadd (at_ slopes (k - 1)) (at_ slopes k)) (Some 2)
                       else if (k =? 0)%Z then at_ slopes 0 else at_ slopes (n - 2))
             (seq 0 (Z.to_nat n))).

Definition controlPoints (bins : list num) (numBars : nat) (leftEdge rightEdge : num)
    : ControlPoints :=
  let xs := pointsX numBars in
  let ys := pointsY bins numBars leftEdge rightEdge in
  let n := Z.of_nat (numBars + 2) in
  let slopes := slopesOf xs ys n in
  {| cpX := xs; cpY := ys; cpSlopes := slopes; cpTangents := tangentsOf slopes n |}.

(** The binary search of [evalCurve]; each turn shrinks [hi - lo], so as
    many turns as there are points are enough. *)
Fixpoint findSegment (fuel : nat) (xs : list num) (x : Q) (lo hi : Z) : Z :=
  match fuel with
  | O => lo
  | S fuel' =>
      if (lo <? hi)%Z
      then let mid := Z.shiftr (lo + hi) 1 in
           if nltb (at_ xs (mid + 1)) (Some x)
           then findSegment fuel' xs x (mid + 1) hi
           else findSegment fuel' xs x lo mid
      else lo
  end.

Definition evalCurve (cp : ControlPoints) (n : Z) (x : Q) : num :=
  if (n =? 0)%Z then Some 0
  else if nleb (Some x) (at_ (cpX cp) 0) then at_ (cpY cp) 0
  else if ngeb (Some x) (at_ (cpX cp) (n - 1)) then at_ (cpY cp) (n - 1)
  else
    let i := findSegment (Z.to_nat n) (cpX cp) x 0 (n - 2) in
    let h := nsub (at_ (cpX cp) (i + 1)) (at_ (cpX cp) i) in
    if nzerob h then at_ (cpY cp) i
    else
      let t := ndiv (nsub (Some x) (at_ (cpX cp) i)) h in
      let t2 := nmul t t in
      let t3 := nmul t2 t in
      nadd (nadd (nadd
        (nmul (nadd (nsub (nmul (Some 2) t3) (nmul (Some 3) t2)) (Some 1)) (at_ (cpY cp) i))
        (nmul (nmul (nadd (nsub t3 (nmul (Some 2) t2)) t) h) (at_ (cpTangents cp) i)))
        (nmul (nadd (nmul (Some (-2)) t3) (nmul (Some 3) t2)) (at_ (cpY cp) (i + 1))))
        (nmul (nmul (nsub t3 t2) h) (at_ (cpTangents cp) (i + 1))).

(** The amplitude and the height of the curve at pixel column [x]. *)
Definition ampAt (cp : ControlPoints) (n : Z) (x : Z) : num :=
  clamp01 (evalCurve cp n (inject_Z x)).

Definition curveHeightsOf (cp : ControlPoints) (n : Z) : list num :=
  let maxH := inject_Z (STRIP_HEIGHT - 4) in
  map (fun x => nmul (ampAt cp n (Z.of_nat x)) (Some maxH)) (seq 0 (Z.to_nat STRIP_WIDTH)).

(** *** Painting *)

Definition lutAt (lut : list Z) (i : Z) : Z :=
  if (i <? 0)%Z then 0%Z else nth (Z.to_nat i) lut 0%Z.

(** The four stores of the fill loop at pixel [(x, y)]: (index, value). *)
Definition fillPixel (lut : list Z) (x y : Z) : list (Z * Z) :=
  let distFromBottom := (STRIP_HEIGHT - 1 - y)%Z in
  let lutIdx := (or0 (inject_Z (distFromBottom * 99) / 99 + 0.5) * 3)%Z in
  let cr := lutAt lut lutIdx in
  let cg := lutAt lut (lutIdx + 1) in
  let cb := lutAt lut (lutIdx + 2) in
  let bottomFade :=
    if (distFromBottom <? 3)%Z then inject_Z (distFromBottom + 1) * 0.25 else 1.0 in
  let idx := ((y * STRIP_WIDTH + x) * 4)%Z in
  [ (idx, or0 (inject_Z cr * bottomFade + 0.5));
    ((idx + 1)%Z, or0 (inject_Z cg * bottomFade + 0.5));
    ((idx + 2)%Z, or0 (inject_Z cb * bottomFade + 0.5));
    ((idx + 3)%Z, 255%Z) ].

(** The fill loop of one column, from row [y] up while [y >= topY] and
    [y >= 0]; it starts at the bottom row, so [STRIP_HEIGHT] turns are enough. *)
Fixpoint fillColumn (fuel : nat) (lut : list Z) (x topY y : Z) : list (Z * Z) :=
  match fuel with
  | O => []
  | S fuel' =>
      if (topY <=? y)%Z && (0 <=? y)%Z
      then fillPixel lut x y ++ fillColumn fuel' lut x topY (y - 1)
      else []
  end.

(** The stores of the glow loop for row [g_row] of the band. *)
Definition glowPixel (gr gg gb : Z) (x topY g_row : Z) : list (Z * Z) :=
  let gy := (topY + g_row)%Z in
  if (gy <? 0)%Z || (STRIP_HEIGHT <=? gy)%Z then []
  else
    let brightness := if (g_row =? 0)%Z then 1.6 else if (g_row =? 1)%Z then 1.3 else 1.1 in
    let idx := ((gy * STRIP_WIDTH + x) * 4)%Z in
    [ (idx, Z.min 255 (or0 (inject_Z gr * brightness + 0.5)));
      ((idx + 1)%Z, Z.min 255 (or0 (inject_Z gg * brightness + 0.5)));
      ((idx + 2)%Z, Z.min 255 (or0 (inject_Z gb * brightness + 0.5)));
      ((idx + 3)%Z, 255%Z) ].

(** Everything one column stores, in order.  A height that is [NaN]
    gives [curvePixelH = 0], and the column is skipped. *)
Definition paintColumn (lut : list Z) (curveH : num) (x : Z) : list (Z * Z) :=
  let curvePixelH := nor0 (nadd curveH (Some 0.5)) in
  if (curvePixelH <=? 0)%Z then []
  else
    let topY := (STRIP_HEIGHT - curvePixelH)%Z in
    let normH := nor0 (nadd (nmul (ndiv curveH (Some 99)) (Some 99)) (Some 0.5)) in
    let glowLutIdx := (normH * 3)%Z in
    fillColumn (Z.to_nat STRIP_HEIGHT) lut x topY (STRIP_HEIGHT - 1)
    ++ flat_map (glowPixel (lutAt lut glowLutIdx) (lutAt lut (glowLutIdx + 1))
                           (lutAt lut (glowLutIdx + 2)) x topY)
                [0; 1; 2]%Z.

(** The stores of a whole frame into the pixel buffer, in order; [None]
    when the theme lookup makes the call throw before anything is drawn. *)
Definition pixelWrites (bins : list num) (themeName : string) (numBars : nat)
    (leftEdge rightEdge : num) : option (list (Z * Z)) :=
  match themeStops themeName with
  | None => None
  | Some stops =>
      let lut := getGradientLUT stops in
      let cp := controlPoints bins numBars leftEdge rightEdge in
      let heights := curveHeightsOf cp (Z.of_nat (numBars + 2)) in
      Some (flat_map (fun x => paintColumn lut (nth x heights None) (Z.of_nat x))
                     (seq 0 (Z.to_nat STRIP_WIDTH)))
  end.

(** The pixel buffer after [fill(0)] and the stores. *)
Definition pixelBufferOf (writes : list (Z * Z)) : list Z :=
  fold_left
    (fun buf w => if (fst w <? 0)%Z then buf else <[Z.to_nat (fst w) := u8 (snd w)]> buf)
    writes (repeat 0%Z (Z.to_nat (STRIP_WIDTH * STRIP_HEIGHT * 4))).

(** [renderVisualizerFrame]: the frame painted and handed to the PNG
    encoder, whose buffers are threaded through.  [None] is an exception:
    the TypeError of the theme lookup or the RangeError of the encoder. *)
Definition renderVisualizerFrame (deflateSync : list Z -> list Z)
    (bins : list num) (themeName : string) (numBars : nat) (leftEdge rightEdge : num)
    (bufs : Png.Buffers) : option (string * Png.Buffers) :=
  match pixelWrites bins themeName numBars leftEdge rightEdge with
  | None => None
  | Some writes =>
      Png.encodePNGToDataURI deflateSync (Z.to_nat STRIP_WIDTH) (Z.to_nat STRIP_HEIGHT)
        (pixelBufferOf writes) bufs
  end.

End Renderer.

(** ** The capture source: sample ingest and frequency mapping (wasapi-source.ts) *)
Module Wasapi.
Import JS.

Definition FFT_SIZE : Z := 2048.
Definition HALF_FFT : Z := (FFT_SIZE / 2)%Z.
Definition HOP_SIZE : Z := Z.shiftr FFT_SIZE 1.
Definition MAX_FREQ_HZ : Q := 5000.
Definition BASS_FREQS : list Q := [30; 45; 65; 90; 125; 175; 250; 350; 500].
Definition BASS_CROSSOVER_HZ : Q := 550.
Definition sampleRate : Q := 48000.

(** The result of one analysis: the FFT half-spectrum and the Goertzel
    magnitudes of the bass probes. *)
Record Frame := { magnitudes : list Q; bassMagnitudes : list Q }.

(** The source.  A sample is kept as the 32-bit pattern read from the
    stream; [sampleBuffer] is the ring of [FFT_SIZE] samples. *)
Record Source := {
  sampleBuffer : list Z;
  writePos : Z;
  hopCount : Z;
  frame : Frame;
  running : bool
}.

(** [new WasapiAudioSource()]: zeroed arrays, cursor and counter at 0. *)
Definition newSource : Source :=
  {| sampleBuffer := repeat 0%Z (Z.to_nat FFT_SIZE);
     writePos := 0;
     hopCount := 0;
     frame := {| magnitudes := repeat 0 (Z.to_nat HALF_FFT);
                 bassMagnitudes := repeat 0 (length BASS_FREQS) |};
     running := false |}.

(** What the ingest does, in order: a sample stored at a ring position,
    and a run of the analysis. *)
Inductive ingest_event :=
| Wrote (position : Z) (sample : Z)
| Analyzed.

(** [chunk.readFloatLE(off)]: the four bytes at [off], little-endian;
    [None] is the RangeError of a read past the end. *)
Definition readFloatLE (chunk : list Z) (off : nat) : option Z :=
  match chunk !! off, chunk !! (off + 1)%nat, chunk !! (off + 2)%nat, chunk !! (off + 3)%nat with
  | Some b0, Some b1, Some b2, Some b3 =>
      Some (b0 + 256 * b1 + 65536 * b2 + 16777216 * b3)%Z
  | _, _, _, _ => None
  end.

Section Ingest.

(** The analysis proper (windowing, FFT, Goertzel): a function of the
    ring and of the position of its oldest sample. *)
Variable computeFFT : list Z -> Z -> Frame.

(** The body of the loop of [processAudioChunk] for sample [i]. *)
Definition ingestSample (chunk : list Z) (i : nat) (st : Source * list ingest_event)
    : option (Source * list ingest_event) :=
  let '(s, evs) := st in
  match readFloatLE chunk (i * 4) with
  | None => None
  | Some v =>
      let buf := <[Z.to_nat (writePos s) := v]> (sampleBuffer s) in
      let wp := Z.rem (writePos s + 1) FFT_SIZE in
      let hc := (hopCount s + 1)%Z in
      if (HOP_SIZE <=? hc)%Z
      then Some ({| sampleBuffer := buf; writePos := wp; hopCount := 0;
                    frame := computeFFT buf wp; running := running s |},
                 evs ++ [Wrote (writePos s) v; Analyzed])
      else Some ({| sampleBuffer := buf; writePos := wp; hopCount := hc;
                    frame := frame s; running := running s |},
                 evs ++ [Wrote (writePos s) v])
  end.

Fixpoint ingestLoop (chunk : list Z) (idxs : list nat) (st : Source * list ingest_event)
    : option (Source * list ingest_event) :=
  match idxs with
  | [] => Some st
  | i :: rest =>
      match ingestSample chunk i st with
      | None => None
      | Some st' => ingestLoop chunk rest st'
      end
  end.

(** [processAudioChunk]: [floatCount = Math.floor(chunk.length / 4)] samples. *)
Definition processAudioChunk (chunk : list Z) (s : Source)
    : option (Source * list ingest_event) :=
  let floatCount := Nat.div (length chunk) 4 in
  ingestLoop chunk (seq 0 floatCount) (s, []).

End Ingest.

Definition writesOf (evs : list ingest_event) : list (Z * Z) :=
  flat_map (fun ev => match ev with Wrote p v => [(p, v)] | Analyzed => [] end) evs.

Definition analysesOf (evs : list ingest_event) : nat :=
  length (List.filter (fun ev => match ev with Analyzed => true | _ => false end) evs).

Section Mapper.

(** The transcendental functions of [Math], left open. *)
Variables Math_exp Math_log Math_log2 : Q -> Q.
Variable Math_pow : Q -> Q -> Q.

Definition rd (a : list Q) (i : nat) : Q := nth i a 0.

Definition lastProbe : nat := (length BASS_FREQS - 1)%nat.

(** The loop over the probes: [below] ends at the last probe at or below
    the center, [above] at the first probe at or above it. *)
Definition probeLoop (freqCenter : Q) : nat * nat :=
  fold_left
    (fun st g =>
       let '(below, above) := st in
       let below' := if leb (rd BASS_FREQS g) freqCenter then g else below in
       let above' :=
         if geb (rd BASS_FREQS g) freqCenter && Nat.eqb above lastProbe then g else above in
       (below', above'))
    (seq 0 (length BASS_FREQS)) (0%nat, lastProbe).

(** The bass branch: the raw magnitude from the Goertzel probes. *)
Definition bassRawMag (bass : list Q) (freqCenter : Q) : Q :=
  let '(below, above) := probeLoop freqCenter in
  if Nat.eqb below above then rd bass below
  else
    let range := rd BASS_FREQS above - rd BASS_FREQS below in
    let t := if gtb range 0 then (freqCenter - rd BASS_FREQS below) / range else 0 in
    rd bass below * (1 - t) + rd bass above * t.

(** [magnitudes[b]] for an integer [b], guarded as in the source. *)
Definition rdMag (mags : list Q) (b : Z) : Q :=
  if (b <? 0)%Z then 0 else nth (Z.to_nat b) mags 0.

(** The mid/high branch: the overlap-weighted average of the FFT bins. *)
Definition fftRawMag (mags : list Q) (hzPerBin freqLo freqHi : Q) : Q :=
  let binLo := freqLo / hzPerBin in
  let binHi := freqHi / hzPerBin in
  let maxBin := Z.min HALF_FFT (Qceiling (MAX_FREQ_HZ / hzPerBin)) in
  let bStart := Qfloor binLo in
  let bEnd := Z.min (Qceiling binHi) maxBin in
  let '(sum, weight) :=
    fold_left
      (fun acc k =>
         let '(sum, weight) := acc in
         let b := (bStart + Z.of_nat k)%Z in
         let overlapLo := Math_max (inject_Z b) binLo in
         let overlapHi := Math_min (inject_Z (b + 1)) binHi in
         let w := Math_max 0 (overlapHi - overlapLo) in
         if gtb w 0 && (0 <=? b)%Z && (b <? HALF_FFT)%Z
         then (sum + rdMag mags b * w, weight + w)
         else (sum, weight))
      (seq 0 (Z.to_nat (bEnd - bStart))) (0, 0) in
  if gtb weight 0 then sum / weight else 0.

(** [freqLo] of bin [i]; [freqHi] of bin [i] is the same expression at [i + 1]. *)
Definition freqLoOf (numBins i : nat) : Q :=
  let logMin := Math_log 20 in
  let logMax := Math_log MAX_FREQ_HZ in
  Math_exp (logMin + (logMax - logMin) * (inject_Z (Z.of_nat i) / inject_Z (Z.of_nat numBins))).

Definition freqCenterOf (numBins i : nat) : Q :=
  (freqLoOf numBins i + freqLoOf numBins (i + 1)) * 0.5.

(** The raw magnitude of output bin [i]. *)
Definition rawMagOf (f : Frame) (numBins i : nat) : Q :=
  let freqCenter := freqCenterOf numBins i in
  if ltb freqCenter BASS_CROSSOVER_HZ
  then bassRawMag (bassMagnitudes f) freqCenter
  else fftRawMag (magnitudes f) (sampleRate / inject_Z FFT_SIZE)
                 (freqLoOf numBins i) (freqLoOf numBins (i + 1)).

Definition freqGainOf (numBins i : nat) : Q :=
  let logFreq := Math_log2 (freqCenterOf numBins i / 20) in
  2 * Math_pow 2 (logFreq * 0.38).

(** [getFrequencyData]: zeros while the capture is not running. *)
Definition getFrequencyData (s : Source) (numBins : nat) : list Q :=
  if negb (running s) then repeat 0 numBins
  else map (fun i => rawMagOf (frame s) numBins i * freqGainOf numBins i) (seq 0 numBins).

End Mapper.

End Wasapi.

(** *** The analysis: bit reversal, FFT, Goertzel (wasapi-source.ts) *)
Module Analysis.
Import JS Wasapi.

Definition FFT_N : nat := Z.to_nat FFT_SIZE.

(** [while (j & bit) { j ^= bit; bit >>= 1 }]: the loop leaves as soon as
    the tested bit of [j] is clear. *)
Fixpoint bitRevCarry (fuel : nat) (j bit : Z) : Z * Z :=
  match fuel with
  | O => (j, bit)
  | S fuel' =>
      if (Z.land j bit =? 0)%Z then (j, bit)
      else bitRevCarry fuel' (Z.lxor j bit) (Z.shiftr bit 1)
  end.

(** One round of the table loop: the next value of [j]. *)
Definition bitRevNext (j : Z) : Z :=
  let '(j', bit') := bitRevCarry 12 j (Z.shiftr FFT_SIZE 1) in
  Z.lxor j' bit'.

(** The table [bitRev]: entry 0 is 0, entry [i] the value of [j] after
    round [i]. *)
Definition bitRev : list Z :=
  snd (fold_left
         (fun st i => let j' := bitRevNext (fst st) in (j', <[i := j']> (snd st)))
         (seq 1 (FFT_N - 1)) (0%Z, repeat 0%Z FFT_N)).

(** [a[i]] and [a[j]] exchanged. *)
Definition swap (a : list Q) (i j : nat) : list Q :=
  let tr := rd a i in
  <[j := tr]> (<[i := rd a j]> a).

(** [table[i]] read as an index. *)
Definition tableAt (table : list Z) (i : nat) : nat := Z.to_nat (nth i table 0%Z).

(** The first loop of [fftInPlace] for a given table: cell [i] and cell
    [table[i]] of both working arrays are exchanged when [i < table[i]]. *)
Definition permuteBy (table : list Z) (st : list Q * list Q) : list Q * list Q :=
  fold_left
    (fun st i =>
       let j := tableAt table i in
       if (i <? j)%nat then (swap (fst st) i j, swap (snd st) i j) else st)
    (seq 0 FFT_N) st.

(** The bit-reversal permutation: the loop run with [bitRev]. *)
Definition bitReverse (st : list Q * list Q) : list Q * list Q := permuteBy bitRev st.

(** One butterfly on the cells [evenIdx], [oddIdx] with the twiddle
    factor [(wr, wi)]. *)
Definition butterfly (wr wi : Q) (evenIdx oddIdx : nat) (st : list Q * list Q)
    : list Q * list Q :=
  let '(re, im) := st in
  let tReal := wr * rd re oddIdx - wi * rd im oddIdx in
  let tImag := wr * rd im oddIdx + wi * rd re oddIdx in
  let re1 := <[oddIdx := rd re evenIdx - tReal]> re in
  let im1 := <[oddIdx := rd im evenIdx - tImag]> im in
  (<[evenIdx := rd re1 evenIdx + tReal]> re1, <[evenIdx := rd im1 evenIdx + tImag]> im1).

(** One stage: the blocks of [len] cells, [len / 2] butterflies in each. *)
Definition stage (wR wI : list Q) (len : nat) (st : list Q * list Q) : list Q * list Q :=
  let halfLen := Nat.div len 2 in
  fold_left
    (fun st blk =>
       let i := (blk * len)%nat in
       fold_left
         (fun st k => butterfly (rd wR k) (rd wI k) (i + k) (i + k + halfLen) st)
         (seq 0 halfLen) st)
    (seq 0 (Nat.div FFT_N len)) st.

Section FFT.

(** The tables built with [Math.cos] and [Math.sin] at load time, and
    [Math.sqrt]. *)
Variable hannCoeffs : list Q.
Variables twiddleReal twiddleImag : list (list Q).
Variable goertzelCoeffs : list Q.
Variable Math_sqrt : Q -> Q.

(** The stages [len = 2, 4, ..., FFT_SIZE], stage [stageIdx] with its own
    twiddle arrays. *)
Definition butterflies (st : list Q * list Q) : list Q * list Q :=
  fold_left
    (fun st stageIdx =>
       stage (nth stageIdx twiddleReal []) (nth stageIdx twiddleImag [])
             (2 ^ (stageIdx + 1)) st)
    (seq 0 11) st.

Definition fftInPlace (st : list Q * list Q) : list Q * list Q :=
  butterflies (bitReverse st).

(** The two copy loops of [computeFFT], Hann window applied. *)
Definition windowedInput (sampleBuffer : list Q) (start : nat) (fftReal : list Q) : list Q :=
  let firstLen := (FFT_N - start)%nat in
  let r1 :=
    fold_left (fun r i => <[i := rd sampleBuffer (start + i) * rd hannCoeffs i]> r)
              (seq 0 firstLen) fftReal in
  fold_left
    (fun r i => <[(firstLen + i)%nat := rd sampleBuffer i * rd hannCoeffs (firstLen + i)]> r)
    (seq 0 start) r1.

(** One step of a Goertzel recurrence; the state is [(s1, s2)]. *)
Definition goertzelStep (coeff : Q) (st : Q * Q) (x : Q) : Q * Q :=
  let '(s1, s2) := st in
  let s0 := x + coeff * s1 - s2 in
  (s0, s1).

(** The two segment loops for one probe. *)
Definition goertzelRun (sampleBuffer : list Q) (start : nat) (coeff : Q) : Q * Q :=
  let firstLen := (FFT_N - start)%nat in
  let st1 :=
    fold_left (fun st i => goertzelStep coeff st (rd sampleBuffer (start + i)))
              (seq 0 firstLen) (0, 0) in
  fold_left (fun st i => goertzelStep coeff st (rd sampleBuffer i)) (seq 0 start) st1.

Definition goertzelMag (sampleBuffer : list Q) (start : nat) (f : nat) : Q :=
  let coeff := rd goertzelCoeffs f in
  let '(s1, s2) := goertzelRun sampleBuffer start coeff in
  Math_sqrt (s1 * s1 + s2 * s2 - coeff * s1 * s2) / inject_Z FFT_SIZE.

(** The magnitude spectrum of the first half of the working arrays. *)
Definition magnitudesOf (re im : list Q) : list Q :=
  map (fun i => Math_sqrt (rd re i * rd re i + rd im i * rd im i) / inject_Z HALF_FFT)
      (seq 0 (Z.to_nat HALF_FFT)).

Definition bassMagnitudesOf (sampleBuffer : list Q) (start : nat) : list Q :=
  map (goertzelMag sampleBuffer start) (seq 0 (length BASS_FREQS)).

(** [computeFFT] on the ring [sampleBuffer] with the write cursor at
    [start]; [fftReal] and [fftImag] are the working arrays as the last
    call left them.  The result is the new frame and the working arrays. *)
Definition computeFFT (sampleBuffer : list Q) (start : nat) (fftReal fftImag : list Q)
    : Frame * (list Q * list Q) :=
  let re0 := windowedInput sampleBuffer start fftReal in
  let im0 := repeat 0 (length fftImag) in
  let st := fftInPlace (re0, im0) in
  ({| magnitudes := magnitudesOf (fst st) (snd st);
      bassMagnitudes := bassMagnitudesOf sampleBuffer start |},
   st).

End FFT.

End Analysis.

(** ** The demo source (demo-source.ts) *)
Module Demo.
Import JS.

Record DemoAudioSource := {
  phase : Q;
  beatPhase : Q;
  lastBeat : Q;
  beatDecay : Q
}.

(** [new DemoAudioSource()]. *)
Definition newDemoSource : DemoAudioSource :=
  {| phase := 0; beatPhase := 0; lastBeat := 0; beatDecay := 0 |}.

Section Generator.

(** [Math.sin], [Math.exp] and [Math.pow], left open. *)
Variables Math_sin Math_exp : Q -> Q.
Variable Math_pow : Q -> Q -> Q.

(** The body of the loop over the bins, for bin [i] at time [t]. *)
Definition demoBin (t beatIntensity : Q) (numBins i : nat) : Q :=
  let fi := inject_Z (Z.of_nat i) in
  let normalizedBin := fi / inject_Z (Z.of_nat numBins) in
  let mountain := Math_exp (- Math_pow ((normalizedBin - 0.25) * 2.5) 2) * 0.6 + 0.15 in
  let val := 0 in
  let val := val + 0.18 * Math_sin (t * 1.7 + fi * 0.15) in
  let val := val + 0.14 * Math_sin (t * 2.3 + fi * 0.1) in
  let val := val + 0.1 * Math_sin (t * 0.7 + fi * 0.18) in
  let val := val + 0.08 * Math_sin (t * 3.1 + fi * 0.25) in
  let val := val + 0.05 * Math_sin (t * 4.7 + fi * 0.08) in
  let val := (val + 0.5) * mountain in
  let beatWeight := Math_exp (- normalizedBin * 3.0) * 0.7 + 0.1 in
  let val := val + beatIntensity * beatWeight * 0.4 in
  let val :=
    if gtb normalizedBin 0.6
    then val + 0.08 * Math_sin (t * 8.3 + fi * 2.1) * (1 - normalizedBin)
    else val in
  Math_max 0 (Math_min 1 val).

(** [getFrequencyData(numBins, deltaTime)]: the bins and the source
    afterwards.  [random] is what [Math.random()] returns if it is called. *)
Definition getFrequencyData (random : Q) (numBins : nat) (deltaTime : Q)
    (d : DemoAudioSource) : list Q * DemoAudioSource :=
  let phase' := phase d + deltaTime in
  let beatPhase' := beatPhase d + deltaTime in
  let t := phase' in
  let beatInterval := 0.5 + 0.3 * Math_sin (t * 0.17) in
  let fires := gtb (beatPhase' - lastBeat d) beatInterval in
  let lastBeat' := if fires then beatPhase' else lastBeat d in
  let beatDecay' := if fires then 0.6 + 0.4 * random else beatDecay d in
  let timeSinceBeat := beatPhase' - lastBeat' in
  let beatIntensity := beatDecay' * Math_exp (- timeSinceBeat * 5) in
  (map (demoBin t beatIntensity numBins) (seq 0 numBins),
   {| phase := phase'; beatPhase := beatPhase'; lastBeat := lastBeat';
      beatDecay := beatDecay' |}).

End Generator.

End Demo.

(** ** The audio engine (audio-engine.ts) *)
Module Engine.
Import JS.

Definition TOTAL_BINS : nat := 20.
Definition BARS_PER_DIAL : nat := 5.
Definition DIRTY_THRESHOLD : Q := 0.015.
Definition SMOOTH_ATTACK : Q := 0.75.
Definition SMOOTH_DECAY : Q := 0.75.
Definition AUTO_GAIN_ATTACK : Q := 0.03.
Definition AUTO_GAIN_DECAY : Q := 0.001.
Definition AUTO_GAIN_MIN_PEAK : Q := 0.08.
Definition AUTO_GAIN_MAX_BOOST : Q := 1.5.
Definition SPECTRAL_SMOOTH_PASSES : nat := 1.

(** A registered dial: its column and the snapshot last sent to it.  The
    snapshot can hold [NaN] (a column outside 0..3 reads past the bins). *)
Record RegisteredAction := {
  action : string;
  column : Z;
  lastSent : list num;
  lastLeftEdge : num;
  lastRightEdge : num
}.

(** The engine.  [actions] is the [Map] in insertion order; [intervalId]
    says whether a tick is scheduled; [dialSlice] is the scratch array
    shared by all consumers. *)
Record AudioEngine := {
  actions : list (string * RegisteredAction);
  intervalId : bool;
  useWasapi : bool;
  smoothedBins : list Q;
  dialSlice : list num;
  gain : Q;
  themeIndex : Z;
  autoGainPeak : Q
}.

(** [new AudioEngine()]: typed arrays start zeroed. *)
Definition newEngine : AudioEngine :=
  {| actions := [];
     intervalId := false;
     useWasapi := false;
     smoothedBins := repeat 0 TOTAL_BINS;
     dialSlice := repeat (Some 0) BARS_PER_DIAL;
     gain := 1.0;
     themeIndex := 0;
     autoGainPeak := AUTO_GAIN_MIN_PEAK |}.

(** [THEME_NAMES[this.themeIndex] ?? "neon"]. *)
Definition currentTheme (e : AudioEngine) : string :=
  if (themeIndex e <? 0)%Z then "neon"%string
  else nth (Z.to_nat (themeIndex e)) Renderer.THEME_NAMES "neon"%string.

Definition currentGain (e : AudioEngine) : Q := gain e.

(** [Map.prototype.set]: an existing key keeps its place, a new key goes last. *)
Fixpoint map_set {V : Type} (k : string) (v : V) (m : list (string * V)) : list (string * V) :=
  match m with
  | [] => [(k, v)]
  | (k', v') :: rest =>
      if String.eqb k k' then (k, v) :: rest else (k', v') :: map_set k v rest
  end.

(** [Map.prototype.delete]. *)
Fixpoint map_delete {V : Type} (k : string) (m : list (string * V)) : list (string * V) :=
  match m with
  | [] => []
  | (k', v') :: rest =>
      if String.eqb k k' then rest else (k', v') :: map_delete k rest
  end.

Fixpoint map_get {V : Type} (k : string) (m : list (string * V)) : option V :=
  match m with
  | [] => None
  | (k', v') :: rest => if String.eqb k k' then Some v' else map_get k rest
  end.

(** [registerAction].  [wasapiStarted] is the outcome of probing and
    starting the capture process, used only when the loop is not yet running. *)
Definition registerAction (actionId : string) (act : string) (col : Z)
    (wasapiStarted : bool) (e : AudioEngine) : AudioEngine :=
  {| actions :=
       map_set actionId
         {| action := act; column := col;
            lastSent := repeat (Some 0) BARS_PER_DIAL;
            lastLeftEdge := Some (-1);
            lastRightEdge := Some (-1) |}
         (actions e);
     intervalId := true;
     useWasapi := if intervalId e then useWasapi e else wasapiStarted;
     smoothedBins := smoothedBins e;
     dialSlice := dialSlice e;
     gain := gain e;
     themeIndex := themeIndex e;
     autoGainPeak := autoGainPeak e |}.

Definition unregisterAction (actionId : string) (e : AudioEngine) : AudioEngine :=
  let acts := map_delete actionId (actions e) in
  {| actions := acts;
     intervalId := match acts with [] => false | _ => intervalId e end;
     useWasapi := useWasapi e;
     smoothedBins := smoothedBins e;
     dialSlice := dialSlice e;
     gain := gain e;
     themeIndex := themeIndex e;
     autoGainPeak := autoGainPeak e |}.

(** [adjustGain]: [Math.max(0.2, Math.min(3.0, gain + delta))]. *)
Definition adjustGain (delta : Q) (e : AudioEngine) : AudioEngine :=
  {| actions := actions e;
     intervalId := intervalId e;
     useWasapi := useWasapi e;
     smoothedBins := smoothedBins e;
     dialSlice := dialSlice e;
     gain := Math_max 0.2 (Math_min 3.0 (gain e + delta));
     themeIndex := themeIndex e;
     autoGainPeak := autoGainPeak e |}.

(** [nextTheme]: [(themeIndex + 1) % THEME_NAMES.length]; [%] is the
    remainder that takes the sign of the dividend. *)
Definition nextTheme (e : AudioEngine) : AudioEngine :=
  {| actions := actions e;
     intervalId := intervalId e;
     useWasapi := useWasapi e;
     smoothedBins := smoothedBins e;
     dialSlice := dialSlice e;
     gain := gain e;
     themeIndex := Z.rem (themeIndex e + 1) (Z.of_nat (length Renderer.THEME_NAMES));
     autoGainPeak := autoGainPeak e |}.

(** *** One tick: gain, smoothing *)

(** [a[i]] on a typed array of finite numbers that is long enough. *)
Definition rd (a : list Q) (i : nat) : Q := nth i a 0.

(** The peak of the frame: the loop keeps the largest value seen above 0. *)
Definition framePeakOf (rawBins : list Q) : Q :=
  fold_left (fun fp i => if gtb (rd rawBins i) fp then rd rawBins i else fp)
            (seq 0 TOTAL_BINS) 0.

Definition trackPeak (peak framePeak : Q) : Q :=
  let p :=
    if gtb framePeak peak
    then peak + (framePeak - peak) * AUTO_GAIN_ATTACK
    else peak - (peak - Math_max framePeak AUTO_GAIN_MIN_PEAK) * AUTO_GAIN_DECAY in
  Math_max p AUTO_GAIN_MIN_PEAK.

Definition autoBoostOf (peak : Q) : Q := Math_min AUTO_GAIN_MAX_BOOST (1.0 / peak).

(** [rawBins[i] = Math.min(1, rawBins[i] * gain * autoBoost)], in place. *)
Definition applyGain (g boost : Q) (rawBins : list Q) : list Q :=
  fold_left (fun rb i => <[i := Math_min 1 (rd rb i * g * boost)]> rb)
            (seq 0 TOTAL_BINS) rawBins.

(** One pass of the 3-tap average: the copy [spectralTemp] is read, the
    bins [1 .. TOTAL_BINS - 2] are written. *)
Definition spectralPass (rawBins : list Q) : list Q :=
  let spectralTemp := rawBins in
  fold_left
    (fun rb i =>
       <[i := rd spectralTemp (i - 1) * 0.25 + rd spectralTemp i * 0.5
              + rd spectralTemp (i + 1) * 0.25]> rb)
    (seq 1 (TOTAL_BINS - 2)) rawBins.

Definition spectralSmooth (rawBins : list Q) : list Q :=
  Nat.iter SPECTRAL_SMOOTH_PASSES spectralPass rawBins.

(** The body of the attack/decay loop at index [i]. *)
Definition smoothAt (rawBins : list Q) (sm : list Q) (i : nat) : list Q :=
  if gtb (rd rawBins i) (rd sm i)
  then <[i := rd sm i + (rd rawBins i - rd sm i) * SMOOTH_ATTACK]> sm
  else
    let sm1 := <[i := rd sm i * SMOOTH_DECAY]> sm in
    if ltb (rd sm1 i) 0.01 then <[i := 0]> sm1 else sm1.

Definition temporalSmooth (rawBins sm : list Q) : list Q :=
  fold_left (smoothAt rawBins) (seq 0 TOTAL_BINS) sm.

(** The bins as they enter the attack/decay loop. *)
Definition shapedBins (e : AudioEngine) (rawBins : list Q) : list Q :=
  let peak := trackPeak (autoGainPeak e) (framePeakOf rawBins) in
  spectralSmooth (applyGain (gain e) (autoBoostOf peak) rawBins).

(** *** One tick: the consumers *)

(** What a tick does to the outside, in order: a call of the renderer for
    a consumer, and the image handed to that consumer's [setFeedback]. *)
Inductive event :=
| Rendered (actionId : string)
| SetFeedback (actionId : string) (act : string) (frame : string).

(** [this.smoothedBins[i]] for any integer [i]: [NaN] outside the array. *)
Definition rdZ (a : list Q) (i : Z) : num :=
  if (i <? 0)%Z then None else a !! Z.to_nat i.

(** [a[i]] on a short array of possibly-[NaN] numbers. *)
Definition rdn (a : list num) (i : nat) : num := nth i a None.

Definition startBinOf (col : Z) : Z := (col * Z.of_nat BARS_PER_DIAL)%Z.

(** The copy loop into the shared slice buffer. *)
Definition fillSlice (sm : list Q) (startBin : Z) (slice : list num) : list num :=
  fold_left (fun ds b => <[b := rdZ sm (startBin + Z.of_nat b)]> ds)
            (seq 0 BARS_PER_DIAL) slice.

Definition leftEdgeOf (sm : list Q) (col : Z) : num :=
  let startBin := startBinOf col in
  if (0 <? col)%Z
  then nmul (nadd (rdZ sm (startBin - 1)) (rdZ sm startBin)) (Some 0.5)
  else Some 0.

Definition rightEdgeOf (sm : list Q) (col : Z) : num :=
  let startBin := startBinOf col in
  if (col <? 3)%Z
  then nmul (nadd (rdZ sm (startBin + Z.of_nat BARS_PER_DIAL - 1))
                  (rdZ sm (startBin + Z.of_nat BARS_PER_DIAL))) (Some 0.5)
  else Some 0.

(** The loop over the bars, leaving at the first bar that moved. *)
Fixpoint barsDirty (slice sent : list num) (bs : list nat) : bool :=
  match bs with
  | [] => false
  | b :: rest =>
      if absdiff_gt (rdn slice b) (rdn sent b) DIRTY_THRESHOLD then true
      else barsDirty slice sent rest
  end.

Definition isDirty (slice : list num) (leftEdge rightEdge : num) (reg : RegisteredAction) : bool :=
  let dirty := barsDirty slice (lastSent reg) (seq 0 BARS_PER_DIAL) in
  if negb dirty
  then absdiff_gt leftEdge (lastLeftEdge reg) DIRTY_THRESHOLD
       || absdiff_gt rightEdge (lastRightEdge reg) DIRTY_THRESHOLD
  else dirty.

Section Tick.

(** The renderer as the engine sees it: bins, theme, bar count and the two
    edges in, a data URI out.  It does not touch the engine. *)
Variable renderVisualizerFrame : list num -> string -> nat -> num -> num -> string.

(** The body of the loop over the registered actions, for one entry. *)
Definition serve (sm : list Q) (theme : string) (slice : list num)
    (actionId : string) (reg : RegisteredAction)
    : list num * RegisteredAction * list event :=
  let slice' := fillSlice sm (startBinOf (column reg)) slice in
  let leftEdge := leftEdgeOf sm (column reg) in
  let rightEdge := rightEdgeOf sm (column reg) in
  if isDirty slice' leftEdge rightEdge reg
  then
    let reg' := {| action := action reg;
                   column := column reg;
                   lastSent := list_inserts 0 slice' (lastSent reg);
                   lastLeftEdge := leftEdge;
                   lastRightEdge := rightEdge |} in
    let frame := renderVisualizerFrame slice' theme BARS_PER_DIAL leftEdge rightEdge in
    (slice', reg', [Rendered actionId; SetFeedback actionId (action reg) frame])
  else (slice', reg, []).

Fixpoint serveAll (sm : list Q) (theme : string) (slice : list num)
    (acts : list (string * RegisteredAction))
    : list num * list (string * RegisteredAction) * list event :=
  match acts with
  | [] => (slice, [], [])
  | (actionId, reg) :: rest =>
      let '(slice1, reg', ev) := serve sm theme slice actionId reg in
      let '(slice2, rest', evs) := serveAll sm theme slice1 rest in
      (slice2, (actionId, reg') :: rest', ev ++ evs)
  end.

(** [tick], given the bins the audio source returned for this frame. *)
Definition tick (rawBins : list Q) (e : AudioEngine) : AudioEngine * list event :=
  let peak := trackPeak (autoGainPeak e) (framePeakOf rawBins) in
  let sm := temporalSmooth (shapedBins e rawBins) (smoothedBins e) in
  let '(slice, acts, evs) := serveAll sm (currentTheme e) (dialSlice e) (actions e) in
  ({| actions := acts;
      intervalId := true;
      useWasapi := useWasapi e;
      smoothedBins := sm;
      dialSlice := slice;
      gain := gain e;
      themeIndex := themeIndex e;
      autoGainPeak := peak |}, evs).

End Tick.

(** How many times the renderer ran, and how many images were delivered,
    for one consumer. *)
Definition renderCount (actionId : string) (evs : list event) : nat :=
  length (List.filter (fun ev => match ev with
                            | Rendered a => String.eqb a actionId
                            | _ => false end) evs).

Definition deliveryCount (actionId : string) (evs : list event) : nat :=
  length (List.filter (fun ev => match ev with
                            | SetFeedback a _ _ => String.eqb a actionId
                            | _ => false end) evs).

(** What holds of every engine reached from [newEngine]. *)
Record engine_ok (e : AudioEngine) : Prop := {
  ok_keys : List.NoDup (map fst (actions e));
  ok_sent : Forall (fun kv => length (lastSent (snd kv)) = BARS_PER_DIAL) (actions e);
  ok_slice : length (dialSlice e) = BARS_PER_DIAL;
  ok_bins_len : length (smoothedBins e) = TOTAL_BINS;
  ok_bins : Forall (fun v => 0 <= v <= 1) (smoothedBins e)
}.

(** [dispose]: the loop is stopped and the map cleared. *)
Definition dispose (e : AudioEngine) : AudioEngine :=
  {| actions := [];
     intervalId := false;
     useWasapi := useWasapi e;
     smoothedBins := smoothedBins e;
     dialSlice := dialSlice e;
     gain := gain e;
     themeIndex := themeIndex e;
     autoGainPeak := autoGainPeak e |}.

End Engine.

(** ** The dial action: appear, disappear, rotate, tap *)
Module Visualizer.
Import JS Engine.

(** The settings persisted for an action instance. *)
Record VisualizerSettings := {
  s_gain : option Q;
  s_theme : option string
}.

(** [onWillAppear].  [coordColumn] is [coordinates?.column]; the layout
    and the trigger descriptions go to the device and do not touch the
    engine.  The correction [settings.gain - currentGain] is added to the
    gain as the source does; in doubles the sum need not give back
    [settings.gain] to the last bit, and nothing below says it does. *)
Definition onWillAppear (isDial : bool) (actionId act : string) (coordColumn : option Z)
    (settings : VisualizerSettings) (wasapiStarted : bool) (e : AudioEngine) : AudioEngine :=
  if negb isDial then e
  else
    let column := match coordColumn with Some c => c | None => 0%Z end in
    let e1 := match s_gain settings with
              | Some g => adjustGain (g - currentGain e) e
              | None => e
              end in
    registerAction actionId act column wasapiStarted e1.

Definition onWillDisappear (actionId : string) (e : AudioEngine) : AudioEngine :=
  unregisterAction actionId e.

(** [onDialRotate]: the engine after the call and the settings handed to
    [setSettings].  The step [ticks * 0.05] is rounded in doubles;
    nothing below adds such steps up. *)
Definition onDialRotate (ticks : Z) (settings : VisualizerSettings) (e : AudioEngine)
    : AudioEngine * VisualizerSettings :=
  let delta := inject_Z ticks * 0.05 in
  let e' := adjustGain delta e in
  (e', {| s_gain := Some (currentGain e'); s_theme := s_theme settings |}).

(** [onTouchTap]. *)
Definition onTouchTap (settings : VisualizerSettings) (e : AudioEngine)
    : AudioEngine * VisualizerSettings :=
  let e' := nextTheme e in
  (e', {| s_gain := s_gain settings; s_theme := Some (currentTheme e') |}).

End Visualizer.

(** ** Loops that write one cell per iteration *)
Module Loops.
Import JS Engine.

Lemma rd_insert_eq (l : list Q) (i : nat) (x : Q) :
  (i < length l)%nat -> rd (<[i := x]> l) i = x.
Proof.
  intros H. unfold rd. rewrite nth_lookup, list_lookup_insert_eq by exact H.
  reflexivity.
Qed.

Lemma rd_insert_ne (l : list Q) (i k : nat) (x : Q) :
  i <> k -> rd (<[i := x]> l) k = rd l k.
Proof.
  intros H. unfold rd. rewrite !nth_lookup, list_lookup_insert_ne by exact H.
  reflexivity.
Qed.

(** A step that keeps the length, leaves the other cells alone and sets
    cell [j] to a function of its old content. *)
Record cellwise (step : list Q -> nat -> list Q) (g : nat -> Q -> Q) : Prop := {
  cw_len : forall l j, length (step l j) = length l;
  cw_other : forall l j k, j <> k -> rd (step l j) k = rd l k;
  cw_here : forall l j, (j < length l)%nat -> rd (step l j) j = g j (rd l j)
}.

Lemma fold_cellwise_len step g (Hc : cellwise step g) (js : list nat) (l : list Q) :
  length (fold_left step js l) = length l.
Proof.
  revert l. induction js as [| j js IH]; intros l; simpl; [reflexivity |].
  rewrite IH. apply (cw_len _ _ Hc).
Qed.

Lemma fold_cellwise_out step g (Hc : cellwise step g) (js : list nat) (l : list Q) (k : nat) :
  ~ In k js -> rd (fold_left step js l) k = rd l k.
Proof.
  revert l. induction js as [| j js IH]; intros l Hk; simpl; [reflexivity |].
  rewrite IH by (intros H; apply Hk; now right).
  apply (cw_other _ _ Hc). intros ->. apply Hk. now left.
Qed.

Lemma fold_cellwise_in step g (Hc : cellwise step g) (js : list nat) (l : list Q) (k : nat) :
  List.NoDup js -> In k js -> (k < length l)%nat ->
  rd (fold_left step js l) k = g k (rd l k).
Proof.
  revert l. induction js as [| j js IH]; intros l Hnd Hin Hlen; simpl; [destruct Hin |].
  inversion Hnd as [| ? ? Hnotin Hnd']; subst.
  destruct Hin as [-> | Hin].
  - rewrite (fold_cellwise_out _ _ Hc) by exact Hnotin.
    now apply (cw_here _ _ Hc).
  - rewrite IH; [| exact Hnd' | exact Hin | now rewrite (cw_len _ _ Hc)].
    f_equal. apply (cw_other _ _ Hc). intros ->. contradiction.
Qed.

End Loops.

(** ** The engine: gain, theme and smoothing *)
Module EngineFacts.
Import JS Engine Loops.

(** The attack/decay rule for one band, as the design states it. *)
Definition smoothed_value (raw prev : Q) : Q :=
  if gtb raw prev then prev + (raw - prev) * 0.75
  else if ltb (prev * 0.75) 0.01 then 0 else prev * 0.75.

Lemma smoothAt_cellwise (rawBins : list Q) :
  cellwise (smoothAt rawBins) (fun j prev => smoothed_value (rd rawBins j) prev).
Proof.
  split.
  - intros l j. unfold smoothAt.
    destruct (gtb _ _); [| destruct (ltb _ _)]; now rewrite ?length_insert.
  - intros l j k Hjk. unfold smoothAt.
    destruct (gtb _ _); [| destruct (ltb _ _)]; now rewrite ?rd_insert_ne by exact Hjk.
  - intros l j Hj. unfold smoothAt, smoothed_value, SMOOTH_ATTACK, SMOOTH_DECAY.
    destruct (gtb _ _).
    + now rewrite rd_insert_eq.
    + rewrite (rd_insert_eq l j _ Hj).
      destruct (ltb _ _).
      * rewrite rd_insert_eq; [reflexivity | now rewrite length_insert].
      * now rewrite rd_insert_eq.
Qed.

Lemma temporalSmooth_length (rawBins sm : list Q) :
  length (temporalSmooth rawBins sm) = length sm.
Proof. apply (fold_cellwise_len _ _ (smoothAt_cellwise rawBins)). Qed.

Lemma temporalSmooth_rd (rawBins sm : list Q) (i : nat) :
  (i < TOTAL_BINS)%nat -> (i < length sm)%nat ->
  rd (temporalSmooth rawBins sm) i = smoothed_value (rd rawBins i) (rd sm i).
Proof.
  intros Hi Hlen. unfold temporalSmooth.
  apply (fold_cellwise_in _ _ (smoothAt_cellwise rawBins)).
  - apply List.seq_NoDup.
  - apply in_seq. lia.
  - exact Hlen.
Qed.

Lemma smoothed_value_range (raw prev : Q) :
  raw <= 1 -> 0 <= prev <= 1 -> 0 <= smoothed_value raw prev <= 1.
Proof.
  intros Hr Hp. unfold smoothed_value.
  destruct (gtb raw prev) eqn:E.
  - apply gtb_true in E. lra.
  - destruct (ltb (prev * 0.75) 0.01); lra.
Qed.

(** Every cell of [applyGain]'s result is at most 1. *)
Lemma applyGain_cellwise (g boost : Q) :
  cellwise (fun rb i => <[i := Math_min 1 (rd rb i * g * boost)]> rb)
           (fun _ v => Math_min 1 (v * g * boost)).
Proof.
  split.
  - intros l j. now rewrite length_insert.
  - intros l j k Hjk. now rewrite rd_insert_ne.
  - intros l j Hj. now rewrite rd_insert_eq.
Qed.

Lemma applyGain_length (g boost : Q) (rawBins : list Q) :
  length (applyGain g boost rawBins) = length rawBins.
Proof. apply (fold_cellwise_len _ _ (applyGain_cellwise g boost)). Qed.

Lemma applyGain_le_1 (g boost : Q) (rawBins : list Q) (i : nat) :
  length rawBins = TOTAL_BINS -> rd (applyGain g boost rawBins) i <= 1.
Proof.
  intros Hlen. destruct (Nat.lt_ge_cases i TOTAL_BINS) as [Hi | Hi].
  - unfold applyGain.
    rewrite (fold_cellwise_in _ _ (applyGain_cellwise g boost));
      [apply Math_min_le_l | apply List.seq_NoDup | apply in_seq; lia | lia].
  - unfold rd. rewrite nth_overflow; [lra |]. rewrite applyGain_length. lia.
Qed.

Lemma spectralPass_cellwise (temp : list Q) :
  cellwise
    (fun rb i => <[i := rd temp (i - 1) * 0.25 + rd temp i * 0.5 + rd temp (i + 1) * 0.25]> rb)
    (fun i _ => rd temp (i - 1) * 0.25 + rd temp i * 0.5 + rd temp (i + 1) * 0.25).
Proof.
  split.
  - intros l j. now rewrite length_insert.
  - intros l j k Hjk. now rewrite rd_insert_ne.
  - intros l j Hj. now rewrite rd_insert_eq.
Qed.

Lemma spectralPass_length (rawBins : list Q) :
  length (spectralPass rawBins) = length rawBins.
Proof. apply (fold_cellwise_len _ _ (spectralPass_cellwise rawBins)). Qed.

Lemma spectralPass_le_1 (rawBins : list Q) :
  (forall i, rd rawBins i <= 1) -> forall i, rd (spectralPass rawBins) i <= 1.
Proof.
  intros H i. unfold spectralPass.
  destruct (in_dec Nat.eq_dec i (seq 1 (TOTAL_BINS - 2))) as [Hin | Hout].
  - destruct (Nat.lt_ge_cases i (length rawBins)) as [Hi | Hi].
    + rewrite (fold_cellwise_in _ _ (spectralPass_cellwise rawBins));
        [| apply List.seq_NoDup | exact Hin | exact Hi].
      pose proof (H (i - 1)%nat). pose proof (H i). pose proof (H (i + 1)%nat). lra.
    + unfold rd at 1. rewrite nth_overflow; [lra |].
      rewrite (fold_cellwise_len _ _ (spectralPass_cellwise rawBins)). exact Hi.
  - rewrite (fold_cellwise_out _ _ (spectralPass_cellwise rawBins)) by exact Hout.
    apply H.
Qed.

Lemma shapedBins_le_1 (e : AudioEngine) (rawBins : list Q) (i : nat) :
  length rawBins = TOTAL_BINS -> rd (shapedBins e rawBins) i <= 1.
Proof.
  intros Hlen. unfold shapedBins, spectralSmooth, SPECTRAL_SMOOTH_PASSES. simpl.
  apply spectralPass_le_1. intros k. now apply applyGain_le_1.
Qed.

Lemma Forall_rd (P : Q -> Prop) (l : list Q) :
  (forall i, (i < length l)%nat -> P (rd l i)) -> Forall P l.
Proof.
  intros H. apply Forall_nth with (d := 0). intros i Hi. now apply H.
Qed.

Lemma rd_Forall (P : Q -> Prop) (l : list Q) (i : nat) :
  Forall P l -> (i < length l)%nat -> P (rd l i).
Proof.
  intros H Hi. unfold rd. rewrite Forall_forall in H. apply H.
  apply list_elem_of_In. now apply nth_In.
Qed.

(** The bins stay in [0,1] across the attack/decay loop. *)
Lemma temporalSmooth_range (rawBins sm : list Q) :
  length sm = TOTAL_BINS ->
  (forall i, rd rawBins i <= 1) ->
  Forall (fun v => 0 <= v <= 1) sm ->
  Forall (fun v => 0 <= v <= 1) (temporalSmooth rawBins sm).
Proof.
  intros Hlen Hraw Hsm. apply Forall_rd. intros i Hi.
  rewrite temporalSmooth_length in Hi.
  rewrite temporalSmooth_rd by lia.
  apply smoothed_value_range; [apply Hraw |].
  now apply (rd_Forall (fun v => 0 <= v <= 1)).
Qed.

End EngineFacts.

(** ** The engine: change detection per consumer *)
Module ConsumerFacts.
Import JS Engine.

(** The band values of the consumer in column [col], read from the bins. *)
Definition bandOf (sm : list Q) (col : Z) (b : nat) : num :=
  rdZ sm (col * 5 + Z.of_nat b).

Definition bandsOf (sm : list Q) (col : Z) : list num :=
  map (bandOf sm col) (seq 0 BARS_PER_DIAL).

(** Two values differ by more than the dirty threshold. *)
Definition moved (a b : num) : Prop :=
  match a, b with
  | Some x, Some y => 0.015 < Qabs (x - y)
  | _, _ => False
  end.

(** Some band or edge of the consumer moved since its last-sent snapshot. *)
Definition anyMoved (sm : list Q) (reg : RegisteredAction) : Prop :=
  (exists b, (b < 5)%nat /\ moved (bandOf sm (column reg) b) (rdn (lastSent reg) b))
  \/ moved (leftEdgeOf sm (column reg)) (lastLeftEdge reg)
  \/ moved (rightEdgeOf sm (column reg)) (lastRightEdge reg).

Definition dirtyOf (sm : list Q) (reg : RegisteredAction) : bool :=
  isDirty (bandsOf sm (column reg)) (leftEdgeOf sm (column reg))
          (rightEdgeOf sm (column reg)) reg.

(** The registration after a dirty tick. *)
Definition refreshed (sm : list Q) (reg : RegisteredAction) : RegisteredAction :=
  {| action := action reg;
     column := column reg;
     lastSent := bandsOf sm (column reg);
     lastLeftEdge := leftEdgeOf sm (column reg);
     lastRightEdge := rightEdgeOf sm (column reg) |}.

Lemma absdiff_gt_moved (a b : num) :
  absdiff_gt a b DIRTY_THRESHOLD = true <-> moved a b.
Proof.
  destruct a as [x |], b as [y |]; simpl; try (split; [discriminate | tauto]).
  apply gtb_true.
Qed.

Lemma fillSlice_bands (sm : list Q) (col : Z) (slice : list num) :
  length slice = BARS_PER_DIAL ->
  fillSlice sm (startBinOf col) slice = bandsOf sm col.
Proof.
  intros Hlen.
  destruct slice as [| a0 [| a1 [| a2 [| a3 [| a4 [| a5 rest]]]]]]; try discriminate Hlen.
  reflexivity.
Qed.

Lemma bandsOf_length (sm : list Q) (col : Z) : length (bandsOf sm col) = BARS_PER_DIAL.
Proof. reflexivity. Qed.

Lemma set_same_length (src dst : list num) :
  length src = BARS_PER_DIAL -> length dst = BARS_PER_DIAL ->
  list_inserts 0 src dst = src.
Proof.
  intros Hs Hd.
  destruct src as [| a0 [| a1 [| a2 [| a3 [| a4 [| a5 rs]]]]]]; try discriminate Hs.
  destruct dst as [| b0 [| b1 [| b2 [| b3 [| b4 [| b5 rd]]]]]]; try discriminate Hd.
  reflexivity.
Qed.

Lemma rdn_bandsOf (sm : list Q) (col : Z) (b : nat) :
  (b < 5)%nat -> rdn (bandsOf sm col) b = bandOf sm col b.
Proof.
  intros Hb.
  destruct b as [| [| [| [| [| b]]]]]; try reflexivity. lia.
Qed.

Lemma barsDirty_true (slice sent : list num) (bs : list nat) :
  barsDirty slice sent bs = true <->
  exists b, In b bs /\ moved (rdn slice b) (rdn sent b).
Proof.
  induction bs as [| b0 bs IH]; simpl.
  - split; [discriminate | intros [b [[] _]]].
  - destruct (absdiff_gt (rdn slice b0) (rdn sent b0) DIRTY_THRESHOLD) eqn:E.
    + split; [intros _ | reflexivity].
      exists b0. split; [now left | now apply absdiff_gt_moved].
    + rewrite IH. split.
      * intros [b [Hin Hm]]. exists b. split; [now right | exact Hm].
      * intros [b [[<- | Hin] Hm]].
        -- apply absdiff_gt_moved in Hm. congruence.
        -- exists b. now split.
Qed.

Lemma dirtyOf_true (sm : list Q) (reg : RegisteredAction) :
  dirtyOf sm reg = true <-> anyMoved sm reg.
Proof.
  unfold dirtyOf, isDirty, anyMoved.
  destruct (barsDirty _ _ _) eqn:E; simpl.
  - apply barsDirty_true in E. destruct E as [b [Hin Hm]].
    apply in_seq in Hin. split; [intros _ | reflexivity].
    left. exists b. split; [unfold BARS_PER_DIAL in Hin; lia |].
    rewrite rdn_bandsOf in Hm; [exact Hm | unfold BARS_PER_DIAL in Hin; lia].
  - rewrite orb_true_iff, !absdiff_gt_moved. split.
    + intros [H | H]; [right; now left | right; now right].
    + intros [[b [Hb Hm]] | [H | H]]; [| now left | now right].
      exfalso. assert (Ht : barsDirty (bandsOf sm (column reg)) (lastSent reg)
                                      (seq 0 BARS_PER_DIAL) = true).
      { apply barsDirty_true. exists b. split.
        - apply in_seq. unfold BARS_PER_DIAL. lia.
        - now rewrite rdn_bandsOf. }
      congruence.
Qed.

Section Served.

Variable renderVisualizerFrame : list num -> string -> nat -> num -> num -> string.

Lemma serve_eq (sm : list Q) (theme : string) (slice : list num)
    (actionId : string) (reg : RegisteredAction) :
  length slice = BARS_PER_DIAL -> length (lastSent reg) = BARS_PER_DIAL ->
  serve renderVisualizerFrame sm theme slice actionId reg =
  if dirtyOf sm reg
  then (bandsOf sm (column reg), refreshed sm reg,
        [Rendered actionId;
         SetFeedback actionId (action reg)
           (renderVisualizerFrame (bandsOf sm (column reg)) theme BARS_PER_DIAL
              (leftEdgeOf sm (column reg)) (rightEdgeOf sm (column reg)))])
  else (bandsOf sm (column reg), reg, []).
Proof.
  intros Hs Hl. unfold serve. rewrite fillSlice_bands by exact Hs.
  fold (dirtyOf sm reg). destruct (dirtyOf sm reg); [| reflexivity].
  unfold refreshed. now rewrite set_same_length.
Qed.

(** The registration of a consumer after the tick, and how often it was
    rendered for. *)
Definition served (sm : list Q) (reg : RegisteredAction) : RegisteredAction :=
  if dirtyOf sm reg then refreshed sm reg else reg.

Definition times (sm : list Q) (reg : RegisteredAction) : nat :=
  if dirtyOf sm reg then 1%nat else 0%nat.

Lemma served_length (sm : list Q) (reg : RegisteredAction) :
  length (lastSent reg) = BARS_PER_DIAL -> length (lastSent (served sm reg)) = BARS_PER_DIAL.
Proof. intros H. unfold served. now destruct (dirtyOf sm reg). Qed.

Lemma renderCount_app (a : string) (xs ys : list event) :
  renderCount a (xs ++ ys) = (renderCount a xs + renderCount a ys)%nat.
Proof. unfold renderCount. now rewrite List.filter_app, length_app. Qed.

Lemma deliveryCount_app (a : string) (xs ys : list event) :
  deliveryCount a (xs ++ ys) = (deliveryCount a xs + deliveryCount a ys)%nat.
Proof. unfold deliveryCount. now rewrite List.filter_app, length_app. Qed.

Lemma serveAll_spec (sm : list Q) (theme : string) (acts : list (string * RegisteredAction)) :
  forall slice,
  length slice = BARS_PER_DIAL ->
  Forall (fun kv => length (lastSent (snd kv)) = BARS_PER_DIAL) acts ->
  let '(slice', acts', evs) := serveAll renderVisualizerFrame sm theme slice acts in
  length slice' = BARS_PER_DIAL
  /\ acts' = map (fun kv => (fst kv, served sm (snd kv))) acts
  /\ (forall a, ~ In a (map fst acts) -> renderCount a evs = 0%nat /\ deliveryCount a evs = 0%nat)
  /\ (forall a reg, List.NoDup (map fst acts) -> map_get a acts = Some reg ->
        renderCount a evs = times sm reg /\ deliveryCount a evs = times sm reg).
Proof.
  induction acts as [| [k reg0] rest IH]; intros slice Hs Hall; simpl.
  - split; [exact Hs |]. split; [reflexivity |]. split.
    + intros a _. now split.
    + intros a reg _ H. discriminate H.
  - inversion Hall as [| ? ? Hreg0 Hrest]; subst. simpl in Hreg0.
    rewrite serve_eq by assumption.
    assert (Hb : length (bandsOf sm (column reg0)) = BARS_PER_DIAL) by apply bandsOf_length.
    specialize (IH (bandsOf sm (column reg0)) Hb Hrest).
    unfold served at 1, times.
    destruct (dirtyOf sm reg0) eqn:Ed;
      destruct (serveAll renderVisualizerFrame sm theme (bandsOf sm (column reg0)) rest)
        as [[slice2 rest'] evs];
      destruct IH as (Hlen & Hacts & Hout & Hin);
      (split; [exact Hlen |]); (split; [simpl; now rewrite Hacts |]); split.
    + intros a Ha. simpl in Ha.
      assert (Hne : k <> a) by (intros ->; apply Ha; now left).
      assert (Hr : ~ In a (map fst rest)) by (intros H; apply Ha; now right).
      destruct (Hout a Hr) as [H1 H2].
      rewrite renderCount_app, deliveryCount_app, H1, H2.
      unfold renderCount, deliveryCount. simpl.
      apply String.eqb_neq in Hne. now rewrite Hne.
    + intros a reg Hnd Hget. simpl in Hnd. inversion Hnd as [| ? ? Hk Hnd']; subst.
      rewrite renderCount_app, deliveryCount_app.
      destruct (String.eqb a k) eqn:Eak.
      * apply String.eqb_eq in Eak. subst a. injection Hget as <-.
        destruct (Hout k Hk) as [H1 H2]. rewrite H1, H2, Ed.
        unfold renderCount, deliveryCount. simpl. now rewrite String.eqb_refl.
      * destruct (Hin a reg Hnd' Hget) as [H1 H2]. rewrite H1, H2.
        unfold renderCount, deliveryCount. simpl.
        rewrite String.eqb_sym, Eak. now split.
    + intros a Ha. simpl in Ha. apply Hout. intros H. apply Ha. now right.
    + intros a reg Hnd Hget. simpl in Hnd. inversion Hnd as [| ? ? Hk Hnd']; subst.
      destruct (String.eqb a k) eqn:Eak.
      * apply String.eqb_eq in Eak. subst a. injection Hget as <-.
        rewrite Ed. now apply Hout.
      * now apply Hin.
Qed.

End Served.

End ConsumerFacts.

(** ** The engine: invariants of the reachable states *)
Module EngineInvariant.
Import JS Engine Loops EngineFacts ConsumerFacts.

Lemma map_set_keys {V : Type} (k : string) (v : V) (m : list (string * V)) :
  map fst (map_set k v m) =
  if in_dec string_dec k (map fst m) then map fst m else map fst m ++ [k].
Proof.
  induction m as [| [k' v'] rest IH]; simpl; [reflexivity |].
  destruct (String.eqb k k') eqn:E.
  - apply String.eqb_eq in E. subst k'. simpl.
    destruct (string_dec k k); [reflexivity | contradiction].
  - apply String.eqb_neq in E. simpl. rewrite IH.
    destruct (string_dec k' k) as [Heq | Hne]; [now symmetry in Heq |].
    destruct (in_dec string_dec k (map fst rest)); reflexivity.
Qed.

Lemma map_set_NoDup {V : Type} (k : string) (v : V) (m : list (string * V)) :
  List.NoDup (map fst m) -> List.NoDup (map fst (map_set k v m)).
Proof.
  intros H. rewrite map_set_keys.
  destruct (in_dec string_dec k (map fst m)) as [Hi | Hn]; [exact H |].
  apply List.NoDup_app.
  - exact H.
  - constructor; [intros [] | constructor].
  - intros a Ha [<- | []]. contradiction.
Qed.

Lemma map_get_set_eq {V : Type} (k : string) (v : V) (m : list (string * V)) :
  map_get k (map_set k v m) = Some v.
Proof.
  induction m as [| [k' v'] rest IH]; simpl.
  - now rewrite String.eqb_refl.
  - destruct (String.eqb k k') eqn:E; simpl.
    + now rewrite String.eqb_refl.
    + now rewrite E.
Qed.

Lemma map_set_Forall {V : Type} (P : string * V -> Prop) (k : string) (v : V)
    (m : list (string * V)) :
  P (k, v) -> Forall P m -> Forall P (map_set k v m).
Proof.
  intros Hv H. induction H as [| [k' v'] rest Hx Hrest IH]; simpl.
  - now constructor.
  - destruct (String.eqb k k'); now constructor.
Qed.

Lemma map_delete_incl {V : Type} (k : string) (m : list (string * V)) :
  incl (map_delete k m) m.
Proof.
  induction m as [| [k' v'] rest IH]; simpl; [apply incl_refl |].
  destruct (String.eqb k k').
  - now apply incl_tl.
  - apply incl_cons; [now left | now apply incl_tl].
Qed.

Lemma map_delete_NoDup {V : Type} (k : string) (m : list (string * V)) :
  List.NoDup (map fst m) -> List.NoDup (map fst (map_delete k m)).
Proof.
  induction m as [| [k' v'] rest IH]; simpl; intros H; [exact H |].
  inversion H as [| ? ? Hk Hr]; subst.
  destruct (String.eqb k k'); [exact Hr |].
  simpl. constructor; [| now apply IH].
  intros Hin. apply Hk. apply in_map_iff in Hin. destruct Hin as [[a x] [<- Hin]].
  apply in_map_iff. exists (a, x). split; [reflexivity |].
  now apply (map_delete_incl k rest).
Qed.

Lemma map_delete_Forall {V : Type} (P : string * V -> Prop) (k : string)
    (m : list (string * V)) :
  Forall P m -> Forall P (map_delete k m).
Proof.
  intros H. induction H as [| [k' v'] rest Hx Hrest IH]; simpl; [constructor |].
  destruct (String.eqb k k'); [exact Hrest | now constructor].
Qed.

Lemma map_get_served (f : RegisteredAction -> RegisteredAction) (a : string)
    (m : list (string * RegisteredAction)) :
  map_get a (map (fun kv => (fst kv, f (snd kv))) m) = option_map f (map_get a m).
Proof.
  induction m as [| [k v] rest IH]; simpl; [reflexivity |].
  destruct (String.eqb a k); [reflexivity | exact IH].
Qed.

Lemma map_get_In {V : Type} (a : string) (v : V) (m : list (string * V)) :
  map_get a m = Some v -> In (a, v) m.
Proof.
  induction m as [| [k x] rest IH]; simpl; [discriminate |].
  destruct (String.eqb a k) eqn:E.
  - apply String.eqb_eq in E. intros [= ->]. subst. now left.
  - intros H. right. now apply IH.
Qed.

Lemma newEngine_ok : engine_ok newEngine.
Proof.
  split; simpl.
  - constructor.
  - constructor.
  - reflexivity.
  - reflexivity.
  - repeat (constructor; [lra |]). constructor.
Qed.

Lemma registerAction_ok (actionId act : string) (col : Z) (w : bool) (e : AudioEngine) :
  engine_ok e -> engine_ok (registerAction actionId act col w e).
Proof.
  intros [H1 H2 H3 H4 H5]. split; simpl; try assumption.
  - now apply map_set_NoDup.
  - now apply map_set_Forall.
Qed.

Lemma unregisterAction_ok (actionId : string) (e : AudioEngine) :
  engine_ok e -> engine_ok (unregisterAction actionId e).
Proof.
  intros [H1 H2 H3 H4 H5]. split; simpl; try assumption.
  - now apply map_delete_NoDup.
  - now apply map_delete_Forall.
Qed.

Lemma adjustGain_ok (delta : Q) (e : AudioEngine) :
  engine_ok e -> engine_ok (adjustGain delta e).
Proof. intros [H1 H2 H3 H4 H5]. now split. Qed.

Lemma nextTheme_ok (e : AudioEngine) : engine_ok e -> engine_ok (nextTheme e).
Proof. intros [H1 H2 H3 H4 H5]. now split. Qed.

Section TickFacts.

Variable renderVisualizerFrame : list num -> string -> nat -> num -> num -> string.

(** The state after a tick, field by field. *)
Lemma tick_state (rawBins : list Q) (e : AudioEngine) :
  engine_ok e ->
  let sm := temporalSmooth (shapedBins e rawBins) (smoothedBins e) in
  let e' := fst (tick renderVisualizerFrame rawBins e) in
  let evs := snd (tick renderVisualizerFrame rawBins e) in
  smoothedBins e' = sm
  /\ actions e' = map (fun kv => (fst kv, served sm (snd kv))) (actions e)
  /\ length (dialSlice e') = BARS_PER_DIAL
  /\ gain e' = gain e /\ themeIndex e' = themeIndex e
  /\ (forall a reg, map_get a (actions e) = Some reg ->
        renderCount a evs = times sm reg /\ deliveryCount a evs = times sm reg).
Proof.
  intros [H1 H2 H3 H4 H5]. unfold tick. cbv zeta.
  pose proof (serveAll_spec renderVisualizerFrame
                (temporalSmooth (shapedBins e rawBins) (smoothedBins e))
                (currentTheme e) (actions e) (dialSlice e) H3 H2) as Hs.
  destruct (serveAll _ _ _ _ _) as [[slice acts] evs]. simpl.
  destruct Hs as (Hlen & Hacts & _ & Hin).
  repeat (split; [first [assumption | reflexivity] |]).
  intros a reg Hget. now apply Hin.
Qed.

Lemma tick_ok (rawBins : list Q) (e : AudioEngine) :
  length rawBins = TOTAL_BINS -> engine_ok e ->
  engine_ok (fst (tick renderVisualizerFrame rawBins e)).
Proof.
  intros Hraw Hok.
  destruct (tick_state rawBins e Hok) as (Hsm & Hacts & Hslice & _).
  destruct Hok as [H1 H2 H3 H4 H5]. split.
  - rewrite Hacts, map_map. simpl. exact H1.
  - rewrite Hacts. apply Forall_map. simpl.
    eapply Forall_impl; [exact H2 |]. intros kv Hkv. now apply served_length.
  - exact Hslice.
  - rewrite Hsm, temporalSmooth_length. exact H4.
  - rewrite Hsm. apply temporalSmooth_range; [exact H4 | | exact H5].
    intros i. now apply shapedBins_le_1.
Qed.

End TickFacts.

End EngineInvariant.

(** ** The engine: the properties *)
Module EngineProperties.
Import JS Engine Loops EngineFacts ConsumerFacts EngineInvariant.

Definition adjustAll (deltas : list Q) (e : AudioEngine) : AudioEngine :=
  fold_left (fun e' d => adjustGain d e') deltas e.

Lemma adjustGain_range (delta : Q) (e : AudioEngine) :
  0.2 <= gain (adjustGain delta e) <= 3.0.
Proof.
  simpl. split.
  - apply Math_max_ge_l.
  - apply Math_max_lub; [lra | apply Math_min_le_l].
Qed.

(** C8.  Starting from a gain in [0.2, 3.0], one [adjustGain] with any
    delta, and any sequence of them, leaves the gain in [0.2, 3.0]. *)
Theorem adjustGain_clamped (e : AudioEngine) (deltas : list Q) :
  0.2 <= gain e <= 3.0 ->
  (forall delta, 0.2 <= gain (adjustGain delta e) <= 3.0)
  /\ 0.2 <= gain (adjustAll deltas e) <= 3.0.
Proof.
  intros He. split; [intros delta; apply adjustGain_range |].
  unfold adjustAll. revert e He.
  induction deltas as [| d ds IH]; intros e He; simpl; [exact He |].
  apply IH. apply adjustGain_range.
Qed.

Lemma adjustGain_clamped_witness :
  (forall delta, 0.2 <= gain (adjustGain delta newEngine) <= 3.0)
  /\ 0.2 <= gain (adjustAll [100; -100; 0.05] newEngine) <= 3.0.
Proof.
  apply (adjustGain_clamped newEngine [100; -100; 0.05]).
  simpl. lra.
Defined.

Definition themeCount : nat := length Renderer.THEME_NAMES.

(** C9.  [nextTheme] moves the index one step modulo the number of
    themes; the current theme is one of the listed names before and after;
    as many calls as there are themes come back to the start; and from the
    first theme the calls visit the whole list in order. *)
Theorem nextTheme_cycles (e : AudioEngine) :
  (0 <= themeIndex e < Z.of_nat themeCount)%Z ->
  themeIndex (nextTheme e) = ((themeIndex e + 1) mod Z.of_nat themeCount)%Z
  /\ (0 <= themeIndex (nextTheme e) < Z.of_nat themeCount)%Z
  /\ In (currentTheme e) Renderer.THEME_NAMES
  /\ In (currentTheme (nextTheme e)) Renderer.THEME_NAMES
  /\ themeIndex (Nat.iter themeCount nextTheme e) = themeIndex e
  /\ currentTheme (Nat.iter themeCount nextTheme e) = currentTheme e
  /\ map (fun k => currentTheme (Nat.iter k nextTheme newEngine)) (seq 0 themeCount)
     = Renderer.THEME_NAMES.
Proof.
  intros H. change (Z.of_nat themeCount) with 5%Z in *.
  assert (Hc : themeIndex e = 0%Z \/ themeIndex e = 1%Z \/ themeIndex e = 2%Z
               \/ themeIndex e = 3%Z \/ themeIndex e = 4%Z) by lia.
  unfold currentTheme, themeCount. simpl.
  destruct Hc as [-> | [-> | [-> | [-> | ->]]]]; simpl;
    repeat split; try lia; try reflexivity; try (cbv; congruence); auto 10.
Qed.

Lemma nextTheme_cycles_witness :
  themeIndex (nextTheme newEngine) = ((themeIndex newEngine + 1) mod Z.of_nat themeCount)%Z
  /\ (0 <= themeIndex (nextTheme newEngine) < Z.of_nat themeCount)%Z
  /\ In (currentTheme newEngine) Renderer.THEME_NAMES
  /\ In (currentTheme (nextTheme newEngine)) Renderer.THEME_NAMES
  /\ themeIndex (Nat.iter themeCount nextTheme newEngine) = themeIndex newEngine
  /\ currentTheme (Nat.iter themeCount nextTheme newEngine) = currentTheme newEngine
  /\ map (fun k => currentTheme (Nat.iter k nextTheme newEngine)) (seq 0 themeCount)
     = Renderer.THEME_NAMES.
Proof.
  apply (nextTheme_cycles newEngine). simpl. unfold themeCount. simpl. lia.
Defined.

Section Properties.

Variable renderVisualizerFrame : list num -> string -> nat -> num -> num -> string.

Lemma tick_smoothedBins (rawBins : list Q) (e : AudioEngine) :
  smoothedBins (fst (tick renderVisualizerFrame rawBins e))
  = temporalSmooth (shapedBins e rawBins) (smoothedBins e).
Proof.
  unfold tick. cbv zeta. now destruct (serveAll _ _ _ _ _) as [[slice acts] evs].
Qed.

(** C5.  For every band [i] of a tick, with [raw] the band as it enters
    the attack/decay loop and [prev] its smoothed value before the tick:
    above [prev] the new value is [prev + (raw - prev) * 0.75]; otherwise
    it is [prev * 0.75], and exactly 0 when that product is below 0.01. *)
Theorem temporal_smoothing_rule (rawBins : list Q) (e : AudioEngine) (i : nat) :
  length (smoothedBins e) = TOTAL_BINS -> (i < TOTAL_BINS)%nat ->
  let raw := rd (shapedBins e rawBins) i in
  let prev := rd (smoothedBins e) i in
  let new := rd (smoothedBins (fst (tick renderVisualizerFrame rawBins e))) i in
  (prev < raw -> new = prev + (raw - prev) * 0.75)
  /\ (raw <= prev -> 0.01 <= prev * 0.75 -> new = prev * 0.75)
  /\ (raw <= prev -> prev * 0.75 < 0.01 -> new = 0).
Proof.
  intros Hlen Hi raw prev new.
  assert (Hnew : new = smoothed_value raw prev).
  { unfold new. rewrite tick_smoothedBins. apply temporalSmooth_rd; lia. }
  rewrite Hnew. unfold smoothed_value.
  destruct (gtb raw prev) eqn:E1.
  - apply gtb_true in E1.
    split; [| split]; intros; first [reflexivity | exfalso; lra].
  - apply gtb_false in E1.
    destruct (ltb (prev * 0.75) 0.01) eqn:E2.
    + apply ltb_true in E2.
      split; [| split]; intros; first [reflexivity | exfalso; lra].
    + apply ltb_false in E2.
      split; [| split]; intros; first [reflexivity | exfalso; lra].
Qed.

(** What a tick does for one registered consumer. *)
Lemma tick_consumer (rawBins : list Q) (e : AudioEngine)
    (a : string) (reg : RegisteredAction) :
  engine_ok e -> map_get a (actions e) = Some reg ->
  let e' := fst (tick renderVisualizerFrame rawBins e) in
  let evs := snd (tick renderVisualizerFrame rawBins e) in
  let sm := smoothedBins e' in
  renderCount a evs = times sm reg /\ deliveryCount a evs = times sm reg
  /\ map_get a (actions e') = Some (served sm reg).
Proof.
  intros Hok Hget e' evs sm.
  destruct (tick_state renderVisualizerFrame rawBins e Hok)
    as (Hsm & Hacts & _ & _ & _ & Hcount).
  fold e' in Hsm, Hacts. fold evs in Hcount. fold sm in Hsm.
  destruct (Hcount a reg Hget) as [Hr Hd]. rewrite <- Hsm in Hr, Hd, Hacts.
  repeat split; try assumption.
  rewrite Hacts, map_get_served, Hget. reflexivity.
Qed.

(** C2.  For a registered consumer and one tick: when no band and no
    edge differs from the consumer's last-sent snapshot by more than 0.015
    the renderer is not run and nothing is delivered for it, and its
    registration (snapshot included) is as before; when some band or edge
    does, the renderer runs once, one image is delivered, and the snapshot
    is overwritten with the new band and edge values. *)
Theorem tick_dirty_detection (rawBins : list Q) (e : AudioEngine)
    (a : string) (reg : RegisteredAction) :
  engine_ok e -> map_get a (actions e) = Some reg ->
  let e' := fst (tick renderVisualizerFrame rawBins e) in
  let evs := snd (tick renderVisualizerFrame rawBins e) in
  let sm := smoothedBins e' in
  (~ anyMoved sm reg ->
     renderCount a evs = 0%nat /\ deliveryCount a evs = 0%nat
     /\ map_get a (actions e') = Some reg)
  /\ (anyMoved sm reg ->
       renderCount a evs = 1%nat /\ deliveryCount a evs = 1%nat
       /\ exists reg', map_get a (actions e') = Some reg'
            /\ column reg' = column reg
            /\ lastSent reg' = bandsOf sm (column reg)
            /\ lastLeftEdge reg' = leftEdgeOf sm (column reg)
            /\ lastRightEdge reg' = rightEdgeOf sm (column reg)).
Proof.
  intros Hok Hget. cbv zeta.
  pose proof (tick_consumer rawBins e a reg Hok Hget) as H. cbv zeta in H.
  destruct H as (Hr & Hd & Hg).
  unfold times in Hr, Hd. unfold served in Hg.
  destruct (dirtyOf _ reg) eqn:Ed.
  - apply dirtyOf_true in Ed. split; [intros Hn; contradiction |].
    intros _. split; [exact Hr |]. split; [exact Hd |].
    eexists. split; [exact Hg |]. now repeat split.
  - split; [intros _; now repeat split |].
    intros Hm. apply dirtyOf_true in Hm. congruence.
Qed.

Lemma rdZ_range (sm : list Q) (i : Z) (x : Q) :
  Forall (fun v => 0 <= v <= 1) sm -> rdZ sm i = Some x -> 0 <= x <= 1.
Proof.
  intros Hall. unfold rdZ. destruct (i <? 0)%Z; [discriminate |].
  intros Hx. exact (Forall_lookup_1 _ _ _ _ Hall Hx).
Qed.

Lemma rdZ_in_range (sm : list Q) (i : Z) :
  (0 <= i < Z.of_nat (length sm))%Z -> exists x, rdZ sm i = Some x.
Proof.
  intros Hi. unfold rdZ. destruct (i <? 0)%Z eqn:E; [lia |].
  apply lookup_lt_is_Some. lia.
Qed.

Lemma leftEdge_nonneg (sm : list Q) (col : Z) (x : Q) :
  Forall (fun v => 0 <= v <= 1) sm -> leftEdgeOf sm col = Some x -> 0 <= x.
Proof.
  intros Hall. unfold leftEdgeOf. destruct (0 <? col)%Z.
  - destruct (rdZ sm (startBinOf col - 1)) as [u |] eqn:Eu; [| discriminate].
    destruct (rdZ sm (startBinOf col)) as [v |] eqn:Ev; [| discriminate].
    simpl. intros [= <-].
    pose proof (rdZ_range _ _ _ Hall Eu). pose proof (rdZ_range _ _ _ Hall Ev). lra.
  - intros [= <-]. lra.
Qed.

Lemma rightEdge_nonneg (sm : list Q) (col : Z) (x : Q) :
  Forall (fun v => 0 <= v <= 1) sm -> rightEdgeOf sm col = Some x -> 0 <= x.
Proof.
  intros Hall. unfold rightEdgeOf. destruct (col <? 3)%Z.
  - destruct (rdZ sm (startBinOf col + Z.of_nat BARS_PER_DIAL - 1)) as [u |] eqn:Eu;
      [| discriminate].
    destruct (rdZ sm (startBinOf col + Z.of_nat BARS_PER_DIAL)) as [v |] eqn:Ev;
      [| discriminate].
    simpl. intros [= <-].
    pose proof (rdZ_range _ _ _ Hall Eu). pose proof (rdZ_range _ _ _ Hall Ev). lra.
  - intros [= <-]. lra.
Qed.

Lemma moved_from_minus_one (x : Q) : 0 <= x -> moved (Some x) (Some (-1)).
Proof.
  intros Hx. unfold moved. pose proof (Qle_Qabs (x - -1)). lra.
Qed.

(** A registration whose last-sent edges are both -1 is dirty whatever
    the bins in [0,1] are. *)
Lemma fresh_edges_dirty (sm : list Q) (reg : RegisteredAction) :
  length sm = TOTAL_BINS -> Forall (fun v => 0 <= v <= 1) sm ->
  lastLeftEdge reg = Some (-1) -> lastRightEdge reg = Some (-1) ->
  anyMoved sm reg.
Proof.
  intros Hlen Hall Hl Hr. unfold anyMoved. rewrite Hl, Hr. right.
  destruct (0 <? column reg)%Z eqn:E0.
  - destruct (column reg <? 3)%Z eqn:E3.
    + left. apply Z.ltb_lt in E0, E3.
      destruct (leftEdgeOf sm (column reg)) as [x |] eqn:Ex.
      * apply moved_from_minus_one. now apply (leftEdge_nonneg sm (column reg)).
      * exfalso. unfold leftEdgeOf in Ex.
        assert (E0' : (0 <? column reg)%Z = true) by now apply Z.ltb_lt.
        rewrite E0' in Ex.
        destruct (rdZ_in_range sm (startBinOf (column reg) - 1)) as [u Hu].
        { rewrite Hlen. unfold startBinOf, BARS_PER_DIAL, TOTAL_BINS. lia. }
        destruct (rdZ_in_range sm (startBinOf (column reg))) as [v Hv].
        { rewrite Hlen. unfold startBinOf, BARS_PER_DIAL, TOTAL_BINS. lia. }
        rewrite Hu, Hv in Ex. discriminate Ex.
    + right. unfold rightEdgeOf. rewrite E3. apply moved_from_minus_one. lra.
  - left. unfold leftEdgeOf. rewrite E0. apply moved_from_minus_one. lra.
Qed.

(** C10.  The first tick after [registerAction] renders and delivers a
    frame for the new consumer, whatever the audio of that frame is and
    whatever its column: registration sets both last-sent edges to -1, an
    edge value that is a number is at least 0, and one of the two edges is
    always a number, so an edge differs by at least 1. *)
Theorem first_tick_is_dirty (rawBins : list Q) (e : AudioEngine)
    (a act : string) (col : Z) (w : bool) :
  engine_ok e -> length rawBins = TOTAL_BINS ->
  let e0 := registerAction a act col w e in
  let evs := snd (tick renderVisualizerFrame rawBins e0) in
  let sm := smoothedBins (fst (tick renderVisualizerFrame rawBins e0)) in
  (exists reg, map_get a (actions e0) = Some reg /\ column reg = col
     /\ lastLeftEdge reg = Some (-1) /\ lastRightEdge reg = Some (-1)
     /\ anyMoved sm reg)
  /\ (forall x, leftEdgeOf sm col = Some x -> 0 <= x)
  /\ (forall x, rightEdgeOf sm col = Some x -> 0 <= x)
  /\ renderCount a evs = 1%nat /\ deliveryCount a evs = 1%nat.
Proof.
  intros Hok Hraw e0 evs sm.
  assert (Hok0 : engine_ok e0) by now apply registerAction_ok.
  pose proof (tick_ok renderVisualizerFrame rawBins e0 Hraw Hok0) as Hok1.
  destruct Hok1 as [_ _ _ Hlen Hall]. fold sm in Hlen, Hall.
  set (reg := {| action := act; column := col;
                 lastSent := repeat (Some 0) BARS_PER_DIAL;
                 lastLeftEdge := Some (-1); lastRightEdge := Some (-1) |}).
  assert (Hget : map_get a (actions e0) = Some reg) by apply map_get_set_eq.
  assert (Hm : anyMoved sm reg) by now apply fresh_edges_dirty.
  split; [exists reg; now repeat split |].
  split; [intros x; now apply leftEdge_nonneg |].
  split; [intros x; now apply rightEdge_nonneg |].
  pose proof (tick_consumer rawBins e0 a reg Hok0 Hget) as H. cbv zeta in H.
  destruct H as (H1 & H2 & _).
  apply dirtyOf_true in Hm. unfold times in H1, H2. unfold sm in Hm.
  rewrite Hm in H1, H2. now split.
Qed.

End Properties.

(** A renderer that draws nothing, one registered dial and a flat frame,
    to run the statements above on. *)
Definition blankFrame (bins : list num) (theme : string) (numBars : nat)
    (leftEdge rightEdge : num) : string := EmptyString.

Definition demoReg : RegisteredAction :=
  {| action := "dial-0"; column := 0;
     lastSent := repeat (Some 0) BARS_PER_DIAL;
     lastLeftEdge := Some (-1); lastRightEdge := Some (-1) |}.

Definition demoEngine : AudioEngine :=
  registerAction "dial-0" "dial-0" 0 false newEngine.

Definition demoBins : list Q := repeat 0.5 TOTAL_BINS.

Lemma temporal_smoothing_rule_witness :
  length (smoothedBins newEngine) = TOTAL_BINS /\ (0 < TOTAL_BINS)%nat
  /\ rd (smoothedBins (fst (tick blankFrame demoBins newEngine))) 0
     = rd (smoothedBins newEngine) 0
       + (rd (shapedBins newEngine demoBins) 0 - rd (smoothedBins newEngine) 0) * 0.75.
Proof.
  split; [reflexivity |]. split; [unfold TOTAL_BINS; lia |].
  apply (temporal_smoothing_rule blankFrame demoBins newEngine 0%nat).
  - reflexivity.
  - unfold TOTAL_BINS. lia.
  - vm_compute. reflexivity.
Defined.

Lemma tick_dirty_detection_witness :
  engine_ok demoEngine
  /\ map_get "dial-0" (actions demoEngine) = Some demoReg
  /\ renderCount "dial-0" (snd (tick blankFrame demoBins demoEngine)) = 1%nat
  /\ deliveryCount "dial-0" (snd (tick blankFrame demoBins demoEngine)) = 1%nat.
Proof.
  assert (Hok : engine_ok demoEngine) by (apply registerAction_ok, newEngine_ok).
  split; [exact Hok |]. split; [reflexivity |].
  destruct (tick_dirty_detection blankFrame demoBins demoEngine "dial-0" demoReg
              Hok eq_refl) as [_ Hd].
  destruct Hd as (H1 & H2 & _); [| now split].
  right. left. vm_compute. reflexivity.
Defined.

Lemma first_tick_is_dirty_witness :
  engine_ok newEngine /\ length demoBins = TOTAL_BINS
  /\ renderCount "dial-0"
       (snd (tick blankFrame demoBins (registerAction "dial-0" "dial-0" 0 false newEngine)))
     = 1%nat.
Proof.
  split; [apply newEngine_ok |]. split; [reflexivity |].
  apply (first_tick_is_dirty blankFrame demoBins newEngine "dial-0" "dial-0" 0 false
           newEngine_ok eq_refl).
Defined.

End EngineProperties.

(** ** The sample ingest: ring cursor and hop counter *)
Module IngestFacts.
Import JS Wasapi.

(** The sample a chunk holds at index [j]. *)
Definition sampleAt (chunk : list Z) (j : nat) : Z :=
  match readFloatLE chunk (j * 4) with Some v => v | None => 0%Z end.

(** What holds of the source between two calls. *)
Record source_ok (s : Source) : Prop := {
  ok_ring : length (sampleBuffer s) = Z.to_nat FFT_SIZE;
  ok_cursor : (0 <= writePos s < FFT_SIZE)%Z;
  ok_hop : (0 <= hopCount s < HOP_SIZE)%Z
}.

Lemma readFloatLE_in_range (chunk : list Z) (j : nat) :
  (j * 4 + 4 <= length chunk)%nat -> readFloatLE chunk (j * 4) = Some (sampleAt chunk j).
Proof.
  intros H. unfold sampleAt, readFloatLE.
  destruct (lookup_lt_is_Some_2 chunk (j * 4)%nat) as [b0 ->]; [lia |].
  destruct (lookup_lt_is_Some_2 chunk (j * 4 + 1)%nat) as [b1 ->]; [lia |].
  destruct (lookup_lt_is_Some_2 chunk (j * 4 + 2)%nat) as [b2 ->]; [lia |].
  destruct (lookup_lt_is_Some_2 chunk (j * 4 + 3)%nat) as [b3 ->]; [lia |].
  reflexivity.
Qed.

Lemma writesOf_app (xs ys : list ingest_event) :
  writesOf (xs ++ ys) = writesOf xs ++ writesOf ys.
Proof. unfold writesOf. apply flat_map_app. Qed.

Lemma analysesOf_app (xs ys : list ingest_event) :
  analysesOf (xs ++ ys) = (analysesOf xs + analysesOf ys)%nat.
Proof. unfold analysesOf. now rewrite List.filter_app, length_app. Qed.

Section Ring.

Variable computeFFT : list Z -> Z -> Frame.

(** The loop over the samples [k, k + n) of a chunk that holds them all. *)
Lemma ingestLoop_spec (chunk : list Z) (n : nat) :
  forall (k : nat) (s : Source) (evs : list ingest_event),
  source_ok s -> ((k + n) * 4 <= length chunk)%nat ->
  exists s' evs',
    ingestLoop computeFFT chunk (seq k n) (s, evs) = Some (s', evs')
    /\ source_ok s'
    /\ writePos s' = ((writePos s + Z.of_nat n) mod FFT_SIZE)%Z
    /\ hopCount s' = ((hopCount s + Z.of_nat n) mod HOP_SIZE)%Z
    /\ analysesOf evs'
       = (analysesOf evs + Z.to_nat ((hopCount s + Z.of_nat n) / HOP_SIZE))%nat
    /\ writesOf evs'
       = writesOf evs
         ++ map (fun d => (((writePos s + Z.of_nat d) mod FFT_SIZE)%Z, sampleAt chunk (k + d)))
                (seq 0 n).
Proof.
  change FFT_SIZE with 2048%Z. change HOP_SIZE with 1024%Z.
  induction n as [| n IH]; intros k s evs Hok Hlen.
  - exists s, evs.
    pose proof (ok_cursor _ Hok) as H2. pose proof (ok_hop _ Hok) as H3.
    change FFT_SIZE with 2048%Z in H2. change HOP_SIZE with 1024%Z in H3.
    simpl. rewrite !Z.add_0_r, !Z.mod_small, Z.div_small, app_nil_r by lia.
    split; [reflexivity |]. split; [exact Hok |].
    repeat split; try reflexivity. simpl. lia.
  - destruct Hok as [H1 H2 H3].
    change FFT_SIZE with 2048%Z in *. change HOP_SIZE with 1024%Z in *.
    simpl seq. simpl ingestLoop. unfold ingestSample.
    rewrite readFloatLE_in_range by lia.
    change FFT_SIZE with 2048%Z. change HOP_SIZE with 1024%Z.
    rewrite Z.rem_mod_nonneg by lia.
    destruct (1024 <=? hopCount s + 1)%Z eqn:Ehop.
    + apply Z.leb_le in Ehop.
      match goal with |- context [ingestLoop _ _ _ (?s1, ?e1)] =>
        destruct (IH (S k) s1 e1) as (s' & evs' & Hrun & Hok' & Hwp & Hhc & Han & Hwr) end.
      { split; simpl.
        - now rewrite length_insert.
        - change FFT_SIZE with 2048%Z. apply Z.mod_pos_bound. lia.
        - change HOP_SIZE with 1024%Z. lia. }
      { lia. }
      exists s', evs'. simpl in Hwp, Hhc, Han, Hwr.
      split; [exact Hrun |]. split; [exact Hok' |].
      split; [rewrite Hwp, Zplus_mod_idemp_l; f_equal; lia |].
      split; [rewrite Hhc; assert (hopCount s = 1023)%Z by lia;
              Z.div_mod_to_equations; lia |].
      split.
      * rewrite Han, analysesOf_app. unfold analysesOf at 2. simpl.
        assert (hopCount s = 1023)%Z by lia.
        assert ((hopCount s + Z.of_nat (S n)) / 1024 = 1 + Z.of_nat n / 1024)%Z
          by (Z.div_mod_to_equations; lia).
        assert (0 <= Z.of_nat n / 1024)%Z by (apply Z.div_pos; lia).
        rewrite Z.add_0_l. lia.
      * rewrite Hwr, writesOf_app. simpl. rewrite <- app_assoc. simpl.
        f_equal. f_equal.
        { f_equal; [rewrite Z.add_0_r, Z.mod_small by lia; reflexivity
                   | f_equal; lia]. }
        rewrite <- seq_shift, map_map. apply map_ext. intros d.
        f_equal; [rewrite Zplus_mod_idemp_l; f_equal; lia | f_equal; lia].
    + apply Z.leb_gt in Ehop.
      match goal with |- context [ingestLoop _ _ _ (?s1, ?e1)] =>
        destruct (IH (S k) s1 e1) as (s' & evs' & Hrun & Hok' & Hwp & Hhc & Han & Hwr) end.
      { split; simpl.
        - now rewrite length_insert.
        - change FFT_SIZE with 2048%Z. apply Z.mod_pos_bound. lia.
        - change HOP_SIZE with 1024%Z. lia. }
      { lia. }
      exists s', evs'. simpl in Hwp, Hhc, Han, Hwr.
      split; [exact Hrun |]. split; [exact Hok' |].
      split; [rewrite Hwp, Zplus_mod_idemp_l; f_equal; lia |].
      split; [rewrite Hhc; f_equal; lia |].
      split.
      * rewrite Han, analysesOf_app. unfold analysesOf at 2. simpl.
        replace (hopCount s + 1 + Z.of_nat n)%Z with (hopCount s + Z.of_nat (S n))%Z by lia.
        lia.
      * rewrite Hwr, writesOf_app. simpl. rewrite <- app_assoc. simpl.
        f_equal. f_equal.
        { f_equal; [rewrite Z.add_0_r, Z.mod_small by lia; reflexivity
                   | f_equal; lia]. }
        rewrite <- seq_shift, map_map. apply map_ext. intros d.
        f_equal; [rewrite Zplus_mod_idemp_l; f_equal; lia | f_equal; lia].
Qed.

End Ring.

Lemma newSource_ok : source_ok newSource.
Proof. split; now vm_compute. Qed.

(** Nine bytes: two whole samples and one stray byte. *)
Definition demoChunk : list Z := [0; 0; 128; 63; 0; 0; 0; 64; 7]%Z.

End IngestFacts.

(** ** The frequency mapper: the bass branch *)
Module MapperFacts.
Import JS Wasapi.

(** The frequency of probe [g]. *)
Definition probe (g : nat) : Q := rd BASS_FREQS g.

(** [lo] is a probe at or below [fc] and no probe at or below [fc] is higher. *)
Definition floor_probe (fc : Q) (lo : nat) : Prop :=
  (lo < length BASS_FREQS)%nat /\ probe lo <= fc
  /\ forall g, (g < length BASS_FREQS)%nat -> probe g <= fc -> probe g <= probe lo.

(** [hi] is a probe at or above [fc] and no probe at or above [fc] is lower. *)
Definition ceil_probe (fc : Q) (hi : nat) : Prop :=
  (hi < length BASS_FREQS)%nat /\ fc <= probe hi
  /\ forall g, (g < length BASS_FREQS)%nat -> fc <= probe g -> probe hi <= probe g.

(** Settle the first comparison against the center that the goal shows. *)
Ltac settle_cmp :=
  match goal with
  | |- context [Qle_bool ?a ?b] =>
      first
        [ replace (Qle_bool a b) with true
            by (symmetry; apply Qle_bool_iff; lra)
        | replace (Qle_bool a b) with false
            by (symmetry; apply not_true_is_false; intros Hc;
                apply Qle_bool_iff in Hc; lra) ]
  end.

Ltac run_probes :=
  unfold probeLoop, lastProbe, leb, geb;
  cbn [fold_left seq length BASS_FREQS rd nth Nat.sub];
  repeat (settle_cmp; cbn [andb Nat.eqb]).

Lemma probeLoop_under (fc : Q) : fc < 30 -> probeLoop fc = (0%nat, 0%nat).
Proof. intros H. now run_probes. Qed.

Lemma probeLoop_over (fc : Q) : 500 < fc -> probeLoop fc = (8%nat, 8%nat).
Proof. intros H. now run_probes. Qed.

Lemma probeLoop_at (fc : Q) (k : nat) :
  (k < 9)%nat -> fc == probe k -> probeLoop fc = (k, k).
Proof.
  intros Hk H. unfold probe in H.
  do 9 (destruct k as [| k];
        [cbn [rd nth BASS_FREQS] in H; now run_probes |]).
  lia.
Qed.

Lemma probeLoop_between (fc : Q) (k : nat) :
  (k < 8)%nat -> probe k < fc < probe (S k) -> probeLoop fc = (k, S k).
Proof.
  intros Hk [H1 H2]. unfold probe in H1, H2.
  do 8 (destruct k as [| k];
        [cbn [rd nth BASS_FREQS] in H1, H2; now run_probes |]).
  lia.
Qed.

(** Where a center frequency lies among the probes. *)
Lemma probe_region (fc : Q) :
  fc < 30 \/ 500 < fc
  \/ (exists k, (k < 9)%nat /\ fc == probe k)
  \/ (exists k, (k < 8)%nat /\ probe k < fc < probe (S k)).
Proof.
  assert (Hat : forall k, (k < 9)%nat -> fc == probe k ->
            fc < 30 \/ 500 < fc \/ (exists k, (k < 9)%nat /\ fc == probe k)
            \/ (exists k, (k < 8)%nat /\ probe k < fc < probe (S k))).
  { intros k Hk H. right. right. left. now exists k. }
  assert (Hin : forall k, (k < 8)%nat -> probe k < fc -> fc < probe (S k) ->
            fc < 30 \/ 500 < fc \/ (exists k, (k < 9)%nat /\ fc == probe k)
            \/ (exists k, (k < 8)%nat /\ probe k < fc < probe (S k))).
  { intros k Hk H1 H2. right. right. right. exists k. now repeat split. }
  destruct (Q_dec fc 30) as [[H | H] | H];
    [now left | | apply (Hat 0%nat); [lia | exact H]].
  destruct (Q_dec fc 45) as [[H1 | H1] | H1];
    [apply (Hin 0%nat); [lia | exact H | exact H1] | | apply (Hat 1%nat); [lia | exact H1]].
  destruct (Q_dec fc 65) as [[H2 | H2] | H2];
    [apply (Hin 1%nat); [lia | exact H1 | exact H2] | | apply (Hat 2%nat); [lia | exact H2]].
  destruct (Q_dec fc 90) as [[H3 | H3] | H3];
    [apply (Hin 2%nat); [lia | exact H2 | exact H3] | | apply (Hat 3%nat); [lia | exact H3]].
  destruct (Q_dec fc 125) as [[H4 | H4] | H4];
    [apply (Hin 3%nat); [lia | exact H3 | exact H4] | | apply (Hat 4%nat); [lia | exact H4]].
  destruct (Q_dec fc 175) as [[H5 | H5] | H5];
    [apply (Hin 4%nat); [lia | exact H4 | exact H5] | | apply (Hat 5%nat); [lia | exact H5]].
  destruct (Q_dec fc 250) as [[H6 | H6] | H6];
    [apply (Hin 5%nat); [lia | exact H5 | exact H6] | | apply (Hat 6%nat); [lia | exact H6]].
  destruct (Q_dec fc 350) as [[H7 | H7] | H7];
    [apply (Hin 6%nat); [lia | exact H6 | exact H7] | | apply (Hat 7%nat); [lia | exact H7]].
  destruct (Q_dec fc 500) as [[H8 | H8] | H8];
    [apply (Hin 7%nat); [lia | exact H7 | exact H8] | right; now left
     | apply (Hat 8%nat); [lia | exact H8]].
Qed.

(** The probes rise with their index. *)
Lemma probe_increasing (g k : nat) :
  (g < k)%nat -> (k < 9)%nat -> probe g < probe k.
Proof.
  intros Hgk Hk. unfold probe.
  do 9 (destruct k as [| k];
        [do 9 (destruct g as [| g]; [first [lia | now vm_compute] |]); lia |]).
  lia.
Qed.

Lemma floor_ceil_at (fc : Q) (k : nat) :
  (k < 9)%nat -> fc == probe k -> floor_probe fc k /\ ceil_probe fc k.
Proof.
  intros Hk H. split; (split; [exact Hk |]); (split; [lra |]); intros g Hg Hc; lra.
Qed.

Lemma floor_ceil_between (fc : Q) (k : nat) :
  (k < 8)%nat -> probe k < fc < probe (S k) ->
  floor_probe fc k /\ ceil_probe fc (S k).
Proof.
  intros Hk [H1 H2]. split.
  - split; [simpl; lia |]. split; [lra |]. intros g Hg Hc.
    destruct (Nat.le_gt_cases g k) as [Hle | Hgt].
    + destruct (Nat.eq_dec g k) as [-> | Hne]; [lra |].
      pose proof (probe_increasing g k). assert (probe g < probe k) by (apply H; lia). lra.
    + simpl in Hg. destruct (Nat.eq_dec g (S k)) as [-> | Hne]; [lra |].
      pose proof (probe_increasing (S k) g). assert (probe (S k) < probe g) by (apply H; lia).
      lra.
  - split; [simpl; lia |]. split; [lra |]. intros g Hg Hc.
    destruct (Nat.le_gt_cases g k) as [Hle | Hgt].
    + destruct (Nat.eq_dec g k) as [-> | Hne]; [lra |].
      pose proof (probe_increasing g k). assert (probe g < probe k) by (apply H; lia). lra.
    + simpl in Hg. destruct (Nat.eq_dec g (S k)) as [-> | Hne]; [lra |].
      pose proof (probe_increasing (S k) g). assert (probe (S k) < probe g) by (apply H; lia).
      lra.
Qed.

Lemma bassRawMag_same (bass : list Q) (fc : Q) (k : nat) :
  probeLoop fc = (k, k) -> bassRawMag bass fc = rd bass k.
Proof. intros H. unfold bassRawMag. now rewrite H, Nat.eqb_refl. Qed.

Lemma bassRawMag_between (bass : list Q) (fc : Q) (k : nat) :
  (k < 8)%nat -> probeLoop fc = (k, S k) ->
  bassRawMag bass fc
  == rd bass k + (rd bass (S k) - rd bass k) * ((fc - probe k) / (probe (S k) - probe k)).
Proof.
  intros Hk H. unfold bassRawMag. rewrite H.
  replace (Nat.eqb k (S k)) with false by (symmetry; apply Nat.eqb_neq; lia).
  pose proof (probe_increasing k (S k)) as Hinc.
  assert (Hpos : probe k < probe (S k)) by (apply Hinc; lia).
  fold (probe k). fold (probe (S k)).
  replace (gtb (probe (S k) - probe k) 0) with true
    by (symmetry; apply gtb_true; lra).
  set (t := (fc - probe k) / (probe (S k) - probe k)). ring.
Qed.

Section BassBranch.

Variables Math_exp Math_log Math_log2 : Q -> Q.
Variable Math_pow : Q -> Q -> Q.

Lemma getFrequencyData_bin (s : Source) (numBins i : nat) :
  running s = true -> (i < numBins)%nat ->
  rd (getFrequencyData Math_exp Math_log Math_log2 Math_pow s numBins) i
  = rawMagOf Math_exp Math_log (frame s) numBins i
    * freqGainOf Math_exp Math_log Math_log2 Math_pow numBins i.
Proof.
  intros Hrun Hi. unfold getFrequencyData. rewrite Hrun. simpl negb. cbv iota.
  unfold rd.
  rewrite (nth_indep _ 0
             (rawMagOf Math_exp Math_log (frame s) numBins 0
              * freqGainOf Math_exp Math_log Math_log2 Math_pow numBins 0))
    by (now rewrite length_map, length_seq).
  rewrite (map_nth (fun i => rawMagOf Math_exp Math_log (frame s) numBins i
                             * freqGainOf Math_exp Math_log Math_log2 Math_pow numBins i)).
  now rewrite seq_nth.
Qed.

(** C7.  For an output bin of [getFrequencyData] whose center frequency
    [fc] is below 550 Hz, the bin is its raw magnitude [m] times the
    frequency gain, and [m] comes from the Goertzel magnitudes: below the
    lowest probe (30 Hz) it is the magnitude of that probe, above the
    highest (500 Hz) the magnitude of that one, and in between it is the
    linear interpolation between the highest probe at or below [fc] and
    the lowest probe at or above [fc] (the magnitude itself when [fc] is
    a probe frequency). *)
Theorem bass_bins_interpolate (s : Source) (numBins i : nat) :
  let fc := freqCenterOf Math_exp Math_log numBins i in
  let m := rawMagOf Math_exp Math_log (frame s) numBins i in
  let bass := bassMagnitudes (frame s) in
  running s = true -> (i < numBins)%nat -> fc < 550 ->
  rd (getFrequencyData Math_exp Math_log Math_log2 Math_pow s numBins) i
  = m * freqGainOf Math_exp Math_log Math_log2 Math_pow numBins i
  /\ (fc < 30 -> m = rd bass 0)
  /\ (500 < fc -> m = rd bass 8)
  /\ (30 <= fc <= 500 ->
       exists lo hi,
         floor_probe fc lo /\ ceil_probe fc hi
         /\ ((lo = hi /\ m = rd bass lo)
             \/ (probe lo < fc < probe hi
                 /\ m == rd bass lo
                        + (rd bass hi - rd bass lo)
                          * ((fc - probe lo) / (probe hi - probe lo))))).
Proof.
  intros fc m bass Hrun Hi Hfc.
  split; [now apply getFrequencyData_bin |].
  assert (Hm : m = bassRawMag bass fc).
  { unfold m, rawMagOf. fold fc. unfold BASS_CROSSOVER_HZ.
    replace (ltb fc 550) with true by (symmetry; now apply ltb_true).
    reflexivity. }
  rewrite Hm. split; [| split].
  - intros H. apply bassRawMag_same. now apply probeLoop_under.
  - intros H. apply bassRawMag_same. now apply probeLoop_over.
  - intros [H30 H500].
    destruct (probe_region fc) as [H | [H | [[k [Hk H]] | [k [Hk H]]]]]; try lra.
    + destruct (floor_ceil_at fc k Hk H) as [Hf Hc].
      exists k, k. split; [exact Hf |]. split; [exact Hc |]. left.
      split; [reflexivity |]. apply bassRawMag_same. now apply probeLoop_at.
    + destruct (floor_ceil_between fc k Hk H) as [Hf Hc].
      exists k, (S k). split; [exact Hf |]. split; [exact Hc |]. right.
      split; [exact H |]. apply bassRawMag_between; [exact Hk |].
      now apply probeLoop_between.
Qed.

End BassBranch.

(** A running source with an empty spectrum, and the identity in place of
    [exp] and [log], to run the statement on: bin 0 of 20 is then centered
    at 144.5 Hz. *)
Definition demoSource : Source :=
  {| sampleBuffer := sampleBuffer newSource; writePos := 0; hopCount := 0;
     frame := {| magnitudes := []; bassMagnitudes := [1; 2; 3; 4; 5; 6; 7; 8; 9] |};
     running := true |}.

Lemma bass_bins_interpolate_witness :
  running demoSource = true /\ (0 < 20)%nat
  /\ freqCenterOf (fun x => x) (fun x => x) 20 0 < 550
  /\ exists lo hi,
       floor_probe (freqCenterOf (fun x => x) (fun x => x) 20 0) lo
       /\ ceil_probe (freqCenterOf (fun x => x) (fun x => x) 20 0) hi.
Proof.
  assert (H550 : freqCenterOf (fun x => x) (fun x => x) 20 0 < 550) by now vm_compute.
  split; [reflexivity |]. split; [lia |]. split; [exact H550 |].
  destruct (bass_bins_interpolate (fun x => x) (fun x => x) (fun x => x) (fun x _ => x)
              demoSource 20 0 eq_refl ltac:(lia) H550) as (_ & _ & _ & H).
  destruct H as (lo & hi & Hf & Hc & _); [split; now vm_compute |].
  now exists lo, hi.
Defined.

End MapperFacts.

(** ** The renderer: ranges of amplitudes, heights and colour bytes *)
Module RendererFacts.
Import JS Renderer.

Lemma Forall_app_both {A : Type} (P : A -> Prop) (l1 l2 : list A) :
  List.Forall P l1 -> List.Forall P l2 -> List.Forall P (l1 ++ l2).
Proof. intros H1 H2. apply List.Forall_app. now split. Qed.

(** A number in [[lo, hi]], or [NaN]. *)
Definition within (lo hi : Q) (v : num) : Prop :=
  match v with Some q => lo <= q <= hi | None => True end.

(** A number in [[lo, hi]]. *)
Definition number_within (lo hi : Q) (v : num) : Prop :=
  match v with Some q => lo <= q <= hi | None => False end.

Lemma number_is_within (lo hi : Q) (v : num) : number_within lo hi v -> within lo hi v.
Proof. now destruct v. Qed.

Lemma clamp01_Some (q : Q) : clamp01 (Some q) = Some (Math_max 0 (Math_min 1 q)).
Proof. reflexivity. Qed.

Lemma clamp01_None : clamp01 None = None.
Proof. reflexivity. Qed.

Lemma clampQ_range (q : Q) : 0 <= Math_max 0 (Math_min 1 q) <= 1.
Proof.
  split.
  - apply Math_max_ge_l.
  - apply Math_max_lub; [lra | apply Math_min_le_l].
Qed.

Lemma clamp01_range (v : num) : within 0 1 (clamp01 v).
Proof. destruct v as [q |]; [apply clampQ_range | exact I]. Qed.

Lemma clamp01_number (v : num) : v <> None -> number_within 0 1 (clamp01 v).
Proof. destruct v as [q |]; [intros _; apply clampQ_range | congruence]. Qed.

Lemma trunc_nonneg (q : Q) : 0 <= q -> trunc q = Qfloor q.
Proof.
  intros H. destruct q as [n d]. unfold trunc, Qfloor. simpl.
  unfold Qle in H. simpl in H.
  apply Z.quot_div_nonneg; lia.
Qed.

Lemma to_int32_small (z : Z) : (0 <= z < 2147483648)%Z -> to_int32 z = z.
Proof.
  intros H. unfold to_int32. rewrite Z.mod_small by lia. lia.
Qed.

(** [x | 0] on a number in [[0, m + 1)], [m] small: an integer in [[0, m]]. *)
Lemma or0_range (q : Q) (m : Z) :
  (0 <= m < 2147483647)%Z -> 0 <= q -> q < inject_Z (m + 1) ->
  (0 <= or0 q <= m)%Z /\ or0 q = Qfloor q.
Proof.
  intros Hm H0 H1.
  assert (Hlo : (0 <= Qfloor q)%Z).
  { change 0%Z with (Qfloor 0). now apply Qfloor_resp_le. }
  assert (Hhi : (Qfloor q < m + 1)%Z).
  { pose proof (Qfloor_le q) as Hf.
    assert (Hlt : inject_Z (Qfloor q) < inject_Z (m + 1)) by lra.
    now rewrite <- Zlt_Qlt in Hlt. }
  unfold or0. rewrite trunc_nonneg by exact H0.
  rewrite to_int32_small by lia. split; [lia | reflexivity].
Qed.

Lemma u8_range (v : Z) : (0 <= u8 v <= 255)%Z.
Proof. unfold u8. pose proof (Z.mod_pos_bound v 256). lia. Qed.

Lemma getGradientLUT_bytes (stops : list ColorStop) :
  List.Forall (fun v => (0 <= v <= 255)%Z) (getGradientLUT stops).
Proof.
  apply List.Forall_forall. intros v Hv. unfold getGradientLUT in Hv.
  apply in_flat_map in Hv. destruct Hv as [y [_ Hv]].
  destruct (sampleGradient stops _) as [[cr cg] cb].
  destruct Hv as [<- | [<- | [<- | []]]]; apply u8_range.
Qed.

Lemma lutAt_byte (lut : list Z) (i : Z) :
  List.Forall (fun v => (0 <= v <= 255)%Z) lut -> (0 <= lutAt lut i <= 255)%Z.
Proof.
  intros H. unfold lutAt. destruct (i <? 0)%Z; [lia |].
  destruct (nth_in_or_default (Z.to_nat i) lut 0%Z) as [Hin | ->]; [| lia].
  rewrite List.Forall_forall in H. now apply H.
Qed.

Lemma inject_Z_bounds (c lo hi : Z) :
  (lo <= c <= hi)%Z -> inject_Z lo <= inject_Z c <= inject_Z hi.
Proof. intros [H1 H2]. split; now rewrite <- Zle_Qle. Qed.

(** A store of the painter: a cell of the buffer and a byte. *)
Definition good_store (w : Z * Z) : Prop :=
  (0 <= fst w < STRIP_WIDTH * STRIP_HEIGHT * 4)%Z /\ (0 <= snd w <= 255)%Z.

Lemma scaled_byte (c : Z) (f : Q) :
  (0 <= c <= 255)%Z -> 0 <= f <= 1 -> (0 <= or0 (inject_Z c * f + 0.5) <= 255)%Z.
Proof.
  intros Hc Hf.
  destruct (inject_Z_bounds c 0 255 Hc) as [H0 H1].
  change (inject_Z 0) with 0 in H0. change (inject_Z 255) with 255 in H1.
  apply or0_range; [lia | nra |].
  change (inject_Z (255 + 1)) with 256. nra.
Qed.

Lemma boosted_byte (c : Z) (f : Q) :
  (0 <= c <= 255)%Z -> 0 <= f <= 2 ->
  (0 <= Z.min 255 (or0 (inject_Z c * f + 0.5)) <= 255)%Z.
Proof.
  intros Hc Hf.
  destruct (inject_Z_bounds c 0 255 Hc) as [H0 H1].
  change (inject_Z 0) with 0 in H0. change (inject_Z 255) with 255 in H1.
  assert (H : (0 <= or0 (inject_Z c * f + 0.5) <= 510)%Z).
  { apply or0_range; [lia | nra |]. change (inject_Z (510 + 1)) with 511. nra. }
  lia.
Qed.

Lemma fillPixel_good (lut : list Z) (x y : Z) :
  List.Forall (fun v => (0 <= v <= 255)%Z) lut ->
  (0 <= x < STRIP_WIDTH)%Z -> (0 <= y < STRIP_HEIGHT)%Z ->
  List.Forall good_store (fillPixel lut x y).
Proof.
  intros Hlut Hx Hy. unfold fillPixel, good_store.
  change STRIP_WIDTH with 200%Z in *. change STRIP_HEIGHT with 100%Z in *.
  set (d := (100 - 1 - y)%Z).
  set (fade := if (d <? 3)%Z then inject_Z (d + 1) * 0.25 else 1.0).
  assert (Hfade : 0 <= fade <= 1).
  { unfold fade. destruct (d <? 3)%Z eqn:E; [| lra].
    apply Z.ltb_lt in E.
    destruct (inject_Z_bounds (d + 1) 1 3) as [H0 H1]; [unfold d; lia |].
    change (inject_Z 1) with 1 in H0. change (inject_Z 3) with 3 in H1.
    lra. }
  repeat constructor; simpl; try lia;
    try (apply scaled_byte; [now apply lutAt_byte | exact Hfade]).
Qed.

Lemma fillColumn_good (lut : list Z) (x topY : Z) (fuel : nat) :
  List.Forall (fun v => (0 <= v <= 255)%Z) lut ->
  (0 <= x < STRIP_WIDTH)%Z ->
  forall y, (y < STRIP_HEIGHT)%Z -> List.Forall good_store (fillColumn fuel lut x topY y).
Proof.
  intros Hlut Hx. induction fuel as [| fuel IH]; intros y Hy; cbn [fillColumn];
    [constructor |].
  destruct ((topY <=? y)%Z && (0 <=? y)%Z) eqn:E; [| constructor].
  apply andb_true_iff in E. destruct E as [_ E]. apply Z.leb_le in E.
  apply Forall_app_both.
  - apply fillPixel_good; [exact Hlut | exact Hx | lia].
  - apply IH. lia.
Qed.

Lemma glowPixel_good (gr gg gb x topY g_row : Z) :
  (0 <= gr <= 255)%Z -> (0 <= gg <= 255)%Z -> (0 <= gb <= 255)%Z ->
  (0 <= x < STRIP_WIDTH)%Z ->
  List.Forall good_store (glowPixel gr gg gb x topY g_row).
Proof.
  intros Hr Hg Hb Hx. unfold glowPixel, good_store.
  change STRIP_WIDTH with 200%Z in *. change STRIP_HEIGHT with 100%Z in *.
  destruct ((topY + g_row <? 0)%Z || (100 <=? topY + g_row)%Z) eqn:E; [constructor |].
  apply orb_false_iff in E. destruct E as [E1 E2].
  apply Z.ltb_ge in E1. apply Z.leb_gt in E2.
  set (br := if (g_row =? 0)%Z then 1.6 else if (g_row =? 1)%Z then 1.3 else 1.1).
  assert (Hbr : 0 <= br <= 2).
  { unfold br. destruct (g_row =? 0)%Z; [lra |]. destruct (g_row =? 1)%Z; lra. }
  repeat constructor; simpl; try lia; try (now apply boosted_byte).
Qed.

Lemma paintColumn_good (lut : list Z) (curveH : num) (x : Z) :
  List.Forall (fun v => (0 <= v <= 255)%Z) lut ->
  (0 <= x < STRIP_WIDTH)%Z ->
  List.Forall good_store (paintColumn lut curveH x).
Proof.
  intros Hlut Hx. unfold paintColumn.
  destruct (nor0 (nadd curveH (Some 0.5%Q)) <=? 0)%Z; [constructor |].
  apply Forall_app_both.
  - apply fillColumn_good; [exact Hlut | exact Hx |].
    change STRIP_HEIGHT with 100%Z. lia.
  - apply List.Forall_forall. intros w Hw. apply in_flat_map in Hw.
    destruct Hw as [g_row [_ Hw]].
    match type of Hw with In _ (glowPixel ?cr ?cg ?cb _ ?top _) =>
      pose proof (glowPixel_good cr cg cb x top g_row
                    (lutAt_byte lut _ Hlut) (lutAt_byte lut _ Hlut)
                    (lutAt_byte lut _ Hlut) Hx) as H
    end.
    rewrite List.Forall_forall in H. now apply H.
Qed.

Lemma pixelWrites_good (bins : list num) (themeName : string) (numBars : nat)
    (leftEdge rightEdge : num) (writes : list (Z * Z)) :
  pixelWrites bins themeName numBars leftEdge rightEdge = Some writes ->
  List.Forall good_store writes.
Proof.
  unfold pixelWrites. destruct (themeStops themeName) as [stops |]; [| discriminate].
  cbv zeta. intros Heq.
  assert (Hw0 : writes
                = flat_map (fun x => paintColumn (getGradientLUT stops)
                     (nth x (curveHeightsOf (controlPoints bins numBars leftEdge rightEdge)
                               (Z.of_nat (numBars + 2))) None) (Z.of_nat x))
                    (seq 0 (Z.to_nat STRIP_WIDTH))) by congruence.
  clear Heq. subst writes. apply List.Forall_forall. intros w Hw.
  apply in_flat_map in Hw. destruct Hw as [x [Hx Hw]].
  apply in_seq in Hx.
  assert (H : List.Forall good_store
                (paintColumn (getGradientLUT stops)
                   (nth x (curveHeightsOf (controlPoints bins numBars leftEdge rightEdge)
                             (Z.of_nat (numBars + 2))) None)
                   (Z.of_nat x))).
  { apply paintColumn_good; [apply getGradientLUT_bytes |].
    change STRIP_WIDTH with 200%Z in *. simpl in Hx. lia. }
  rewrite List.Forall_forall in H. now apply H.
Qed.

Lemma pointsY_range (bins : list num) (numBars : nat) (leftEdge rightEdge : num) :
  List.Forall (within 0 1) (pointsY bins numBars leftEdge rightEdge).
Proof.
  unfold pointsY, cells. apply Forall_take.
  constructor; [apply clamp01_range |].
  apply Forall_app_both.
  - apply List.Forall_forall. intros v Hv. apply in_map_iff in Hv.
    destruct Hv as [i [<- _]]. apply clamp01_range.
  - constructor; [apply clamp01_range | constructor].
Qed.

Lemma ampAt_range (cp : ControlPoints) (n x : Z) : within 0 1 (ampAt cp n x).
Proof. apply clamp01_range. Qed.

Lemma height_range (a : num) :
  within 0 1 a -> within 0 96 (nmul a (Some (inject_Z (STRIP_HEIGHT - 4)))).
Proof.
  destruct a as [q |]; [| intros _; exact I]. cbn [within nmul].
  change (inject_Z (STRIP_HEIGHT - 4)) with 96. intros H. lra.
Qed.

Lemma curveHeights_range (cp : ControlPoints) (n : Z) :
  List.Forall (within 0 96) (curveHeightsOf cp n).
Proof.
  unfold curveHeightsOf. apply List.Forall_forall. intros h Hh.
  apply in_map_iff in Hh. destruct Hh as [x [<- _]].
  apply height_range, ampAt_range.
Qed.

(** A height that is [NaN] paints nothing. *)
Lemma paintColumn_NaN (lut : list Z) (x : Z) : paintColumn lut None x = [].
Proof. reflexivity. Qed.

(** The bytes left in the buffer are the values stored, unwrapped. *)
Lemma pixelBufferOf_bytes (writes : list (Z * Z)) :
  List.Forall (fun v => (0 <= v <= 255)%Z) (pixelBufferOf writes).
Proof.
  unfold pixelBufferOf.
  assert (H0 : List.Forall (fun v => (0 <= v <= 255)%Z)
                 (repeat 0%Z (Z.to_nat (STRIP_WIDTH * STRIP_HEIGHT * 4)))).
  { apply List.Forall_forall. intros v Hv. apply repeat_spec in Hv. lia. }
  revert H0. generalize (repeat 0%Z (Z.to_nat (STRIP_WIDTH * STRIP_HEIGHT * 4))).
  induction writes as [| w ws IH]; intros buf Hbuf; simpl; [exact Hbuf |].
  apply IH. destruct (fst w <? 0)%Z; [exact Hbuf |].
  apply List.Forall_forall. intros v Hv.
  apply list_elem_of_In, list_elem_of_lookup in Hv. destruct Hv as [i Hi].
  destruct (decide (Z.to_nat (fst w) = i)) as [Heq | Hne].
  - subst i. destruct (Nat.lt_ge_cases (Z.to_nat (fst w)) (length buf)) as [Hlt | Hge].
    + rewrite list_lookup_insert_eq in Hi by exact Hlt. injection Hi as <-. apply u8_range.
    + rewrite list_insert_ge in Hi by exact Hge.
      rewrite List.Forall_forall in Hbuf. apply Hbuf.
      apply list_elem_of_In, list_elem_of_lookup. now exists (Z.to_nat (fst w)).
  - rewrite list_lookup_insert_ne in Hi by exact Hne.
    rewrite List.Forall_forall in Hbuf. apply Hbuf.
    apply list_elem_of_In, list_elem_of_lookup. now exists i.
Qed.

(** The search ends within its fuel: more turns change nothing once the
    fuel covers [hi - lo], and the segment found lies in [[lo, max lo hi]]. *)
Lemma findSegment_enough (xs : list num) (x : Q) (fuel : nat) :
  forall (lo hi : Z) (extra : nat),
  (hi - lo <= Z.of_nat fuel)%Z ->
  findSegment (fuel + extra) xs x lo hi = findSegment fuel xs x lo hi
  /\ (lo <= findSegment fuel xs x lo hi <= Z.max lo hi)%Z.
Proof.
  induction fuel as [| fuel IH]; intros lo hi extra Hf.
  - simpl. destruct extra as [| extra]; simpl.
    + split; [reflexivity | lia].
    + replace (lo <? hi)%Z with false by (symmetry; apply Z.ltb_ge; lia).
      split; [reflexivity | lia].
  - cbn [Nat.add findSegment]. destruct (lo <? hi)%Z eqn:E; [| split; [reflexivity | lia]].
    apply Z.ltb_lt in E.
    assert (Hmid : (lo <= Z.shiftr (lo + hi) 1 < hi)%Z).
    { rewrite Z.shiftr_div_pow2 by lia. change (2 ^ 1)%Z with 2%Z.
      split; [apply Z.div_le_lower_bound; lia | apply Z.div_lt_upper_bound; lia]. }
    destruct (nltb _ (Some x)).
    + destruct (IH (Z.shiftr (lo + hi) 1 + 1)%Z hi extra) as [H1 H2]; [lia |].
      split; [exact H1 | lia].
    + destruct (IH lo (Z.shiftr (lo + hi) 1) extra) as [H1 H2]; [lia |].
      split; [exact H1 | lia].
Qed.

(** Bins that rise from silence to full scale across one dial: the
    control points run 0, 0, 1/64, 1, 1, 1, 1. *)
Definition risingBins : list num := [Some 0; Some (1 # 64); Some 1; Some 1; Some 1].

Fixpoint nondecreasing (l : list num) : bool :=
  match l with
  | a :: (b :: _) as rest => nleb a b && nondecreasing rest
  | _ => true
  end.

(** C1.  On the control points that [renderVisualizerFrame] builds from
    the rising bins above (left edge 0, right edge 1, five bars), whose
    y-values never decrease, the curve at pixel column 40, which lies
    between the second and third control points, is below both of their
    y-values: the spline undershoots although the data is monotone. *)
Theorem spline_undershoots_monotone_data :
  let cp := controlPoints risingBins 5 (Some 0) (Some 1) in
  nondecreasing (cpY cp) = true
  /\ nlt (at_ (cpX cp) 1) (Some 40) /\ nlt (Some 40) (at_ (cpX cp) 2)
  /\ neq (at_ (cpY cp) 1) (Some 0) /\ neq (at_ (cpY cp) 2) (Some (1 # 64))
  /\ neq (evalCurve cp 7 40) (Some (- (27836289 # 504358336)))
  /\ nlt (evalCurve cp 7 40) (at_ (cpY cp) 1)
  /\ nlt (evalCurve cp 7 40) (at_ (cpY cp) 2).
Proof.
  cbv zeta. repeat split; now vm_compute.
Qed.

End RendererFacts.

(** ** The PNG encoder: buffers, chunks and base64 *)
Module PngFacts.
Import Png.

(** *** Block stores into a buffer *)

Lemma writeBytes_length (data : list Z) (off : nat) (buf : list Z) :
  length (writeBytes data off buf) = length buf.
Proof. apply length_inserts. Qed.

(** A block that fits replaces exactly its cells. *)
Lemma writeBytes_fits (data : list Z) (off : nat) (buf : list Z) :
  (off + length data <= length buf)%nat ->
  writeBytes data off buf = take off buf ++ data ++ drop (off + length data) buf.
Proof.
  intros H. unfold writeBytes.
  rewrite <- (take_drop off buf) at 1.
  rewrite <- (take_drop (length data) (drop off buf)) at 1.
  assert (Hl : length (take off buf) = off) by (rewrite length_take; lia).
  rewrite <- Hl at 1.
  rewrite <- (Nat.add_0_r (length (take off buf))) at 1.
  rewrite list_inserts_app_r, list_inserts_0_r.
  - now rewrite drop_drop.
  - rewrite length_take, length_drop. lia.
Qed.

Lemma writeBytes_take_end (data : list Z) (off : nat) (buf : list Z) :
  (off + length data <= length buf)%nat ->
  take (off + length data) (writeBytes data off buf) = take off buf ++ data.
Proof.
  intros H. rewrite writeBytes_fits by exact H.
  assert (Hl : length (take off buf) = off) by (rewrite length_take; lia).
  rewrite app_assoc.
  rewrite take_app_length'; [reflexivity |].
  rewrite length_app, Hl. reflexivity.
Qed.

Lemma writeBytes_take_before (data : list Z) (off k : nat) (buf : list Z) :
  (k <= off)%nat -> take k (writeBytes data off buf) = take k buf.
Proof.
  intros H. apply list_eq. intros j.
  destruct (Nat.lt_ge_cases j k) as [Hj | Hj].
  - rewrite !lookup_take_lt by exact Hj. unfold writeBytes.
    apply list_lookup_inserts_lt. lia.
  - rewrite !lookup_take_ge by exact Hj. reflexivity.
Qed.

Lemma writeBytes_drop_after (data : list Z) (off k : nat) (buf : list Z) :
  (off + length data <= k)%nat -> drop k (writeBytes data off buf) = drop k buf.
Proof.
  intros H. apply list_eq. intros j. rewrite !lookup_drop. unfold writeBytes.
  apply list_lookup_inserts_ge. lia.
Qed.

(** *** Base64 as the standard defines it *)

(** The character of a sextet. *)
Definition b64char (v : Z) : ascii :=
  match String.get (Z.to_nat v) B64_CHARS with
  | Some c => c
  | None => "="%char
  end.

Definition pad : ascii := "="%char.

(** Four characters per three bytes; a remainder of one byte gives two
    characters and two pads, a remainder of two gives three and one pad. *)
Fixpoint base64 (bytes : list Z) : string :=
  match bytes with
  | [] => EmptyString
  | [b0] =>
      String (b64char (b0 / 4)) (String (b64char (b0 mod 4 * 16))
        (String pad (String pad EmptyString)))
  | [b0; b1] =>
      String (b64char (b0 / 4)) (String (b64char (b0 mod 4 * 16 + b1 / 16))
        (String (b64char (b1 mod 16 * 4)) (String pad EmptyString)))
  | b0 :: b1 :: b2 :: rest =>
      String (b64char (b0 / 4)) (String (b64char (b0 mod 4 * 16 + b1 / 16))
        (String (b64char (b1 mod 16 * 4 + b2 / 64)) (String (b64char (b2 mod 64))
          (base64 rest))))
  end%Z.

Fixpoint b64find (c : ascii) (alphabet : string) (i : Z) : option Z :=
  match alphabet with
  | EmptyString => None
  | String c' rest => if Ascii.eqb c c' then Some i else b64find c rest (i + 1)
  end.

(** The sextet of a character of the alphabet. *)
Definition b64value (c : ascii) : option Z := b64find c B64_CHARS 0.

Definition isEmpty (t : string) : bool :=
  match t with EmptyString => true | _ => false end.

(** The standard decoder: groups of four characters, pads only at the end. *)
Fixpoint base64_decode (t : string) : option (list Z) :=
  match t with
  | EmptyString => Some []
  | String c0 (String c1 (String c2 (String c3 rest))) =>
      match b64value c0, b64value c1 with
      | Some v0, Some v1 =>
          if Ascii.eqb c2 pad
          then if Ascii.eqb c3 pad && isEmpty rest
               then Some [v0 * 4 + v1 / 16]%Z
               else None
          else
            match b64value c2 with
            | None => None
            | Some v2 =>
                if Ascii.eqb c3 pad
                then if isEmpty rest
                     then Some [v0 * 4 + v1 / 16; v1 mod 16 * 16 + v2 / 4]%Z
                     else None
                else
                  match b64value c3, base64_decode rest with
                  | Some v3, Some tl =>
                      Some ((v0 * 4 + v1 / 16) :: (v1 mod 16 * 16 + v2 / 4)
                            :: (v2 mod 4 * 64 + v3) :: tl)%Z
                  | _, _ => None
                  end
            end
      | _, _ => None
      end
  | _ => None
  end.

Lemma b64value_char (v : Z) :
  (0 <= v < 64)%Z -> b64value (b64char v) = Some v /\ Ascii.eqb (b64char v) pad = false.
Proof.
  assert (Hnat : forall n, (n < 64)%nat ->
            b64value (b64char (Z.of_nat n)) = Some (Z.of_nat n)
            /\ Ascii.eqb (b64char (Z.of_nat n)) pad = false).
  { intros n Hn. do 64 (destruct n as [| n]; [now vm_compute |]). lia. }
  intros H. rewrite <- (Z2Nat.id v) by lia. apply Hnat. lia.
Qed.

(** Decoding the encoding of bytes gives the bytes back. *)
Lemma base64_round_trip (bytes : list Z) :
  Forall is_byte bytes -> base64_decode (base64 bytes) = Some bytes.
Proof.
  assert (Hgen : forall n (l : list Z), (length l <= n)%nat -> Forall is_byte l ->
                   base64_decode (base64 l) = Some l).
  { induction n as [| n IH]; intros l Hlen Hall.
    - destruct l; [reflexivity | simpl in Hlen; lia].
    - destruct l as [| b0 [| b1 [| b2 rest]]]; [reflexivity | | |].
      + inversion Hall as [| ? ? H0 _]; subst. unfold is_byte in H0.
        cbn [base64 base64_decode].
        destruct (b64value_char (b0 / 4)) as [-> _]; [Z.div_mod_to_equations; lia |].
        destruct (b64value_char (b0 mod 4 * 16)) as [-> _]; [Z.div_mod_to_equations; lia |].
        replace (Ascii.eqb pad pad) with true by reflexivity. simpl.
        f_equal. f_equal. Z.div_mod_to_equations; lia.
      + inversion Hall as [| ? ? H0 Hall1]; subst.
        inversion Hall1 as [| ? ? H1 _]; subst. unfold is_byte in H0, H1.
        cbn [base64 base64_decode].
        destruct (b64value_char (b0 / 4)) as [-> _]; [Z.div_mod_to_equations; lia |].
        destruct (b64value_char (b0 mod 4 * 16 + b1 / 16)) as [-> _];
          [Z.div_mod_to_equations; lia |].
        destruct (b64value_char (b1 mod 16 * 4)) as [-> ->];
          [Z.div_mod_to_equations; lia |].
        replace (Ascii.eqb pad pad) with true by reflexivity. simpl.
        f_equal. f_equal; [| f_equal]; Z.div_mod_to_equations; lia.
      + inversion Hall as [| ? ? H0 Hall1]; subst.
        inversion Hall1 as [| ? ? H1 Hall2]; subst.
        inversion Hall2 as [| ? ? H2 Hall3]; subst. unfold is_byte in H0, H1, H2.
        cbn [base64 base64_decode].
        destruct (b64value_char (b0 / 4)) as [-> _]; [Z.div_mod_to_equations; lia |].
        destruct (b64value_char (b0 mod 4 * 16 + b1 / 16)) as [-> _];
          [Z.div_mod_to_equations; lia |].
        destruct (b64value_char (b1 mod 16 * 4 + b2 / 64)) as [-> ->];
          [Z.div_mod_to_equations; lia |].
        destruct (b64value_char (b2 mod 64)) as [-> ->];
          [Z.div_mod_to_equations; lia |].
        rewrite IH; [| simpl in Hlen; lia | exact Hall3].
        f_equal. f_equal; [| f_equal; [| f_equal]]; Z.div_mod_to_equations; lia. }
  intros H. now apply (Hgen (length bytes)).
Qed.

(** *** The sextets of the source are the standard ones *)

Definition bytes256 : list Z := map Z.of_nat (seq 0 256).

Lemma in_bytes256 (v : Z) : is_byte v -> In v bytes256.
Proof.
  intros H. unfold is_byte in H. unfold bytes256. apply in_map_iff.
  exists (Z.to_nat v). split; [lia | apply in_seq; lia].
Qed.

(** A check run over every pair of bytes holds of every pair of bytes. *)
Lemma check_byte_pairs (f : Z -> Z -> bool) :
  forallb (fun a => forallb (f a) bytes256) bytes256 = true ->
  forall a c, is_byte a -> is_byte c -> f a c = true.
Proof.
  intros H a c Ha Hc. rewrite forallb_forall in H.
  specialize (H a (in_bytes256 a Ha)). rewrite forallb_forall in H.
  exact (H c (in_bytes256 c Hc)).
Qed.

Definition sextets_agree (a c : Z) : bool :=
  (Z.land (Z.shiftr a 2) 63 =? a / 4)%Z
  && (Z.land (Z.lor (Z.shiftl a 4) (Z.shiftr c 4)) 63 =? a mod 4 * 16 + c / 16)%Z
  && (Z.land (Z.lor (Z.shiftl a 2) (Z.shiftr c 6)) 63 =? a mod 16 * 4 + c / 64)%Z
  && (Z.land a 63 =? a mod 64)%Z
  && (Z.land (Z.shiftl a 4) 63 =? a mod 4 * 16)%Z
  && (Z.land (Z.shiftl a 2) 63 =? a mod 16 * 4)%Z.

Lemma sextets (a c : Z) :
  is_byte a -> is_byte c ->
  (Z.land (Z.shiftr a 2) 63 = a / 4
   /\ Z.land (Z.lor (Z.shiftl a 4) (Z.shiftr c 4)) 63 = a mod 4 * 16 + c / 16
   /\ Z.land (Z.lor (Z.shiftl a 2) (Z.shiftr c 6)) 63 = a mod 16 * 4 + c / 64
   /\ Z.land a 63 = a mod 64
   /\ Z.land (Z.shiftl a 4) 63 = a mod 4 * 16
   /\ Z.land (Z.shiftl a 2) 63 = a mod 16 * 4)%Z.
Proof.
  intros Ha Hc.
  assert (H : sextets_agree a c = true).
  { apply check_byte_pairs; [now vm_compute | exact Ha | exact Hc]. }
  unfold sextets_agree in H. rewrite !andb_true_iff, !Z.eqb_eq in H. tauto.
Qed.

(** The character stored for a sextet [v], read back as text. *)
Lemma b64_text (v : Z) :
  (0 <= v)%Z -> asciiOf [b64 v] = String (b64char (Z.land v 63)) EmptyString.
Proof.
  intros Hv. unfold asciiOf, b64. simpl. f_equal.
  assert (Hr : (0 <= Z.land v 63 < 64)%Z).
  { change 63%Z with (Z.ones 6). rewrite Z.land_ones by lia.
    apply Z.mod_pos_bound. lia. }
  rewrite <- (Z2Nat.id (Z.land v 63)) by lia. rewrite Nat2Z.id.
  assert (Hn : (Z.to_nat (Z.land v 63) < 64)%nat) by lia.
  generalize (Z.to_nat (Z.land v 63)) Hn. clear. intros n Hn.
  do 64 (destruct n as [| n]; [now vm_compute |]). lia.
Qed.

Lemma asciiOf_app (xs ys : list Z) : asciiOf (xs ++ ys) = (asciiOf xs ++ asciiOf ys)%string.
Proof.
  unfold asciiOf. rewrite map_app.
  induction (map (fun v => ascii_of_N (Z.to_N (Z.land v 127))) xs) as [| c cs IH];
    simpl; [reflexivity | now rewrite IH].
Qed.

Lemma asciiOf_codesOf (t : string) :
  Forall (fun c => (Z.of_N (N_of_ascii c) < 128)%Z) (list_ascii_of_string t) ->
  asciiOf (codesOf t) = t.
Proof.
  unfold asciiOf, codesOf. rewrite map_map.
  induction t as [| c t IH]; simpl; intros H; [reflexivity |].
  inversion H as [| ? ? Hc Ht]; subst. rewrite IH by exact Ht. f_equal.
  assert (Hn : (0 <= Z.of_N (N_of_ascii c) < 128)%Z) by lia.
  change 127%Z with (Z.ones 7). rewrite Z.land_ones by lia.
  rewrite Z.mod_small by lia. rewrite N2Z.id. apply ascii_N_embedding.
Qed.

(** The three-byte groups of the standard encoding compose. *)
Lemma base64_app (k : nat) :
  forall l l' : list Z, length l = (3 * k)%nat ->
  base64 (l ++ l') = (base64 l ++ base64 l')%string.
Proof.
  induction k as [| k IH]; intros l l' Hlen.
  - destruct l; [reflexivity | simpl in Hlen; lia].
  - destruct l as [| b0 [| b1 [| b2 rest]]]; simpl in Hlen; try lia.
    cbn [app base64 String.append]. rewrite IH by lia. reflexivity.
Qed.

Lemma group_text (b0 b1 b2 : Z) :
  is_byte b0 -> is_byte b1 -> is_byte b2 ->
  asciiOf [ b64 (Z.shiftr b0 2); b64 (Z.lor (Z.shiftl b0 4) (Z.shiftr b1 4));
            b64 (Z.lor (Z.shiftl b1 2) (Z.shiftr b2 6)); b64 b2 ]
  = base64 [b0; b1; b2].
Proof.
  intros H0 H1 H2.
  destruct (sextets b0 b1 H0 H1) as (E0 & E1 & _).
  destruct (sextets b1 b2 H1 H2) as (_ & _ & E2 & _).
  destruct (sextets b2 b2 H2 H2) as (_ & _ & _ & E3 & _).
  unfold is_byte in H0, H1, H2.
  change [ b64 (Z.shiftr b0 2); b64 (Z.lor (Z.shiftl b0 4) (Z.shiftr b1 4));
           b64 (Z.lor (Z.shiftl b1 2) (Z.shiftr b2 6)); b64 b2 ]
    with ([b64 (Z.shiftr b0 2)] ++ [b64 (Z.lor (Z.shiftl b0 4) (Z.shiftr b1 4))]
          ++ [b64 (Z.lor (Z.shiftl b1 2) (Z.shiftr b2 6))] ++ [b64 b2]).
  rewrite !asciiOf_app, !b64_text, E0, E1, E2, E3; try reflexivity; try lia.
  - apply Z.lor_nonneg. split; [apply Z.shiftl_nonneg | apply Z.shiftr_nonneg]; lia.
  - apply Z.lor_nonneg. split; [apply Z.shiftl_nonneg | apply Z.shiftr_nonneg]; lia.
  - apply Z.shiftr_nonneg. lia.
Qed.

Lemma tail1_text (b0 : Z) :
  is_byte b0 ->
  asciiOf [b64 (Z.shiftr b0 2); b64 (Z.shiftl b0 4); 61%Z; 61%Z] = base64 [b0].
Proof.
  intros H0. destruct (sextets b0 b0 H0 H0) as (E0 & _ & _ & _ & E4 & _).
  unfold is_byte in H0.
  change [b64 (Z.shiftr b0 2); b64 (Z.shiftl b0 4); 61%Z; 61%Z]
    with ([b64 (Z.shiftr b0 2)] ++ [b64 (Z.shiftl b0 4)] ++ [61%Z; 61%Z]).
  rewrite !asciiOf_app, !b64_text, E0, E4; try reflexivity.
  - apply Z.shiftl_nonneg. lia.
  - apply Z.shiftr_nonneg. lia.
Qed.

Lemma tail2_text (b0 b1 : Z) :
  is_byte b0 -> is_byte b1 ->
  asciiOf [ b64 (Z.shiftr b0 2); b64 (Z.lor (Z.shiftl b0 4) (Z.shiftr b1 4));
            b64 (Z.shiftl b1 2); 61%Z ]
  = base64 [b0; b1].
Proof.
  intros H0 H1.
  destruct (sextets b0 b1 H0 H1) as (E0 & E1 & _).
  destruct (sextets b1 b1 H1 H1) as (_ & _ & _ & _ & _ & E5).
  unfold is_byte in H0, H1.
  change [ b64 (Z.shiftr b0 2); b64 (Z.lor (Z.shiftl b0 4) (Z.shiftr b1 4));
           b64 (Z.shiftl b1 2); 61%Z ]
    with ([b64 (Z.shiftr b0 2)] ++ [b64 (Z.lor (Z.shiftl b0 4) (Z.shiftr b1 4))]
          ++ [b64 (Z.shiftl b1 2)] ++ [61%Z]).
  rewrite !asciiOf_app, !b64_text, E0, E1, E5; try reflexivity.
  - apply Z.shiftl_nonneg. lia.
  - apply Z.lor_nonneg. split; [apply Z.shiftl_nonneg | apply Z.shiftr_nonneg]; lia.
  - apply Z.shiftr_nonneg. lia.
Qed.

(** *** The base64 loop writes the standard encoding *)

Lemma lookup_nth (l : list Z) (i : nat) :
  (i < length l)%nat -> l !! i = Some (nth i l 0%Z).
Proof.
  intros H. destruct (lookup_lt_is_Some_2 l i H) as [x Hx].
  rewrite Hx. f_equal. symmetry. now apply nth_lookup_Some.
Qed.

Lemma nth_byte (l : list Z) (n i : nat) :
  Forall is_byte (take n l) -> (i < n)%nat -> (n <= length l)%nat -> is_byte (nth i l 0%Z).
Proof.
  intros Hall Hi Hn.
  apply (Forall_lookup_1 _ _ i (nth i l 0%Z) Hall).
  rewrite lookup_take_lt by exact Hi. apply lookup_nth. lia.
Qed.

Lemma store_length (n : nat) (x : Z) (d : list Z) : length (store n x d) = length d.
Proof. apply length_insert. Qed.

(** A store just past a known prefix extends the prefix. *)
Lemma store_extend (d : list Z) (n : nat) (x : Z) (pre : list Z) :
  (n < length d)%nat -> take n d = pre -> take (S n) (store n x d) = pre ++ [x].
Proof.
  intros Hn Hpre. unfold store.
  rewrite (take_S_r _ n x) by (now apply list_lookup_insert_eq).
  rewrite take_insert_ge by lia. now rewrite Hpre.
Qed.

Lemma store4_extend (d : list Z) (n : nat) (x0 x1 x2 x3 : Z) :
  (n + 4 <= length d)%nat ->
  let d' := store (n + 3) x3 (store (n + 2) x2 (store (n + 1) x1 (store n x0 d))) in
  length d' = length d /\ take (n + 4) d' = take n d ++ [x0; x1; x2; x3].
Proof.
  intros Hn d'. split; [unfold d'; now rewrite !store_length |].
  unfold d'.
  replace (n + 4)%nat with (S (n + 3)) by lia.
  rewrite (store_extend _ (n + 3) x3 (take n d ++ [x0; x1; x2]));
    [now rewrite <- app_assoc | rewrite !store_length; lia |].
  replace (n + 3)%nat with (S (n + 2)) by lia.
  rewrite (store_extend _ (n + 2) x2 (take n d ++ [x0; x1]));
    [now rewrite <- app_assoc | rewrite !store_length; lia |].
  replace (n + 2)%nat with (S (n + 1)) by lia.
  rewrite (store_extend _ (n + 1) x1 (take n d ++ [x0]));
    [now rewrite <- app_assoc | rewrite !store_length; lia |].
  replace (n + 1)%nat with (S n) by lia.
  now rewrite (store_extend _ n x0 (take n d)) by (first [lia | reflexivity]).
Qed.

Lemma take_three (l : list Z) (n : nat) :
  (n + 3 <= length l)%nat ->
  take (n + 3) l = take n l ++ [nth n l 0%Z; nth (n + 1) l 0%Z; nth (n + 2) l 0%Z].
Proof.
  intros H.
  replace (n + 3)%nat with (S (S (S n))) by lia.
  rewrite (take_S_r l (S (S n)) (nth (n + 2) l 0%Z))
    by (replace (S (S n)) with (n + 2)%nat by lia; apply lookup_nth; lia).
  rewrite (take_S_r l (S n) (nth (n + 1) l 0%Z))
    by (replace (S n) with (n + 1)%nat by lia; apply lookup_nth; lia).
  rewrite (take_S_r l n (nth n l 0%Z)) by (apply lookup_nth; lia).
  now rewrite <- !app_assoc.
Qed.

(** After [k] turns of the main loop. *)
Lemma b64Groups_spec (src d : list Z) (k : nat) :
  (3 * k <= length src)%nat -> (PREFIX_LEN + 4 * k <= length d)%nat ->
  Forall is_byte (take (3 * k) src) ->
  exists d' codes,
    Nat.iter k (b64Group src) (0%nat, PREFIX_LEN, d)
    = ((3 * k)%nat, (PREFIX_LEN + 4 * k)%nat, d')
    /\ length d' = length d
    /\ take (PREFIX_LEN + 4 * k) d' = take PREFIX_LEN d ++ codes
    /\ asciiOf codes = base64 (take (3 * k) src).
Proof.
  induction k as [| k IH]; intros Hsrc Hd Hall.
  - exists d, []. rewrite app_nil_r.
    split; [reflexivity |]. split; [reflexivity |]. split; reflexivity.
  - destruct IH as (d1 & codes & Hrun & Hlen & Htake & Htext); [lia | lia | |].
    { replace (3 * k)%nat with (Nat.min (3 * k) (3 * S k)) by lia.
      rewrite <- take_take. now apply Forall_take. }
    rewrite Nat.iter_succ, Hrun. unfold b64Group.
    set (b0 := nth (3 * k) src 0%Z).
    set (b1 := nth (3 * k + 1) src 0%Z).
    set (b2 := nth (3 * k + 2) src 0%Z).
    destruct (store4_extend d1 (PREFIX_LEN + 4 * k)
                (b64 (Z.shiftr b0 2)) (b64 (Z.lor (Z.shiftl b0 4) (Z.shiftr b1 4)))
                (b64 (Z.lor (Z.shiftl b1 2) (Z.shiftr b2 6))) (b64 b2)) as [Hl4 Ht4];
      [lia |].
    replace (3 * S k)%nat with (3 * k + 3)%nat in * by lia.
    replace (PREFIX_LEN + 4 * S k)%nat with (PREFIX_LEN + 4 * k + 4)%nat in * by lia.
    eexists. exists (codes ++ [ b64 (Z.shiftr b0 2); b64 (Z.lor (Z.shiftl b0 4) (Z.shiftr b1 4));
                                b64 (Z.lor (Z.shiftl b1 2) (Z.shiftr b2 6)); b64 b2 ]).
    split; [reflexivity |].
    split; [now rewrite Hl4 |].
    split.
    + rewrite Ht4, Htake. now rewrite <- app_assoc.
    + rewrite asciiOf_app, Htext.
      rewrite take_three by lia. fold b0 b1 b2.
      rewrite (base64_app k) by (rewrite length_take; lia).
      f_equal. apply group_text.
      * apply (nth_byte src (3 * k + 3)); [exact Hall | lia | lia].
      * apply (nth_byte src (3 * k + 3)); [exact Hall | lia | lia].
      * apply (nth_byte src (3 * k + 3)); [exact Hall | lia | lia].
Qed.

Lemma take_one (l : list Z) (n : nat) :
  (n + 1 <= length l)%nat -> take (n + 1) l = take n l ++ [nth n l 0%Z].
Proof.
  intros H. replace (n + 1)%nat with (S n) by lia.
  now rewrite (take_S_r l n (nth n l 0%Z)) by (apply lookup_nth; lia).
Qed.

Lemma take_two (l : list Z) (n : nat) :
  (n + 2 <= length l)%nat ->
  take (n + 2) l = take n l ++ [nth n l 0%Z; nth (n + 1) l 0%Z].
Proof.
  intros H. replace (n + 2)%nat with (S (S n)) by lia.
  rewrite (take_S_r l (S n) (nth (n + 1) l 0%Z))
    by (replace (S n) with (n + 1)%nat by lia; apply lookup_nth; lia).
  rewrite (take_S_r l n (nth n l 0%Z)) by (apply lookup_nth; lia).
  now rewrite <- app_assoc.
Qed.

(** Step 5 as a whole: the text written after the prefix is the standard
    base64 encoding of the first [n] bytes of [src]. *)
Lemma b64Encode_spec (src d : list Z) (n : nat) :
  (n <= length src)%nat -> (PREFIX_LEN + 4 * Nat.div (n + 2) 3 <= length d)%nat ->
  Forall is_byte (take n src) ->
  exists di uri codes,
    b64Encode src n d = (di, uri)
    /\ length uri = length d
    /\ take PREFIX_LEN uri = take PREFIX_LEN d
    /\ take di uri = take PREFIX_LEN d ++ codes
    /\ asciiOf codes = base64 (take n src).
Proof.
  intros Hsrc Hd Hall. unfold b64Encode.
  pose proof (Nat.div_mod_eq n 3) as Hdm.
  assert (Hrem : (Nat.modulo n 3 < 3)%nat) by (apply Nat.mod_upper_bound; lia).
  pose proof (Nat.div_mod_eq (n + 2) 3) as Hdm2.
  assert (Hrem2 : (Nat.modulo (n + 2) 3 < 3)%nat) by (apply Nat.mod_upper_bound; lia).
  assert (Hk : Nat.div (n - Nat.modulo n 3) 3 = Nat.div n 3).
  { replace (n - Nat.modulo n 3)%nat with (Nat.div n 3 * 3)%nat by lia.
    apply Nat.div_mul. lia. }
  rewrite Hk.
  set (k := Nat.div n 3) in *. set (rem := Nat.modulo n 3) in *.
  assert (Hcap : (PREFIX_LEN + 4 * k + (if Nat.eqb rem 0 then 0 else 4) <= length d)%nat).
  { destruct (Nat.eqb rem 0) eqn:E; [lia |]. apply Nat.eqb_neq in E. lia. }
  clearbody k rem. clear Hdm2 Hrem2 Hk.
  destruct (b64Groups_spec src d k) as (d1 & codes & Hrun & Hlen & Htake & Htext).
  { lia. }
  { destruct (Nat.eqb rem 0); lia. }
  { replace (3 * k)%nat with (Nat.min (3 * k) n) by lia.
    rewrite <- take_take. now apply Forall_take. }
  rewrite Hrun. unfold b64Tail.
  assert (Hpre : take PREFIX_LEN d1 = take PREFIX_LEN d).
  { replace PREFIX_LEN with (Nat.min PREFIX_LEN (PREFIX_LEN + 4 * k)) at 1 by lia.
    rewrite <- take_take, Htake, take_app_le; [apply take_idemp |].
    rewrite length_take. lia. }
  destruct rem as [| [| [| r]]]; [| | | lia].
  - exists (PREFIX_LEN + 4 * k)%nat, d1, codes.
    split; [reflexivity |]. split; [exact Hlen |]. split; [exact Hpre |].
    split; [exact Htake |].
    rewrite Htext. f_equal. f_equal. lia.
  - cbn [Nat.eqb] in Hcap.
    set (b0 := nth (3 * k) src 0%Z).
    destruct (store4_extend d1 (PREFIX_LEN + 4 * k)
                (b64 (Z.shiftr b0 2)) (b64 (Z.shiftl b0 4)) 61%Z 61%Z) as [Hl4 Ht4];
      [lia |].
    eexists. eexists. exists (codes ++ [b64 (Z.shiftr b0 2); b64 (Z.shiftl b0 4); 61%Z; 61%Z]).
    split; [reflexivity |]. split; [now rewrite Hl4 |].
    split.
    { rewrite <- Hpre.
      replace PREFIX_LEN with (Nat.min PREFIX_LEN (PREFIX_LEN + 4 * k + 4)) at 1 by lia.
      rewrite <- take_take, Ht4, take_app_le; [| rewrite length_take; lia].
      rewrite take_take. f_equal; lia. }
    split; [rewrite Ht4, Htake; now rewrite <- app_assoc |].
    rewrite asciiOf_app, Htext.
    replace (take n src) with (take (3 * k + 1) src) by (f_equal; lia).
    rewrite take_one by lia. fold b0.
    rewrite (base64_app k) by (rewrite length_take; lia).
    f_equal. apply tail1_text.
    apply (nth_byte src n); [exact Hall | lia | lia].
  - cbn [Nat.eqb] in Hcap.
    set (b0 := nth (3 * k) src 0%Z). set (b1 := nth (3 * k + 1) src 0%Z).
    destruct (store4_extend d1 (PREFIX_LEN + 4 * k)
                (b64 (Z.shiftr b0 2)) (b64 (Z.lor (Z.shiftl b0 4) (Z.shiftr b1 4)))
                (b64 (Z.shiftl b1 2)) 61%Z) as [Hl4 Ht4];
      [lia |].
    eexists. eexists.
    exists (codes ++ [ b64 (Z.shiftr b0 2); b64 (Z.lor (Z.shiftl b0 4) (Z.shiftr b1 4));
                       b64 (Z.shiftl b1 2); 61%Z ]).
    split; [reflexivity |]. split; [now rewrite Hl4 |].
    split.
    { rewrite <- Hpre.
      replace PREFIX_LEN with (Nat.min PREFIX_LEN (PREFIX_LEN + 4 * k + 4)) at 1 by lia.
      rewrite <- take_take, Ht4, take_app_le; [| rewrite length_take; lia].
      rewrite take_take. f_equal; lia. }
    split; [rewrite Ht4, Htake; now rewrite <- app_assoc |].
    rewrite asciiOf_app, Htext.
    replace (take n src) with (take (3 * k + 2) src) by (f_equal; lia).
    rewrite take_two by lia. fold b0 b1.
    rewrite (base64_app k) by (rewrite length_take; lia).
    f_equal. apply tail2_text.
    + apply (nth_byte src n); [exact Hall | lia | lia].
    + apply (nth_byte src n); [exact Hall | lia | lia].
Qed.

(** *** The PNG file: signature and chunks *)

(** The checksum of a byte sequence as the encoder's table loop computes
    it ([crc32] on a list).  On bytes it is the CRC-32 of the format:
    [Crc32Format.crcOf_is_crc32]. *)
Definition crcOf (bytes : list Z) : Z :=
  Z.lxor (fold_left crcByte bytes 4294967295%Z) 4294967295%Z.

(** A chunk: length, type, data, and the CRC of type and data. *)
Definition chunk (ty : string) (data : list Z) : list Z :=
  be32 (Z.of_nat (length data)) ++ codesOf ty ++ data ++ be32 (crcOf (codesOf ty ++ data)).

Definition ihdrData : list Z :=
  be32 (Z.of_nat WIDTH) ++ be32 (Z.of_nat HEIGHT) ++ [8; 6; 0; 0; 0]%Z.

Definition pngHeader : list Z := signature ++ chunk "IHDR" ihdrData.

Definition pngFile (compressed : list Z) : list Z :=
  pngHeader ++ chunk "IDAT" compressed ++ chunk "IEND" [].

(** The value of four big-endian bytes. *)
Definition unbe32 (bytes : list Z) : Z :=
  match bytes with
  | [a; b; c; d] => (a * 16777216 + b * 65536 + c * 256 + d)%Z
  | _ => 0%Z
  end.

(** The payload of the chunk that follows the header of a PNG file. *)
Definition idatPayload (png : list Z) : list Z :=
  let len := Z.to_nat (unbe32 (take 4 (drop PNG_HEADER_SIZE png))) in
  take len (drop (PNG_HEADER_SIZE + 8) png).

Lemma crc32_slice (buf : list Z) (off len : nat) :
  (off + len <= length buf)%nat -> crc32 buf off len = crcOf (take len (drop off buf)).
Proof.
  intros H. unfold crc32, crcOf. f_equal.
  generalize 4294967295%Z. revert off H.
  induction len as [| len IH]; intros off H acc; [now rewrite take_0 |].
  cbn [seq fold_left].
  rewrite IH by lia.
  rewrite (drop_S buf (nth off buf 0%Z) off) by (apply lookup_nth; lia).
  reflexivity.
Qed.

Lemma lxor_range (a c : Z) (n : Z) :
  (0 <= n)%Z -> (0 <= a < 2 ^ n)%Z -> (0 <= c < 2 ^ n)%Z -> (0 <= Z.lxor a c < 2 ^ n)%Z.
Proof.
  intros Hn Ha Hc.
  assert (H0 : (0 <= Z.lxor a c)%Z) by (apply Z.lxor_nonneg; lia).
  split; [exact H0 |].
  destruct (Z.eq_dec (Z.lxor a c) 0%Z) as [Hz | Hne]; [rewrite Hz; apply Z.pow_pos_nonneg; lia |].
  apply Z.log2_lt_pow2; [lia |].
  pose proof (Z.log2_lxor a c (proj1 Ha) (proj1 Hc)) as Hl.
  assert (Hla : (a = 0 \/ Z.log2 a < n)%Z).
  { destruct (Z.eq_dec a 0%Z); [now left | right; apply Z.log2_lt_pow2; lia]. }
  assert (Hlc : (c = 0 \/ Z.log2 c < n)%Z).
  { destruct (Z.eq_dec c 0%Z); [now left | right; apply Z.log2_lt_pow2; lia]. }
  assert (Hn0 : (0 < n)%Z).
  { destruct (Z.eq_dec n 0%Z) as [Hz | Hn0]; [| lia]. subst n.
    assert (a = 0)%Z by (change (2 ^ 0)%Z with 1%Z in Ha; lia).
    assert (c = 0)%Z by (change (2 ^ 0)%Z with 1%Z in Hc; lia).
    subst. now contradiction Hne. }
  assert (Ha' : (Z.log2 a < n)%Z) by (destruct Hla as [-> | Hla]; [exact Hn0 | exact Hla]).
  assert (Hc' : (Z.log2 c < n)%Z) by (destruct Hlc as [-> | Hlc]; [exact Hn0 | exact Hlc]).
  destruct (Z.max_spec (Z.log2 a) (Z.log2 c)) as [[_ Hm] | [_ Hm]]; rewrite Hm in Hl; lia.
Qed.

Definition word32 (v : Z) : Prop := (0 <= v < 4294967296)%Z.

Lemma crcTable_words : Forall word32 crcTable.
Proof.
  apply Forall_forall. intros v Hv. apply list_elem_of_In in Hv.
  assert (H : forallb (fun v => (0 <=? v)%Z && (v <? 4294967296)%Z) crcTable = true)
    by now vm_compute.
  rewrite forallb_forall in H. specialize (H v Hv).
  apply andb_true_iff in H. destruct H as [H1 H2].
  apply Z.leb_le in H1. apply Z.ltb_lt in H2. now split.
Qed.

Lemma crcByte_word (crc b : Z) : word32 crc -> word32 (crcByte crc b).
Proof.
  intros Hc. unfold crcByte, word32 in *.
  change 4294967296%Z with (2 ^ 32)%Z in *.
  apply lxor_range; [lia | |].
  - destruct (nth_in_or_default (Z.to_nat (Z.land (Z.lxor crc b) 255)) crcTable 0%Z)
      as [Hin | ->]; [| lia].
    pose proof crcTable_words as Ht. rewrite Forall_forall in Ht.
    apply list_elem_of_In in Hin. exact (Ht _ Hin).
  - rewrite Z.shiftr_div_pow2 by lia. split; [apply Z.div_pos; lia |].
    apply Z.div_lt_upper_bound; lia.
Qed.

Lemma crcOf_word (bytes : list Z) : word32 (crcOf bytes).
Proof.
  unfold crcOf.
  assert (H : forall acc, word32 acc -> word32 (fold_left crcByte bytes acc)).
  { induction bytes as [| b bs IH]; intros acc Hacc; simpl; [exact Hacc |].
    apply IH. now apply crcByte_word. }
  unfold word32 in *. change 4294967296%Z with (2 ^ 32)%Z in *.
  apply lxor_range; [lia | apply H; lia | lia].
Qed.

Lemma be32_length (v : Z) : length (be32 v) = 4%nat.
Proof. reflexivity. Qed.

Lemma land_255_byte (v : Z) : is_byte (Z.land v 255).
Proof.
  unfold is_byte. change 255%Z with (Z.ones 8). rewrite Z.land_ones by lia.
  apply Z.mod_pos_bound. lia.
Qed.

Lemma be32_bytes (v : Z) : Forall is_byte (be32 v).
Proof. unfold be32. repeat constructor; apply land_255_byte. Qed.

Lemma unbe32_be32 (v : Z) : word32 v -> unbe32 (be32 v) = v.
Proof.
  unfold word32. intros H. unfold unbe32, be32.
  change 255%Z with (Z.ones 8). rewrite !Z.land_ones by lia.
  rewrite !Z.shiftr_div_pow2 by lia.
  change (2 ^ 24)%Z with 16777216%Z. change (2 ^ 16)%Z with 65536%Z.
  change (2 ^ 8)%Z with 256%Z.
  Z.div_mod_to_equations. lia.
Qed.

Lemma writeUInt32BE_ok (v : Z) (off : nat) (buf : list Z) :
  word32 v -> (off + 4 <= length buf)%nat ->
  writeUInt32BE v off buf = Some (writeBytes (be32 v) off buf).
Proof.
  unfold word32. intros Hv Hoff. unfold writeUInt32BE.
  replace (0 <=? v)%Z with true by (symmetry; apply Z.leb_le; lia).
  replace (v <? 4294967296)%Z with true by (symmetry; apply Z.ltb_lt; lia).
  replace (off + 4 <=? length buf)%nat with true by (symmetry; apply Nat.leb_le; lia).
  reflexivity.
Qed.

(** A block stored right after a known prefix extends the prefix. *)
Lemma write_extends (data : list Z) (off : nat) (buf pre : list Z) (m : nat) :
  take off buf = pre -> m = (off + length data)%nat -> (m <= length buf)%nat ->
  take m (writeBytes data off buf) = pre ++ data.
Proof.
  intros Hpre -> Hfit. rewrite writeBytes_take_end by exact Hfit. now rewrite Hpre.
Qed.

Lemma PNG_MAX_eq : PNG_MAX = (57 + MAX_COMPRESSED)%nat.
Proof. reflexivity. Qed.

Lemma MAX_COMPRESSED_word : (Z.of_nat MAX_COMPRESSED < 4294967296)%Z.
Proof. now vm_compute. Qed.

Lemma pngHeader_length : length pngHeader = 33%nat.
Proof. reflexivity. Qed.

(** Steps 3 and 4 leave the PNG file at the start of the buffer. *)
Lemma writeChunks_spec (compressed png0 : list Z) :
  length png0 = PNG_MAX -> take 33 png0 = pngHeader ->
  (length compressed <= MAX_COMPRESSED)%nat ->
  exists png,
    writeChunks compressed png0 = Some (png, (57 + length compressed)%nat)
    /\ length png = PNG_MAX
    /\ take (57 + length compressed) png = pngFile compressed.
Proof.
  intros Hlen Hhead Hfit. pose proof PNG_MAX_eq as Hmax.
  pose proof MAX_COMPRESSED_word as Hword.
  set (n := length compressed) in *.
  unfold writeChunks. fold n. change IDAT_OFF with 33%nat.
  (* the length of the IDAT chunk *)
  rewrite writeUInt32BE_ok; [| unfold word32; lia | lia].
  set (p1 := writeBytes (be32 (Z.of_nat n)) 33 png0).
  assert (L1 : length p1 = PNG_MAX) by (unfold p1; now rewrite writeBytes_length).
  assert (T1 : take 37 p1 = pngHeader ++ be32 (Z.of_nat n)).
  { unfold p1. apply write_extends; [exact Hhead | reflexivity | lia]. }
  (* its type and data *)
  set (p2 := writeBytes (codesOf "IDAT") (33 + 4) p1).
  assert (L2 : length p2 = PNG_MAX) by (unfold p2; now rewrite writeBytes_length).
  assert (T2 : take 41 p2 = (pngHeader ++ be32 (Z.of_nat n)) ++ codesOf "IDAT").
  { unfold p2. apply write_extends; [exact T1 | reflexivity | lia]. }
  set (p3 := writeBytes compressed (33 + 8) p2).
  assert (L3 : length p3 = PNG_MAX) by (unfold p3; now rewrite writeBytes_length).
  assert (T3 : take (41 + n) p3
               = ((pngHeader ++ be32 (Z.of_nat n)) ++ codesOf "IDAT") ++ compressed).
  { unfold p3. apply write_extends; [exact T2 | reflexivity | lia]. }
  (* its checksum *)
  assert (C3 : crc32 p3 (33 + 4) (4 + n) = crcOf (codesOf "IDAT" ++ compressed)).
  { rewrite crc32_slice by lia. f_equal.
    rewrite take_drop_commute.
    replace (33 + 4 + (4 + n))%nat with (41 + n)%nat by lia.
    rewrite T3, <- !app_assoc.
    rewrite (app_assoc pngHeader), drop_app_length'; [reflexivity |].
    rewrite length_app, pngHeader_length, be32_length. reflexivity. }
  rewrite C3.
  rewrite writeUInt32BE_ok; [| apply crcOf_word | lia].
  set (p4 := writeBytes (be32 (crcOf (codesOf "IDAT" ++ compressed))) (33 + 8 + n) p3).
  assert (L4 : length p4 = PNG_MAX) by (unfold p4; now rewrite writeBytes_length).
  assert (T4 : take (45 + n) p4
               = (((pngHeader ++ be32 (Z.of_nat n)) ++ codesOf "IDAT") ++ compressed)
                 ++ be32 (crcOf (codesOf "IDAT" ++ compressed))).
  { unfold p4. apply write_extends; [exact T3 | rewrite be32_length; lia | lia]. }
  (* the IEND chunk *)
  rewrite writeUInt32BE_ok; [| unfold word32; lia | lia].
  set (p5 := writeBytes (be32 0) (33 + 8 + n + 4) p4).
  assert (L5 : length p5 = PNG_MAX) by (unfold p5; now rewrite writeBytes_length).
  assert (T5 : take (49 + n) p5
               = ((((pngHeader ++ be32 (Z.of_nat n)) ++ codesOf "IDAT") ++ compressed)
                  ++ be32 (crcOf (codesOf "IDAT" ++ compressed))) ++ be32 0).
  { unfold p5. apply write_extends;
      [replace (33 + 8 + n + 4)%nat with (45 + n)%nat by lia; exact T4
      | rewrite be32_length; lia | lia]. }
  set (p6 := writeBytes (codesOf "IEND") (33 + 8 + n + 4 + 4) p5).
  assert (L6 : length p6 = PNG_MAX) by (unfold p6; now rewrite writeBytes_length).
  assert (T6 : take (53 + n) p6
               = (((((pngHeader ++ be32 (Z.of_nat n)) ++ codesOf "IDAT") ++ compressed)
                   ++ be32 (crcOf (codesOf "IDAT" ++ compressed))) ++ be32 0)
                 ++ codesOf "IEND").
  { unfold p6. apply write_extends;
      [replace (33 + 8 + n + 4 + 4)%nat with (49 + n)%nat by lia; exact T5
      | change (length (codesOf "IEND")) with 4%nat; lia | lia]. }
  assert (C6 : crc32 p6 (33 + 8 + n + 4 + 4) 4 = crcOf (codesOf "IEND" ++ [])).
  { rewrite crc32_slice by lia. f_equal. rewrite app_nil_r.
    rewrite take_drop_commute.
    replace (33 + 8 + n + 4 + 4 + 4)%nat with (53 + n)%nat by lia.
    rewrite T6, drop_app_length'; [reflexivity |].
    rewrite !length_app, pngHeader_length, !be32_length.
    change (length (codesOf "IDAT")) with 4%nat. fold n. lia. }
  rewrite C6.
  rewrite writeUInt32BE_ok; [| apply crcOf_word | lia].
  set (p7 := writeBytes (be32 (crcOf (codesOf "IEND" ++ []))) (33 + 8 + n + 4 + 8) p6).
  exists p7.
  split; [f_equal; f_equal; lia |].
  split; [unfold p7; now rewrite writeBytes_length |].
  unfold p7. replace (33 + 8 + n + 4 + 8)%nat with (53 + n)%nat by lia.
  rewrite (write_extends _ _ p6 _ (57 + n) T6); [| rewrite be32_length; lia | lia].
  unfold pngFile, chunk. fold n. cbn [length]. rewrite <- !app_assoc. reflexivity.
Qed.

(** *** The raw image: a filter byte and a row of pixels, per row *)

(** The rows of a pixel buffer, top row first. *)
Definition rowsOf (rgba : list Z) : list (list Z) :=
  map (fun y => take ROW_SIZE (drop (y * ROW_SIZE) rgba)) (seq 0 HEIGHT).

(** The raw image of the PNG format with filter type 0 on every row. *)
Definition rawImage (rgba : list Z) : list Z :=
  flat_map (fun row => 0%Z :: row) (rowsOf rgba).

Lemma RAW_SIZE_eq : RAW_SIZE = (HEIGHT * (ROW_SIZE + 1))%nat.
Proof. reflexivity. Qed.

Lemma pixelRow_length (rgba : list Z) (y : nat) : length (pixelRow rgba y) = ROW_SIZE.
Proof. unfold pixelRow. now rewrite length_map, length_seq. Qed.

Lemma slice_by_index (l : list Z) (off n : nat) :
  (off + n <= length l)%nat ->
  map (fun i => nth (off + i) l 0%Z) (seq 0 n) = take n (drop off l).
Proof.
  intros H. apply list_eq. intros i.
  rewrite list_lookup_fmap.
  destruct (Nat.lt_ge_cases i n) as [Hi | Hi].
  - rewrite lookup_seq_lt by exact Hi. simpl.
    rewrite lookup_take_lt by exact Hi. rewrite lookup_drop.
    symmetry. apply lookup_nth. lia.
  - rewrite lookup_seq_ge by exact Hi. simpl.
    now rewrite lookup_take_ge by exact Hi.
Qed.

Lemma pixelRow_slice (rgba : list Z) (y : nat) :
  (y * ROW_SIZE + ROW_SIZE <= length rgba)%nat ->
  pixelRow rgba y = take ROW_SIZE (drop (y * ROW_SIZE) rgba).
Proof. intros H. unfold pixelRow. now apply slice_by_index. Qed.

Lemma bytes_mod (l : list Z) :
  Forall is_byte l -> map (fun v => (v mod 256)%Z) l = l.
Proof.
  intros H. induction H as [| v l Hv Hl IH]; [reflexivity |].
  simpl. rewrite IH. f_equal. unfold is_byte in Hv. now apply Z.mod_small.
Qed.

(** The state of [rawBuf] after the first [k] rows were copied. *)
Lemma copyRows_spec (rgba raw0 : list Z) (k : nat) :
  (k <= HEIGHT)%nat -> length raw0 = RAW_SIZE ->
  (forall y, (y < HEIGHT)%nat -> raw0 !! (y * (ROW_SIZE + 1))%nat = Some 0%Z) ->
  length (copyRows k rgba raw0) = RAW_SIZE
  /\ (forall y, (y < HEIGHT)%nat ->
        copyRows k rgba raw0 !! (y * (ROW_SIZE + 1))%nat = Some 0%Z)
  /\ take (k * (ROW_SIZE + 1)) (copyRows k rgba raw0)
     = flat_map (fun y => 0%Z :: map (fun v => (v mod 256)%Z) (pixelRow rgba y)) (seq 0 k).
Proof.
  intros Hk Hlen Hfilter. pose proof RAW_SIZE_eq as Hraw.
  induction k as [| k IH].
  - unfold copyRows. cbn [seq fold_left flat_map]. rewrite Nat.mul_0_l, take_0.
    now repeat split.
  - destruct IH as (L & F & T); [lia |].
    unfold copyRows in *. rewrite seq_S, fold_left_app. cbn [fold_left Nat.add].
    set (buf := fold_left _ (seq 0 k) raw0) in *.
    set (row := map (fun v => (v mod 256)%Z) (pixelRow rgba k)).
    assert (Hrow : length row = ROW_SIZE) by (unfold row; now rewrite length_map, pixelRow_length).
    assert (Hend : (k * (ROW_SIZE + 1) + 1 + ROW_SIZE <= length buf)%nat) by nia.
    split; [now rewrite writeBytes_length |].
    split.
    + intros y Hy. unfold writeBytes.
      destruct (Nat.le_gt_cases y k) as [Hle | Hgt].
      * rewrite list_lookup_inserts_lt by nia. now apply F.
      * rewrite list_lookup_inserts_ge by (rewrite Hrow; nia). now apply F.
    + rewrite flat_map_app. cbn [flat_map]. rewrite app_nil_r, <- T.
      replace (S k * (ROW_SIZE + 1))%nat with (k * (ROW_SIZE + 1) + 1 + length row)%nat
        by (rewrite Hrow; lia).
      rewrite writeBytes_take_end by (rewrite Hrow; exact Hend).
      replace (k * (ROW_SIZE + 1) + 1)%nat with (S (k * (ROW_SIZE + 1))) by lia.
      rewrite (take_S_r buf (k * (ROW_SIZE + 1)) 0%Z) by (apply F; lia).
      now rewrite <- app_assoc.
Qed.

Lemma rawImage_copy (rgba : list Z) :
  length rgba = (HEIGHT * ROW_SIZE)%nat -> Forall is_byte rgba ->
  flat_map (fun y => 0%Z :: map (fun v => (v mod 256)%Z) (pixelRow rgba y)) (seq 0 HEIGHT)
  = rawImage rgba.
Proof.
  intros Hlen Hall. unfold rawImage, rowsOf.
  rewrite flat_map_concat_map, (flat_map_concat_map _ (map _ _)), map_map.
  f_equal. apply map_ext_in. intros y Hy. apply in_seq in Hy. f_equal.
  rewrite pixelRow_slice by nia.
  apply bytes_mod. now apply Forall_take, Forall_drop.
Qed.

(** Step 1 as a whole. *)
Lemma copyRows_rawImage (rgba raw0 : list Z) :
  length raw0 = RAW_SIZE ->
  (forall y, (y < HEIGHT)%nat -> raw0 !! (y * (ROW_SIZE + 1))%nat = Some 0%Z) ->
  length rgba = (HEIGHT * ROW_SIZE)%nat -> Forall is_byte rgba ->
  copyRows HEIGHT rgba raw0 = rawImage rgba.
Proof.
  intros Hlen Hfilter Hrgba Hall.
  destruct (copyRows_spec rgba raw0 HEIGHT (Nat.le_refl _) Hlen Hfilter) as (L & _ & T).
  rewrite <- (rawImage_copy rgba Hrgba Hall), <- T.
  symmetry. apply take_ge. rewrite L, RAW_SIZE_eq. lia.
Qed.

Lemma idatPayload_file (compressed : list Z) :
  (Z.of_nat (length compressed) < 4294967296)%Z ->
  idatPayload (pngFile compressed) = compressed.
Proof.
  intros H. unfold idatPayload, pngFile, chunk.
  change PNG_HEADER_SIZE with 33%nat.
  assert (D : drop 33 (pngHeader ++ (be32 (Z.of_nat (length compressed)) ++ codesOf "IDAT"
                         ++ compressed ++ be32 (crcOf (codesOf "IDAT" ++ compressed)))
                       ++ be32 (Z.of_nat (length (@nil Z))) ++ codesOf "IEND" ++ []
                          ++ be32 (crcOf (codesOf "IEND" ++ [])))
              = (be32 (Z.of_nat (length compressed)) ++ codesOf "IDAT"
                 ++ compressed ++ be32 (crcOf (codesOf "IDAT" ++ compressed)))
                ++ be32 (Z.of_nat (length (@nil Z))) ++ codesOf "IEND" ++ []
                   ++ be32 (crcOf (codesOf "IEND" ++ []))).
  { now rewrite drop_app_length' by (symmetry; apply pngHeader_length). }
  rewrite D.
  rewrite <- drop_drop, D.
  rewrite <- !app_assoc.
  rewrite (take_app_length' (be32 (Z.of_nat (length compressed)))) by reflexivity.
  rewrite unbe32_be32 by (unfold word32; lia). rewrite Nat2Z.id.
  rewrite (app_assoc (be32 _) (codesOf "IDAT")).
  rewrite drop_app_length' by reflexivity.
  now rewrite take_app_length.
Qed.

Lemma codesOf_bytes (t : string) : Forall is_byte (codesOf t).
Proof.
  unfold codesOf. apply Forall_forall. intros v Hv.
  apply list_elem_of_In, in_map_iff in Hv. destruct Hv as [c [<- _]].
  unfold is_byte. pose proof (N_ascii_bounded c). lia.
Qed.

Lemma Forall_join (P : Z -> Prop) (l1 l2 : list Z) :
  Forall P l1 -> Forall P l2 -> Forall P (l1 ++ l2).
Proof. intros H1 H2. apply Forall_app. now split. Qed.

Lemma chunk_bytes (ty : string) (data : list Z) :
  Forall is_byte data -> Forall is_byte (chunk ty data).
Proof.
  intros H. unfold chunk.
  apply Forall_join; [apply be32_bytes |].
  apply Forall_join; [apply codesOf_bytes |].
  apply Forall_join; [exact H | apply be32_bytes].
Qed.

Lemma pngFile_bytes (compressed : list Z) :
  Forall is_byte compressed -> Forall is_byte (pngFile compressed).
Proof.
  intros H. unfold pngFile, pngHeader.
  apply Forall_join; [apply Forall_join |].
  - unfold signature. repeat (constructor; [unfold is_byte; lia |]). constructor.
  - apply chunk_bytes. unfold ihdrData.
    apply Forall_join; [apply be32_bytes |].
    apply Forall_join; [apply be32_bytes |].
    repeat (constructor; [unfold is_byte; lia |]). constructor.
  - apply Forall_join; apply chunk_bytes; [exact H | constructor].
Qed.

Lemma pngFile_length (compressed : list Z) :
  length (pngFile compressed) = (57 + length compressed)%nat.
Proof.
  unfold pngFile, chunk. rewrite !length_app, pngHeader_length, !be32_length.
  change (length (codesOf "IDAT")) with 4%nat.
  change (length (codesOf "IEND")) with 4%nat. simpl. lia.
Qed.

(** The rows of a full pixel buffer are the buffer cut in [HEIGHT] pieces. *)
Lemma rowsOf_concat (rgba : list Z) :
  length rgba = (HEIGHT * ROW_SIZE)%nat -> concat (rowsOf rgba) = rgba.
Proof.
  intros Hlen. unfold rowsOf.
  assert (H : forall k, (k <= HEIGHT)%nat ->
            concat (map (fun y => take ROW_SIZE (drop (y * ROW_SIZE) rgba)) (seq 0 k))
            = take (k * ROW_SIZE) rgba).
  { induction k as [| k IH]; intros Hk; [now rewrite take_0 |].
    rewrite seq_S, map_app, concat_app, IH by lia. cbn [Nat.add map concat].
    rewrite app_nil_r.
    replace (S k * ROW_SIZE)%nat with (k * ROW_SIZE + ROW_SIZE)%nat by lia.
    rewrite <- (take_drop (k * ROW_SIZE) (take (k * ROW_SIZE + ROW_SIZE) rgba)).
    rewrite take_take, <- take_drop_commute.
    f_equal. f_equal. lia. }
  rewrite H by lia. apply take_ge. lia.
Qed.

(** *** The buffers between two calls *)

Record buffers_ok (bufs : Buffers) : Prop := {
  ok_raw_len : length (rawBuf bufs) = RAW_SIZE;
  ok_raw_filter : forall y, (y < HEIGHT)%nat ->
                    rawBuf bufs !! (y * (ROW_SIZE + 1))%nat = Some 0%Z;
  ok_png_len : length (pngOut bufs) = PNG_MAX;
  ok_png_header : take 33 (pngOut bufs) = pngHeader;
  ok_uri_len : length (dataUriBuf bufs) = (PREFIX_LEN + MAX_B64_LEN)%nat;
  ok_uri_prefix : take PREFIX_LEN (dataUriBuf bufs) = codesOf DATA_URI_PREFIX
}.

Lemma lookup_repeat (x : Z) (n i : nat) : (i < n)%nat -> repeat x n !! i = Some x.
Proof.
  revert i. induction n as [| n IH]; intros i Hi; [lia |].
  destruct i as [| i]; [reflexivity |]. cbn [repeat]. apply IH. lia.
Qed.

Lemma initBuffers_ok : buffers_ok initBuffers.
Proof.
  split.
  - apply repeat_length.
  - intros y Hy. unfold initBuffers. cbn [rawBuf]. apply lookup_repeat.
    rewrite RAW_SIZE_eq. nia.
  - unfold initBuffers, pngOut, pngOutInit. now rewrite !writeBytes_length, repeat_length.
  - now vm_compute.
  - unfold initBuffers, dataUriBuf. now rewrite writeBytes_length, repeat_length.
  - now vm_compute.
Qed.

Lemma rawImage_bytes (rgba : list Z) : Forall is_byte rgba -> Forall is_byte (rawImage rgba).
Proof.
  intros H. unfold rawImage, rowsOf. apply Forall_forall. intros v Hv.
  apply list_elem_of_In, in_flat_map in Hv. destruct Hv as [row [Hrow Hv]].
  apply in_map_iff in Hrow. destruct Hrow as [y [<- _]].
  destruct Hv as [<- | Hv]; [unfold is_byte; lia |].
  assert (Hr : Forall is_byte (take ROW_SIZE (drop (y * ROW_SIZE) rgba)))
    by now apply Forall_take, Forall_drop.
  rewrite Forall_forall in Hr. apply Hr. now apply list_elem_of_In.
Qed.

Lemma rawImage_length (rgba : list Z) :
  length rgba = (HEIGHT * ROW_SIZE)%nat -> length (rawImage rgba) = RAW_SIZE.
Proof.
  intros Hlen. unfold rawImage, rowsOf. rewrite RAW_SIZE_eq.
  assert (H : forall k, (k <= HEIGHT)%nat ->
            length (flat_map (fun row => 0%Z :: row)
                      (map (fun y => take ROW_SIZE (drop (y * ROW_SIZE) rgba)) (seq 0 k)))
            = (k * (ROW_SIZE + 1))%nat).
  { induction k as [| k IH]; intros Hk; [reflexivity |].
    rewrite seq_S, map_app, flat_map_app, length_app, IH by lia.
    change (length (flat_map (fun row => 0%Z :: row)
                      (map (fun y => take ROW_SIZE (drop (y * ROW_SIZE) rgba)) [(0 + k)%nat])))
      with (S (length (take ROW_SIZE (drop (k * ROW_SIZE) rgba) ++ []))).
    rewrite app_nil_r, length_take, length_drop. nia. }
  now apply H.
Qed.

Lemma prefix_text : asciiOf (codesOf DATA_URI_PREFIX) = DATA_URI_PREFIX.
Proof. now vm_compute. Qed.

Lemma b64_capacity (n : nat) :
  (n <= PNG_MAX)%nat -> (PREFIX_LEN + 4 * Nat.div (n + 2) 3 <= PREFIX_LEN + MAX_B64_LEN)%nat.
Proof.
  intros H. unfold MAX_B64_LEN.
  assert (Nat.div (n + 2) 3 <= Nat.div (PNG_MAX + 2) 3)%nat
    by (apply Nat.Div0.div_le_mono; lia).
  lia.
Qed.

Section RoundTrip.

(** The compressor and its inverse, as zlib provides them: inflating
    undoes deflating, the output is bytes, and a raw image of the fixed
    geometry compresses into the room the encoder set aside. *)
Variables deflateSync inflateSync : list Z -> list Z.
Hypothesis inflate_deflate : forall raw, inflateSync (deflateSync raw) = raw.
Hypothesis deflate_bytes :
  forall raw, Forall is_byte raw -> Forall is_byte (deflateSync raw).
Hypothesis deflate_bound :
  forall raw, length raw = RAW_SIZE -> (length (deflateSync raw) <= MAX_COMPRESSED)%nat.

(** C6.  For a full 200 x 100 pixel buffer, [encodePNGToDataURI] returns
    the text ["data:image/png;base64,"] followed by the standard base64
    encoding of the PNG file (signature, IHDR, IDAT around the compressed
    raw image, IEND); decoding that base64 text gives the PNG bytes back;
    inflating the IDAT payload gives the raw image; and the raw image is
    the rows of the pixel buffer, each after a zero filter byte. *)
Theorem encodePNGToDataURI_round_trip (width : nat) (rgba : list Z) (bufs : Buffers) :
  buffers_ok bufs -> length rgba = (HEIGHT * ROW_SIZE)%nat -> Forall is_byte rgba ->
  let png := pngFile (deflateSync (rawImage rgba)) in
  exists bufs',
    encodePNGToDataURI deflateSync width HEIGHT rgba bufs
    = Some ((DATA_URI_PREFIX ++ base64 png)%string, bufs')
    /\ buffers_ok bufs'
    /\ base64_decode (base64 png) = Some png
    /\ inflateSync (idatPayload png) = rawImage rgba
    /\ rawImage rgba = flat_map (fun row => 0%Z :: row) (rowsOf rgba)
    /\ concat (rowsOf rgba) = rgba.
Proof.
  intros [R1 R2 P1 P2 U1 U2] Hlen Hall png.
  pose proof (copyRows_rawImage rgba (rawBuf bufs) R1 R2 Hlen Hall) as Hraw.
  destruct (copyRows_spec rgba (rawBuf bufs) HEIGHT (Nat.le_refl _) R1 R2) as (L & F & _).
  set (compressed := deflateSync (rawImage rgba)).
  assert (Hfit : (length compressed <= MAX_COMPRESSED)%nat).
  { apply deflate_bound. now apply rawImage_length. }
  assert (Hcb : Forall is_byte compressed).
  { apply deflate_bytes. now apply rawImage_bytes. }
  destruct (writeChunks_spec compressed (pngOut bufs) P1 P2 Hfit) as (out & Hw & Lout & Tout).
  fold png in Tout.
  destruct (b64Encode_spec out (dataUriBuf bufs) (57 + length compressed))
    as (di & uri & codes & Hb & Luri & Puri & Turi & Htext).
  { rewrite Lout, PNG_MAX_eq. lia. }
  { rewrite U1. apply b64_capacity. rewrite PNG_MAX_eq. lia. }
  { rewrite Tout. now apply pngFile_bytes. }
  exists {| rawBuf := copyRows HEIGHT rgba (rawBuf bufs); pngOut := out; dataUriBuf := uri |}.
  split.
  { unfold encodePNGToDataURI. rewrite Hraw. fold compressed. rewrite Hw, Hb.
    rewrite Turi, U2, asciiOf_app, prefix_text, Htext, Tout. reflexivity. }
  split.
  { split; cbn [rawBuf pngOut dataUriBuf].
    - exact L.
    - exact F.
    - exact Lout.
    - replace 33%nat with (Nat.min 33 (57 + length compressed)) by lia.
      rewrite <- take_take, Tout. unfold png, pngFile.
      now rewrite take_app_length' by (symmetry; apply pngHeader_length).
    - now rewrite Luri.
    - now rewrite Puri. }
  split; [apply base64_round_trip; now apply pngFile_bytes |].
  split.
  { unfold png. rewrite idatPayload_file; [apply inflate_deflate |].
    pose proof MAX_COMPRESSED_word. fold compressed. lia. }
  split; [reflexivity | now apply rowsOf_concat].
Qed.

End RoundTrip.

(** An all-black frame and the identity in place of the compressor, to
    run the statement on. *)
Definition blackFrame : list Z := repeat 0%Z (HEIGHT * ROW_SIZE).

Lemma blackFrame_bytes : Forall is_byte blackFrame.
Proof.
  apply Forall_forall. intros v Hv. apply list_elem_of_In, repeat_spec in Hv.
  subst v. unfold is_byte. lia.
Qed.

Lemma stored_fits (raw : list Z) :
  length raw = RAW_SIZE -> (length raw <= MAX_COMPRESSED)%nat.
Proof. intros ->. unfold MAX_COMPRESSED. lia. Qed.

Lemma encodePNGToDataURI_round_trip_witness :
  buffers_ok initBuffers
  /\ length blackFrame = (HEIGHT * ROW_SIZE)%nat
  /\ Forall is_byte blackFrame
  /\ exists bufs',
       encodePNGToDataURI (fun raw => raw) WIDTH HEIGHT blackFrame initBuffers
       = Some ((DATA_URI_PREFIX ++ base64 (pngFile (rawImage blackFrame)))%string, bufs').
Proof.
  split; [exact initBuffers_ok |].
  split; [apply repeat_length |].
  split; [exact blackFrame_bytes |].
  destruct (encodePNGToDataURI_round_trip (fun raw => raw) (fun raw => raw)
              (fun raw => eq_refl) (fun raw H => H) stored_fits
              WIDTH blackFrame initBuffers initBuffers_ok
              (repeat_length 0%Z (HEIGHT * ROW_SIZE)) blackFrame_bytes)
    as (bufs' & Henc & _).
  now exists bufs'.
Defined.

End PngFacts.

(** ** The engine: registry, loop and reachable states *)
Module EngineLifecycle.
Import JS Engine Loops EngineFacts ConsumerFacts EngineInvariant.

(** The registration [registerAction] stores. *)
Definition freshReg (act : string) (col : Z) : RegisteredAction :=
  {| action := act; column := col;
     lastSent := repeat (Some 0) BARS_PER_DIAL;
     lastLeftEdge := Some (-1);
     lastRightEdge := Some (-1) |}.

Lemma map_get_set_ne {V : Type} (k k' : string) (v : V) (m : list (string * V)) :
  k' <> k -> map_get k' (map_set k v m) = map_get k' m.
Proof.
  intros Hne. induction m as [| [k0 v0] rest IH]; simpl.
  - destruct (String.eqb k' k) eqn:E; [apply String.eqb_eq in E; contradiction | reflexivity].
  - destruct (String.eqb k k0) eqn:E; simpl.
    + apply String.eqb_eq in E. subst k0.
      destruct (String.eqb k' k) eqn:E'; [apply String.eqb_eq in E'; contradiction | reflexivity].
    + destruct (String.eqb k' k0); [reflexivity | exact IH].
Qed.

Lemma map_get_delete_ne {V : Type} (k k' : string) (m : list (string * V)) :
  k' <> k -> map_get k' (map_delete k m) = map_get k' m.
Proof.
  intros Hne. induction m as [| [k0 v0] rest IH]; simpl; [reflexivity |].
  destruct (String.eqb k k0) eqn:E; simpl.
  - apply String.eqb_eq in E. subst k0.
    destruct (String.eqb k' k) eqn:E'; [apply String.eqb_eq in E'; contradiction | reflexivity].
  - destruct (String.eqb k' k0); [reflexivity | exact IH].
Qed.

Lemma map_get_None {V : Type} (k : string) (m : list (string * V)) :
  map_get k m = None <-> ~ In k (map fst m).
Proof.
  induction m as [| [k0 v0] rest IH]; simpl; [tauto |].
  destruct (String.eqb k k0) eqn:E.
  - apply String.eqb_eq in E. subst k0. split; [discriminate | intros H; exfalso; auto].
  - apply String.eqb_neq in E. rewrite IH. split.
    + intros H [H0 | H0]; [now symmetry in H0 | contradiction].
    + intros H H0. apply H. now right.
Qed.

Lemma map_get_delete_eq {V : Type} (k : string) (m : list (string * V)) :
  List.NoDup (map fst m) -> map_get k (map_delete k m) = None.
Proof.
  induction m as [| [k0 v0] rest IH]; simpl; intros Hnd; [reflexivity |].
  inversion Hnd as [| ? ? Hk Hr]; subst.
  destruct (String.eqb k k0) eqn:E; simpl.
  - apply String.eqb_eq in E. subst k0. now apply map_get_None.
  - rewrite E. now apply IH.
Qed.

Lemma map_delete_nil {V : Type} (k : string) (m : list (string * V)) :
  List.NoDup (map fst m) ->
  (map_delete k m = [] <-> forall k', In k' (map fst m) -> k' = k).
Proof.
  intros Hnd. destruct m as [| [k0 v0] rest]; simpl.
  - split; [intros _ k' [] | reflexivity].
  - destruct (String.eqb k k0) eqn:E.
    + apply String.eqb_eq in E. subst k0. split.
      * intros -> k' [H | []]. now symmetry.
      * intros H. destruct rest as [| [k1 v1] rest]; [reflexivity |].
        exfalso. inversion Hnd as [| ? ? Hk Hr]; subst.
        apply Hk. left. apply H. right. now left.
    + apply String.eqb_neq in E. split; [discriminate |].
      intros H. exfalso. apply E. symmetry. apply H. now left.
Qed.

(** X1.  After [registerAction id] the map holds, under [id], a
    registration with the given action and column, a zeroed snapshot and
    both edges at -1; every other id keeps what it had; an id that was
    already registered keeps its place and no second entry appears; and a
    tick is scheduled. *)
Theorem registerAction_lookup (actionId other act : string) (col : Z) (w : bool)
    (e : AudioEngine) :
  let e' := registerAction actionId act col w e in
  map_get actionId (actions e') = Some (freshReg act col)
  /\ (other <> actionId -> map_get other (actions e') = map_get other (actions e))
  /\ map fst (actions e') =
       (if in_dec string_dec actionId (map fst (actions e))
        then map fst (actions e) else map fst (actions e) ++ [actionId])
  /\ intervalId e' = true.
Proof.
  cbv zeta. split; [| split; [| split]].
  - apply map_get_set_eq.
  - intros Hne. now apply map_get_set_ne.
  - apply map_set_keys.
  - reflexivity.
Qed.

Section Unregister.

Variable renderVisualizerFrame : list num -> string -> nat -> num -> num -> string.

(** X2.  After [unregisterAction id] the id is gone and every other id
    keeps its registration; the loop is stopped exactly when no consumer
    is left (otherwise it stays as it was); and a tick run afterwards
    neither renders for the id nor delivers to it. *)
Theorem unregisterAction_removes (actionId other : string) (rawBins : list Q)
    (e : AudioEngine) :
  engine_ok e ->
  let e' := unregisterAction actionId e in
  map_get actionId (actions e') = None
  /\ (other <> actionId -> map_get other (actions e') = map_get other (actions e))
  /\ ((forall k, In k (map fst (actions e)) -> k = actionId) -> intervalId e' = false)
  /\ ((exists k, In k (map fst (actions e)) /\ k <> actionId) -> intervalId e' = intervalId e)
  /\ renderCount actionId (snd (tick renderVisualizerFrame rawBins e')) = 0%nat
  /\ deliveryCount actionId (snd (tick renderVisualizerFrame rawBins e')) = 0%nat.
Proof.
  intros Hok. cbv zeta.
  pose proof (ok_keys _ Hok) as Hnd.
  assert (Hgone : map_get actionId (map_delete actionId (actions e)) = None)
    by now apply map_get_delete_eq.
  split; [exact Hgone |]. split; [intros Hne; now apply map_get_delete_ne |].
  split; [| split].
  - intros Hall. apply (map_delete_nil actionId) in Hall; [| exact Hnd].
    simpl. now rewrite Hall.
  - intros [k [Hin Hne]]. simpl.
    destruct (map_delete actionId (actions e)) eqn:E; [| reflexivity].
    exfalso. apply Hne. apply (map_delete_nil actionId (actions e) Hnd); assumption.
  - pose proof (unregisterAction_ok actionId e Hok) as Hok'.
    unfold tick. cbv zeta.
    pose proof (serveAll_spec renderVisualizerFrame
                  (temporalSmooth (shapedBins (unregisterAction actionId e) rawBins)
                     (smoothedBins (unregisterAction actionId e)))
                  (currentTheme (unregisterAction actionId e))
                  (actions (unregisterAction actionId e))
                  (dialSlice (unregisterAction actionId e))
                  (ok_slice _ Hok') (ok_sent _ Hok')) as Hs.
    destruct (serveAll _ _ _ _ _) as [[slice acts] evs]. simpl.
    destruct Hs as (_ & _ & Hout & _).
    apply Hout. now apply map_get_None.
Qed.

End Unregister.

(** A renderer that draws nothing and an engine with one or two dials, to
    run the statements on. *)
Definition noFrame (bins : list num) (theme : string) (numBars : nat)
    (leftEdge rightEdge : num) : string := EmptyString.

Definition oneDial : AudioEngine := registerAction "dial-0" "dial-0" 0 false newEngine.

Definition twoDials : AudioEngine := registerAction "dial-1" "dial-1" 1 false oneDial.

Lemma unregisterAction_removes_witness :
  engine_ok twoDials
  /\ map_get "dial-0" (actions (unregisterAction "dial-0" twoDials)) = None
  /\ intervalId (unregisterAction "dial-0" twoDials) = intervalId twoDials
  /\ renderCount "dial-0"
       (snd (tick noFrame (repeat 1 TOTAL_BINS) (unregisterAction "dial-0" twoDials)))
     = 0%nat.
Proof.
  assert (Hok : engine_ok twoDials).
  { apply registerAction_ok, registerAction_ok, newEngine_ok. }
  split; [exact Hok |].
  destruct (unregisterAction_removes noFrame "dial-0" "dial-1" (repeat 1 TOTAL_BINS)
              twoDials Hok) as (H1 & _ & _ & H4 & H5 & _).
  split; [exact H1 |]. split; [| exact H5].
  apply H4. exists "dial-1"%string. split; [simpl; auto | discriminate].
Defined.

End EngineLifecycle.

(** ** The engine: every state the operations can reach *)
Module EngineReach.
Import JS Engine Loops EngineFacts ConsumerFacts EngineInvariant.

(** What can happen to the engine: the public methods, and the timer
    firing with the bins the audio source returns. *)
Inductive op :=
| Register (actionId act : string) (col : Z) (wasapiStarted : bool)
| Unregister (actionId : string)
| AdjustGain (delta : Q)
| NextTheme
| TimerFires (rawBins : list Q)
| Dispose.

(** The audio sources return [TOTAL_BINS] values. *)
Definition op_ok (o : op) : Prop :=
  match o with
  | TimerFires rawBins => length rawBins = TOTAL_BINS
  | _ => True
  end.

Section Run.

Variable renderVisualizerFrame : list num -> string -> nat -> num -> num -> string.

(** One operation.  The timer callback runs only while a timeout is
    pending: [stopLoop] clears it. *)
Definition step (e : AudioEngine) (o : op) : AudioEngine :=
  match o with
  | Register actionId act col w => registerAction actionId act col w e
  | Unregister actionId => unregisterAction actionId e
  | AdjustGain delta => adjustGain delta e
  | NextTheme => nextTheme e
  | TimerFires rawBins =>
      if intervalId e then fst (tick renderVisualizerFrame rawBins e) else e
  | Dispose => dispose e
  end.

Definition run (ops : list op) (e : AudioEngine) : AudioEngine := fold_left step ops e.

Record engine_inv (e : AudioEngine) : Prop := {
  inv_ok : engine_ok e;
  inv_gain : 0.2 <= gain e <= 3.0;
  inv_theme : (0 <= themeIndex e < Z.of_nat (length Renderer.THEME_NAMES))%Z;
  inv_name : In (currentTheme e) Renderer.THEME_NAMES;
  inv_peak : AUTO_GAIN_MIN_PEAK <= autoGainPeak e;
  inv_loop : intervalId e = true <-> actions e <> []
}.

Lemma theme_name_listed (i : Z) :
  (0 <= i < Z.of_nat (length Renderer.THEME_NAMES))%Z ->
  In (if (i <? 0)%Z then "neon"%string
      else nth (Z.to_nat i) Renderer.THEME_NAMES "neon"%string) Renderer.THEME_NAMES.
Proof.
  intros H. destruct (i <? 0)%Z eqn:E; [apply Z.ltb_lt in E; lia |].
  apply nth_In. lia.
Qed.

Lemma map_set_nonempty {V : Type} (k : string) (v : V) (m : list (string * V)) :
  map_set k v m <> [].
Proof. destruct m as [| [k' v'] rest]; simpl; [| destruct (String.eqb k k')]; discriminate. Qed.

Lemma tick_fields (rawBins : list Q) (e : AudioEngine) :
  let e' := fst (tick renderVisualizerFrame rawBins e) in
  intervalId e' = true
  /\ autoGainPeak e' = trackPeak (autoGainPeak e) (framePeakOf rawBins)
  /\ gain e' = gain e /\ themeIndex e' = themeIndex e
  /\ map fst (actions e') = map fst (actions e).
Proof.
  unfold tick. cbv zeta.
  assert (Hk : forall sm theme acts slice,
             map fst (snd (fst (serveAll renderVisualizerFrame sm theme slice acts)))
             = map fst acts).
  { intros sm theme acts. induction acts as [| [k reg] rest IH]; intros slice; simpl.
    - reflexivity.
    - destruct (serve _ _ _ _ _ _) as [[s1 r1] ev1].
      specialize (IH s1). destruct (serveAll _ _ _ _ _) as [[s2 r2] ev2].
      simpl in *. now rewrite IH. }
  specialize (Hk (temporalSmooth (shapedBins e rawBins) (smoothedBins e))
                 (currentTheme e) (actions e) (dialSlice e)).
  destruct (serveAll _ _ _ _ _) as [[slice acts] evs]. simpl in *.
  now rewrite Hk.
Qed.

Lemma step_inv (e : AudioEngine) (o : op) :
  op_ok o -> engine_inv e -> engine_inv (step e o).
Proof.
  intros Ho [Hok Hg Ht Hn Hp Hl]. destruct o as [a act col w | a | delta | | rawBins |]; simpl.
  - split; simpl; try assumption.
    + now apply registerAction_ok.
    + split; [intros _; apply map_set_nonempty | reflexivity].
  - split; simpl; try assumption.
    + now apply unregisterAction_ok.
    + destruct (map_delete a (actions e)) eqn:E.
      * split; [discriminate | congruence].
      * split; [discriminate | intros _].
        apply Hl. intros Hnil. rewrite Hnil in E. discriminate.
  - split; simpl; try assumption.
    + now apply adjustGain_ok.
    + split; [apply Math_max_ge_l | apply Math_max_lub; [lra | apply Math_min_le_l]].
  - assert (Hr : (0 <= Z.rem (themeIndex e + 1) (Z.of_nat (length Renderer.THEME_NAMES))
                  < Z.of_nat (length Renderer.THEME_NAMES))%Z).
    { apply Z.rem_bound_pos; simpl in *; lia. }
    split; simpl; try assumption.
    + now apply nextTheme_ok.
    + unfold currentTheme. simpl themeIndex. now apply theme_name_listed.
  - destruct (intervalId e) eqn:Ei; [| split; try assumption; now rewrite Ei].
    destruct (tick_fields rawBins e) as (H1 & H2 & H3 & H4 & H5).
    split.
    + now apply tick_ok.
    + now rewrite H3.
    + now rewrite H4.
    + unfold currentTheme. rewrite H4. exact Hn.
    + rewrite H2. apply Math_max_ge_r.
    + rewrite H1. split; [intros _ | reflexivity].
      intros Hnil. rewrite Hnil in H5. simpl in H5.
      destruct (actions e); [| discriminate]. now apply Hl.
  - split; simpl; try assumption.
    + destruct Hok as [H1 H2 H3 H4 H5]. split; simpl; try assumption; constructor.
    + split; [discriminate | congruence].
Qed.

(** X3.  Whatever sequence of registrations, removals, gain changes,
    theme changes, timer callbacks (with [TOTAL_BINS] bins each) and
    disposals is run on a new engine, the state keeps: distinct ids, five
    values per snapshot, 20 smoothed bins in [0,1], a gain in [0.2, 3.0],
    a theme index that names a listed theme, a tracked peak of at least
    0.08, and a pending timer exactly when some consumer is registered. *)
Theorem reachable_states_ok (ops : list op) :
  Forall op_ok ops -> engine_inv (run ops newEngine).
Proof.
  intros Hall. unfold run.
  assert (H0 : engine_inv newEngine).
  { split.
    - apply newEngine_ok.
    - simpl. lra.
    - simpl. lia.
    - simpl. auto.
    - simpl. unfold AUTO_GAIN_MIN_PEAK. lra.
    - simpl. split; [discriminate | congruence]. }
  revert H0. generalize newEngine.
  induction Hall as [| o ops Ho Hops IH]; intros e He; simpl; [exact He |].
  apply IH. now apply step_inv.
Qed.

End Run.

Definition session : list op :=
  [Register "dial-a" "dial-a" 0 false; Register "dial-b" "dial-b" 1 false;
   TimerFires (repeat 0.5 TOTAL_BINS); AdjustGain 100; NextTheme;
   Unregister "dial-a"; TimerFires (repeat 0 TOTAL_BINS); Unregister "dial-b";
   TimerFires (repeat 1 TOTAL_BINS)].

Lemma reachable_states_ok_witness :
  Forall op_ok session /\ engine_inv (run EngineLifecycle.noFrame session newEngine).
Proof.
  assert (H : Forall op_ok session).
  { unfold session. repeat (constructor; [exact I || reflexivity |]). constructor. }
  split; [exact H |]. exact (reachable_states_ok EngineLifecycle.noFrame session H).
Defined.

End EngineReach.

(** ** The engine: auto-gain, spectral smoothing and the shared edges *)
Module EngineShaping.
Import JS Engine Loops EngineFacts ConsumerFacts EngineInvariant.

(** X4.  With a tracked peak of at least 0.08: when the frame's peak is
    above it, the tracked peak closes 3% of the gap and stays below the
    frame's peak; otherwise it closes 0.1% of the gap to the frame's peak
    floored at 0.08 and does not go below that floor.  The boost derived
    from it is positive, at most 1.5, and never scales the tracked peak
    itself above 1. *)
Theorem trackPeak_closes_gap (peak framePeak : Q) :
  AUTO_GAIN_MIN_PEAK <= peak ->
  let target := Math_max framePeak AUTO_GAIN_MIN_PEAK in
  let new := trackPeak peak framePeak in
  (peak < framePeak ->
     new - framePeak == (peak - framePeak) * 0.97 /\ peak < new < framePeak)
  /\ (framePeak <= peak ->
     new - target == (peak - target) * 0.999 /\ target <= new <= peak)
  /\ 0 < autoBoostOf new <= AUTO_GAIN_MAX_BOOST
  /\ new * autoBoostOf new <= 1.
Proof.
  unfold AUTO_GAIN_MIN_PEAK, AUTO_GAIN_MAX_BOOST. intros Hp. cbv zeta.
  assert (Hnew : 0.08 <= trackPeak peak framePeak)
    by (unfold trackPeak; apply Math_max_ge_r).
  split; [| split; [| split]].
  - intros Hlt. unfold trackPeak, AUTO_GAIN_ATTACK, AUTO_GAIN_MIN_PEAK.
    destruct (gtb framePeak peak) eqn:E; [| apply gtb_false in E; lra].
    destruct (Math_max_spec (peak + (framePeak - peak) * 0.03) 0.08) as [[H ->] | [H ->]];
      lra.
  - intros Hle. unfold trackPeak, AUTO_GAIN_DECAY, AUTO_GAIN_MIN_PEAK.
    destruct (gtb framePeak peak) eqn:E; [apply gtb_true in E; lra |].
    destruct (Math_max_spec framePeak 0.08) as [[Ht ->] | [Ht ->]];
      match goal with
      | |- context [Math_max ?a 0.08] =>
          destruct (Math_max_spec a 0.08) as [[H ->] | [H ->]]
      end; lra.
  - unfold autoBoostOf, AUTO_GAIN_MAX_BOOST.
    assert (Hinv : 0 < 1.0 / trackPeak peak framePeak).
    { apply Qlt_shift_div_l; lra. }
    split; [| apply Math_min_le_l].
    destruct (Math_min_spec 1.5 (1.0 / trackPeak peak framePeak)) as [[H ->] | [H ->]]; lra.
  - unfold autoBoostOf.
    set (p := trackPeak peak framePeak) in *.
    assert (Hle : Math_min AUTO_GAIN_MAX_BOOST (1.0 / p) <= 1.0 / p) by apply Math_min_le_r.
    assert (Hone : p * (1.0 / p) == 1) by (field; lra).
    assert (Hpos : 0 < p) by lra.
    nra.
Qed.

Lemma trackPeak_closes_gap_witness :
  AUTO_GAIN_MIN_PEAK <= 0.5
  /\ trackPeak 0.5 1 * autoBoostOf (trackPeak 0.5 1) <= 1.
Proof.
  assert (H : AUTO_GAIN_MIN_PEAK <= 0.5) by (unfold AUTO_GAIN_MIN_PEAK; lra).
  split; [exact H |].
  exact (proj2 (proj2 (proj2 (trackPeak_closes_gap 0.5 1 H)))).
Defined.

(** X5.  One pass of the spectral smoothing over 20 bins leaves the first
    and the last bin as they were, sets every bin between them to a
    quarter of each neighbour plus half of itself, all read before the
    pass, and so keeps the bins inside any interval that held them. *)
Theorem spectralPass_blurs (rawBins : list Q) (lo hi : Q) :
  length rawBins = TOTAL_BINS ->
  Forall (fun v => lo <= v <= hi) rawBins ->
  length (spectralPass rawBins) = TOTAL_BINS
  /\ rd (spectralPass rawBins) 0 = rd rawBins 0
  /\ rd (spectralPass rawBins) 19 = rd rawBins 19
  /\ (forall i, (1 <= i <= 18)%nat ->
        rd (spectralPass rawBins) i
        = rd rawBins (i - 1) * 0.25 + rd rawBins i * 0.5 + rd rawBins (i + 1) * 0.25)
  /\ Forall (fun v => lo <= v <= hi) (spectralPass rawBins).
Proof.
  intros Hlen Hall.
  assert (Hmid : forall i, (1 <= i <= 18)%nat ->
            rd (spectralPass rawBins) i
            = rd rawBins (i - 1) * 0.25 + rd rawBins i * 0.5 + rd rawBins (i + 1) * 0.25).
  { intros i Hi. unfold spectralPass.
    apply (fold_cellwise_in _ _ (spectralPass_cellwise rawBins)).
    - apply List.seq_NoDup.
    - apply in_seq. unfold TOTAL_BINS. lia.
    - rewrite Hlen. unfold TOTAL_BINS. lia. }
  assert (Hend : forall i, (i = 0 \/ i = 19)%nat ->
            rd (spectralPass rawBins) i = rd rawBins i).
  { intros i Hi. unfold spectralPass.
    apply (fold_cellwise_out _ _ (spectralPass_cellwise rawBins)).
    rewrite in_seq. unfold TOTAL_BINS. lia. }
  split; [now rewrite spectralPass_length |].
  split; [apply Hend; now left |]. split; [apply Hend; now right |].
  split; [exact Hmid |].
  apply Forall_rd. intros i Hi. rewrite spectralPass_length, Hlen in Hi.
  unfold TOTAL_BINS in Hi.
  assert (Hat : forall k, (k < 20)%nat -> lo <= rd rawBins k <= hi).
  { intros k Hk. apply (rd_Forall (fun v => lo <= v <= hi)); [exact Hall |].
    rewrite Hlen. exact Hk. }
  destruct (Nat.eq_dec i 0%nat) as [-> | H0]; [rewrite Hend by (now left); apply Hat; lia |].
  destruct (Nat.eq_dec i 19%nat) as [-> | H19]; [rewrite Hend by (now right); apply Hat; lia |].
  rewrite Hmid by lia.
  pose proof (Hat (i - 1)%nat ltac:(lia)). pose proof (Hat i ltac:(lia)).
  pose proof (Hat (i + 1)%nat ltac:(lia)). lra.
Qed.

Lemma spectralPass_blurs_witness :
  length (repeat 0.5 TOTAL_BINS) = TOTAL_BINS
  /\ Forall (fun v => 0 <= v <= 1) (spectralPass (repeat 0.5 TOTAL_BINS)).
Proof.
  split; [reflexivity |].
  refine (proj2 (proj2 (proj2 (proj2
            (spectralPass_blurs (repeat 0.5 TOTAL_BINS) 0 1 eq_refl _))))).
  apply Forall_rd. intros i Hi. unfold rd.
  destruct (nth_in_or_default i (repeat 0.5 TOTAL_BINS) 0) as [Hin | ->]; [| lra].
  apply repeat_spec in Hin. rewrite Hin. lra.
Defined.

Lemma rdZ_some (sm : list Q) (i : Z) :
  (0 <= i < Z.of_nat (length sm))%Z -> rdZ sm i = Some (rd sm (Z.to_nat i)).
Proof.
  intros H. unfold rdZ, rd.
  destruct (i <? 0)%Z eqn:E; [apply Z.ltb_lt in E; lia |].
  destruct (sm !! Z.to_nat i) eqn:El.
  - now rewrite (nth_lookup_Some _ _ _ _ El).
  - apply lookup_ge_None in El. lia.
Qed.

(** X6.  For two neighbouring dials (columns [c] and [c + 1], [c] in
    0..2) the right edge of the left one and the left edge of the right
    one are the same value: with 20 bins, half the sum of the two bins
    next to the boundary.  The left edge of column 0 and the right edge of
    column 3 are 0. *)
Theorem shared_edge_agrees (sm : list Q) (c : Z) :
  length sm = TOTAL_BINS -> (0 <= c < 3)%Z ->
  rightEdgeOf sm c = leftEdgeOf sm (c + 1)
  /\ rightEdgeOf sm c
     = Some ((rd sm (Z.to_nat (5 * c + 4)) + rd sm (Z.to_nat (5 * c + 5))) * 0.5)
  /\ leftEdgeOf sm 0 = Some 0
  /\ rightEdgeOf sm 3 = Some 0.
Proof.
  intros Hlen Hc.
  assert (Hr : rightEdgeOf sm c
     = Some ((rd sm (Z.to_nat (5 * c + 4)) + rd sm (Z.to_nat (5 * c + 5))) * 0.5)).
  { unfold rightEdgeOf, startBinOf, BARS_PER_DIAL. cbv zeta.
    destruct (c <? 3)%Z eqn:E; [| apply Z.ltb_ge in E; lia].
    replace (c * Z.of_nat 5 + Z.of_nat 5 - 1)%Z with (5 * c + 4)%Z by lia.
    replace (c * Z.of_nat 5 + Z.of_nat 5)%Z with (5 * c + 5)%Z by lia.
    rewrite !rdZ_some by (rewrite Hlen; unfold TOTAL_BINS; lia).
    reflexivity. }
  split; [| split; [exact Hr | split; reflexivity]].
  rewrite Hr. unfold leftEdgeOf, startBinOf, BARS_PER_DIAL. cbv zeta.
  destruct (0 <? c + 1)%Z eqn:E; [| apply Z.ltb_ge in E; lia].
  replace ((c + 1) * Z.of_nat 5 - 1)%Z with (5 * c + 4)%Z by lia.
  replace ((c + 1) * Z.of_nat 5)%Z with (5 * c + 5)%Z by lia.
  rewrite !rdZ_some by (rewrite Hlen; unfold TOTAL_BINS; lia).
  reflexivity.
Qed.

Lemma shared_edge_agrees_witness :
  length (map inject_Z (map Z.of_nat (seq 0 20))) = TOTAL_BINS /\ (0 <= 1 < 3)%Z
  /\ rightEdgeOf (map inject_Z (map Z.of_nat (seq 0 20))) 1
     = leftEdgeOf (map inject_Z (map Z.of_nat (seq 0 20))) 2.
Proof.
  split; [reflexivity |]. split; [lia |].
  exact (proj1 (shared_edge_agrees (map inject_Z (map Z.of_nat (seq 0 20))) 1
                  eq_refl ltac:(lia))).
Defined.

End EngineShaping.

(** ** The engine under silence *)
Module EngineSilence.
Import JS Engine Loops EngineFacts ConsumerFacts EngineInvariant.
Import EngineLifecycle.

(** A frame of [TOTAL_BINS] zeros, as the sources return for silence. *)
Definition silent (rawBins : list Q) : Prop :=
  length rawBins = TOTAL_BINS /\ Forall (fun v => v == 0) rawBins.

Lemma zero_scaled (x g boost : Q) : x == 0 -> Math_min 1 (x * g * boost) == 0.
Proof.
  intros H.
  assert (Hp : x * g * boost == 0) by (rewrite H; ring).
  destruct (Math_min_spec 1 (x * g * boost)) as [[H1 ->] | [H1 ->]]; lra.
Qed.

Lemma zero_blurred (a b c : Q) :
  a == 0 -> b == 0 -> c == 0 -> a * 0.25 + b * 0.5 + c * 0.25 == 0.
Proof. intros Ha Hb Hc. lra. Qed.

Lemma silent_shapedBins (e : AudioEngine) (rawBins : list Q) (i : nat) :
  silent rawBins -> (i < TOTAL_BINS)%nat -> rd (shapedBins e rawBins) i == 0.
Proof.
  intros [Hlen Hz] Hi. unfold TOTAL_BINS in Hi.
  unfold shapedBins, spectralSmooth, SPECTRAL_SMOOTH_PASSES. cbv zeta. simpl Nat.iter.
  set (g := gain e). set (boost := autoBoostOf _).
  assert (Hg : forall k, (k < 20)%nat -> rd (applyGain g boost rawBins) k == 0).
  { intros k Hk. unfold applyGain.
    rewrite (fold_cellwise_in _ _ (applyGain_cellwise g boost));
      [| apply List.seq_NoDup | apply in_seq; unfold TOTAL_BINS; lia
       | rewrite Hlen; unfold TOTAL_BINS; lia].
    apply zero_scaled.
    apply (rd_Forall (fun v => v == 0)); [exact Hz | rewrite Hlen; exact Hk]. }
  unfold spectralPass. cbv zeta.
  destruct (in_dec Nat.eq_dec i (seq 1 (TOTAL_BINS - 2))) as [Hin | Hout].
  - rewrite (fold_cellwise_in _ _ (spectralPass_cellwise (applyGain g boost rawBins)));
      [| apply List.seq_NoDup | exact Hin | rewrite applyGain_length, Hlen; exact Hi].
    apply in_seq in Hin. unfold TOTAL_BINS in Hin.
    apply zero_blurred; apply Hg; lia.
  - rewrite (fold_cellwise_out _ _ (spectralPass_cellwise (applyGain g boost rawBins)))
      by exact Hout.
    now apply Hg.
Qed.

(** The bound on a band after [k] silent ticks. *)
Fixpoint decayBound (k : nat) : Q :=
  match k with
  | O => 1
  | S k' => decayBound k' * 0.75
  end.

Lemma decayBound_S (k : nat) : decayBound (S k) = decayBound k * 0.75.
Proof. reflexivity. Qed.

Lemma decayBound_nonneg (k : nat) : 0 <= decayBound k.
Proof.
  induction k as [| k IH]; [unfold decayBound; lra | rewrite decayBound_S; lra].
Qed.

Lemma decayBound_small (n : nat) : decayBound (17 + n) < 0.01.
Proof.
  induction n as [| n IH].
  - vm_compute. reflexivity.
  - rewrite Nat.add_succ_r, decayBound_S. pose proof (decayBound_nonneg (17 + n)). lra.
Qed.

Definition decayed (k : nat) (v : Q) : Prop :=
  v = 0 \/ (0 <= v <= decayBound k /\ (k = 0%nat \/ 0.01 <= v)).

Lemma decayed_step (k : nat) (raw v : Q) :
  raw == 0 -> decayed k v -> decayed (S k) (smoothed_value raw v).
Proof.
  intros Hr [-> | [Hv _]]; unfold smoothed_value.
  - destruct (gtb raw 0) eqn:E; [apply gtb_true in E; lra |].
    destruct (ltb (0 * 0.75) 0.01) eqn:E2; [now left |].
    apply ltb_false in E2. lra.
  - destruct (gtb raw v) eqn:E; [apply gtb_true in E; lra |].
    destruct (ltb (v * 0.75) 0.01) eqn:E2; [now left |].
    apply ltb_false in E2. right. rewrite decayBound_S. split; [lra | now right].
Qed.

Section Silence.

Variable renderVisualizerFrame : list num -> string -> nat -> num -> num -> string.

(** The engine after the timer fired once for each frame of [frames]. *)
Definition ticks (frames : list (list Q)) (e : AudioEngine) : AudioEngine :=
  fold_left (fun e' rawBins => fst (tick renderVisualizerFrame rawBins e')) frames e.

Lemma tick_bins (rawBins : list Q) (e : AudioEngine) :
  smoothedBins (fst (tick renderVisualizerFrame rawBins e))
  = temporalSmooth (shapedBins e rawBins) (smoothedBins e).
Proof.
  unfold tick. cbv zeta. now destruct (serveAll _ _ _ _ _) as [[slice acts] evs].
Qed.

Lemma silent_ticks_decay (frames : list (list Q)) :
  Forall silent frames ->
  forall (k : nat) (e : AudioEngine),
  length (smoothedBins e) = TOTAL_BINS ->
  Forall (decayed k) (smoothedBins e) ->
  length (smoothedBins (ticks frames e)) = TOTAL_BINS
  /\ Forall (decayed (k + length frames)) (smoothedBins (ticks frames e)).
Proof.
  induction 1 as [| rawBins frames Hs Hrest IH]; intros k e Hlen Hd; simpl.
  - rewrite Nat.add_0_r. now split.
  - replace (k + S (length frames))%nat with (S k + length frames)%nat by lia.
    apply IH.
    + now rewrite tick_bins, temporalSmooth_length.
    + rewrite tick_bins. apply Forall_rd. intros i Hi.
      rewrite temporalSmooth_length, Hlen in Hi.
      rewrite temporalSmooth_rd by (rewrite ?Hlen; exact Hi).
      apply decayed_step.
      * now apply silent_shapedBins.
      * apply (rd_Forall (decayed k)); [exact Hd | now rewrite Hlen].
Qed.

Lemma all_zero (l : list Q) (n : nat) :
  length l = n -> Forall (fun v => v = 0) l -> l = repeat 0 n.
Proof.
  intros <- H. induction H as [| x l -> Hl IH]; simpl; [reflexivity | now rewrite <- IH].
Qed.

(** X7.  From any state with 20 smoothed bins in [0,1], seventeen or more
    timer callbacks that all see silence leave every smoothed bin at
    exactly 0, whatever the gain and the tracked peak are. *)
Theorem silence_decays_to_zero (frames : list (list Q)) (e : AudioEngine) :
  engine_ok e -> Forall silent frames -> (17 <= length frames)%nat ->
  smoothedBins (ticks frames e) = repeat 0 TOTAL_BINS.
Proof.
  intros Hok Hs Hn.
  assert (H0 : Forall (decayed 0) (smoothedBins e)).
  { eapply Forall_impl; [exact (ok_bins _ Hok) |].
    intros v Hv. right. simpl. split; [exact Hv | now left]. }
  destruct (silent_ticks_decay frames Hs 0%nat e (ok_bins_len _ Hok) H0) as [Hlen Hd].
  apply all_zero; [exact Hlen |].
  eapply Forall_impl; [exact Hd |].
  intros v [-> | [[_ Hv] [Hk | Hlo]]]; [reflexivity | simpl in Hk; lia |].
  exfalso.
  pose proof (decayBound_small (length frames - 17)) as Hb.
  replace (17 + (length frames - 17))%nat with (length frames) in Hb by lia.
  rewrite Nat.add_0_l in Hv. lra.
Qed.

Lemma moved_same (a : num) : ~ moved a a.
Proof.
  destruct a as [x |]; unfold moved; [| tauto].
  intros H. assert (Hx : Qabs (x - x) <= 0.015) by (apply Qabs_Qle_condition; lra).
  lra.
Qed.

Lemma served_clean (sm : list Q) (reg : RegisteredAction) :
  dirtyOf sm (served sm reg) = false.
Proof.
  unfold served. destruct (dirtyOf sm reg) eqn:E; [| exact E].
  destruct (dirtyOf sm (refreshed sm reg)) eqn:E2; [| reflexivity].
  exfalso. apply dirtyOf_true in E2. unfold anyMoved in E2. simpl in E2.
  destruct E2 as [[b [Hb Hm]] | [Hm | Hm]].
  - rewrite rdn_bandsOf in Hm by exact Hb. now apply moved_same in Hm.
  - now apply moved_same in Hm.
  - now apply moved_same in Hm.
Qed.

Lemma serveAll_quiet (sm : list Q) (theme : string) (acts : list (string * RegisteredAction)) :
  forall slice,
  length slice = BARS_PER_DIAL ->
  Forall (fun kv => length (lastSent (snd kv)) = BARS_PER_DIAL) acts ->
  Forall (fun kv => dirtyOf sm (snd kv) = false) acts ->
  snd (serveAll renderVisualizerFrame sm theme slice acts) = [].
Proof.
  induction acts as [| [k reg] rest IH]; intros slice Hs Hlen Hq; simpl; [reflexivity |].
  inversion Hlen as [| ? ? Hl Hlrest]; subst. inversion Hq as [| ? ? Hd Hqrest]; subst.
  simpl in Hl, Hd.
  rewrite (serve_eq renderVisualizerFrame sm theme slice k reg Hs Hl), Hd.
  specialize (IH (bandsOf sm (column reg)) (bandsOf_length _ _) Hlrest Hqrest).
  destruct (serveAll _ _ _ _ _) as [[s2 r2] ev2]. simpl in *. exact IH.
Qed.

Lemma tick_events (rawBins : list Q) (e : AudioEngine) :
  snd (tick renderVisualizerFrame rawBins e)
  = snd (serveAll renderVisualizerFrame
           (temporalSmooth (shapedBins e rawBins) (smoothedBins e))
           (currentTheme e) (dialSlice e) (actions e)).
Proof.
  unfold tick. cbv zeta. now destruct (serveAll _ _ _ _ _) as [[slice acts] evs].
Qed.

Lemma nextTheme_iter (n : nat) (e : AudioEngine) :
  actions (Nat.iter n nextTheme e) = actions e
  /\ smoothedBins (Nat.iter n nextTheme e) = smoothedBins e
  /\ dialSlice (Nat.iter n nextTheme e) = dialSlice e.
Proof.
  induction n as [| n IH]; [now split |].
  rewrite Nat.iter_succ. simpl. exact IH.
Qed.

Lemma silent_keeps_zero (rawBins : list Q) (e : AudioEngine) :
  silent rawBins -> smoothedBins e = repeat 0 TOTAL_BINS ->
  temporalSmooth (shapedBins e rawBins) (smoothedBins e) = repeat 0 TOTAL_BINS.
Proof.
  intros Hs Hz. apply all_zero.
  - now rewrite temporalSmooth_length, Hz.
  - apply Forall_rd. intros i Hi.
    rewrite temporalSmooth_length, Hz, repeat_length in Hi.
    rewrite temporalSmooth_rd by (rewrite ?Hz, ?repeat_length; exact Hi).
    assert (Hd : decayed 17 (smoothed_value (rd (shapedBins e rawBins) i)
                               (rd (smoothedBins e) i))).
    { apply decayed_step; [now apply silent_shapedBins |].
      left. rewrite Hz. unfold rd. apply nth_repeat. }
    destruct Hd as [H0 | [[_ Hhi] [Hk | Hlo]]]; [exact H0 | discriminate Hk |].
    exfalso. pose proof (decayBound_small 0) as Hb. rewrite Nat.add_0_r in Hb. lra.
Qed.

(** X8.  Once a timer callback has left every smoothed bin at exactly 0,
    the callbacks that see silence after it render nothing and deliver
    nothing to any consumer, and leave the bins at 0; this holds also when
    the theme was switched or the gain changed in between. *)
Theorem silence_sends_nothing (rawBins0 rawBins : list Q) (e0 : AudioEngine)
    (taps : nat) (delta : Q) :
  engine_ok e0 -> silent rawBins ->
  smoothedBins (fst (tick renderVisualizerFrame rawBins0 e0)) = repeat 0 TOTAL_BINS ->
  let e1 := fst (tick renderVisualizerFrame rawBins0 e0) in
  let e2 := adjustGain delta (Nat.iter taps nextTheme e1) in
  snd (tick renderVisualizerFrame rawBins e2) = []
  /\ smoothedBins (fst (tick renderVisualizerFrame rawBins e2)) = repeat 0 TOTAL_BINS.
Proof.
  intros Hok Hs Hz e1 e2.
  destruct (tick_state renderVisualizerFrame rawBins0 e0 Hok)
    as (Hsm & Hacts & Hslice & _).
  fold e1 in Hsm, Hacts, Hslice, Hz.
  destruct (nextTheme_iter taps e1) as (Ha & Hb & Hc).
  assert (Hz2 : smoothedBins e2 = repeat 0 TOTAL_BINS).
  { unfold e2, adjustGain. cbn [smoothedBins]. now rewrite Hb. }
  assert (Ha2 : actions e2 = actions e1).
  { unfold e2, adjustGain. cbn [actions]. exact Ha. }
  assert (Hc2 : dialSlice e2 = dialSlice e1).
  { unfold e2, adjustGain. cbn [dialSlice]. exact Hc. }
  pose proof (silent_keeps_zero rawBins e2 Hs Hz2) as Hkeep.
  split; [| now rewrite tick_bins].
  rewrite tick_events, Hkeep, Ha2, Hc2, Hacts, <- Hz, Hsm.
  apply serveAll_quiet.
  - exact Hslice.
  - apply Forall_map. cbn [fst snd].
    eapply Forall_impl; [exact (ok_sent _ Hok) |].
    intros kv Hkv. now apply served_length.
  - apply Forall_map. cbn [fst snd].
    apply Forall_forall. intros kv _. apply served_clean.
Qed.

End Silence.

Definition silence : list Q := repeat 0 TOTAL_BINS.

Lemma silence_silent : silent silence.
Proof. split; [reflexivity |]. unfold silence. apply Forall_forall. intros x Hx.
  apply list_elem_of_In, repeat_spec in Hx. now subst. Qed.

Definition loudEngine : AudioEngine :=
  fst (tick noFrame (repeat 1 TOTAL_BINS) oneDial).

Lemma silence_decays_to_zero_witness :
  engine_ok loudEngine /\ Forall silent (repeat silence 17)
  /\ (17 <= length (repeat silence 17))%nat
  /\ smoothedBins (ticks noFrame (repeat silence 17) loudEngine) = repeat 0 TOTAL_BINS.
Proof.
  assert (Hok : engine_ok loudEngine).
  { apply tick_ok; [reflexivity |]. apply registerAction_ok, newEngine_ok. }
  assert (Hs : Forall silent (repeat silence 17)).
  { apply Forall_forall. intros x Hx. apply list_elem_of_In, repeat_spec in Hx.
    subst. apply silence_silent. }
  assert (Hn : (17 <= length (repeat silence 17))%nat) by (rewrite repeat_length; lia).
  split; [exact Hok |]. split; [exact Hs |]. split; [exact Hn |].
  exact (silence_decays_to_zero noFrame (repeat silence 17) loudEngine Hok Hs Hn).
Defined.

Lemma silence_sends_nothing_witness :
  engine_ok oneDial /\ silent silence
  /\ smoothedBins (fst (tick noFrame silence oneDial)) = repeat 0 TOTAL_BINS
  /\ snd (tick noFrame silence
            (adjustGain 0.5 (Nat.iter 1 nextTheme (fst (tick noFrame silence oneDial)))))
     = [].
Proof.
  assert (Hok : engine_ok oneDial) by apply registerAction_ok, newEngine_ok.
  assert (Hz : smoothedBins (fst (tick noFrame silence oneDial)) = repeat 0 TOTAL_BINS)
    by (vm_compute; reflexivity).
  split; [exact Hok |]. split; [exact silence_silent |]. split; [exact Hz |].
  exact (proj1 (silence_sends_nothing noFrame silence silence oneDial 1 0.5
                  Hok silence_silent Hz)).
Defined.

End EngineSilence.

(** ** The dial action: what is persisted and what is restored *)
Module VisualizerFacts.
Import JS Engine EngineInvariant EngineLifecycle Visualizer.

(** X9.  The gain a rotation persists is the engine's gain after the
    rotation and lies in [0.2, 3.0].  When a dial later appears with these
    settings, the gain stays in [0.2, 3.0] and, if the engine still has
    the persisted gain, is left as it is (the correction is 0); the dial
    is registered under its id at its column (0 when the payload has no
    coordinates) with a fresh snapshot, and the theme index is left as it
    was: the theme a tap persisted is not read. *)
Theorem rotate_persist_restore (ticks : Z) (settings : VisualizerSettings)
    (e later : AudioEngine) (actionId act : string) (coordColumn : option Z) (w : bool) :
  let '(e1, saved) := onDialRotate ticks settings e in
  let e2 := onWillAppear true actionId act coordColumn saved w later in
  (exists g, s_gain saved = Some g /\ g = gain e1 /\ 0.2 <= g <= 3.0
             /\ 0.2 <= gain e2 <= 3.0
             /\ (gain later = g -> gain e2 == g))
  /\ s_theme saved = s_theme settings
  /\ map_get actionId (actions e2)
     = Some (freshReg act (match coordColumn with Some c => c | None => 0%Z end))
  /\ themeIndex e2 = themeIndex later.
Proof.
  simpl. split; [| split; [reflexivity | split; [apply map_get_set_eq | reflexivity]]].
  eexists. split; [reflexivity |]. split; [reflexivity |].
  assert (Hr : 0.2 <= Math_max 0.2 (Math_min 3.0 (gain e + inject_Z ticks * 0.05)) <= 3.0).
  { split; [apply Math_max_ge_l | apply Math_max_lub; [lra | apply Math_min_le_l]]. }
  split; [exact Hr |].
  unfold currentGain. simpl.
  set (g := Math_max 0.2 (Math_min 3.0 (gain e + inject_Z ticks * 0.05))) in *.
  split.
  { split; [apply Math_max_ge_l | apply Math_max_lub; [lra | apply Math_min_le_l]]. }
  intros Hsame. rewrite Hsame. clearbody g.
  destruct (Math_min_spec 3.0 (g + (g - g))) as [[H1 ->] | [H1 ->]];
    match goal with
    | |- Math_max 0.2 ?a == _ => destruct (Math_max_spec 0.2 a) as [[H2 ->] | [H2 ->]]
    end; lra.
Qed.

End VisualizerFacts.

(** ** The sample ingest: the ring as a window, chunk after chunk *)
Module IngestWindow.
Import JS Wasapi IngestFacts.

(** The ring read from the write cursor on: oldest sample first. *)
Definition window (s : Source) : list Z :=
  drop (Z.to_nat (writePos s)) (sampleBuffer s) ++ take (Z.to_nat (writePos s)) (sampleBuffer s).

(** The samples a chunk holds. *)
Definition samplesOf (chunk : list Z) : list Z :=
  map (sampleAt chunk) (seq 0 (Nat.div (length chunk) 4)).

Section Window.

Variable computeFFT : list Z -> Z -> Frame.

(** The body of the ingest loop once the sample [v] has been read. *)
Definition storeSample (st : Source * list ingest_event) (v : Z)
    : Source * list ingest_event :=
  let '(s, evs) := st in
  let buf := <[Z.to_nat (writePos s) := v]> (sampleBuffer s) in
  let wp := Z.rem (writePos s + 1) FFT_SIZE in
  let hc := (hopCount s + 1)%Z in
  if (HOP_SIZE <=? hc)%Z
  then ({| sampleBuffer := buf; writePos := wp; hopCount := 0;
           frame := computeFFT buf wp; running := running s |},
        evs ++ [Wrote (writePos s) v; Analyzed])
  else ({| sampleBuffer := buf; writePos := wp; hopCount := hc;
           frame := frame s; running := running s |},
        evs ++ [Wrote (writePos s) v]).

Lemma ingestLoop_values (chunk : list Z) (n : nat) :
  forall (k : nat) (st : Source * list ingest_event),
  ((k + n) * 4 <= length chunk)%nat ->
  ingestLoop computeFFT chunk (seq k n) st
  = Some (fold_left storeSample (map (sampleAt chunk) (seq k n)) st).
Proof.
  induction n as [| n IH]; intros k st Hlen; [reflexivity |].
  cbn [seq map fold_left ingestLoop].
  assert (Hstep : ingestSample computeFFT chunk k st = Some (storeSample st (sampleAt chunk k))).
  { destruct st as [s evs]. unfold ingestSample, storeSample.
    rewrite readFloatLE_in_range by lia.
    now destruct (HOP_SIZE <=? hopCount s + 1)%Z. }
  rewrite Hstep. apply IH. lia.
Qed.

Lemma processAudioChunk_values (chunk : list Z) (s : Source) :
  processAudioChunk computeFFT chunk s = Some (fold_left storeSample (samplesOf chunk) (s, [])).
Proof.
  unfold processAudioChunk, samplesOf. apply ingestLoop_values.
  pose proof (Nat.div_mod_eq (length chunk) 4). lia.
Qed.

Lemma storeSample_events (vs : list Z) :
  forall (s : Source) (evs : list ingest_event),
  fold_left storeSample vs (s, evs)
  = (fst (fold_left storeSample vs (s, [])), evs ++ snd (fold_left storeSample vs (s, []))).
Proof.
  induction vs as [| v vs IH]; intros s evs; cbn [fold_left].
  - cbn [fst snd]. now rewrite app_nil_r.
  - unfold storeSample at 2 4 6. 
    destruct (HOP_SIZE <=? hopCount s + 1)%Z.
    + rewrite IH. rewrite (IH _ ([] ++ _)). cbn [fst snd]. now rewrite <- app_assoc.
    + rewrite IH. rewrite (IH _ ([] ++ _)). cbn [fst snd]. now rewrite <- app_assoc.
Qed.

Lemma sampleAt_app_l (a b : list Z) (j : nat) :
  (j * 4 + 4 <= length a)%nat -> sampleAt (a ++ b) j = sampleAt a j.
Proof.
  intros H. unfold sampleAt, readFloatLE.
  now rewrite !lookup_app_l by lia.
Qed.

Lemma sampleAt_app_r (a b : list Z) (j : nat) :
  (length a = 4 * Nat.div (length a) 4)%nat ->
  sampleAt (a ++ b) (Nat.div (length a) 4 + j) = sampleAt b j.
Proof.
  intros H. unfold sampleAt, readFloatLE.
  rewrite !lookup_app_r by lia.
  replace ((Nat.div (length a) 4 + j) * 4 - length a)%nat with (j * 4)%nat by lia.
  replace ((Nat.div (length a) 4 + j) * 4 + 1 - length a)%nat with (j * 4 + 1)%nat by lia.
  replace ((Nat.div (length a) 4 + j) * 4 + 2 - length a)%nat with (j * 4 + 2)%nat by lia.
  replace ((Nat.div (length a) 4 + j) * 4 + 3 - length a)%nat with (j * 4 + 3)%nat by lia.
  reflexivity.
Qed.

Lemma seq_from (k n : nat) : seq k n = map (fun j => (k + j)%nat) (seq 0 n).
Proof.
  revert k. induction n as [| n IH]; intros k; [reflexivity |].
  cbn [seq map]. rewrite Nat.add_0_r. f_equal.
  rewrite (IH (S k)), (IH 1%nat), map_map. apply map_ext. intros j. lia.
Qed.

Lemma samplesOf_app (a b : list Z) :
  (length a mod 4 = 0)%nat -> samplesOf (a ++ b) = samplesOf a ++ samplesOf b.
Proof.
  intros Hm.
  pose proof (Nat.div_mod_eq (length a) 4) as Ha.
  pose proof (Nat.div_mod_eq (length b) 4) as Hb.
  assert (Hal : (length a = 4 * Nat.div (length a) 4)%nat) by lia.
  assert (Hn : Nat.div (length (a ++ b)) 4
               = (Nat.div (length a) 4 + Nat.div (length b) 4)%nat).
  { rewrite length_app. rewrite Hal at 1.
    rewrite Nat.mul_comm, Nat.div_add_l by lia. reflexivity. }
  unfold samplesOf. rewrite Hn, seq_app, map_app. f_equal.
  - apply map_ext_in. intros j Hj. apply in_seq in Hj.
    apply sampleAt_app_l. lia.
  - rewrite Nat.add_0_l, (seq_from (Nat.div (length a) 4)), map_map.
    apply map_ext. intros j. now apply sampleAt_app_r.
Qed.

(** X11.  When the first of two chunks has a whole number of samples
    (its length is a multiple of 4), handing the two chunks to
    [processAudioChunk] one after the other leaves the same source, and
    causes the same writes and analyses in the same order, as handing over
    their concatenation. *)
Theorem chunks_compose (a b : list Z) (s : Source) :
  (length a mod 4 = 0)%nat ->
  processAudioChunk computeFFT (a ++ b) s
  = match processAudioChunk computeFFT a s with
    | Some (s1, evs1) =>
        match processAudioChunk computeFFT b s1 with
        | Some (s2, evs2) => Some (s2, evs1 ++ evs2)
        | None => None
        end
    | None => None
    end.
Proof.
  intros Hm. rewrite !processAudioChunk_values, samplesOf_app by exact Hm.
  rewrite fold_left_app.
  destruct (fold_left storeSample (samplesOf a) (s, [])) as [s1 evs1].
  rewrite processAudioChunk_values.
  rewrite (storeSample_events (samplesOf b) s1 evs1).
  now destruct (fold_left storeSample (samplesOf b) (s1, [])) as [s2 evs2].
Qed.

Lemma window_step (buf : list Z) (w : nat) (v : Z) :
  (w < length buf)%nat ->
  drop (S w) (<[w := v]> buf) ++ take (S w) (<[w := v]> buf)
  = drop 1 ((drop w buf ++ take w buf) ++ [v]).
Proof.
  intros Hw.
  destruct (lookup_lt_is_Some_2 buf w Hw) as [x Hx].
  rewrite (insert_take_drop buf w v Hw), (drop_S buf x w Hx).
  set (T := take w buf). set (D := drop (S w) buf).
  assert (Hl : S w = (length T + 1)%nat) by (unfold T; rewrite length_take; lia).
  rewrite Hl, drop_app_add, take_app_add.
  cbn [drop take app]. rewrite drop_0, take_0. now rewrite <- app_assoc.
Qed.

Lemma storeSample_window (s : Source) (evs : list ingest_event) (v : Z) :
  source_ok s ->
  source_ok (fst (storeSample (s, evs) v))
  /\ window (fst (storeSample (s, evs) v)) = drop 1 (window s ++ [v]).
Proof.
  intros [H1 H2 H3]. change FFT_SIZE with 2048%Z in *. change HOP_SIZE with 1024%Z in *.
  assert (Hw : window {| sampleBuffer := <[Z.to_nat (writePos s) := v]> (sampleBuffer s);
                         writePos := Z.rem (writePos s + 1)%Z 2048%Z;
                         hopCount := 0%Z; frame := frame s; running := running s |}
               = drop 1 (window s ++ [v])).
  { unfold window. cbn [sampleBuffer writePos].
    rewrite Z.rem_mod_nonneg by lia.
    rewrite <- window_step by lia.
    destruct (Z.eq_dec (writePos s + 1)%Z 2048%Z) as [E | E].
    - rewrite E, Z.mod_same by lia. change (Z.to_nat 0%Z) with 0%nat.
      rewrite drop_0, take_0, app_nil_r.
      rewrite drop_ge, take_ge by (rewrite length_insert; lia). reflexivity.
    - rewrite Z.mod_small by lia.
      replace (Z.to_nat (writePos s + 1)%Z) with (S (Z.to_nat (writePos s))) by lia.
      reflexivity. }
  unfold storeSample. change HOP_SIZE with 1024%Z. change FFT_SIZE with 2048%Z.
  destruct (1024 <=? hopCount s + 1)%Z eqn:E; cbn [fst].
  - split; [| exact Hw].
    split; cbn [sampleBuffer writePos hopCount].
    + now rewrite length_insert.
    + change FFT_SIZE with 2048%Z. rewrite Z.rem_mod_nonneg by lia.
      apply Z.mod_pos_bound. lia.
    + change HOP_SIZE with 1024%Z. lia.
  - apply Z.leb_gt in E. split; [| exact Hw].
    split; cbn [sampleBuffer writePos hopCount].
    + now rewrite length_insert.
    + change FFT_SIZE with 2048%Z. rewrite Z.rem_mod_nonneg by lia.
      apply Z.mod_pos_bound. lia.
    + change HOP_SIZE with 1024%Z. lia.
Qed.

Lemma window_length (s : Source) :
  source_ok s -> length (window s) = Z.to_nat FFT_SIZE.
Proof.
  intros [H1 H2 H3]. unfold window.
  rewrite length_app, length_drop, length_take, H1. lia.
Qed.

Lemma storeSamples_window (vs : list Z) :
  forall (s : Source) (evs : list ingest_event),
  source_ok s ->
  source_ok (fst (fold_left storeSample vs (s, evs)))
  /\ window (fst (fold_left storeSample vs (s, evs))) = drop (length vs) (window s ++ vs).
Proof.
  induction vs as [| v vs IH]; intros s evs Hok; cbn [fold_left length].
  - cbn [fst]. now rewrite app_nil_r, drop_0.
  - destruct (storeSample_window s evs v Hok) as [Hok1 Hw1].
    destruct (storeSample (s, evs) v) as [s1 evs1] eqn:E1. cbn [fst] in Hok1, Hw1.
    destruct (IH s1 evs1 Hok1) as [Hok' Hw']. split; [exact Hok' |].
    rewrite Hw', Hw1.
    pose proof (window_length s Hok) as Hlen. change FFT_SIZE with 2048%Z in Hlen.
    rewrite <- (drop_app_le (window s ++ [v]) vs 1) by (rewrite length_app; lia).
    rewrite drop_drop, <- app_assoc. reflexivity.
Qed.

(** X12.  [processAudioChunk] keeps the ring a sliding window over the
    stream: read from the write cursor on (where [computeFFT] starts), the
    ring after the call is the ring before it followed by the chunk's
    samples, with as many of the oldest values dropped as samples came
    in.  After a chunk of 2048 samples or more it is the last 2048 samples
    of the chunk, oldest first. *)
Theorem ring_is_sliding_window (chunk : list Z) (s : Source) :
  source_ok s ->
  exists s' evs,
    processAudioChunk computeFFT chunk s = Some (s', evs)
    /\ length (window s') = Z.to_nat FFT_SIZE
    /\ window s' = drop (length (samplesOf chunk)) (window s ++ samplesOf chunk)
    /\ ((Z.to_nat FFT_SIZE <= length (samplesOf chunk))%nat ->
        window s' = drop (length (samplesOf chunk) - Z.to_nat FFT_SIZE) (samplesOf chunk)).
Proof.
  intros Hok. rewrite processAudioChunk_values.
  destruct (storeSamples_window (samplesOf chunk) s [] Hok) as [Hok' Hw].
  destruct (fold_left storeSample (samplesOf chunk) (s, [])) as [s' evs].
  cbn [fst] in Hok', Hw.
  exists s', evs. split; [reflexivity |].
  split; [now apply window_length |]. split; [exact Hw |].
  intros Hn. rewrite Hw.
  pose proof (window_length s Hok) as Hlen.
  rewrite drop_app_ge by lia. f_equal. lia.
Qed.

End Window.

Lemma chunks_compose_witness :
  (length [0; 0; 128; 63]%Z mod 4 = 0)%nat
  /\ processAudioChunk (fun _ _ => frame newSource) ([0; 0; 128; 63] ++ [0; 0; 0; 64; 7])%Z
       newSource
     = match processAudioChunk (fun _ _ => frame newSource) [0; 0; 128; 63]%Z newSource with
       | Some (s1, evs1) =>
           match processAudioChunk (fun _ _ => frame newSource) [0; 0; 0; 64; 7]%Z s1 with
           | Some (s2, evs2) => Some (s2, evs1 ++ evs2)
           | None => None
           end
       | None => None
       end.
Proof.
  split; [reflexivity |].
  exact (chunks_compose (fun _ _ => frame newSource) [0; 0; 128; 63]%Z [0; 0; 0; 64; 7]%Z
           newSource eq_refl).
Defined.

Lemma ring_is_sliding_window_witness :
  source_ok newSource
  /\ exists s' evs,
       processAudioChunk (fun _ _ => frame newSource) demoChunk newSource = Some (s', evs)
       /\ window s' = drop 2 (window newSource ++ samplesOf demoChunk).
Proof.
  split; [exact newSource_ok |].
  destruct (ring_is_sliding_window (fun _ _ => frame newSource) demoChunk newSource
              newSource_ok) as (s' & evs & H1 & _ & H3 & _).
  exists s', evs. split; [exact H1 | exact H3].
Defined.

End IngestWindow.

(** ** The capture source: what a chunk leaves behind *)
Module IngestContract.
Import JS Wasapi IngestFacts IngestWindow.

(** The ring position sample [d] of a chunk is stored at. *)
Definition cellOf (s : Source) (d : nat) : Z :=
  ((writePos s + Z.of_nat d) mod FFT_SIZE)%Z.

(** Sample [d] completes a hop. *)
Definition completesHop (s : Source) (d : nat) : bool :=
  ((hopCount s + Z.of_nat d + 1) mod HOP_SIZE =? 0)%Z.

(** What the loop does for the samples [vs], in order: each sample is
    stored, and the analysis runs after a sample that completes a hop. *)
Definition logOf (s : Source) (vs : list Z) : list ingest_event :=
  flat_map (fun d => Wrote (cellOf s d) (nth d vs 0%Z)
                     :: (if completesHop s d then [Analyzed] else []))
           (seq 0 (length vs)).

Lemma flat_map_agree {A B : Type} (f g : A -> list B) (l : list A) :
  (forall a, In a l -> f a = g a) -> flat_map f l = flat_map g l.
Proof.
  intros H. induction l as [| a l IH]; [reflexivity |].
  cbn [flat_map]. rewrite (H a) by now left.
  f_equal. apply IH. intros a' Ha'. apply H. now right.
Qed.

Section Contract.

Variable computeFFT : list Z -> Z -> Frame.
Variable s : Source.
Hypothesis Hok : source_ok s.

Definition runSamples (vs : list Z) : Source * list ingest_event :=
  fold_left (storeSample computeFFT) vs (s, []).

Lemma runSamples_snoc (vs : list Z) (v : Z) :
  runSamples (vs ++ [v]) = storeSample computeFFT (runSamples vs) v.
Proof. unfold runSamples. now rewrite fold_left_app. Qed.

Lemma logOf_snoc (vs : list Z) (v : Z) :
  logOf s (vs ++ [v])
  = logOf s vs ++ Wrote (cellOf s (length vs)) v
                  :: (if completesHop s (length vs) then [Analyzed] else []).
Proof.
  unfold logOf. rewrite length_app. cbn [length].
  rewrite seq_app, flat_map_app. cbn [seq flat_map Nat.add]. rewrite app_nil_r.
  f_equal.
  - apply flat_map_agree. intros d Hd. apply in_seq in Hd.
    now rewrite app_nth1 by lia.
  - rewrite app_nth2, Nat.sub_diag by lia. reflexivity.
Qed.

(** The state after the samples [vs]. *)
Record after (vs : list Z) (st : Source * list ingest_event) : Prop := {
  after_ok : source_ok (fst st);
  after_cursor : writePos (fst st) = cellOf s (length vs);
  after_hop : hopCount (fst st) = ((hopCount s + Z.of_nat (length vs)) mod HOP_SIZE)%Z;
  after_running : running (fst st) = running s;
  after_log : snd st = logOf s vs;
  after_stored : forall d, (d < length vs)%nat -> (length vs <= d + 2048)%nat ->
    sampleBuffer (fst st) !! Z.to_nat (cellOf s d) = Some (nth d vs 0%Z);
  after_kept : forall p, (p < 2048)%nat ->
    (forall d, (d < length vs)%nat -> Z.to_nat (cellOf s d) <> p) ->
    sampleBuffer (fst st) !! p = sampleBuffer s !! p;
  after_no_hop : (hopCount s + Z.of_nat (length vs) < HOP_SIZE)%Z -> frame (fst st) = frame s;
  after_last_hop : (HOP_SIZE <= hopCount s + Z.of_nat (length vs))%Z ->
    let k := (length vs
              - Z.to_nat ((hopCount s + Z.of_nat (length vs)) mod HOP_SIZE))%nat in
    frame (fst st)
    = computeFFT (sampleBuffer (fst (runSamples (take k vs))))
                 (writePos (fst (runSamples (take k vs))))
}.

Lemma cellOf_range (d : nat) : (0 <= cellOf s d < 2048)%Z.
Proof. unfold cellOf. change FFT_SIZE with 2048%Z. apply Z.mod_pos_bound. lia. Qed.

Lemma cellOf_apart (d m : nat) :
  (d < m)%nat -> (m <= d + 2047)%nat -> cellOf s d <> cellOf s m.
Proof.
  intros H1 H2. unfold cellOf. change FFT_SIZE with 2048%Z.
  Z.div_mod_to_equations. lia.
Qed.

Lemma after_nil : after [] (runSamples []).
Proof.
  destruct Hok as [H1 H2 H3].
  change FFT_SIZE with 2048%Z in *. change HOP_SIZE with 1024%Z in *.
  split; cbn [runSamples fold_left fst snd length].
  - exact Hok.
  - unfold cellOf. change FFT_SIZE with 2048%Z. rewrite Z.add_0_r, Z.mod_small by lia.
    reflexivity.
  - change HOP_SIZE with 1024%Z. rewrite Z.add_0_r, Z.mod_small by lia. reflexivity.
  - reflexivity.
  - reflexivity.
  - intros d Hd. lia.
  - reflexivity.
  - reflexivity.
  - change HOP_SIZE with 1024%Z. intros Hc. lia.
Qed.

Lemma after_snoc (vs : list Z) (v : Z) :
  after vs (runSamples vs) -> after (vs ++ [v]) (runSamples (vs ++ [v])).
Proof.
  intros [A1 A2 A3 A4 A5 A6 A7 A8 A9].
  rewrite runSamples_snoc.
  destruct (runSamples vs) as [sm evm] eqn:Erun. cbn [fst snd] in *.
  destruct A1 as [B1 B2 B3]. destruct Hok as [H1 H2 H3].
  change FFT_SIZE with 2048%Z in *. change HOP_SIZE with 1024%Z in *.
  set (m := length vs) in *.
  assert (Hlen : length (vs ++ [v]) = S m) by (rewrite length_app; cbn [length]; lia).
  assert (Hcur : Z.rem (writePos sm + 1) 2048 = cellOf s (S m)).
  { rewrite Z.rem_mod_nonneg by lia. rewrite A2. unfold cellOf.
    change FFT_SIZE with 2048%Z. rewrite Zplus_mod_idemp_l. f_equal. lia. }
  assert (Hstored : forall buf' : list Z,
            buf' = <[Z.to_nat (writePos sm) := v]> (sampleBuffer sm) ->
            forall d, (d < S m)%nat -> (S m <= d + 2048)%nat ->
            buf' !! Z.to_nat (cellOf s d) = Some (nth d (vs ++ [v]) 0%Z)).
  { intros buf' -> d Hd1 Hd2. rewrite A2.
    destruct (Nat.eq_dec d m) as [-> | Hne].
    - rewrite list_lookup_insert_eq by (rewrite B1; pose proof (cellOf_range m); lia).
      unfold m. now rewrite app_nth2, Nat.sub_diag by lia.
    - rewrite list_lookup_insert_ne.
      + rewrite app_nth1 by (fold m; lia). apply A6; lia.
      + pose proof (cellOf_apart d m ltac:(lia) ltac:(lia)) as Hap.
        pose proof (cellOf_range d). pose proof (cellOf_range m). lia. }
  assert (Hkept : forall buf' : list Z,
            buf' = <[Z.to_nat (writePos sm) := v]> (sampleBuffer sm) ->
            forall p, (p < 2048)%nat ->
            (forall d, (d < S m)%nat -> Z.to_nat (cellOf s d) <> p) ->
            buf' !! p = sampleBuffer s !! p).
  { intros buf' -> p Hp Hfree. rewrite A2.
    rewrite list_lookup_insert_ne by (apply Hfree; lia).
    apply A7; [exact Hp |]. intros d Hd. apply Hfree. lia. }
  assert (Hlog : forall hop : bool, hop = completesHop s m ->
            evm ++ Wrote (writePos sm) v :: (if hop then [Analyzed] else [])
            = logOf s (vs ++ [v])).
  { intros hop ->. rewrite logOf_snoc, A5, A2. reflexivity. }
  assert (Hhop : completesHop s m = (1024 <=? hopCount sm + 1)%Z).
  { unfold completesHop. change HOP_SIZE with 1024%Z. rewrite A3.
    pose proof (Z.mod_pos_bound (hopCount s + Z.of_nat m) 1024 ltac:(lia)) as Hb.
    destruct (1024 <=? (hopCount s + Z.of_nat m) mod 1024 + 1)%Z eqn:E.
    - apply Z.leb_le in E. apply Z.eqb_eq.
      rewrite <- Zplus_mod_idemp_l.
      replace ((hopCount s + Z.of_nat m) mod 1024)%Z with 1023%Z by lia. reflexivity.
    - apply Z.leb_gt in E. apply Z.eqb_neq.
      rewrite <- Zplus_mod_idemp_l. rewrite Z.mod_small by lia. lia. }
  unfold storeSample. change FFT_SIZE with 2048%Z. change HOP_SIZE with 1024%Z.
  destruct (1024 <=? hopCount sm + 1)%Z eqn:E.
  - apply Z.leb_le in E.
    assert (Hfull : ((hopCount s + Z.of_nat m) mod 1024 = 1023)%Z) by lia.
    assert (Hnext : ((hopCount s + Z.of_nat (S m)) mod 1024 = 0)%Z).
    { replace (hopCount s + Z.of_nat (S m))%Z with (hopCount s + Z.of_nat m + 1)%Z by lia.
      rewrite <- Zplus_mod_idemp_l, Hfull. reflexivity. }
    split; cbn [fst snd sampleBuffer writePos hopCount frame running]; rewrite ?Hlen.
    + split; cbn [sampleBuffer writePos hopCount].
      * now rewrite length_insert.
      * rewrite Hcur. apply cellOf_range.
      * change HOP_SIZE with 1024%Z. lia.
    + exact Hcur.
    + change HOP_SIZE with 1024%Z. now rewrite Hnext.
    + exact A4.
    + apply (Hlog true). now rewrite Hhop.
    + now apply Hstored.
    + now apply Hkept.
    + change HOP_SIZE with 1024%Z. intros Hc. exfalso.
      rewrite Z.mod_small in Hfull by lia. lia.
    + change HOP_SIZE with 1024%Z. intros _. cbv zeta. rewrite Hnext.
      change (Z.to_nat 0) with 0%nat. rewrite Nat.sub_0_r.
      rewrite <- Hlen, firstn_all, runSamples_snoc, Erun.
      unfold storeSample. change FFT_SIZE with 2048%Z. change HOP_SIZE with 1024%Z.
      replace (1024 <=? hopCount sm + 1)%Z with true by (symmetry; apply Z.leb_le; lia).
      reflexivity.
  - apply Z.leb_gt in E.
    assert (Hnext : ((hopCount s + Z.of_nat (S m)) mod 1024
                     = (hopCount s + Z.of_nat m) mod 1024 + 1)%Z).
    { replace (hopCount s + Z.of_nat (S m))%Z with (hopCount s + Z.of_nat m + 1)%Z by lia.
      rewrite <- Zplus_mod_idemp_l. apply Z.mod_small. lia. }
    split; cbn [fst snd sampleBuffer writePos hopCount frame running]; rewrite ?Hlen.
    + split; cbn [sampleBuffer writePos hopCount].
      * now rewrite length_insert.
      * rewrite Hcur. apply cellOf_range.
      * change HOP_SIZE with 1024%Z. lia.
    + exact Hcur.
    + change HOP_SIZE with 1024%Z. rewrite Hnext. lia.
    + exact A4.
    + apply (Hlog false). now rewrite Hhop.
    + now apply Hstored.
    + now apply Hkept.
    + change HOP_SIZE with 1024%Z. intros Hc. apply A8. lia.
    + change HOP_SIZE with 1024%Z. intros Hc. cbv zeta. rewrite Hnext.
      assert (Hge : (1024 <= hopCount s + Z.of_nat m)%Z).
      { destruct (Z_lt_le_dec (hopCount s + Z.of_nat m) 1024) as [Hlt | Hge]; [| exact Hge].
        rewrite Z.mod_small in A3 by lia. lia. }
      specialize (A9 Hge). cbv zeta in A9.
      pose proof (Z.mod_pos_bound (hopCount s + Z.of_nat m) 1024 ltac:(lia)) as Hb.
      assert (Hle : ((hopCount s + Z.of_nat m) mod 1024 <= Z.of_nat m)%Z).
      { pose proof (Z.mod_le (hopCount s + Z.of_nat m) 1024 ltac:(lia) ltac:(lia)).
        assert (((hopCount s + Z.of_nat m) mod 1024 = (hopCount s + Z.of_nat m) - 1024 * ((hopCount s + Z.of_nat m) / 1024))%Z)
          by (rewrite Z.mod_eq by lia; reflexivity).
        assert (1 <= (hopCount s + Z.of_nat m) / 1024)%Z
          by (apply Z.div_le_lower_bound; lia).
        lia. }
      replace (S m - Z.to_nat ((hopCount s + Z.of_nat m) mod 1024 + 1))%nat
        with (m - Z.to_nat ((hopCount s + Z.of_nat m) mod 1024))%nat by lia.
      rewrite take_app_le by (fold m; lia). exact A9.
Qed.

Lemma after_all (vs : list Z) : after vs (runSamples vs).
Proof.
  induction vs as [| v vs IH] using rev_ind; [apply after_nil | now apply after_snoc].
Qed.

End Contract.

(** The samples of the first [k] samples' bytes. *)
Lemma samplesOf_take (chunk : list Z) (k : nat) :
  (k <= Nat.div (length chunk) 4)%nat ->
  samplesOf (take (4 * k) chunk) = take k (samplesOf chunk).
Proof.
  intros Hk. pose proof (Nat.div_mod_eq (length chunk) 4) as Hd.
  unfold samplesOf. rewrite length_take.
  replace (Nat.min (4 * k) (length chunk)) with (k * 4)%nat by lia.
  rewrite Nat.div_mul by lia.
  rewrite firstn_map, take_seq.
  replace (Nat.min k (Nat.div (length chunk) 4)) with k by lia.
  apply map_ext_in. intros j Hj. apply in_seq in Hj.
  unfold sampleAt, readFloatLE. now rewrite !lookup_take_lt by lia.
Qed.

Lemma samplesOf_nth (chunk : list Z) (d : nat) :
  (d < Nat.div (length chunk) 4)%nat -> nth d (samplesOf chunk) 0%Z = sampleAt chunk d.
Proof.
  intros Hd. unfold samplesOf.
  rewrite (nth_indep _ 0%Z (sampleAt chunk 0)) by (rewrite length_map, length_seq; lia).
  now rewrite map_nth, seq_nth by lia.
Qed.

Lemma samplesOf_length (chunk : list Z) : length (samplesOf chunk) = Nat.div (length chunk) 4.
Proof. unfold samplesOf. now rewrite length_map, length_seq. Qed.

Section Chunk.

Variable computeFFT : list Z -> Z -> Frame.

(** C4.  A chunk of [L] bytes is always accepted and [n = floor(L/4)]
    samples are read, the bytes of a trailing partial sample are not.
    The ring: sample [d] is stored at cell [(writePos + d) mod 2048];
    afterwards that cell holds it unless a later sample of the chunk came
    round to the same cell ([n > d + 2048]), and a cell no sample went to
    holds what it held.  The write cursor advances by [n] modulo 2048.
    The hop counter ends in [0, 1024) at [(hopCount + n) mod 1024].  The
    analysis runs right after each sample that brings the counter to
    1024, [(hopCount + n) / 1024] times in all, and nowhere else: the
    log of the call lists, sample by sample, the store and the run.  The
    frame kept afterwards is the old one when no hop was completed, and
    otherwise the analysis of the ring and cursor as they stood after the
    sample that completed the last hop. *)
Theorem processAudioChunk_ring (chunk : list Z) (s : Source) :
  source_ok s ->
  let n := Nat.div (length chunk) 4 in
  let total := (hopCount s + Z.of_nat n)%Z in
  FFT_SIZE = 2048%Z /\ HOP_SIZE = 1024%Z
  /\ exists s' evs,
       processAudioChunk computeFFT chunk s = Some (s', evs)
       /\ writesOf evs
          = map (fun d => (((writePos s + Z.of_nat d) mod FFT_SIZE)%Z, sampleAt chunk d))
                (seq 0 n)
       /\ length (writesOf evs) = n
       /\ writePos s' = ((writePos s + Z.of_nat n) mod FFT_SIZE)%Z
       /\ (0 <= hopCount s' < HOP_SIZE)%Z
       /\ hopCount s' = (total mod HOP_SIZE)%Z
       /\ analysesOf evs = Z.to_nat (total / HOP_SIZE)
       /\ length (sampleBuffer s') = Z.to_nat FFT_SIZE
       /\ evs = flat_map (fun d => Wrote (cellOf s d) (sampleAt chunk d)
                                   :: (if completesHop s d then [Analyzed] else []))
                         (seq 0 n)
       /\ (forall d, (d < n)%nat -> (n <= d + 2048)%nat ->
           sampleBuffer s' !! Z.to_nat (cellOf s d) = Some (sampleAt chunk d))
       /\ (forall p, (p < 2048)%nat ->
           (forall d, (d < n)%nat -> Z.to_nat (cellOf s d) <> p) ->
           sampleBuffer s' !! p = sampleBuffer s !! p)
       /\ ((total < HOP_SIZE)%Z -> frame s' = frame s)
       /\ ((HOP_SIZE <= total)%Z ->
           exists s1 evs1,
             processAudioChunk computeFFT
               (take (4 * (n - Z.to_nat (total mod HOP_SIZE))) chunk) s = Some (s1, evs1)
             /\ frame s' = computeFFT (sampleBuffer s1) (writePos s1))
       /\ running s' = running s.
Proof.
  intros Hok n total. split; [reflexivity |]. split; [reflexivity |].
  assert (Hlen : ((0 + n) * 4 <= length chunk)%nat).
  { unfold n. pose proof (Nat.div_mod_eq (length chunk) 4). lia. }
  destruct (ingestLoop_spec computeFFT chunk n 0%nat s [] Hok Hlen)
    as (s' & evs & Hrun & Hok' & Hwp & Hhc & Han & Hwr).
  assert (Hproc : processAudioChunk computeFFT chunk s = Some (s', evs)) by exact Hrun.
  pose proof (processAudioChunk_values computeFFT chunk s) as Hval.
  rewrite Hproc in Hval. injection Hval as Hval.
  pose proof (after_all computeFFT s Hok (samplesOf chunk)) as Haft.
  unfold runSamples in Haft at 1. rewrite <- Hval in Haft.
  destruct Haft as [A1 A2 A3 A4 A5 A6 A7 A8 A9]. cbn [fst snd] in *.
  rewrite samplesOf_length in *. fold n in A6, A7, A8, A9. fold total in A8, A9.
  exists s', evs. simpl in Han, Hwr.
  split; [exact Hproc |]. split; [exact Hwr |].
  split; [now rewrite Hwr, length_map, length_seq |].
  split; [exact Hwp |]. split; [exact (ok_hop _ Hok') |].
  split; [exact Hhc |]. split; [exact Han |]. split; [exact (ok_ring _ Hok') |].
  split.
  { rewrite A5. unfold logOf. rewrite samplesOf_length. fold n.
    apply flat_map_agree. intros d Hd. apply in_seq in Hd.
    now rewrite samplesOf_nth by (fold n; lia). }
  split.
  { intros d Hd1 Hd2. rewrite A6 by assumption. f_equal. apply samplesOf_nth. exact Hd1. }
  split; [exact A7 |]. split; [exact A8 |]. split; [| exact A4].
  intros Hc. specialize (A9 Hc). cbv zeta in A9.
  set (k := (n - Z.to_nat (total mod HOP_SIZE))%nat) in *.
  rewrite <- (samplesOf_take chunk k) in A9 by (unfold k, n; lia).
  pose proof (processAudioChunk_values computeFFT (take (4 * k) chunk) s) as Hpre.
  fold (runSamples computeFFT s (samplesOf (take (4 * k) chunk))) in Hpre.
  destruct (runSamples computeFFT s (samplesOf (take (4 * k) chunk))) as [s1 evs1].
  exists s1, evs1. split; [exact Hpre | exact A9].
Qed.

End Chunk.

(** 4100 bytes: 1025 samples, so that one hop is completed. *)
Definition hopChunk : list Z := repeat 0%Z 4100.

Lemma processAudioChunk_ring_witness :
  source_ok newSource
  /\ exists s' evs,
       processAudioChunk (fun _ _ => frame newSource) hopChunk newSource = Some (s', evs)
       /\ writePos s' = 1025%Z /\ hopCount s' = 1%Z /\ analysesOf evs = 1%nat
       /\ sampleBuffer s' !! 1024%nat = Some (sampleAt hopChunk 1024).
Proof.
  split; [exact newSource_ok |].
  destruct (processAudioChunk_ring (fun _ _ => frame newSource) hopChunk newSource
              newSource_ok)
    as (_ & _ & s' & evs & H1 & _ & _ & H4 & _ & H6 & H7 & _ & _ & H10 & _).
  exists s', evs. split; [exact H1 |]. split; [exact H4 |]. split; [exact H6 |].
  split; [exact H7 |]. apply (H10 1024%nat); vm_compute; lia.
Defined.

End IngestContract.

(** ** The analysis: bit reversal *)
Module AnalysisFacts.
Import JS Wasapi Analysis.

Lemma ard_insert_eq (l : list Q) (i : nat) (x : Q) :
  (i < length l)%nat -> rd (<[i := x]> l) i = x.
Proof.
  intros H. unfold rd. rewrite nth_lookup, list_lookup_insert_eq by exact H.
  reflexivity.
Qed.

Lemma ard_insert_ne (l : list Q) (i k : nat) (x : Q) :
  i <> k -> rd (<[i := x]> l) k = rd l k.
Proof.
  intros H. unfold rd. rewrite !nth_lookup, list_lookup_insert_ne by exact H.
  reflexivity.
Qed.

(** The loop of the table always leaves with the tested bit clear: the
    fuel of [bitRevNext] is enough. *)
Lemma bitRevCarry_exits (fuel : nat) :
  forall j bit : Z,
  (0 <= bit < 2 ^ Z.of_nat fuel)%Z ->
  Z.land (fst (bitRevCarry fuel j bit)) (snd (bitRevCarry fuel j bit)) = 0%Z.
Proof.
  induction fuel as [| fuel IH]; intros j bit Hb.
  - cbn [bitRevCarry fst snd]. change (2 ^ Z.of_nat 0)%Z with 1%Z in Hb.
    assert (bit = 0%Z) by lia. subst. apply Z.land_0_r.
  - cbn [bitRevCarry]. destruct (Z.land j bit =? 0)%Z eqn:E.
    + cbn [fst snd]. now apply Z.eqb_eq.
    + apply IH. rewrite Z.shiftr_div_pow2 by lia. change (2 ^ 1)%Z with 2%Z.
      rewrite Nat2Z.inj_succ, Z.pow_succ_r in Hb by lia.
      split; [apply Z.div_pos; lia | apply Z.div_lt_upper_bound; lia].
Qed.

(** The value of the [bits]-bit number whose bits are those of [i] in
    reverse order. *)
Fixpoint reverseBits (bits : nat) (i : Z) : Z :=
  match bits with
  | O => 0%Z
  | S b => ((i mod 2) * 2 ^ Z.of_nat b + reverseBits b (i / 2))%Z
  end.

(** The three facts about the table, checked entry by entry. *)
Lemma table_reverses :
  forallb (fun i => (Z.of_nat (tableAt bitRev i) =? reverseBits 11 (Z.of_nat i))%Z)
          (seq 0 FFT_N) = true.
Proof. vm_compute. reflexivity. Qed.

Lemma table_in_range :
  forallb (fun i => (tableAt bitRev i <? FFT_N)%nat) (seq 0 FFT_N) = true.
Proof. vm_compute. reflexivity. Qed.

Lemma table_involutive :
  forallb (fun i => (tableAt bitRev (tableAt bitRev i) =? i)%nat) (seq 0 FFT_N) = true.
Proof. vm_compute. reflexivity. Qed.

Lemma bitRev_spec (i : nat) :
  (i < FFT_N)%nat ->
  Z.of_nat (tableAt bitRev i) = reverseBits 11 (Z.of_nat i)
  /\ (tableAt bitRev i < FFT_N)%nat /\ tableAt bitRev (tableAt bitRev i) = i.
Proof.
  intros Hi.
  assert (Hin : In i (seq 0 FFT_N)) by (apply in_seq; lia).
  split; [| split].
  - apply Z.eqb_eq.
    exact (proj1 (forallb_forall _ (seq 0 FFT_N)) table_reverses i Hin).
  - apply Nat.ltb_lt.
    exact (proj1 (forallb_forall _ (seq 0 FFT_N)) table_in_range i Hin).
  - apply Nat.eqb_eq.
    exact (proj1 (forallb_forall _ (seq 0 FFT_N)) table_involutive i Hin).
Qed.

Lemma swap_length (a : list Q) (i j : nat) : length (swap a i j) = length a.
Proof. unfold swap. now rewrite !length_insert. Qed.

Lemma swap_rd (a : list Q) (i j k : nat) :
  (i < length a)%nat -> (j < length a)%nat -> i <> j ->
  rd (swap a i j) k = if (k =? i)%nat then rd a j else if (k =? j)%nat then rd a i else rd a k.
Proof.
  intros Hi Hj Hij. unfold swap. cbv zeta.
  destruct (k =? i)%nat eqn:Ei; [apply Nat.eqb_eq in Ei; subst k |].
  - rewrite ard_insert_ne by (intros E; apply Hij; now symmetry).
    now rewrite ard_insert_eq.
  - apply Nat.eqb_neq in Ei.
    destruct (k =? j)%nat eqn:Ej; [apply Nat.eqb_eq in Ej; subst k |].
    + rewrite ard_insert_eq by (rewrite length_insert; exact Hj). reflexivity.
    + apply Nat.eqb_neq in Ej.
      rewrite !ard_insert_ne by (intros E; symmetry in E; contradiction). reflexivity.
Qed.

Section Permutation.

(** Any table that is its own inverse on the indices below [FFT_N]. *)
Variable table : list Z.
Hypothesis table_inv : forall i, (i < FFT_N)%nat ->
  (tableAt table i < FFT_N)%nat /\ tableAt table (tableAt table i) = i.

(** The loop on one array. *)
Definition permuteOne (idxs : list nat) (a : list Q) : list Q :=
  fold_left (fun a i => if (i <? tableAt table i)%nat then swap a i (tableAt table i) else a)
            idxs a.

Lemma permuteBy_split (idxs : list nat) (re im : list Q) :
  fold_left
    (fun st i =>
       let j := tableAt table i in
       if (i <? j)%nat then (swap (fst st) i j, swap (snd st) i j) else st)
    idxs (re, im)
  = (permuteOne idxs re, permuteOne idxs im).
Proof.
  revert re im. induction idxs as [| i idxs IH]; intros re im; [reflexivity |].
  unfold permuteOne. cbn [fold_left]. cbv zeta.
  destruct (i <? tableAt table i)%nat; cbn [fst snd]; apply IH.
Qed.

Lemma permuteOne_upto (a : list Q) (k : nat) :
  length a = FFT_N -> (k <= FFT_N)%nat ->
  length (permuteOne (seq 0 k) a) = FFT_N
  /\ forall i, (i < FFT_N)%nat ->
       rd (permuteOne (seq 0 k) a) i
       = if (Nat.min i (tableAt table i) <? k)%nat then rd a (tableAt table i) else rd a i.
Proof.
  intros Hlen. induction k as [| k IH]; intros Hk.
  - unfold permuteOne. cbn [seq fold_left]. split; [exact Hlen |]. intros i Hi. reflexivity.
  - unfold permuteOne. rewrite seq_S, fold_left_app. fold (permuteOne (seq 0 k) a).
    cbn [fold_left]. rewrite Nat.add_0_l.
    destruct (IH ltac:(lia)) as [Hl Hrd]. clear IH.
    set (ak := permuteOne (seq 0 k) a) in *.
    destruct (table_inv k ltac:(lia)) as (Hrk & Hrrk).
    set (r := tableAt table) in *.
    destruct (k <? r k)%nat eqn:E.
    + apply Nat.ltb_lt in E. split; [now rewrite swap_length |].
      intros i Hi. rewrite swap_rd by lia.
      destruct (table_inv i Hi) as (Hri & Hrri). fold r in Hri, Hrri.
      destruct (i =? k)%nat eqn:Eik; [apply Nat.eqb_eq in Eik; subst i |].
      * rewrite (Hrd (r k) Hrk), Hrrk.
        replace (Nat.min (r k) k <? k)%nat with false by (symmetry; apply Nat.ltb_ge; lia).
        replace (Nat.min k (r k) <? S k)%nat with true by (symmetry; apply Nat.ltb_lt; lia).
        reflexivity.
      * apply Nat.eqb_neq in Eik.
        destruct (i =? r k)%nat eqn:Eir; [apply Nat.eqb_eq in Eir; subst i |].
        -- rewrite (Hrd k ltac:(lia)), Hrrk.
           replace (Nat.min k (r k) <? k)%nat with false by (symmetry; apply Nat.ltb_ge; lia).
           replace (Nat.min (r k) k <? S k)%nat with true by (symmetry; apply Nat.ltb_lt; lia).
           reflexivity.
        -- apply Nat.eqb_neq in Eir. rewrite (Hrd i Hi).
           assert (Hne : r i <> k) by (intros E2; apply Eir; now rewrite <- E2).
           destruct (Nat.min i (r i) <? k)%nat eqn:Em.
           ++ apply Nat.ltb_lt in Em.
              replace (Nat.min i (r i) <? S k)%nat with true
                by (symmetry; apply Nat.ltb_lt; lia). reflexivity.
           ++ apply Nat.ltb_ge in Em.
              replace (Nat.min i (r i) <? S k)%nat with false
                by (symmetry; apply Nat.ltb_ge; lia). reflexivity.
    + apply Nat.ltb_ge in E. split; [exact Hl |].
      intros i Hi. rewrite (Hrd i Hi).
      destruct (table_inv i Hi) as (Hri & Hrri). fold r in Hri, Hrri.
      destruct (Nat.min i (r i) <? k)%nat eqn:Em.
      * apply Nat.ltb_lt in Em.
        replace (Nat.min i (r i) <? S k)%nat with true
          by (symmetry; apply Nat.ltb_lt; lia). reflexivity.
      * apply Nat.ltb_ge in Em.
        destruct (Nat.min i (r i) <? S k)%nat eqn:Em2; [| reflexivity].
        apply Nat.ltb_lt in Em2.
        assert (Hc : i = k \/ r i = k) by lia.
        destruct Hc as [-> | Hc].
        -- assert (r k = k) by lia. congruence.
        -- assert (Hik : i = r k) by (rewrite <- Hc; now symmetry).
           assert (r k = k) by lia. congruence.
Qed.

Lemma permuteBy_spec (re im : list Q) (i : nat) :
  length re = FFT_N -> length im = FFT_N -> (i < FFT_N)%nat ->
  rd (fst (permuteBy table (re, im))) i = rd re (tableAt table i)
  /\ rd (snd (permuteBy table (re, im))) i = rd im (tableAt table i)
  /\ length (fst (permuteBy table (re, im))) = FFT_N
  /\ length (snd (permuteBy table (re, im))) = FFT_N.
Proof.
  intros Hre Him Hi. unfold permuteBy. rewrite permuteBy_split. cbn [fst snd].
  destruct (permuteOne_upto re FFT_N Hre (Nat.le_refl _)) as [Hl1 Hr1].
  destruct (permuteOne_upto im FFT_N Him (Nat.le_refl _)) as [Hl2 Hr2].
  destruct (table_inv i Hi) as (Hri & _).
  assert (Hm : (Nat.min i (tableAt table i) <? FFT_N)%nat = true)
    by (apply Nat.ltb_lt; lia).
  split; [rewrite (Hr1 i Hi), Hm; reflexivity |].
  split; [rewrite (Hr2 i Hi), Hm; reflexivity |].
  split; assumption.
Qed.

End Permutation.

Lemma bitRev_inv (i : nat) :
  (i < FFT_N)%nat ->
  (tableAt bitRev i < FFT_N)%nat /\ tableAt bitRev (tableAt bitRev i) = i.
Proof. intros Hi. destruct (bitRev_spec i Hi) as (_ & H2 & H3). now split. Qed.

(** X13.  The table [bitRev] holds, at every index below 2048, the index
    with its 11 bits reversed, and is its own inverse.  The first loop of
    [fftInPlace] therefore moves, in both working arrays of 2048 cells,
    the content of cell [bitRev[i]] to cell [i], for every [i]. *)
Theorem bitReverse_permutes (re im : list Q) (i : nat) :
  length re = FFT_N -> length im = FFT_N -> (i < FFT_N)%nat ->
  Z.of_nat (tableAt bitRev i) = reverseBits 11 (Z.of_nat i)
  /\ tableAt bitRev (tableAt bitRev i) = i
  /\ rd (fst (bitReverse (re, im))) i = rd re (tableAt bitRev i)
  /\ rd (snd (bitReverse (re, im))) i = rd im (tableAt bitRev i)
  /\ length (fst (bitReverse (re, im))) = FFT_N
  /\ length (snd (bitReverse (re, im))) = FFT_N.
Proof.
  intros Hre Him Hi.
  destruct (bitRev_spec i Hi) as (H1 & H2 & H3).
  split; [exact H1 |]. split; [exact H3 |].
  unfold bitReverse.
  exact (permuteBy_spec bitRev bitRev_inv re im i Hre Him Hi).
Qed.

(** The cells 0, 1, ..., 2047, to run the statement on. *)
Definition ramp : list Q := map (fun i => inject_Z (Z.of_nat i)) (seq 0 FFT_N).

Lemma ramp_length : length ramp = FFT_N.
Proof. unfold ramp. now rewrite length_map, length_seq. Qed.

Lemma one_below_FFT_N : (1 < FFT_N)%nat.
Proof. vm_compute. lia. Qed.

Lemma bitReverse_permutes_witness :
  length ramp = FFT_N /\ (1 < FFT_N)%nat
  /\ rd (fst (bitReverse (ramp, ramp))) 1 = rd ramp (tableAt bitRev 1).
Proof.
  split; [exact ramp_length |]. split; [exact one_below_FFT_N |].
  exact (proj1 (proj2 (proj2 (bitReverse_permutes ramp ramp 1 ramp_length ramp_length
                                one_below_FFT_N)))).
Defined.

End AnalysisFacts.

(** ** The analysis: the order in which the ring is read *)
Module WindowFacts.
Import JS Wasapi Analysis AnalysisFacts.

(** The ring read from [start] on: oldest sample first. *)
Definition rotated (sampleBuffer : list Q) (start : nat) : list Q :=
  drop start sampleBuffer ++ take start sampleBuffer.

Lemma write_range (f : nat -> Q) (off n : nat) (r : list Q) :
  (off + n <= length r)%nat ->
  length (fold_left (fun r i => <[(off + i)%nat := f i]> r) (seq 0 n) r) = length r
  /\ forall k,
       rd (fold_left (fun r i => <[(off + i)%nat := f i]> r) (seq 0 n) r) k
       = if (off <=? k)%nat && (k <? off + n)%nat then f (k - off)%nat else rd r k.
Proof.
  induction n as [| n IH]; intros Hn.
  - cbn [seq fold_left]. split; [reflexivity |]. intros k.
    destruct (off <=? k)%nat eqn:E1; [| reflexivity].
    destruct (k <? off + 0)%nat eqn:E2; [| reflexivity].
    apply Nat.leb_le in E1. apply Nat.ltb_lt in E2. lia.
  - rewrite seq_S, fold_left_app. cbn [fold_left]. rewrite Nat.add_0_l.
    destruct (IH ltac:(lia)) as [Hl Hr]. split; [now rewrite length_insert |].
    intros k. destruct (Nat.eq_dec k (off + n)%nat) as [-> | Hne].
    + rewrite ard_insert_eq by (rewrite Hl; lia).
      replace (off <=? off + n)%nat with true by (symmetry; apply Nat.leb_le; lia).
      replace (off + n <? off + S n)%nat with true by (symmetry; apply Nat.ltb_lt; lia).
      cbn [andb]. f_equal. lia.
    + rewrite ard_insert_ne by (intros E; apply Hne; now symmetry).
      rewrite Hr. destruct (off <=? k)%nat eqn:E1; [| reflexivity]. cbn [andb].
      destruct (k <? off + n)%nat eqn:E2.
      * replace (k <? off + S n)%nat with true; [reflexivity |].
        symmetry. apply Nat.ltb_lt. apply Nat.ltb_lt in E2. lia.
      * replace (k <? off + S n)%nat with false; [reflexivity |].
        symmetry. apply Nat.ltb_ge. apply Nat.ltb_ge in E2. lia.
Qed.

Lemma fold_indexed (A : Type) (step : A -> Q -> A) (l : list Q) :
  forall (n off : nat) (st : A),
  (off + n <= length l)%nat ->
  fold_left (fun st i => step st (rd l (off + i))) (seq 0 n) st
  = fold_left step (take n (drop off l)) st.
Proof.
  induction n as [| n IH]; intros off st Hn; [now rewrite take_0 |].
  rewrite seq_S, fold_left_app. cbn [fold_left]. rewrite Nat.add_0_l.
  rewrite IH by lia.
  destruct (lookup_lt_is_Some_2 (drop off l) n) as [x Hx]; [rewrite length_drop; lia |].
  rewrite (take_S_r _ _ _ Hx), fold_left_app. cbn [fold_left]. f_equal.
  unfold rd. rewrite lookup_drop in Hx. now rewrite (nth_lookup_Some _ _ _ _ Hx).
Qed.

Section Order.

Variable hannCoeffs : list Q.

(** X14.  With the write cursor at [start], [computeFFT] reads the ring
    oldest sample first, in both of its two-segment reads: cell [i] of the
    windowed input is the ring's cell [(start + i) mod 2048] times the
    [i]-th window coefficient, whatever the working array held before;
    and each Goertzel recurrence runs over the ring's cells from [start]
    to the end followed by those from 0 to [start]. *)
Theorem ring_read_oldest_first (sampleBuffer fftReal : list Q) (start : nat) (coeff : Q)
    (i : nat) :
  length sampleBuffer = FFT_N -> length fftReal = FFT_N ->
  (start < FFT_N)%nat -> (i < FFT_N)%nat ->
  rd (windowedInput hannCoeffs sampleBuffer start fftReal) i
  = rd sampleBuffer ((start + i) mod FFT_N) * rd hannCoeffs i
  /\ goertzelRun sampleBuffer start coeff
     = fold_left (goertzelStep coeff) (rotated sampleBuffer start) (0, 0)
  /\ length (rotated sampleBuffer start) = FFT_N.
Proof.
  intros Hsb Hre Hstart Hi.
  split; [| split].
  - unfold windowedInput. cbv zeta.
    set (firstLen := (FFT_N - start)%nat).
    pose proof (write_range (fun i => rd sampleBuffer (start + i) * rd hannCoeffs i)
                  0 firstLen fftReal) as H1.
    cbn [Nat.add] in H1. destruct H1 as [Hl1 Hr1]; [unfold firstLen; lia |].
    set (r1 := fold_left _ (seq 0 firstLen) fftReal) in *.
    pose proof (write_range (fun i => rd sampleBuffer i * rd hannCoeffs (firstLen + i))
                  firstLen start r1) as H2.
    destruct H2 as [Hl2 Hr2]; [rewrite Hl1; unfold firstLen; lia |].
    rewrite Hr2.
    destruct (Nat.lt_ge_cases i firstLen) as [Hlt | Hge].
    + replace (firstLen <=? i)%nat with false by (symmetry; apply Nat.leb_gt; lia).
      cbn [andb]. rewrite Hr1.
      replace (i <? firstLen)%nat with true by (symmetry; apply Nat.ltb_lt; lia).
      cbn [Nat.leb andb]. rewrite Nat.sub_0_r.
      rewrite Nat.mod_small by (unfold firstLen in Hlt; lia). reflexivity.
    + replace (firstLen <=? i)%nat with true by (symmetry; apply Nat.leb_le; lia).
      replace (i <? firstLen + start)%nat with true
        by (symmetry; apply Nat.ltb_lt; unfold firstLen; lia).
      cbn [andb].
      replace (firstLen + (i - firstLen))%nat with i by lia.
      f_equal. f_equal.
      apply (Nat.mod_unique (start + i) FFT_N 1); unfold firstLen in *; lia.
  - unfold goertzelRun, rotated. cbv zeta.
    rewrite (fold_indexed _ (goertzelStep coeff) sampleBuffer (FFT_N - start) start)
      by lia.
    pose proof (fold_indexed _ (goertzelStep coeff) sampleBuffer start 0) as H0.
    cbn [Nat.add] in H0. rewrite H0 by lia.
    rewrite drop_0, fold_left_app.
    rewrite (take_ge (drop start sampleBuffer)) by (rewrite length_drop; lia).
    reflexivity.
  - unfold rotated. rewrite length_app, length_drop, length_take. lia.
Qed.

End Order.

Lemma ring_read_oldest_first_witness :
  length ramp = FFT_N /\ (2047 < FFT_N)%nat
  /\ rd (windowedInput ramp ramp 2047 ramp) 5 = rd ramp ((2047 + 5) mod FFT_N) * rd ramp 5.
Proof.
  assert (H1 : length ramp = FFT_N) by (vm_compute; reflexivity).
  assert (H2 : (2047 < FFT_N)%nat) by (vm_compute; lia).
  assert (H3 : (5 < FFT_N)%nat) by (vm_compute; lia).
  split; [exact H1 |]. split; [exact H2 |].
  exact (proj1 (ring_read_oldest_first ramp ramp ramp 2047 1 5 H1 H1 H2 H3)).
Defined.

End WindowFacts.

(** ** The frequency mapper: the output stays inside the spectrum *)
Module MapperBounds.
Import JS Wasapi MapperFacts.

Lemma rd_within (l : list Q) (M : Q) (k : nat) :
  0 <= M -> Forall (fun v => 0 <= v <= M) l -> 0 <= rd l k <= M.
Proof.
  intros HM Hall. unfold rd.
  destruct (nth_in_or_default k l 0) as [Hin | ->]; [| lra].
  rewrite Forall_forall in Hall. apply Hall. now apply list_elem_of_In.
Qed.

Lemma rdMag_within (mags : list Q) (M : Q) (b : Z) :
  0 <= M -> Forall (fun v => 0 <= v <= M) mags -> 0 <= rdMag mags b <= M.
Proof.
  intros HM Hall. unfold rdMag. destruct (b <? 0)%Z; [lra |].
  now apply (rd_within mags M).
Qed.

Lemma bassRawMag_within (bass : list Q) (M fc : Q) :
  0 <= M -> Forall (fun v => 0 <= v <= M) bass -> 0 <= bassRawMag bass fc <= M.
Proof.
  intros HM Hall.
  destruct (probe_region fc) as [H | [H | [[k [Hk H]] | [k [Hk H]]]]].
  - rewrite (bassRawMag_same bass fc 0 (probeLoop_under fc H)). now apply rd_within.
  - rewrite (bassRawMag_same bass fc 8 (probeLoop_over fc H)). now apply rd_within.
  - rewrite (bassRawMag_same bass fc k (probeLoop_at fc k Hk H)). now apply rd_within.
  - rewrite (bassRawMag_between bass fc k Hk (probeLoop_between fc k Hk H)).
    destruct H as [H1 H2].
    set (t := (fc - probe k) / (probe (S k) - probe k)).
    assert (Ht : 0 <= t <= 1).
    { unfold t. split.
      - apply Qle_shift_div_l; lra.
      - apply Qle_shift_div_r; lra. }
    pose proof (rd_within bass M k HM Hall) as Ha.
    pose proof (rd_within bass M (S k) HM Hall) as Hb.
    destruct Ht as [Ht0 Ht1]. destruct Ha as [Ha0 Ha1]. destruct Hb as [Hb0 Hb1].
    set (a := rd bass k) in *. set (b := rd bass (S k)) in *.
    assert (Heq : a + (b - a) * t == a * (1 - t) + b * t) by ring.
    rewrite Heq.
    assert (0 <= a * (1 - t)) by (apply Qmult_le_0_compat; lra).
    assert (0 <= b * t) by (apply Qmult_le_0_compat; lra).
    assert (0 <= (M - a) * (1 - t)) by (apply Qmult_le_0_compat; lra).
    assert (0 <= (M - b) * t) by (apply Qmult_le_0_compat; lra).
    split; [lra |].
    assert (Hd : M - (a * (1 - t) + b * t) == (M - a) * (1 - t) + (M - b) * t) by ring.
    lra.
Qed.

Lemma overlap_fold (mags : list Q) (M binLo binHi : Q) (bStart : Z) (ks : list nat) :
  0 <= M -> Forall (fun v => 0 <= v <= M) mags ->
  forall acc : Q * Q,
  0 <= snd acc -> 0 <= fst acc -> fst acc <= M * snd acc ->
  let out :=
    fold_left
      (fun acc k =>
         let '(sum, weight) := acc in
         let b := (bStart + Z.of_nat k)%Z in
         let overlapLo := Math_max (inject_Z b) binLo in
         let overlapHi := Math_min (inject_Z (b + 1)) binHi in
         let w := Math_max 0 (overlapHi - overlapLo) in
         if gtb w 0 && (0 <=? b)%Z && (b <? HALF_FFT)%Z
         then (sum + rdMag mags b * w, weight + w)
         else (sum, weight))
      ks acc in
  0 <= snd out /\ 0 <= fst out /\ fst out <= M * snd out.
Proof.
  intros HM Hall. induction ks as [| k ks IH]; intros [sum weight] Hw Hs Hsw.
  - cbn [fold_left]. now split.
  - cbn [fold_left]. cbv zeta. cbn [fst snd] in Hw, Hs, Hsw.
    match goal with |- context [if ?c then _ else _] => destruct c end.
    + apply IH; cbn [fst snd].
      * pose proof (Math_max_ge_l 0 (Math_min (inject_Z (bStart + Z.of_nat k + 1)) binHi
                                     - Math_max (inject_Z (bStart + Z.of_nat k)) binLo)).
        lra.
      * pose proof (rdMag_within mags M (bStart + Z.of_nat k) HM Hall) as [Hm _].
        pose proof (Math_max_ge_l 0 (Math_min (inject_Z (bStart + Z.of_nat k + 1)) binHi
                                     - Math_max (inject_Z (bStart + Z.of_nat k)) binLo)) as Hw0.
        pose proof (Qmult_le_0_compat _ _ Hm Hw0). lra.
      * pose proof (rdMag_within mags M (bStart + Z.of_nat k) HM Hall) as [_ Hm].
        pose proof (Math_max_ge_l 0 (Math_min (inject_Z (bStart + Z.of_nat k + 1)) binHi
                                     - Math_max (inject_Z (bStart + Z.of_nat k)) binLo)) as Hw0.
        set (w := Math_max 0 _) in *. set (m := rdMag mags _) in *.
        assert (0 <= (M - m) * w) by (apply Qmult_le_0_compat; lra).
        assert (Hd : M * (weight + w) - (sum + m * w) == (M * weight - sum) + (M - m) * w)
          by ring.
        lra.
    + apply IH; cbn [fst snd]; assumption.
Qed.

Lemma fftRawMag_within (mags : list Q) (M hzPerBin freqLo freqHi : Q) :
  0 <= M -> Forall (fun v => 0 <= v <= M) mags ->
  0 <= fftRawMag mags hzPerBin freqLo freqHi <= M.
Proof.
  intros HM Hall. unfold fftRawMag. cbv zeta.
  match goal with |- context [fold_left ?f ?ks (0, 0)] =>
    pose proof (overlap_fold mags M (freqLo / hzPerBin) (freqHi / hzPerBin)
                  (Qfloor (freqLo / hzPerBin)) ks HM Hall (0, 0)) as H;
    destruct (fold_left f ks (0, 0)) as [sum weight] eqn:E
  end.
  cbv zeta in H. cbn [fst snd] in H.
  destruct H as (Hw & Hs & Hsw); [lra | lra | lra |].
  destruct (gtb weight 0) eqn:Eg; [| lra].
  apply gtb_true in Eg. split.
  - apply Qle_shift_div_l; lra.
  - apply Qle_shift_div_r; lra.
Qed.

Section Bounds.

Variables Math_exp Math_log Math_log2 : Q -> Q.
Variable Math_pow : Q -> Q -> Q.

(** X15.  [getFrequencyData] returns exactly [numBins] values, all 0
    while the capture is not running.  While it runs, bin [i] is a raw
    magnitude times the frequency gain, and the raw magnitude, whether it
    comes from the Goertzel probes or from the FFT bins, is a weighted
    mean of analysed magnitudes: never negative and never above a bound
    that holds for all of them. *)
Theorem mapper_stays_in_spectrum (s : Source) (numBins i : nat) (M : Q) :
  0 <= M ->
  Forall (fun v => 0 <= v <= M) (magnitudes (frame s)) ->
  Forall (fun v => 0 <= v <= M) (bassMagnitudes (frame s)) ->
  (i < numBins)%nat ->
  length (getFrequencyData Math_exp Math_log Math_log2 Math_pow s numBins) = numBins
  /\ 0 <= rawMagOf Math_exp Math_log (frame s) numBins i <= M
  /\ (running s = false ->
      getFrequencyData Math_exp Math_log Math_log2 Math_pow s numBins = repeat 0 numBins)
  /\ (running s = true ->
      rd (getFrequencyData Math_exp Math_log Math_log2 Math_pow s numBins) i
      = rawMagOf Math_exp Math_log (frame s) numBins i
        * freqGainOf Math_exp Math_log Math_log2 Math_pow numBins i).
Proof.
  intros HM Hm Hb Hi. split; [| split; [| split]].
  - unfold getFrequencyData. destruct (negb (running s)).
    + apply repeat_length.
    + now rewrite length_map, length_seq.
  - unfold rawMagOf. cbv zeta.
    destruct (ltb _ BASS_CROSSOVER_HZ).
    + now apply bassRawMag_within.
    + now apply fftRawMag_within.
  - intros Hr. unfold getFrequencyData. now rewrite Hr.
  - intros Hr. unfold getFrequencyData. rewrite Hr. cbn [negb].
    unfold rd at 1.
    rewrite (nth_indep _ 0 ((fun k => rawMagOf Math_exp Math_log (frame s) numBins k
                                     * freqGainOf Math_exp Math_log Math_log2 Math_pow numBins k)
                              0%nat))
      by (rewrite length_map, length_seq; exact Hi).
    rewrite (map_nth (fun k => rawMagOf Math_exp Math_log (frame s) numBins k
                               * freqGainOf Math_exp Math_log Math_log2 Math_pow numBins k)).
    now rewrite seq_nth.
Qed.

End Bounds.

Lemma mapper_stays_in_spectrum_witness :
  0 <= 1
  /\ 0 <= rawMagOf (fun x => x) (fun x => x) (frame newSource) 20 0 <= 1.
Proof.
  assert (H0 : 0 <= 1) by lra.
  assert (H1 : Forall (fun v => 0 <= v <= 1) (magnitudes (frame newSource))).
  { apply Forall_forall. intros x Hx. apply list_elem_of_In, repeat_spec in Hx.
    subst. lra. }
  assert (H2 : Forall (fun v => 0 <= v <= 1) (bassMagnitudes (frame newSource))).
  { apply Forall_forall. intros x Hx. apply list_elem_of_In, repeat_spec in Hx.
    subst. lra. }
  assert (H3 : (0 < 20)%nat) by lia.
  split; [exact H0 |].
  exact (proj1 (proj2 (mapper_stays_in_spectrum (fun x => x) (fun x => x) (fun x => x)
                         (fun x _ => x) newSource 20 0 1 H0 H1 H2 H3))).
Defined.

End MapperBounds.

(** ** The renderer: the colour gradient *)
Module GradientFacts.
Import JS Renderer.

Definition channels_ok (s : ColorStop) : Prop :=
  0 <= r s <= 255 /\ 0 <= g s <= 255 /\ 0 <= b s <= 255.

(** The colour of a stop, rounded as [sampleGradient] rounds. *)
Definition rgbOf (s : ColorStop) : Z * Z * Z :=
  (Math_round (r s), Math_round (g s), Math_round (b s)).

Definition byte_triple (c : Z * Z * Z) : Prop :=
  (0 <= fst (fst c) <= 255)%Z /\ (0 <= snd (fst c) <= 255)%Z /\ (0 <= snd c <= 255)%Z.

Lemma stopAt_ok (stops : list ColorStop) (i : nat) :
  Forall channels_ok stops -> channels_ok (stopAt stops i).
Proof.
  intros H. unfold stopAt.
  destruct (nth_in_or_default i stops (stop 0 0 0 0)) as [Hin | ->].
  - rewrite Forall_forall in H. apply H. now apply list_elem_of_In.
  - unfold channels_ok, stop. cbn [r g b]. lra.
Qed.

(** The pair the search returns: the fallback pair, or two neighbouring
    stops around [t]. *)
Lemma findStops_around (stops : list ColorStop) (t : Q) (lower upper : ColorStop)
    (idxs : list nat) :
  findStops stops t idxs lower upper = (lower, upper)
  \/ exists i, findStops stops t idxs lower upper = (stopAt stops i, stopAt stops (i + 1))
               /\ pos (stopAt stops i) <= t <= pos (stopAt stops (i + 1)).
Proof.
  induction idxs as [| i idxs IH]; cbn [findStops]; [now left |].
  destruct (geb t (pos (stopAt stops i))) eqn:E1; cbn [andb]; [| exact IH].
  destruct (leb t (pos (stopAt stops (i + 1)))) eqn:E2; [| exact IH].
  right. exists i. split; [reflexivity |].
  unfold geb in E1. unfold leb in E2.
  apply Qle_bool_iff in E1. apply Qle_bool_iff in E2. now split.
Qed.

Lemma mix_range (lo up frac : Q) :
  0 <= frac <= 1 -> 0 <= lo <= 255 -> 0 <= up <= 255 ->
  (0 <= Math_round (lo + (up - lo) * frac) <= 255)%Z.
Proof.
  intros [Hf0 Hf1] [Hl0 Hl1] [Hu0 Hu1]. unfold Math_round.
  set (v := lo + (up - lo) * frac).
  assert (Hv : 0 <= v <= 255).
  { assert (Heq : v == lo * (1 - frac) + up * frac) by (unfold v; ring).
    assert (0 <= lo * (1 - frac)) by (apply Qmult_le_0_compat; lra).
    assert (0 <= up * frac) by (apply Qmult_le_0_compat; lra).
    assert (0 <= (255 - lo) * (1 - frac)) by (apply Qmult_le_0_compat; lra).
    assert (0 <= (255 - up) * frac) by (apply Qmult_le_0_compat; lra).
    assert (Hd : 255 - (lo * (1 - frac) + up * frac)
                 == (255 - lo) * (1 - frac) + (255 - up) * frac) by ring.
    split; lra. }
  split.
  - change 0%Z with (Qfloor 0). apply Qfloor_resp_le. lra.
  - change 255%Z with (Qfloor 255.5). apply Qfloor_resp_le. lra.
Qed.

Lemma frac_range (t lo up : Q) :
  lo <= t <= up ->
  0 <= (if Qeq_bool (up - lo) 0 then 0 else (t - lo) / (up - lo)) <= 1.
Proof.
  intros [H1 H2]. destruct (Qeq_bool (up - lo) 0) eqn:E; [lra |].
  apply Qeq_bool_neq in E.
  assert (Hpos : 0 < up - lo).
  { destruct (Qlt_le_dec 0 (up - lo)) as [H | H]; [exact H |].
    exfalso. apply E. lra. }
  split; [apply Qle_shift_div_l; lra | apply Qle_shift_div_r; lra].
Qed.

(** The channels of any gradient whose stops hold bytes and span [0,1]. *)
Lemma sampleGradient_bytes (stops : list ColorStop) (t : Q) :
  Forall channels_ok stops ->
  pos (stopAt stops 0) <= 0 -> 1 <= pos (stopAt stops (length stops - 1)) ->
  byte_triple (sampleGradient stops t).
Proof.
  intros Hok Hfirst Hlast. unfold sampleGradient. cbv zeta.
  set (tc := Math_max 0 (Math_min 1 t)).
  assert (Htc : 0 <= tc <= 1).
  { unfold tc. split; [apply Math_max_ge_l | apply Math_max_lub; [lra | apply Math_min_le_l]]. }
  assert (Hpair : exists lo up,
            findStops stops tc (seq 0 (length stops - 1)) (stopAt stops 0)
              (stopAt stops (length stops - 1)) = (lo, up)
            /\ channels_ok lo /\ channels_ok up /\ pos lo <= tc <= pos up).
  { destruct (findStops_around stops tc (stopAt stops 0) (stopAt stops (length stops - 1))
                (seq 0 (length stops - 1))) as [H | [i [H Hi]]].
    - eexists _, _. split; [exact H |].
      split; [now apply stopAt_ok |]. split; [now apply stopAt_ok |]. lra.
    - eexists _, _. split; [exact H |].
      split; [now apply stopAt_ok |]. split; [now apply stopAt_ok |]. exact Hi. }
  destruct Hpair as (lo & up & -> & (Hr1 & Hg1 & Hb1) & (Hr2 & Hg2 & Hb2) & Ht).
  pose proof (frac_range tc (pos lo) (pos up) Ht) as Hf.
  unfold byte_triple. cbn [fst snd].
  split; [| split]; now apply mix_range.
Qed.

(** The stops the renderer samples are those of a listed theme. *)
Lemma themeStops_listed (themeName : string) (stops : list ColorStop) :
  themeStops themeName = Some stops -> In stops (map snd THEMES).
Proof.
  unfold themeStops, THEMES_get, THEMES. cbn [themeOf map snd].
  destruct (String.eqb themeName "neon"); [intros [= <-]; left; reflexivity |].
  destruct (String.eqb themeName "classic"); [intros [= <-]; right; left; reflexivity |].
  destruct (String.eqb themeName "ocean"); [intros [= <-]; right; right; left; reflexivity |].
  destruct (String.eqb themeName "fire");
    [intros [= <-]; right; right; right; left; reflexivity |].
  destruct (String.eqb themeName "purple");
    [intros [= <-]; right; right; right; right; left; reflexivity |].
  destruct (existsb _ _); [discriminate |].
  cbn [String.eqb Ascii.eqb Bool.eqb]. intros [= <-]. left. reflexivity.
Qed.

(** The lookup throws exactly on the names inherited from [Object.prototype]. *)
Lemma themeStops_throws (themeName : string) :
  themeStops themeName = None <-> In themeName Object_prototype_keys.
Proof.
  split.
  - unfold themeStops, THEMES_get.
    destruct (themeOf themeName THEMES) as [stops |]; [discriminate |].
    destruct (existsb (String.eqb themeName) Object_prototype_keys) eqn:E;
      [| discriminate].
    intros _. apply existsb_exists in E. destruct E as [k [Hk E]].
    apply String.eqb_eq in E. now subst k.
  - intros Hin. unfold Object_prototype_keys in Hin. cbn [In] in Hin.
    repeat (destruct Hin as [<- | Hin]; [reflexivity |]). destruct Hin.
Qed.

(** What is used of a theme's stops. *)
Definition theme_ok (stops : list ColorStop) : Prop :=
  Forall channels_ok stops
  /\ pos (stopAt stops 0) <= 0 /\ 1 <= pos (stopAt stops (length stops - 1))
  /\ sampleGradient stops 0 = rgbOf (stopAt stops 0)
  /\ sampleGradient stops 1 = rgbOf (stopAt stops (length stops - 1)).

Lemma themes_ok : Forall theme_ok (map snd THEMES).
Proof.
  unfold THEMES. cbn [map snd].
  repeat (constructor;
          [split;
           [repeat (constructor; [unfold channels_ok, stop; cbn [r g b]; lra |]); constructor
           | split; [unfold stopAt, stop; cbn [nth pos]; lra
           | split; [unfold stopAt, stop; cbn [nth pos length Nat.sub]; lra
           | split; vm_compute; reflexivity]]] |]).
  constructor.
Qed.

(** X16.  A theme name inherited from [Object.prototype] ("constructor",
    "toString", "__proto__", ...) makes [renderVisualizerFrame] throw, and
    no other name does.  For every other name the stops sampled are those
    of a listed theme (a name that is no own key falls back to neon), and
    for every position [t] the three channels [sampleGradient] returns
    are integers in 0..255, so the stores into the gradient table never
    wrap; at [t = 0] the colour is the theme's first stop and at [t = 1]
    its last stop. *)
Theorem gradient_channels_are_bytes (themeName : string) (t : Q) :
  match themeStops themeName with
  | None =>
      In themeName Object_prototype_keys
      /\ forall deflateSync bins numBars leftEdge rightEdge bufs,
           renderVisualizerFrame deflateSync bins themeName numBars leftEdge rightEdge bufs
           = None
  | Some stops =>
      ~ In themeName Object_prototype_keys
      /\ In stops (map snd THEMES)
      /\ (~ In themeName THEME_NAMES -> Some stops = themeOf "neon" THEMES)
      /\ let '(cr, cg, cb) := sampleGradient stops t in
         ((0 <= cr <= 255)%Z /\ (0 <= cg <= 255)%Z /\ (0 <= cb <= 255)%Z)
         /\ (u8 cr = cr /\ u8 cg = cg /\ u8 cb = cb)
         /\ sampleGradient stops 0 = rgbOf (stopAt stops 0)
         /\ sampleGradient stops 1 = rgbOf (stopAt stops (length stops - 1))
  end.
Proof.
  destruct (themeStops themeName) as [stops |] eqn:E.
  - split.
    { intros Hin. apply themeStops_throws in Hin. congruence. }
    pose proof (themeStops_listed themeName stops E) as Hin.
    split; [exact Hin |]. split.
    { intros Hnot. revert E. unfold themeStops, THEMES_get.
      destruct (themeOf themeName THEMES) as [own |] eqn:Eo.
      - exfalso. apply Hnot. clear -Eo. revert Eo. unfold THEME_NAMES.
        induction THEMES as [| [k s] rest IH]; cbn [themeOf map fst In]; [discriminate |].
        destruct (String.eqb themeName k) eqn:Ek.
        + apply String.eqb_eq in Ek. intros _. now left.
        + intros H. right. now apply IH.
      - destruct (existsb _ _); [discriminate |]. intros <-. reflexivity. }
    pose proof themes_ok as Hall. rewrite Forall_forall in Hall.
    specialize (Hall _ (proj2 (list_elem_of_In _ _) Hin)).
    destruct Hall as (Hok & Hfirst & Hlast & H0 & H1).
    pose proof (sampleGradient_bytes stops t Hok Hfirst Hlast) as Hb.
    destruct (sampleGradient stops t) as [[cr cg] cb].
    unfold byte_triple in Hb. cbn [fst snd] in Hb. destruct Hb as (Hr & Hg & Hbb).
    split; [now split |]. split; [| now split].
    unfold u8. rewrite !Z.mod_small by lia. now split.
  - split; [now apply themeStops_throws |].
    intros deflateSync bins numBars leftEdge rightEdge bufs.
    unfold renderVisualizerFrame, pixelWrites. now rewrite E.
Qed.

End GradientFacts.

(** ** The renderer: the curve and its control points *)
Module CurveFacts.
Import JS Renderer RendererFacts.

(** Every bin a bar reads and both edges are numbers. *)
Definition numbers (bins : list num) (numBars : nat) (leftEdge rightEdge : num) : Prop :=
  (forall i, (i < numBars)%nat -> nth i bins None <> None)
  /\ leftEdge <> None /\ rightEdge <> None.

(** The x-coordinate of control point [k]. *)
Definition xOf (numBars : nat) (k : Z) : Q :=
  if (k =? 0)%Z then 0
  else if (k <=? Z.of_nat numBars)%Z then barX numBars (Z.to_nat (k - 1))
  else inject_Z (STRIP_WIDTH - 1).

Lemma at_cells (values : list num) (k : Z) :
  (k < Z.of_nat MAX_POINTS)%Z -> at_ (cells values) k = at_ values k.
Proof.
  intros Hk. unfold at_, cells. destruct (k <? 0)%Z eqn:E; [reflexivity |].
  apply Z.ltb_ge in E. rewrite nth_firstn.
  replace (Z.to_nat k <? MAX_POINTS)%nat with true by (symmetry; apply Nat.ltb_lt; lia).
  reflexivity.
Qed.

Lemma at_cells_past (values : list num) (k : Z) :
  (Z.of_nat MAX_POINTS <= k)%Z -> at_ (cells values) k = None.
Proof.
  intros Hk. unfold at_, cells. destruct (k <? 0)%Z eqn:E; [reflexivity |].
  rewrite nth_firstn.
  replace (Z.to_nat k <? MAX_POINTS)%nat with false by (symmetry; apply Nat.ltb_ge; lia).
  reflexivity.
Qed.

(** Cell [k] of a list of points: the left anchor, a bar, the right anchor. *)
Lemma at_points (first last : num) (f : nat -> num) (numBars : nat) (k : Z) :
  (0 <= k <= Z.of_nat numBars + 1)%Z ->
  at_ (first :: map f (seq 0 numBars) ++ [last]) k
  = if (k =? 0)%Z then first
    else if (k <=? Z.of_nat numBars)%Z then f (Z.to_nat (k - 1))
    else last.
Proof.
  intros Hk. unfold at_.
  destruct (k <? 0)%Z eqn:E0; [apply Z.ltb_lt in E0; lia |].
  destruct (k =? 0)%Z eqn:E1.
  - apply Z.eqb_eq in E1. subst k. reflexivity.
  - apply Z.eqb_neq in E1.
    replace (Z.to_nat k) with (S (Z.to_nat (k - 1))) by lia. cbn [nth].
    destruct (k <=? Z.of_nat numBars)%Z eqn:E2.
    + apply Z.leb_le in E2.
      rewrite app_nth1 by (rewrite length_map, length_seq; lia).
      rewrite (nth_indep _ None (f 0%nat)) by (rewrite length_map, length_seq; lia).
      rewrite map_nth, seq_nth by lia. reflexivity.
    + apply Z.leb_gt in E2.
      rewrite app_nth2 by (rewrite length_map, length_seq; lia).
      rewrite length_map, length_seq.
      replace (Z.to_nat (k - 1) - numBars)%nat with 0%nat by lia. reflexivity.
Qed.

Lemma pointsX_at (numBars : nat) (k : Z) :
  (0 <= k <= Z.of_nat numBars + 1)%Z -> (k < Z.of_nat MAX_POINTS)%Z ->
  at_ (pointsX numBars) k = Some (xOf numBars k).
Proof.
  intros Hk Hm. unfold pointsX. rewrite at_cells by exact Hm.
  rewrite at_points by exact Hk. unfold xOf.
  destruct (k =? 0)%Z; [reflexivity |]. now destruct (k <=? Z.of_nat numBars)%Z.
Qed.

(** The y-coordinate of control point [k]. *)
Lemma pointsY_at (bins : list num) (numBars : nat) (leftEdge rightEdge : num) (k : Z) :
  (0 <= k <= Z.of_nat numBars + 1)%Z -> (k < Z.of_nat MAX_POINTS)%Z ->
  at_ (pointsY bins numBars leftEdge rightEdge) k
  = if (k =? 0)%Z then clamp01 leftEdge
    else if (k <=? Z.of_nat numBars)%Z then clamp01 (nth (Z.to_nat (k - 1)) bins None)
    else clamp01 rightEdge.
Proof.
  intros Hk Hm. unfold pointsY. rewrite at_cells by exact Hm.
  now rewrite at_points by exact Hk.
Qed.

(** The centre of bar [i] as a multiple of the bar spacing. *)
Lemma barX_linear (numBars i : nat) :
  barX numBars i == (inject_Z (Z.of_nat i) + 0.5) * (199 / inject_Z (Z.of_nat numBars)).
Proof.
  unfold barX. change (inject_Z (STRIP_WIDTH - 1)) with 199.
  unfold Qdiv. ring.
Qed.

Lemma spacing_pos (numBars : nat) :
  (1 <= numBars)%nat ->
  0 < 199 / inject_Z (Z.of_nat numBars)
  /\ inject_Z (Z.of_nat numBars) * (199 / inject_Z (Z.of_nat numBars)) == 199.
Proof.
  intros Hn.
  assert (Hpos : 0 < inject_Z (Z.of_nat numBars)).
  { change 0 with (inject_Z 0). rewrite <- Zlt_Qlt. lia. }
  split; [apply Qlt_shift_div_l; lra | field; lra].
Qed.

(** The x-coordinates rise strictly. *)
Lemma xOf_increasing (numBars : nat) (j k : Z) :
  (0 <= j < k)%Z -> (k <= Z.of_nat numBars + 1)%Z ->
  xOf numBars j < xOf numBars k.
Proof.
  intros Hj Hk. unfold xOf.
  destruct (Nat.eq_dec numBars 0%nat) as [-> | Hn0].
  { assert (j = 0%Z) by lia. assert (k = 1%Z) by lia. subst j k. reflexivity. }
  assert (Hn : (1 <= numBars)%nat) by lia.
  destruct (spacing_pos numBars Hn) as [Hc Hnc].
  set (c := 199 / inject_Z (Z.of_nat numBars)) in *.
  replace (k =? 0)%Z with false by (symmetry; apply Z.eqb_neq; lia).
  change (inject_Z (STRIP_WIDTH - 1)) with 199.
  assert (Hbar : forall i : Z, (1 <= i <= Z.of_nat numBars)%Z ->
            barX numBars (Z.to_nat (i - 1)) == (inject_Z i - 0.5) * c).
  { intros i Hi. rewrite barX_linear. fold c.
    rewrite Z2Nat.id by lia. unfold Zminus. rewrite inject_Z_plus, inject_Z_opp.
    change (inject_Z 1) with 1. ring. }
  assert (Hinj : forall a b : Z, (a < b)%Z -> inject_Z a + 1 <= inject_Z b).
  { intros a b Hab. change 1 with (inject_Z 1). rewrite <- inject_Z_plus, <- Zle_Qle. lia. }
  destruct (j =? 0)%Z eqn:Ej0.
  - destruct (k <=? Z.of_nat numBars)%Z eqn:Ek; [| lra].
    apply Z.leb_le in Ek. rewrite (Hbar k) by lia.
    pose proof (Hinj 0%Z k ltac:(lia)) as H. change (inject_Z 0) with 0 in H.
    apply Qmult_lt_0_compat; lra.
  - apply Z.eqb_neq in Ej0.
    replace (j <=? Z.of_nat numBars)%Z with true by (symmetry; apply Z.leb_le; lia).
    rewrite (Hbar j) by lia.
    pose proof (Hinj j k ltac:(lia)) as Hjk.
    destruct (k <=? Z.of_nat numBars)%Z eqn:Ek.
    + apply Z.leb_le in Ek. rewrite (Hbar k) by lia.
      assert (0 < (inject_Z k - inject_Z j) * c) by (apply Qmult_lt_0_compat; lra).
      assert (Hd : (inject_Z k - 0.5) * c - (inject_Z j - 0.5) * c
                   == (inject_Z k - inject_Z j) * c) by ring.
      lra.
    + pose proof (Hinj (j - 1)%Z (Z.of_nat numBars) ltac:(lia)) as Hjn.
      unfold Zminus in Hjn. rewrite inject_Z_plus, inject_Z_opp in Hjn.
      change (inject_Z 1) with 1 in Hjn.
      assert (0 <= (inject_Z (Z.of_nat numBars) - inject_Z j) * c)
        by (apply Qmult_le_0_compat; lra).
      assert (Hd : 199 - (inject_Z j - 0.5) * c
                   == (inject_Z (Z.of_nat numBars) - inject_Z j) * c + 0.5 * c).
      { rewrite <- Hnc. ring. }
      lra.
Qed.

(** The slopes never divide by 0: the difference of two neighbouring
    x-coordinates is positive, or [NaN] past the last cell. *)
Lemma slope_denominator_nonzero (numBars : nat) (k : Z) :
  nzerob (nsub (at_ (pointsX numBars) (k + 1)) (at_ (pointsX numBars) k)) = false.
Proof.
  destruct (Z_lt_le_dec k 0) as [Hneg | Hk].
  { unfold at_ at 2. replace (k <? 0)%Z with true by (symmetry; apply Z.ltb_lt; lia).
    now destruct (at_ _ _). }
  destruct (Z_lt_le_dec (k + 1) (Z.of_nat MAX_POINTS)) as [Hm | Hm].
  2:{ assert (Hnone : at_ (pointsX numBars) (k + 1) = None)
        by (unfold pointsX; apply at_cells_past; exact Hm).
      now rewrite Hnone. }
  destruct (Z_le_gt_dec (k + 1) (Z.of_nat numBars + 1)) as [Hin | Hout].
  - rewrite !pointsX_at by lia. cbn [nsub nzerob].
    pose proof (xOf_increasing numBars k (k + 1) ltac:(lia) Hin) as Hlt.
    apply not_true_is_false. intros Hc. apply Qeq_bool_eq in Hc. lra.
  - assert (Hnone : at_ (pointsX numBars) (k + 1) = None).
    { unfold pointsX. rewrite at_cells by exact Hm. unfold at_.
      replace (k + 1 <? 0)%Z with false by (symmetry; apply Z.ltb_ge; lia).
      apply nth_overflow. cbn [length]. rewrite length_app, length_map, length_seq.
      cbn [length]. lia. }
    now rewrite Hnone.
Qed.

(** The binary search returns the segment that holds [x]. *)
Lemma findSegment_brackets (xs : list num) (f : Z -> Q) (x : Q) (top : Z) (fuel : nat) :
  (forall j, (0 <= j <= top + 1)%Z -> at_ xs j = Some (f j)) ->
  forall lo hi : Z,
  (0 <= lo <= hi)%Z -> (hi <= top)%Z -> (hi - lo < Z.of_nat fuel)%Z ->
  f lo < x -> x <= f (hi + 1)%Z ->
  (lo <= findSegment fuel xs x lo hi <= hi)%Z
  /\ f (findSegment fuel xs x lo hi) < x
  /\ x <= f (findSegment fuel xs x lo hi + 1)%Z.
Proof.
  intros Hxs.
  induction fuel as [| fuel IH]; intros lo hi Hlh Htop Hf Hlo Hhi; [lia |].
  cbn [findSegment]. destruct (lo <? hi)%Z eqn:E.
  - apply Z.ltb_lt in E. cbv zeta.
    assert (Hmid : (lo <= Z.shiftr (lo + hi) 1 < hi)%Z).
    { rewrite Z.shiftr_div_pow2 by lia. change (2 ^ 1)%Z with 2%Z.
      split; [apply Z.div_le_lower_bound; lia | apply Z.div_lt_upper_bound; lia]. }
    set (mid := Z.shiftr (lo + hi) 1) in *.
    rewrite (Hxs (mid + 1)%Z) by lia. cbn [nltb].
    destruct (ltb (f (mid + 1)%Z) x) eqn:Ec.
    + apply ltb_true in Ec.
      destruct (IH (mid + 1)%Z hi) as (H1 & H2 & H3); try lia; try assumption.
      split; [lia | now split].
    + apply ltb_false in Ec.
      destruct (IH lo mid) as (H1 & H2 & H3); try lia; try assumption.
      split; [lia | now split].
  - apply Z.ltb_ge in E. assert (lo = hi) by lia. subst hi.
    split; [lia | now split].
Qed.

Section Numbers.

Variables (bins : list num) (numBars : nat) (leftEdge rightEdge : num).
Hypothesis Hnum : numbers bins numBars leftEdge rightEdge.
Hypothesis Hroom : (numBars + 2 <= MAX_POINTS)%nat.

Let xs := pointsX numBars.
Let ys := pointsY bins numBars leftEdge rightEdge.
Let n := Z.of_nat (numBars + 2).

Lemma xs_number (k : Z) :
  (0 <= k <= Z.of_nat numBars + 1)%Z -> at_ xs k = Some (xOf numBars k).
Proof. intros Hk. apply pointsX_at; lia. Qed.

Lemma ys_number (k : Z) :
  (0 <= k <= Z.of_nat numBars + 1)%Z -> exists y, at_ ys k = Some y /\ 0 <= y <= 1.
Proof.
  intros Hk. unfold ys. rewrite pointsY_at by lia.
  destruct Hnum as (Hb & Hl & Hr).
  assert (Hc : forall v : num, v <> None -> exists y, clamp01 v = Some y /\ 0 <= y <= 1).
  { intros [q |] Hv; [| congruence]. eexists. split; [reflexivity | apply clampQ_range]. }
  destruct (k =? 0)%Z eqn:E0; [now apply Hc |].
  destruct (k <=? Z.of_nat numBars)%Z eqn:E; [| now apply Hc].
  apply Z.eqb_neq in E0. apply Z.leb_le in E. apply Hc, Hb. lia.
Qed.

Lemma at_map_seq (f : nat -> num) (m : nat) (k : Z) :
  (0 <= k < Z.of_nat m)%Z -> at_ (map f (seq 0 m)) k = f (Z.to_nat k).
Proof.
  intros Hk. unfold at_.
  replace (k <? 0)%Z with false by (symmetry; apply Z.ltb_ge; lia).
  rewrite (nth_indep _ None (f 0%nat)) by (rewrite length_map, length_seq; lia).
  rewrite map_nth, seq_nth by lia. reflexivity.
Qed.

Lemma slopes_number (k : Z) :
  (0 <= k <= Z.of_nat numBars)%Z -> exists s, at_ (slopesOf xs ys n) k = Some s.
Proof.
  intros Hk. unfold slopesOf. rewrite at_cells by lia.
  rewrite at_map_seq by (unfold n; lia). cbv zeta. rewrite Z2Nat.id by lia.
  destruct (ys_number k ltac:(lia)) as (y0 & -> & _).
  destruct (ys_number (k + 1) ltac:(lia)) as (y1 & -> & _).
  rewrite !xs_number by lia. cbn [nsub ndiv].
  pose proof (xOf_increasing numBars k (k + 1) ltac:(lia) ltac:(lia)) as Hlt.
  replace (Qeq_bool (xOf numBars (k + 1) - xOf numBars k) 0) with false.
  2:{ symmetry. apply not_true_is_false. intros Hc. apply Qeq_bool_eq in Hc. lra. }
  now eexists.
Qed.

Lemma tangents_number (k : Z) :
  (0 <= k <= Z.of_nat numBars + 1)%Z ->
  exists t, at_ (tangentsOf (slopesOf xs ys n) n) k = Some t.
Proof.
  intros Hk. unfold tangentsOf. rewrite at_cells by lia.
  rewrite at_map_seq by (unfold n; lia). cbv zeta. rewrite Z2Nat.id by lia.
  destruct ((0 <? k)%Z && (k <? n - 1)%Z) eqn:E.
  - apply andb_true_iff in E. destruct E as [E1 E2].
    apply Z.ltb_lt in E1. apply Z.ltb_lt in E2. unfold n in E2.
    destruct (slopes_number (k - 1) ltac:(lia)) as (s0 & ->).
    destruct (slopes_number k ltac:(lia)) as (s1 & ->).
    cbn [nmul nleb nadd ndiv]. destruct (leb (s0 * s1) 0); [now eexists |].
    change (Qeq_bool 2 0) with false. now eexists.
  - destruct (k =? 0)%Z.
    + apply slopes_number. lia.
    + apply slopes_number. unfold n. lia.
Qed.

(** With numbers for input and room for the points, the curve is a
    number at every [x]. *)
Lemma evalCurve_number (x : Q) :
  exists v, evalCurve (controlPoints bins numBars leftEdge rightEdge) n x = Some v.
Proof.
  unfold controlPoints. cbv zeta. fold xs ys n.
  unfold evalCurve. cbn [cpX cpY cpTangents].
  replace (n =? 0)%Z with false by (symmetry; apply Z.eqb_neq; unfold n; lia).
  destruct (nleb (Some x) (at_ xs 0)); [destruct (ys_number 0 ltac:(lia)) as (y & -> & _); now eexists |].
  destruct (ngeb (Some x) (at_ xs (n - 1))).
  { destruct (ys_number (n - 1) ltac:(unfold n; lia)) as (y & -> & _). now eexists. }
  cbv zeta.
  destruct (findSegment_enough xs x (Z.to_nat n) 0 (n - 2) 0 ltac:(unfold n; lia)) as [_ Hi].
  set (i := findSegment (Z.to_nat n) xs x 0 (n - 2)) in *.
  assert (Hi' : (0 <= i <= Z.of_nat numBars)%Z) by (unfold n in Hi; lia).
  rewrite !xs_number by lia.
  destruct (ys_number i ltac:(lia)) as (y0 & -> & _).
  destruct (ys_number (i + 1) ltac:(lia)) as (y1 & -> & _).
  destruct (tangents_number i ltac:(lia)) as (m0 & ->).
  destruct (tangents_number (i + 1) ltac:(lia)) as (m1 & ->).
  cbn [nsub nzerob].
  destruct (Qeq_bool (xOf numBars (i + 1) - xOf numBars i) 0) eqn:E; [now eexists |].
  cbn [ndiv]. rewrite E. cbn [nmul nadd nsub]. now eexists.
Qed.

End Numbers.

(** The cubic of [evalCurve] at the right end of its segment. *)
Lemma hermite_at_one (t h y0 y1 m0 m1 : Q) :
  t == 1 ->
  (2 * (t * t * t) - 3 * (t * t) + 1) * y0
  + (t * t * t - 2 * (t * t) + t) * h * m0
  + (-2 * (t * t * t) + 3 * (t * t)) * y1
  + (t * t * t - t * t) * h * m1 == y1.
Proof. intros Ht. rewrite Ht. ring. Qed.

(** X17.  With at least one bar, room for the points in the arrays
    (at most 128 bars) and numbers for every bin and edge read, the curve
    [evalCurve] draws passes through every control point: its value at
    the x-coordinate of control point [k] is that point's y-coordinate.
    So the curve has the clamped left edge at x = 0, the clamped right
    edge at x = 199, and the clamped value of bar [i] at the centre of
    bar [i]. *)
Theorem curve_passes_through_points (bins : list num) (numBars : nat)
    (leftEdge rightEdge : num) (k : Z) :
  (1 <= numBars)%nat -> (numBars + 2 <= MAX_POINTS)%nat ->
  numbers bins numBars leftEdge rightEdge ->
  (0 <= k <= Z.of_nat numBars + 1)%Z ->
  let cp := controlPoints bins numBars leftEdge rightEdge in
  let n := Z.of_nat (numBars + 2) in
  exists xk yk,
    at_ (cpX cp) k = Some xk /\ at_ (cpY cp) k = Some yk
    /\ neq (evalCurve cp n xk) (Some yk)
    /\ xk = (if (k =? 0)%Z then 0
             else if (k <=? Z.of_nat numBars)%Z then barX numBars (Z.to_nat (k - 1))
             else inject_Z (STRIP_WIDTH - 1))
    /\ Some yk = (if (k =? 0)%Z then clamp01 leftEdge
                  else if (k <=? Z.of_nat numBars)%Z
                       then clamp01 (nth (Z.to_nat (k - 1)) bins None)
                       else clamp01 rightEdge).
Proof.
  intros Hn Hroom Hnum Hk. cbv zeta.
  destruct (ys_number bins numBars leftEdge rightEdge Hnum Hroom k Hk) as (yk & Hyk & _).
  exists (xOf numBars k), yk.
  unfold controlPoints. cbv zeta. cbn [cpX cpY].
  split; [apply pointsX_at; lia |]. split; [exact Hyk |].
  split; [| split; [reflexivity | rewrite <- Hyk; apply pointsY_at; lia]].
  set (xs := pointsX numBars). set (ys := pointsY bins numBars leftEdge rightEdge) in *.
  set (sl := slopesOf _ _ _). set (tg := tangentsOf _ _).
  assert (Hxs : forall j, (0 <= j <= Z.of_nat numBars + 1)%Z -> at_ xs j = Some (xOf numBars j)).
  { intros j Hj. apply pointsX_at; lia. }
  unfold evalCurve. cbn [cpX cpY cpTangents].
  replace (Z.of_nat (numBars + 2) =? 0)%Z with false by (symmetry; apply Z.eqb_neq; lia).
  replace (Z.of_nat (numBars + 2) - 1)%Z with (Z.of_nat numBars + 1)%Z by lia.
  replace (Z.of_nat (numBars + 2) - 2)%Z with (Z.of_nat numBars) by lia.
  rewrite (Hxs 0%Z), (Hxs (Z.of_nat numBars + 1)%Z) by lia. cbn [nleb ngeb].
  destruct (Z.eq_dec k 0%Z) as [-> | Hk0].
  { replace (leb (xOf numBars 0) (xOf numBars 0)) with true.
    - rewrite Hyk. cbn [neq]. reflexivity.
    - symmetry. apply Qle_bool_iff. lra. }
  assert (H0k : xOf numBars 0 < xOf numBars k) by (apply xOf_increasing; lia).
  replace (leb (xOf numBars k) (xOf numBars 0)) with false
    by (symmetry; apply not_true_is_false; intros Hc; apply Qle_bool_iff in Hc; lra).
  destruct (Z.eq_dec k (Z.of_nat numBars + 1)%Z) as [-> | Hkn].
  { replace (geb (xOf numBars (Z.of_nat numBars + 1)) (xOf numBars (Z.of_nat numBars + 1)))
      with true.
    - rewrite Hyk. cbn [neq]. reflexivity.
    - symmetry. apply Qle_bool_iff. lra. }
  assert (Hkl : xOf numBars k < xOf numBars (Z.of_nat numBars + 1))
    by (apply xOf_increasing; lia).
  replace (geb (xOf numBars k) (xOf numBars (Z.of_nat numBars + 1))) with false
    by (symmetry; apply not_true_is_false; intros Hc; apply Qle_bool_iff in Hc; lra).
  cbv zeta.
  destruct (findSegment_brackets xs (xOf numBars) (xOf numBars k) (Z.of_nat numBars)
              (Z.to_nat (Z.of_nat (numBars + 2))) Hxs 0%Z (Z.of_nat numBars))
    as (Hi & Hlo & Hhi); try lia; try assumption; [lra |].
  set (i := findSegment _ xs (xOf numBars k) 0 (Z.of_nat numBars)) in *.
  assert (Hik : (i = k - 1)%Z).
  { destruct (Z_lt_le_dec i k) as [Hlt | Hge].
    - destruct (Z_le_gt_dec k (i + 1)%Z) as [Hle | Hgt]; [lia |].
      pose proof (xOf_increasing numBars (i + 1) k ltac:(lia) ltac:(lia)). lra.
    - destruct (Z.eq_dec i k) as [E | E]; [rewrite E in Hlo; lra |].
      pose proof (xOf_increasing numBars k i ltac:(lia) ltac:(lia)). lra. }
  clearbody i. subst i. replace (k - 1 + 1)%Z with k by lia.
  rewrite (Hxs k), (Hxs (k - 1)%Z) by lia.
  destruct (ys_number bins numBars leftEdge rightEdge Hnum Hroom (k - 1) ltac:(lia))
    as (y0 & Hy0 & _).
  destruct (tangents_number bins numBars leftEdge rightEdge Hnum Hroom (k - 1) ltac:(lia))
    as (m0 & Hm0).
  destruct (tangents_number bins numBars leftEdge rightEdge Hnum Hroom k ltac:(lia))
    as (m1 & Hm1).
  fold ys in Hy0. fold xs ys in Hm0, Hm1. fold sl in Hm0, Hm1. fold tg in Hm0, Hm1.
  rewrite Hy0, Hyk, Hm0, Hm1.
  assert (Hh : xOf numBars (k - 1) < xOf numBars k) by (apply xOf_increasing; lia).
  set (a := xOf numBars (k - 1)) in *. set (xk := xOf numBars k) in *.
  cbn [nsub nzerob ndiv].
  assert (Hz : Qeq_bool (xk - a) 0 = false).
  { apply not_true_is_false. intros Hc. apply Qeq_bool_eq in Hc. lra. }
  rewrite Hz. cbn [ndiv nmul nadd nsub neq].
  set (t := (xk - a) / (xk - a)).
  assert (Ht : t == 1) by (unfold t; field; lra).
  rewrite <- (hermite_at_one t (xk - a) y0 yk m0 m1 Ht) at 2.
  ring.
Qed.

Lemma curve_passes_through_points_witness :
  exists xk yk,
    at_ (cpX (controlPoints [Some 0; Some 0.2; Some 1; Some 0.4; Some 0.1] 5 (Some 0) (Some 0.3))) 3
    = Some xk
    /\ at_ (cpY (controlPoints [Some 0; Some 0.2; Some 1; Some 0.4; Some 0.1] 5 (Some 0) (Some 0.3))) 3
       = Some yk
    /\ neq (evalCurve (controlPoints [Some 0; Some 0.2; Some 1; Some 0.4; Some 0.1] 5
                         (Some 0) (Some 0.3)) (Z.of_nat (5 + 2)) xk) (Some yk).
Proof.
  assert (H1 : (1 <= 5)%nat) by lia.
  assert (H2 : (5 + 2 <= MAX_POINTS)%nat) by (unfold MAX_POINTS; lia).
  assert (H3 : numbers [Some 0; Some 0.2; Some 1; Some 0.4; Some 0.1] 5 (Some 0) (Some 0.3)).
  { split; [| split; discriminate].
    intros i Hi. do 5 (destruct i as [| i]; [discriminate |]). lia. }
  assert (H4 : (0 <= 3 <= Z.of_nat 5 + 1)%Z) by lia.
  destruct (curve_passes_through_points
              [Some 0; Some 0.2; Some 1; Some 0.4; Some 0.1] 5 (Some 0) (Some 0.3) 3
              H1 H2 H3 H4) as (xk & yk & Hx & Hy & He & _).
  exists xk, yk. split; [exact Hx |]. split; [exact Hy | exact He].
Defined.

End CurveFacts.

(** ** CRC-32 as the PNG format defines it *)
Module Crc32Format.
Import Png PngFacts.

Local Open Scope Z_scope.

(** The generator polynomial of CRC-32 (ISO 3309, ITU-T V.42, PNG
    section 5.5): x^32 + x^26 + x^23 + x^22 + x^16 + x^12 + x^11 + x^10
    + x^8 + x^7 + x^5 + x^4 + x^2 + x + 1.  The terms below x^32: *)
Definition generatorExponents : list Z := [26; 23; 22; 16; 12; 11; 10; 8; 7; 5; 4; 2; 1; 0]%Z.

(** The register holds the coefficient of x^(31 - i) in bit [i]: bytes
    are sent least significant bit first. *)
Definition generator : Z :=
  fold_right (fun e acc => Z.lor (Z.shiftl 1 (31 - e)) acc) 0%Z generatorExponents.

(** One message bit enters the register: the register moves on by one
    place, and the generator is subtracted when the bit that leaves it
    and the message bit differ. *)
Definition feedBit (reg : Z) (bit : bool) : Z :=
  let moved := Z.shiftr reg 1 in
  if xorb (Z.testbit reg 0) bit then Z.lxor moved generator else moved.

(** The bits of a byte, least significant first. *)
Definition bitsLow (k : nat) (b : Z) : list bool :=
  map (fun i => Z.testbit b (Z.of_nat i)) (seq 0 k).

(** The CRC-32 of a byte sequence: the register starts at all ones, the
    message bits are fed in, and the result is complemented. *)
Definition crc32Of (bytes : list Z) : Z :=
  Z.lxor (fold_left feedBit (flat_map (bitsLow 8) bytes) 4294967295%Z) 4294967295%Z.

(** The check value of the standard and the CRC every PNG file ends in. *)
Lemma crc32Of_check :
  crc32Of (codesOf "123456789") = 3421780262%Z
  /\ crc32Of (codesOf "IEND") = 2923585666%Z.
Proof. split; vm_compute; reflexivity. Qed.

Lemma generator_value : generator = 3988292384%Z.
Proof. reflexivity. Qed.

Lemma feedBit_turn (reg : Z) (bit : bool) :
  feedBit reg bit = crcTurn (Z.lxor reg (Z.b2z bit)).
Proof.
  unfold feedBit, crcTurn. cbv zeta. rewrite generator_value.
  rewrite Z.lxor_spec, Z.shiftr_lxor.
  assert (Hb0 : Z.testbit (Z.b2z bit) 0 = bit) by now destruct bit.
  assert (Hb1 : Z.shiftr (Z.b2z bit) 1 = 0%Z) by now destruct bit.
  rewrite Hb0, Hb1, Z.lxor_0_r.
  destruct (xorb (Z.testbit reg 0) bit); [apply Z.lxor_comm | reflexivity].
Qed.

(** A turn of the table loop on the sum of two values, the second one even. *)
Lemma crcTurn_lxor_even (lo hi : Z) :
  Z.testbit hi 0 = false ->
  crcTurn (Z.lxor lo hi) = Z.lxor (crcTurn lo) (Z.shiftr hi 1).
Proof.
  intros Hev. unfold crcTurn. rewrite Z.lxor_spec, Hev, xorb_false_r, Z.shiftr_lxor.
  destruct (Z.testbit lo 0); [now rewrite Z.lxor_assoc | reflexivity].
Qed.

Lemma bitsLow_S (k : nat) (b : Z) :
  bitsLow (S k) b = Z.testbit b 0 :: bitsLow k (Z.shiftr b 1).
Proof.
  unfold bitsLow. cbn [seq map]. f_equal.
  rewrite <- seq_shift, map_map. apply map_ext. intros i.
  rewrite Z.shiftr_spec by lia. f_equal. lia.
Qed.

Lemma low_bit_split (b : Z) :
  b = Z.lxor (Z.b2z (Z.testbit b 0)) (Z.shiftl (Z.shiftr b 1) 1).
Proof.
  apply Z.bits_inj'. intros n Hn. rewrite Z.lxor_spec.
  destruct (Z.eq_dec n 0) as [-> | Hne].
  - rewrite Z.shiftl_spec_low by lia. rewrite xorb_false_r.
    now destruct (Z.testbit b 0).
  - rewrite Z.shiftl_spec by lia. rewrite Z.shiftr_spec by lia.
    replace (n - 1 + 1)%Z with n by lia.
    assert (Hz : Z.testbit (Z.b2z (Z.testbit b 0)) n = false).
    { destruct (Z.testbit b 0); cbn [Z.b2z]; [| apply Z.bits_0].
      destruct n; try lia; reflexivity. }
    now rewrite Hz.
Qed.

(** Feeding the low [k] bits of [b]: [k] turns on the register with [b] added, when [b] has no higher bit. *)
Lemma feed_bits (k : nat) :
  forall reg b : Z,
  Z.shiftr b (Z.of_nat k) = 0%Z ->
  fold_left feedBit (bitsLow k b) reg = Nat.iter k crcTurn (Z.lxor reg b).
Proof.
  induction k as [| k IH]; intros reg b Hb.
  - cbn [bitsLow seq map fold_left Nat.iter]. change (Z.of_nat 0) with 0%Z in Hb.
    rewrite Z.shiftr_0_r in Hb. subst b. now rewrite Z.lxor_0_r.
  - rewrite bitsLow_S. cbn [fold_left]. rewrite Nat.iter_succ_r.
    rewrite IH.
    2:{ rewrite Z.shiftr_shiftr by lia.
        replace (1 + Z.of_nat k)%Z with (Z.of_nat (S k)) by lia. exact Hb. }
    f_equal. rewrite feedBit_turn.
    replace (Z.lxor reg b)
      with (Z.lxor (Z.lxor reg (Z.b2z (Z.testbit b 0))) (Z.shiftl (Z.shiftr b 1) 1))
      by (now rewrite Z.lxor_assoc, <- low_bit_split).
    rewrite (crcTurn_lxor_even (Z.lxor reg (Z.b2z (Z.testbit b 0)))
               (Z.shiftl (Z.shiftr b 1) 1)) by (apply Z.shiftl_spec_low; lia).
    f_equal. rewrite Z.shiftr_shiftl_l by lia. change (1 - 1)%Z with 0%Z.
    now rewrite Z.shiftl_0_r.
Qed.

(** [k] turns pass what lies above the low [k] bits through unchanged. *)
Lemma turns_high (k : nat) :
  forall lo hi : Z,
  Nat.iter k crcTurn (Z.lxor lo (Z.shiftl hi (Z.of_nat k))) = Z.lxor (Nat.iter k crcTurn lo) hi.
Proof.
  induction k as [| k IH]; intros lo hi.
  - cbn [Nat.iter]. change (Z.of_nat 0) with 0%Z. now rewrite Z.shiftl_0_r.
  - rewrite !Nat.iter_succ_r.
    rewrite crcTurn_lxor_even by (apply Z.shiftl_spec_low; lia).
    rewrite Z.shiftr_shiftl_l by lia.
    replace (Z.of_nat (S k) - 1)%Z with (Z.of_nat k) by lia.
    apply IH.
Qed.

Lemma low_byte_split (v : Z) :
  v = Z.lxor (Z.land v 255) (Z.shiftl (Z.shiftr v 8) 8).
Proof.
  apply Z.bits_inj'. intros n Hn. rewrite Z.lxor_spec, Z.land_spec.
  change 255%Z with (Z.ones 8).
  destruct (Z_lt_le_dec n 8) as [Hlo | Hhi].
  - rewrite Z.ones_spec_low by lia. rewrite Z.shiftl_spec_low by lia.
    now rewrite andb_true_r, xorb_false_r.
  - rewrite Z.ones_spec_high by lia. rewrite Z.shiftl_spec by lia.
    rewrite Z.shiftr_spec by lia. rewrite andb_false_r, xorb_false_l.
    f_equal. lia.
Qed.

Lemma crcTable_at (i : Z) :
  (0 <= i < 256)%Z -> nth (Z.to_nat i) crcTable 0%Z = Nat.iter 8 crcTurn i.
Proof.
  intros Hi. unfold crcTable.
  rewrite (nth_indep _ 0%Z ((fun n => Nat.iter 8 crcTurn (Z.of_nat n)) 0%nat))
    by (rewrite length_map, length_seq; lia).
  rewrite (map_nth (fun n => Nat.iter 8 crcTurn (Z.of_nat n))), seq_nth by lia.
  cbn [Nat.add]. now rewrite Z2Nat.id by lia.
Qed.

(** The table step of the encoder is eight turns of the register. *)
Lemma crcByte_feeds (crc b : Z) :
  (0 <= crc)%Z -> is_byte b ->
  crcByte crc b = fold_left feedBit (bitsLow 8 b) crc.
Proof.
  intros Hc Hb. unfold is_byte in Hb.
  assert (Hb8 : Z.shiftr b 8 = 0%Z).
  { rewrite Z.shiftr_div_pow2 by lia. apply Z.div_small. change (2 ^ 8)%Z with 256%Z. lia. }
  rewrite feed_bits by exact Hb8.
  unfold crcByte.
  assert (Hidx : (0 <= Z.land (Z.lxor crc b) 255 < 256)%Z).
  { change 255%Z with (Z.ones 8). rewrite Z.land_ones by lia.
    apply Z.mod_pos_bound. lia. }
  rewrite crcTable_at by exact Hidx.
  replace (Nat.iter 8 crcTurn (Z.lxor crc b))
    with (Nat.iter 8 crcTurn (Z.lxor (Z.land (Z.lxor crc b) 255)
                                     (Z.shiftl (Z.shiftr (Z.lxor crc b) 8) (Z.of_nat 8))))
    by (change (Z.of_nat 8) with 8; now rewrite <- low_byte_split).
  rewrite (turns_high 8). f_equal.
  now rewrite Z.shiftr_lxor, Hb8, Z.lxor_0_r.
Qed.

Lemma fold_left_flat_map {A B C : Type} (f : A -> B -> A) (g : C -> list B) (l : list C) :
  forall a, fold_left f (flat_map g l) a = fold_left (fun acc x => fold_left f (g x) acc) l a.
Proof.
  induction l as [| x l IH]; intros a; [reflexivity |].
  cbn [flat_map fold_left]. now rewrite fold_left_app, IH.
Qed.

(** The checksum the encoder computes with its table is the CRC-32 of
    the format. *)
Lemma crcOf_is_crc32 (bytes : list Z) :
  Forall is_byte bytes -> crcOf bytes = crc32Of bytes.
Proof.
  intros Hb. unfold crcOf, crc32Of. f_equal. rewrite fold_left_flat_map.
  assert (H : forall acc, word32 acc ->
            fold_left crcByte bytes acc
            = fold_left (fun reg x => fold_left feedBit (bitsLow 8 x) reg) bytes acc).
  { induction Hb as [| b bytes Hb1 Hb2 IH]; intros acc Hacc; [reflexivity |].
    cbn [fold_left]. rewrite <- crcByte_feeds by (unfold word32 in Hacc; (lia || assumption)).
    apply IH. now apply crcByte_word. }
  apply H. unfold word32. lia.
Qed.

End Crc32Format.

(** ** The PNG encoder: the container and the room for the compressed data *)
Module PngContainer.
Import Png PngFacts Crc32Format.

Lemma crc32_word (buf : list Z) (off len : nat) : word32 (crc32 buf off len).
Proof.
  unfold crc32.
  assert (H : forall idxs acc, word32 acc ->
            word32 (fold_left (fun crc i => crcByte crc (nth i buf 0%Z)) idxs acc)).
  { induction idxs as [| i idxs IH]; intros acc Hacc; cbn [fold_left]; [exact Hacc |].
    apply IH. now apply crcByte_word. }
  unfold word32 in *. change 4294967296%Z with (2 ^ 32)%Z in *.
  apply lxor_range; [lia | apply H; lia | lia].
Qed.

Lemma writeUInt32BE_length (v : Z) (off : nat) (buf out : list Z) :
  writeUInt32BE v off buf = Some out -> length out = length buf.
Proof.
  unfold writeUInt32BE. destruct (_ && _); [| discriminate].
  intros [= <-]. now rewrite !length_insert.
Qed.

Lemma writeUInt32BE_room (v : Z) (off : nat) (buf : list Z) :
  (length buf < off + 4)%nat -> writeUInt32BE v off buf = None.
Proof.
  intros H. unfold writeUInt32BE.
  replace (off + 4 <=? length buf)%nat with false by (symmetry; apply Nat.leb_gt; lia).
  now rewrite andb_false_r.
Qed.

Lemma writeChunks_oversize (compressed png0 : list Z) :
  length png0 = PNG_MAX -> (MAX_COMPRESSED < length compressed)%nat ->
  writeChunks compressed png0 = None.
Proof.
  intros Hlen Hbig. pose proof PNG_MAX_eq as Hmax. unfold writeChunks.
  change IDAT_OFF with 33%nat.
  destruct (writeUInt32BE (Z.of_nat (length compressed)) 33 png0) as [p1 |] eqn:E1;
    [| reflexivity].
  apply writeUInt32BE_length in E1. cbv zeta.
  destruct (writeUInt32BE _ (33 + 8 + length compressed) _) as [p2 |] eqn:E2; [| reflexivity].
  apply writeUInt32BE_length in E2. rewrite !writeBytes_length in E2.
  destruct (writeUInt32BE 0 (33 + 8 + length compressed + 4) p2) as [p3 |] eqn:E3;
    [| reflexivity].
  apply writeUInt32BE_length in E3.
  rewrite writeUInt32BE_room; [reflexivity |].
  rewrite writeBytes_length. lia.
Qed.

Section Room.

Variable deflateSync : list Z -> list Z.

(** X18.  With the module's buffers in order, [encodePNGToDataURI]
    throws exactly when the compressed data is longer than
    [MAX_COMPRESSED], the room set aside for it: the write of a chunk
    field past the end of [pngOut] raises instead of a truncated image
    being returned.  In every other case a data URI is returned. *)
Theorem encoder_throws_iff_oversize (width height : nat) (rgba : list Z) (bufs : Buffers) :
  buffers_ok bufs ->
  let compressed := deflateSync (copyRows height rgba (rawBuf bufs)) in
  (encodePNGToDataURI deflateSync width height rgba bufs = None
   <-> (MAX_COMPRESSED < length compressed)%nat)
  /\ ((length compressed <= MAX_COMPRESSED)%nat ->
      exists text bufs',
        encodePNGToDataURI deflateSync width height rgba bufs = Some (text, bufs')).
Proof.
  intros [R1 R2 P1 P2 U1 U2] compressed.
  assert (Hsome : (length compressed <= MAX_COMPRESSED)%nat ->
            exists text bufs',
              encodePNGToDataURI deflateSync width height rgba bufs = Some (text, bufs')).
  { intros Hfit.
    destruct (writeChunks_spec compressed (pngOut bufs) P1 P2 Hfit) as (out & Hw & _).
    unfold encodePNGToDataURI. fold compressed. rewrite Hw.
    destruct (b64Encode out (57 + length compressed) (dataUriBuf bufs)) as [di uri].
    eexists _, _. reflexivity. }
  split; [| exact Hsome]. split.
  - intros Hnone. destruct (Nat.le_gt_cases (length compressed) MAX_COMPRESSED) as [Hfit | Hbig];
      [| exact Hbig].
    destruct (Hsome Hfit) as (text & bufs' & Hs). congruence.
  - intros Hbig. unfold encodePNGToDataURI. fold compressed.
    now rewrite (writeChunks_oversize compressed (pngOut bufs) P1 Hbig).
Qed.

End Room.

(** A compressor whose output is one byte too long, to run the statement on. *)
Definition tooLong (raw : list Z) : list Z := repeat 0%Z (S MAX_COMPRESSED).

Lemma encoder_throws_iff_oversize_witness :
  buffers_ok initBuffers
  /\ encodePNGToDataURI tooLong WIDTH HEIGHT blackFrame initBuffers = None.
Proof.
  split; [exact initBuffers_ok |].
  apply (proj1 (encoder_throws_iff_oversize tooLong WIDTH HEIGHT blackFrame initBuffers
                  initBuffers_ok)).
  unfold tooLong. rewrite repeat_length. lia.
Defined.

(** *** Reading the container back *)

(** A reader of the chunks of a PNG file: length, type, data and CRC of
    each; [None] on a short chunk or on a stored CRC that is not the
    CRC-32 of the format ([Crc32Format.crc32Of]) of type and data. *)
Fixpoint readChunks (fuel : nat) (bytes : list Z) : option (list (list Z * list Z)) :=
  match fuel with
  | O => None
  | S fuel' =>
      match bytes with
      | [] => Some []
      | _ :: _ =>
          let len := Z.to_nat (unbe32 (take 4 bytes)) in
          if (length bytes <? 12 + len)%nat then None
          else
            let ty := take 4 (drop 4 bytes) in
            let data := take len (drop 8 bytes) in
            if (unbe32 (take 4 (drop (8 + len) bytes)) =? crc32Of (ty ++ data))%Z
            then match readChunks fuel' (drop (12 + len) bytes) with
                 | Some cs => Some ((ty, data) :: cs)
                 | None => None
                 end
            else None
      end
  end.

Definition readPng (bytes : list Z) : option (list (list Z * list Z)) :=
  if decide (take 8 bytes = signature)
  then readChunks (length bytes) (drop 8 bytes)
  else None.

Lemma readChunks_chunk (fuel : nat) (ty : string) (data rest : list Z) :
  length (codesOf ty) = 4%nat -> (Z.of_nat (length data) < 4294967296)%Z ->
  Forall is_byte data ->
  readChunks (S fuel) (chunk ty data ++ rest)
  = match readChunks fuel rest with
    | Some cs => Some ((codesOf ty, data) :: cs)
    | None => None
    end.
Proof.
  intros Hty Hlen Hdata.
  assert (Hcrc : crcOf (codesOf ty ++ data) = crc32Of (codesOf ty ++ data)).
  { apply crcOf_is_crc32, Forall_app. split; [apply codesOf_bytes | exact Hdata]. }
  assert (Hw : word32 (Z.of_nat (length data))) by (unfold word32; lia).
  set (L := be32 (Z.of_nat (length data))).
  set (C := be32 (crcOf (codesOf ty ++ data))).
  assert (HL : length L = 4%nat) by apply be32_length.
  assert (HC : length C = 4%nat) by apply be32_length.
  assert (Hshape : chunk ty data ++ rest = L ++ codesOf ty ++ data ++ C ++ rest).
  { unfold chunk. fold L. fold C. now rewrite <- !app_assoc. }
  rewrite Hshape.
  assert (Hne : exists x xs, L ++ codesOf ty ++ data ++ C ++ rest = x :: xs).
  { unfold L, be32. cbn [app]. eexists _, _. reflexivity. }
  destruct Hne as (x & xs & Hne).
  assert (HuL : unbe32 L = Z.of_nat (length data)) by (apply unbe32_be32; exact Hw).
  assert (HuC : unbe32 C = crcOf (codesOf ty ++ data)) by (apply unbe32_be32, crcOf_word).
  clearbody L C.
  cbn [readChunks]. rewrite Hne. cbv beta iota. rewrite <- Hne. clear x xs Hne. cbv zeta.
  rewrite (take_app_length' L _ 4) by (symmetry; exact HL).
  rewrite HuL, Nat2Z.id.
  replace (length (L ++ codesOf ty ++ data ++ C ++ rest) <? 12 + length data)%nat with false.
  2:{ symmetry. apply Nat.ltb_ge. rewrite !length_app. lia. }
  rewrite (drop_app_length' L _ 4) by (symmetry; exact HL).
  rewrite (take_app_length' (codesOf ty) _ 4) by (symmetry; exact Hty).
  replace (drop 8 (L ++ codesOf ty ++ data ++ C ++ rest)) with (data ++ C ++ rest).
  2:{ rewrite (app_assoc L). symmetry. apply drop_app_length'. rewrite length_app. lia. }
  rewrite take_app_length.
  replace (drop (8 + length data) (L ++ codesOf ty ++ data ++ C ++ rest)) with (C ++ rest).
  2:{ rewrite (app_assoc L), (app_assoc (L ++ codesOf ty)). symmetry.
      apply drop_app_length'. rewrite !length_app. lia. }
  rewrite (take_app_length' C _ 4) by (symmetry; exact HC).
  rewrite HuC, Hcrc, Z.eqb_refl.
  replace (drop (12 + length data) (L ++ codesOf ty ++ data ++ C ++ rest)) with rest.
  2:{ rewrite (app_assoc L), (app_assoc (L ++ codesOf ty)),
        (app_assoc ((L ++ codesOf ty) ++ data)). symmetry.
      apply drop_app_length'. rewrite !length_app. lia. }
  reflexivity.
Qed.

(** X19.  What the encoder leaves in [pngOut] reads back as a PNG file:
    the signature, then exactly three chunks, each followed by the CRC-32
    of its type and data as the format defines it (the bits fed one by
    one through the generator polynomial, not the encoder's table): IHDR
    (200 x 100, 8 bits per channel, colour type 6, no interlace), IDAT
    holding the compressed bytes unchanged, and an empty IEND. *)
Theorem png_container_reads_back (compressed png0 : list Z) :
  length png0 = PNG_MAX -> take 33 png0 = pngHeader ->
  (length compressed <= MAX_COMPRESSED)%nat -> Forall is_byte compressed ->
  exists png len,
    writeChunks compressed png0 = Some (png, len)
    /\ readPng (take len png)
       = Some [(codesOf "IHDR", ihdrData); (codesOf "IDAT", compressed); (codesOf "IEND", [])]
    /\ unbe32 (take 4 ihdrData) = 200%Z
    /\ unbe32 (take 4 (drop 4 ihdrData)) = 100%Z
    /\ drop 8 ihdrData = [8; 6; 0; 0; 0]%Z.
Proof.
  intros Hlen Hhead Hfit Hbytes.
  destruct (writeChunks_spec compressed png0 Hlen Hhead Hfit) as (png & Hw & _ & Htake).
  exists png, (57 + length compressed)%nat.
  split; [exact Hw |].
  split; [| split; [| split]; vm_compute; reflexivity].
  rewrite Htake. unfold readPng, pngFile, pngHeader.
  rewrite <- !app_assoc.
  rewrite (take_app_length' signature _ 8) by reflexivity.
  destruct (decide (signature = signature)) as [_ | Hne]; [| contradiction].
  rewrite (drop_app_length' signature _ 8) by reflexivity.
  pose proof MAX_COMPRESSED_word as Hword.
  set (fuel := length _).
  assert (Hfuel : (4 <= fuel)%nat).
  { unfold fuel. rewrite !length_app. unfold signature. cbn [length]. lia. }
  destruct fuel as [| [| [| [| fuel]]]]; try lia.
  assert (Hihdr : Forall is_byte ihdrData).
  { unfold ihdrData. apply Forall_app. split; [apply be32_bytes |].
    apply Forall_app. split; [apply be32_bytes |].
    repeat constructor; unfold is_byte; lia. }
  rewrite (readChunks_chunk _ "IHDR" ihdrData);
    [| reflexivity | now vm_compute | exact Hihdr].
  rewrite (readChunks_chunk _ "IDAT" compressed); [| reflexivity | lia | exact Hbytes].
  rewrite <- (app_nil_r (chunk "IEND" [])).
  rewrite (readChunks_chunk _ "IEND" []); [| reflexivity | now vm_compute | constructor].
  reflexivity.
Qed.

Lemma png_container_reads_back_witness :
  length (pngOut initBuffers) = PNG_MAX /\ take 33 (pngOut initBuffers) = pngHeader
  /\ (length [1; 2; 3]%Z <= MAX_COMPRESSED)%nat
  /\ Forall is_byte [1; 2; 3]%Z
  /\ exists png len,
       writeChunks [1; 2; 3]%Z (pngOut initBuffers) = Some (png, len)
       /\ readPng (take len png)
          = Some [(codesOf "IHDR", ihdrData); (codesOf "IDAT", [1; 2; 3]%Z);
                  (codesOf "IEND", [])].
Proof.
  assert (H1 : length (pngOut initBuffers) = PNG_MAX) by exact (ok_png_len _ initBuffers_ok).
  assert (H2 : take 33 (pngOut initBuffers) = pngHeader)
    by exact (ok_png_header _ initBuffers_ok).
  assert (H3 : (length [1; 2; 3]%Z <= MAX_COMPRESSED)%nat)
    by (unfold MAX_COMPRESSED; cbn [length]; lia).
  assert (H4 : Forall is_byte [1; 2; 3]%Z) by (repeat constructor; unfold is_byte; lia).
  split; [exact H1 |]. split; [exact H2 |]. split; [exact H3 |]. split; [exact H4 |].
  destruct (png_container_reads_back [1; 2; 3]%Z (pngOut initBuffers) H1 H2 H3 H4)
    as (png & len & Hw & Hr & _).
  exists png, len. split; [exact Hw | exact Hr].
Defined.

End PngContainer.

(** ** The demo source: what it hands to the engine *)
Module DemoFacts.
Import JS Demo.

(** What holds of the demo source between two calls. *)
Record demo_ok (d : DemoAudioSource) : Prop := {
  ok_beat_past : lastBeat d <= beatPhase d;
  ok_decay : 0 <= beatDecay d <= 1
}.

Lemma newDemoSource_ok : demo_ok newDemoSource.
Proof. split; cbn [newDemoSource lastBeat beatPhase beatDecay]; lra. Qed.

Section Generator.

Variables Math_sin Math_exp : Q -> Q.
Variable Math_pow : Q -> Q -> Q.

Lemma demoBin_range (t beatIntensity : Q) (numBins i : nat) :
  0 <= demoBin Math_sin Math_exp Math_pow t beatIntensity numBins i <= 1.
Proof.
  unfold demoBin. cbv zeta. split.
  - apply Math_max_ge_l.
  - apply Math_max_lub; [lra | apply Math_min_le_l].
Qed.

(** The engine's source after the calls with the given random values and
    time steps, and the bins of the last call. *)
Fixpoint demoRun (calls : list (Q * Q)) (numBins : nat) (d : DemoAudioSource)
    : list Q * DemoAudioSource :=
  match calls with
  | [] => (repeat 0 numBins, d)
  | (random, deltaTime) :: rest =>
      let '(bins, d') := getFrequencyData Math_sin Math_exp Math_pow random numBins deltaTime d in
      match rest with
      | [] => (bins, d')
      | _ :: _ => demoRun rest numBins d'
      end
  end.

Definition call_ok (c : Q * Q) : Prop := 0 <= fst c <= 1 /\ 0 <= snd c.

Lemma getFrequencyData_ok (random : Q) (numBins : nat) (deltaTime : Q)
    (d : DemoAudioSource) :
  demo_ok d -> call_ok (random, deltaTime) ->
  let out := getFrequencyData Math_sin Math_exp Math_pow random numBins deltaTime d in
  length (fst out) = numBins
  /\ Forall (fun v => 0 <= v <= 1) (fst out)
  /\ demo_ok (snd out)
  /\ phase (snd out) = phase d + deltaTime
  /\ beatPhase (snd out) = beatPhase d + deltaTime
  /\ (lastBeat (snd out) = lastBeat d /\ beatDecay (snd out) = beatDecay d
      \/ lastBeat (snd out) = beatPhase (snd out) /\ 0.6 <= beatDecay (snd out) <= 1).
Proof.
  intros [Hb Hd] [Hr Hdt]. cbn [fst snd] in Hr, Hdt. unfold getFrequencyData. cbv zeta.
  cbn [fst snd phase beatPhase lastBeat beatDecay].
  split; [now rewrite length_map, length_seq |].
  split.
  { apply Forall_forall. intros v Hv. apply list_elem_of_In, in_map_iff in Hv.
    destruct Hv as [i [<- _]]. apply demoBin_range. }
  destruct (gtb _ _).
  - split; [split; cbn [lastBeat beatPhase beatDecay]; lra |].
    split; [reflexivity |]. split; [reflexivity |]. right. split; [reflexivity | lra].
  - split; [split; cbn [lastBeat beatPhase beatDecay]; lra |].
    split; [reflexivity |]. split; [reflexivity |]. left. now split.
Qed.

(** X20.  Whatever [Math.sin], [Math.exp], [Math.pow] and [Math.random]
    return (the latter in [0,1]), and whatever non-negative time steps
    are passed, every call of the demo source in a sequence of calls on a
    new source returns exactly [numBins] values, each in [0,1]; the time
    of the last beat never runs ahead of the beat clock and the beat
    strength stays in [0,1]; and [phase] is the sum of the time steps. *)
Theorem demo_source_feeds_unit_values (calls : list (Q * Q)) (numBins : nat) :
  Forall call_ok calls ->
  let out := demoRun calls numBins newDemoSource in
  length (fst out) = numBins
  /\ Forall (fun v => 0 <= v <= 1) (fst out)
  /\ demo_ok (snd out)
  /\ phase (snd out) == fold_right Qplus 0 (map snd calls)
  /\ beatPhase (snd out) == fold_right Qplus 0 (map snd calls).
Proof.
  intros Hall. cbv zeta.
  assert (Hgen : forall d, demo_ok d ->
            length (fst (demoRun calls numBins d)) = numBins
            /\ Forall (fun v => 0 <= v <= 1) (fst (demoRun calls numBins d))
            /\ demo_ok (snd (demoRun calls numBins d))
            /\ phase (snd (demoRun calls numBins d))
               == phase d + fold_right Qplus 0 (map snd calls)
            /\ beatPhase (snd (demoRun calls numBins d))
               == beatPhase d + fold_right Qplus 0 (map snd calls)).
  { induction Hall as [| [random dt] rest Hc Hrest IH]; intros d Hd.
    - cbn [demoRun fst snd map fold_right]. split; [apply repeat_length |].
      split; [| split; [exact Hd | split; lra]].
      apply Forall_forall. intros v Hv. apply list_elem_of_In, repeat_spec in Hv.
      subst. lra.
    - cbn [demoRun].
      pose proof (getFrequencyData_ok random numBins dt d Hd Hc) as Hstep.
      cbv zeta in Hstep.
      destruct (getFrequencyData Math_sin Math_exp Math_pow random numBins dt d)
        as [bins d'].
      cbn [fst snd] in Hstep. destruct Hstep as (H1 & H2 & H3 & H4 & H5 & _).
      destruct rest as [| c rest'].
      + cbn [fst snd map fold_right]. rewrite H4, H5.
        split; [exact H1 |]. split; [exact H2 |]. split; [exact H3 |]. split; lra.
      + destruct (IH d' H3) as (I1 & I2 & I3 & I4 & I5).
        split; [exact I1 |]. split; [exact I2 |]. split; [exact I3 |].
        rewrite I4, I5, H4, H5.
        change (map snd ((random, dt) :: c :: rest')) with (dt :: map snd (c :: rest')).
        cbn [fold_right].
        set (S := fold_right Qplus 0 (map snd (c :: rest'))).
        split; ring. }
  destruct (Hgen newDemoSource newDemoSource_ok) as (G1 & G2 & G3 & G4 & G5).
  split; [exact G1 |]. split; [exact G2 |]. split; [exact G3 |].
  cbn [newDemoSource phase beatPhase] in G4, G5. split; lra.
Qed.

End Generator.

Lemma demo_source_feeds_unit_values_witness :
  Forall call_ok [(0.5, 0.05); (0.25, 0.1)]
  /\ length (fst (demoRun (fun x => x) (fun x => x) (fun x _ => x)
                     [(0.5, 0.05); (0.25, 0.1)] 20 newDemoSource)) = 20%nat.
Proof.
  assert (H : Forall call_ok [(0.5, 0.05); (0.25, 0.1)]).
  { repeat (constructor; [unfold call_ok; cbn [fst snd]; lra |]). constructor. }
  split; [exact H |].
  exact (proj1 (demo_source_feeds_unit_values (fun x => x) (fun x => x) (fun x _ => x)
                  [(0.5, 0.05); (0.25, 0.1)] 20 H)).
Defined.

End DemoFacts.

(** ** The renderer: a silent frame *)
Module SilentFrame.
Import JS Renderer RendererFacts CurveFacts.

(** Not above 0: the number is at most 0, or the value is [NaN]. *)
Definition quiet (v : num) : Prop :=
  match v with Some q => q <= 0 | None => True end.

(** The number 0, or [NaN]. *)
Definition flat (v : num) : Prop :=
  match v with Some q => q == 0 | None => True end.

Lemma clampQ_nonpos (v : Q) : v <= 0 -> Math_max 0 (Math_min 1 v) == 0.
Proof.
  intros H.
  destruct (Math_min_spec 1 v) as [[H1 ->] | [H1 ->]];
    match goal with
    | |- Math_max 0 ?a == 0 => destruct (Math_max_spec 0 a) as [[H2 ->] | [H2 ->]]
    end; lra.
Qed.

Lemma clamp01_flat (v : num) : quiet v -> flat (clamp01 v).
Proof. destruct v as [q |]; [apply clampQ_nonpos | intros _; exact I]. Qed.

Lemma flat_quiet (v : num) : flat v -> quiet v.
Proof. destruct v as [q |]; cbn [flat quiet]; [lra | trivial]. Qed.

Lemma at_flat (l : list num) (i : Z) : Forall flat l -> flat (at_ l i).
Proof.
  intros H. unfold at_. destruct (i <? 0)%Z; [exact I |].
  destruct (nth_in_or_default (Z.to_nat i) l None) as [Hin | ->]; [| exact I].
  rewrite Forall_forall in H. apply H. now apply list_elem_of_In.
Qed.

Lemma nsub_flat (a b : num) : flat a -> flat b -> flat (nsub a b).
Proof. destruct a, b; cbn [flat nsub]; trivial. intros H1 H2. lra. Qed.

Lemma nadd_flat (a b : num) : flat a -> flat b -> flat (nadd a b).
Proof. destruct a, b; cbn [flat nadd]; trivial. intros H1 H2. lra. Qed.

Lemma nmul_flat (a b : num) : flat b -> flat (nmul a b).
Proof. destruct a, b; cbn [flat nmul]; trivial. intros H. rewrite H. ring. Qed.

Lemma ndiv_flat (a b : num) : flat a -> flat (ndiv a b).
Proof.
  destruct a as [x |], b as [y |]; cbn [flat ndiv]; trivial.
  intros H. destruct (Qeq_bool y 0); [exact I |]. cbn [flat]. rewrite H. unfold Qdiv. ring.
Qed.

Lemma pointsY_flat (bins : list num) (numBars : nat) (leftEdge rightEdge : num) :
  (forall i, (i < numBars)%nat -> quiet (nth i bins None)) ->
  quiet leftEdge -> quiet rightEdge ->
  Forall flat (pointsY bins numBars leftEdge rightEdge).
Proof.
  intros Hb Hl Hr. unfold pointsY, cells. apply Forall_take.
  constructor; [now apply clamp01_flat |].
  apply Forall_app_both.
  - apply List.Forall_forall. intros v Hv. apply in_map_iff in Hv.
    destruct Hv as [i [<- Hi]]. apply in_seq in Hi. apply clamp01_flat, Hb. lia.
  - constructor; [now apply clamp01_flat | constructor].
Qed.

Lemma slopesOf_flat (xs ys : list num) (n : Z) :
  Forall flat ys -> Forall flat (slopesOf xs ys n).
Proof.
  intros H. unfold slopesOf, cells. apply Forall_take.
  apply Forall_forall. intros v Hv.
  apply list_elem_of_In, in_map_iff in Hv. destruct Hv as [k [<- _]]. cbv zeta.
  apply ndiv_flat, nsub_flat; now apply at_flat.
Qed.

Lemma tangentsOf_flat (slopes : list num) (n : Z) :
  Forall flat slopes -> Forall flat (tangentsOf slopes n).
Proof.
  intros H. unfold tangentsOf, cells. apply Forall_take.
  apply Forall_forall. intros v Hv.
  apply list_elem_of_In, in_map_iff in Hv. destruct Hv as [k [<- _]]. cbv zeta.
  destruct ((0 <? Z.of_nat k)%Z && (Z.of_nat k <? n - 1)%Z).
  - destruct (nleb _ (Some 0)); [cbn [flat]; reflexivity |].
    apply ndiv_flat, nadd_flat; now apply at_flat.
  - destruct (Z.of_nat k =? 0)%Z; now apply at_flat.
Qed.

Lemma evalCurve_flat (cp : ControlPoints) (n : Z) (x : Q) :
  Forall flat (cpY cp) -> Forall flat (cpTangents cp) -> flat (evalCurve cp n x).
Proof.
  intros Hy Ht. unfold evalCurve.
  destruct (n =? 0)%Z; [cbn [flat]; reflexivity |].
  destruct (nleb (Some x) _); [now apply at_flat |].
  destruct (ngeb (Some x) _); [now apply at_flat |]. cbv zeta.
  destruct (nzerob _); [now apply at_flat |].
  repeat apply nadd_flat; apply nmul_flat; now apply at_flat.
Qed.

(** A height of 0, or [NaN], paints nothing. *)
Lemma paintColumn_flat (lut : list Z) (curveH : num) (x : Z) :
  flat curveH -> paintColumn lut curveH x = [].
Proof.
  destruct curveH as [q |]; [| reflexivity]. cbn [flat]. intros H.
  unfold paintColumn. cbv zeta. cbn [nadd nor0].
  destruct (or0_range (q + 0.5) 0) as [Hr _]; [lia | lra | |].
  { change (inject_Z (0 + 1)) with 1. lra. }
  replace (or0 (q + 0.5) <=? 0)%Z with true by (symmetry; apply Z.leb_le; lia).
  reflexivity.
Qed.

Lemma flat_map_empty (A B : Type) (f : A -> list B) (l : list A) :
  (forall a, In a l -> f a = []) -> flat_map f l = [].
Proof.
  intros H. induction l as [| a l IH]; [reflexivity |].
  cbn [flat_map]. rewrite (H a) by now left.
  apply IH. intros a' Ha'. apply H. now right.
Qed.

Lemma heights_flat (cp : ControlPoints) (n : Z) :
  (forall x, flat (evalCurve cp n x)) -> Forall flat (curveHeightsOf cp n).
Proof.
  intros Hc. unfold curveHeightsOf. cbv zeta. apply Forall_forall. intros v Hv.
  apply list_elem_of_In, in_map_iff in Hv. destruct Hv as [c [<- _]].
  unfold ampAt. specialize (Hc (inject_Z (Z.of_nat c))).
  pose proof (clamp01_flat _ (flat_quiet _ Hc)) as Ha.
  destruct (clamp01 _) as [a |]; [| exact I].
  cbn [flat nmul] in *. rewrite Ha. ring.
Qed.

(** X21.  When no bin a bar reads and no edge is above 0 (each is a
    number at most 0, or [NaN], or missing), the curve is 0 or [NaN] at
    every x and the renderer stores nothing into the pixel buffer,
    whatever the number of bars: no column is filled and no glow line is
    drawn, so the frame that is encoded is the fully transparent one (all
    80000 bytes 0).  This is so for every theme name that does not make
    the call throw.  With numbers for input and room for the points the
    curve is the number 0 at every x. *)
Theorem silent_frame_is_transparent (bins : list num) (themeName : string) (numBars : nat)
    (leftEdge rightEdge : num) :
  (forall i, (i < numBars)%nat -> quiet (nth i bins None)) ->
  quiet leftEdge -> quiet rightEdge ->
  let cp := controlPoints bins numBars leftEdge rightEdge in
  let n := Z.of_nat (numBars + 2) in
  (forall x, flat (evalCurve cp n x))
  /\ (numbers bins numBars leftEdge rightEdge -> (numBars + 2 <= MAX_POINTS)%nat ->
      forall x, neq (evalCurve cp n x) (Some 0))
  /\ pixelWrites bins themeName numBars leftEdge rightEdge
     = match themeStops themeName with Some _ => Some [] | None => None end
  /\ (forall writes, pixelWrites bins themeName numBars leftEdge rightEdge = Some writes ->
      pixelBufferOf writes = repeat 0%Z (Z.to_nat (STRIP_WIDTH * STRIP_HEIGHT * 4))).
Proof.
  intros Hb Hl Hr cp n.
  assert (Hcurve : forall x, flat (evalCurve cp n x)).
  { intros x. apply evalCurve_flat; unfold cp, controlPoints; cbv zeta;
      cbn [cpY cpTangents].
    - now apply pointsY_flat.
    - apply tangentsOf_flat, slopesOf_flat. now apply pointsY_flat. }
  assert (Hw : pixelWrites bins themeName numBars leftEdge rightEdge
               = match themeStops themeName with Some _ => Some [] | None => None end).
  { unfold pixelWrites. destruct (themeStops themeName) as [stops |]; [| reflexivity].
    cbv zeta. f_equal. apply flat_map_empty. intros x _.
    apply paintColumn_flat.
    pose proof (heights_flat cp n Hcurve) as Hall. fold cp n.
    destruct (nth_in_or_default x (curveHeightsOf cp n) None) as [Hin | ->]; [| exact I].
    rewrite Forall_forall in Hall. apply Hall. now apply list_elem_of_In. }
  split; [exact Hcurve |]. split; [| split; [exact Hw |]].
  - intros Hnum Hroom x.
    destruct (evalCurve_number bins numBars leftEdge rightEdge Hnum Hroom x) as [v Hv].
    fold cp n in Hv. specialize (Hcurve x). rewrite Hv in *. exact Hcurve.
  - intros writes Hwr. rewrite Hw in Hwr.
    destruct (themeStops themeName); [| discriminate].
    injection Hwr as <-. reflexivity.
Qed.

Lemma silent_frame_is_transparent_witness :
  (forall i, (i < 5)%nat -> quiet (nth i (repeat (Some 0) 5) None)) /\ quiet (Some 0)
  /\ pixelWrites (repeat (Some 0) 5) "neon" 5 (Some 0) (Some 0) = Some [].
Proof.
  assert (H : forall i, (i < 5)%nat -> quiet (nth i (repeat (Some 0) 5) None)).
  { intros i _. destruct (nth_in_or_default i (repeat (Some 0) 5) None) as [Hin | ->];
      [| exact I].
    apply repeat_spec in Hin. rewrite Hin. cbn [quiet]. lra. }
  assert (H0 : quiet (Some 0)) by (cbn [quiet]; lra).
  split; [exact H |]. split; [exact H0 |].
  exact (proj1 (proj2 (proj2 (silent_frame_is_transparent (repeat (Some 0) 5) "neon" 5
                                (Some 0) (Some 0) H H0 H0)))).
Defined.

End SilentFrame.

(** ** Ranges: bands, control points, heights and pixel bytes *)
Module RangeProperties.
Import JS Engine EngineInvariant Renderer RendererFacts CurveFacts.

Section Inputs.

Variables (bins : list num) (numBars : nat) (leftEdge rightEdge : num).

Let cp := controlPoints bins numBars leftEdge rightEdge.
Let n := Z.of_nat (numBars + 2).

Lemma pointsY_numbers :
  numbers bins numBars leftEdge rightEdge ->
  List.Forall (number_within 0 1) (cpY cp).
Proof.
  intros (Hb & Hl & Hr). unfold cp, controlPoints. cbv zeta. cbn [cpY].
  unfold pointsY, cells. apply Forall_take.
  constructor; [now apply clamp01_number |].
  apply Forall_app_both.
  - apply List.Forall_forall. intros v Hv. apply in_map_iff in Hv.
    destruct Hv as [i [<- Hi]]. apply in_seq in Hi. apply clamp01_number, Hb. lia.
  - constructor; [now apply clamp01_number | constructor].
Qed.

Lemma ampAt_number (x : Z) :
  numbers bins numBars leftEdge rightEdge -> (numBars + 2 <= MAX_POINTS)%nat ->
  number_within 0 1 (ampAt cp n x).
Proof.
  intros Hnum Hroom. unfold ampAt.
  destruct (evalCurve_number bins numBars leftEdge rightEdge Hnum Hroom (inject_Z x))
    as [v Hv].
  fold cp n in Hv. rewrite Hv. now apply clamp01_number.
Qed.

Lemma curveHeights_numbers :
  numbers bins numBars leftEdge rightEdge -> (numBars + 2 <= MAX_POINTS)%nat ->
  List.Forall (number_within 0 96) (curveHeightsOf cp n).
Proof.
  intros Hnum Hroom. unfold curveHeightsOf. apply List.Forall_forall. intros h Hh.
  apply in_map_iff in Hh. destruct Hh as [x [<- _]].
  pose proof (ampAt_number (Z.of_nat x) Hnum Hroom) as Ha.
  destruct (ampAt cp n (Z.of_nat x)) as [a |]; [| destruct Ha].
  cbn [number_within nmul] in *. change (inject_Z (STRIP_HEIGHT - 4)) with 96. lra.
Qed.

End Inputs.

(** C3.  After a tick every smoothed band is in [0,1].  In
    the renderer, whatever the bins, the edges, the theme and the number
    of bars: every control-point y and every amplitude read off the
    spline is in [0,1] or is [NaN], and every curve height is in [0,96]
    or is [NaN]; they are all numbers when every bin a bar reads and both
    edges are numbers and the points fit the arrays (at most 128 bars).
    A column whose height is [NaN] is not painted.  Every store into the
    pixel buffer lands in the buffer and stores a value in [0,255] (the
    glow rows, after their brightness factor, are capped at 255), and
    the buffer holds bytes. *)
Theorem values_stay_in_range
    (render : list num -> string -> nat -> num -> num -> string)
    (rawBins : list Q) (e : AudioEngine) :
  engine_ok e -> length rawBins = TOTAL_BINS ->
  List.Forall (fun v => 0 <= v <= 1) (smoothedBins (fst (tick render rawBins e)))
  /\ forall (bins : list num) (themeName : string) (numBars : nat) (leftEdge rightEdge : num),
       let cp := controlPoints bins numBars leftEdge rightEdge in
       let n := Z.of_nat (numBars + 2) in
       List.Forall (within 0 1) (cpY cp)
       /\ (forall x, within 0 1 (ampAt cp n x))
       /\ List.Forall (within 0 96) (curveHeightsOf cp n)
       /\ (numbers bins numBars leftEdge rightEdge -> (numBars + 2 <= MAX_POINTS)%nat ->
           List.Forall (number_within 0 1) (cpY cp)
           /\ (forall x, number_within 0 1 (ampAt cp n x))
           /\ List.Forall (number_within 0 96) (curveHeightsOf cp n))
       /\ (forall lut x, paintColumn lut None x = [])
       /\ forall writes,
            pixelWrites bins themeName numBars leftEdge rightEdge = Some writes ->
            List.Forall (fun w => (0 <= fst w < 80000)%Z /\ (0 <= snd w <= 255)%Z) writes
            /\ List.Forall (fun v => (0 <= v <= 255)%Z) (pixelBufferOf writes).
Proof.
  intros Hok Hraw. split.
  - exact (ok_bins _ (tick_ok render rawBins e Hraw Hok)).
  - intros bins themeName numBars leftEdge rightEdge cp n.
    split; [apply pointsY_range |].
    split; [intros x; apply ampAt_range |].
    split; [apply curveHeights_range |].
    split.
    { intros Hnum Hroom. split; [now apply pointsY_numbers |].
      split; [intros x; now apply ampAt_number | now apply curveHeights_numbers]. }
    split; [intros lut x; apply paintColumn_NaN |].
    intros writes Hw.
    split; [exact (pixelWrites_good _ _ _ _ _ _ Hw) | apply pixelBufferOf_bytes].
Qed.

(** What a tick hands the renderer for a dial registered at column 4:
    the five bins and the left edge are read past the end of the smoothed
    bins and are [NaN], and so are control-point y-values, the amplitude
    at pixel column 100 and curve heights: none of them is a number in
    its range. *)
Lemma values_leave_range_at_column_4 :
  let sm := smoothedBins newEngine in
  let bins := fillSlice sm (startBinOf 4) (dialSlice newEngine) in
  let cp := controlPoints bins BARS_PER_DIAL (leftEdgeOf sm 4) (rightEdgeOf sm 4) in
  let n := Z.of_nat (BARS_PER_DIAL + 2) in
  bins = repeat None 5
  /\ leftEdgeOf sm 4 = None
  /\ at_ (cpY cp) 1 = None
  /\ ~ List.Forall (number_within 0 1) (cpY cp)
  /\ ~ number_within 0 1 (ampAt cp n 100)
  /\ ~ List.Forall (number_within 0 96) (curveHeightsOf cp n).
Proof.
  cbv zeta.
  assert (Hb : fillSlice (smoothedBins newEngine) (startBinOf 4) (dialSlice newEngine)
               = repeat None 5) by (vm_compute; reflexivity).
  assert (Hl : leftEdgeOf (smoothedBins newEngine) 4 = None) by (vm_compute; reflexivity).
  rewrite Hb, Hl.
  split; [reflexivity |]. split; [reflexivity |]. split; [vm_compute; reflexivity |].
  split; [| split].
  - intros H. apply List.Forall_forall with (x := None) in H; [exact H |].
    vm_compute. now left.
  - assert (Ha : ampAt (controlPoints (repeat None 5) BARS_PER_DIAL None
                          (rightEdgeOf (smoothedBins newEngine) 4))
                      (Z.of_nat (BARS_PER_DIAL + 2)) 100 = None) by (vm_compute; reflexivity).
    rewrite Ha. intros H. exact H.
  - intros H. apply List.Forall_forall with (x := None) in H; [exact H |].
    vm_compute. now left.
Qed.

Lemma values_stay_in_range_witness :
  engine_ok newEngine /\ length EngineProperties.demoBins = TOTAL_BINS
  /\ List.Forall (fun v => 0 <= v <= 1)
       (smoothedBins (fst (tick EngineProperties.blankFrame EngineProperties.demoBins newEngine)))
  /\ numbers [Some 0; Some 0.2; Some 1; Some 0.4; Some 0.1] 5 (Some 0) (Some 0.3)
  /\ (5 + 2 <= MAX_POINTS)%nat
  /\ List.Forall (number_within 0 96)
       (curveHeightsOf (controlPoints [Some 0; Some 0.2; Some 1; Some 0.4; Some 0.1] 5
                          (Some 0) (Some 0.3)) (Z.of_nat (5 + 2))).
Proof.
  assert (H3 : numbers [Some 0; Some 0.2; Some 1; Some 0.4; Some 0.1] 5 (Some 0) (Some 0.3)).
  { split; [| split; discriminate].
    intros i Hi. do 5 (destruct i as [| i]; [discriminate |]). lia. }
  assert (H4 : (5 + 2 <= MAX_POINTS)%nat) by (unfold MAX_POINTS; lia).
  destruct (values_stay_in_range EngineProperties.blankFrame EngineProperties.demoBins
              newEngine newEngine_ok eq_refl) as [Hbands Hrender].
  destruct (Hrender [Some 0; Some 0.2; Some 1; Some 0.4; Some 0.1] "neon"%string 5%nat
              (Some 0) (Some 0.3)) as (_ & _ & _ & Hn & _).
  destruct (Hn H3 H4) as (_ & _ & Hh).
  split; [exact newEngine_ok |]. split; [reflexivity |]. split; [exact Hbands |].
  split; [exact H3 |]. split; [exact H4 | exact Hh].
Defined.

End RangeProperties.

(** ** The analysis: the butterflies and the first output bin *)
Module FftFacts.
Import JS Wasapi Analysis AnalysisFacts.











(** *** One butterfly *)




(** *** The butterflies of one block and of one stage *)

Section Stage.

Variables wR wI : list Q.
Variable h : nat.











End Stage.








Section Butterflies.

Variables twiddleReal twiddleImag : list (list Q).

Hypothesis twiddle_zero : forall s, (s < 11)%nat ->
  rd (nth s twiddleReal []) 0 == 1 /\ rd (nth s twiddleImag []) 0 == 0.




End Butterflies.


End FftFacts.
